(** * Git repository and worktree orchestration (packages/vscode/src/gitService.ts)

    A shallow embedding of the worktree lifecycle manager, the status
    mapping, the raw status fallback, the merge/rebase conflict
    controller and the identity setter of [gitService.ts], with the
    properties stated about them.

    - Strings are lists of code units, kept in the range U+0000..U+00FF
      ([ascii]); on that range the JavaScript white space class (used by
      [trim] and by [\s]) is TAB, LF, VT, FF, CR, SPACE and NBSP.
    - Everything outside the service (the git subprocess, the file
      system, the clock, the random source, the structured adapter, the
      [path] and [JSON] runtime) is a [Host]; an asynchronous function is
      a function from the host's world to an outcome (a value or a thrown
      message), the next world and the list of events it produced.
    - The statements hold for every host; a scripted host gives the
      concrete cases.

    Layout: the primitives and the service (definitions), the vocabulary
    of the statements, lemmas on strings and on computations, then the
    properties, function by function. *)

From Stdlib Require Import String Ascii ZArith Lia Bool Arith List.
Import ListNotations.

(* ------------------------------------------------------------------ *)
(** ** JavaScript string primitives used by the service *)

Module Js.

Definition str := list ascii.

(** A string literal. *)
Definition lit (s : string) : str := list_ascii_of_string s.

Definition charCode (c : ascii) : nat := nat_of_ascii c.

Definition chr_eqb (a b : ascii) : bool := Ascii.eqb a b.

Fixpoint str_eqb (a b : str) : bool :=
  match a, b with
  | [], [] => true
  | x :: a', y :: b' => chr_eqb x y && str_eqb a' b'
  | _, _ => false
  end.

(** [!value] for a string: only the empty string is falsy. *)
Definition isEmpty (s : str) : bool :=
  match s with [] => true | _ => false end.

(** [a || b] on strings. *)
Definition orElse (a b : str) : str := if isEmpty a then b else a.

(** White space and line terminators below U+0100. *)
Definition isSpace (c : ascii) : bool :=
  let n := charCode c in
  ((9 <=? n) && (n <=? 13)) || (n =? 32) || (n =? 160).

Fixpoint dropWhile (p : ascii -> bool) (s : str) : str :=
  match s with
  | [] => []
  | c :: t => if p c then dropWhile p t else s
  end.

Definition dropWhileEnd (p : ascii -> bool) (s : str) : str :=
  rev (dropWhile p (rev s)).

(** [s.trim()] *)
Definition trim (s : str) : str := dropWhileEnd isSpace (dropWhile isSpace s).

(** [s.startsWith(p)] *)
Fixpoint startsWith (p s : str) : bool :=
  match p, s with
  | [], _ => true
  | x :: p', y :: s' => chr_eqb x y && startsWith p' s'
  | _ :: _, [] => false
  end.

(** [s.substring(n)] and [s.slice(n)] for [0 <= n]. *)
Definition sliceFrom (n : nat) (s : str) : str := skipn n s.

(** [s.slice(0, n)] for [0 <= n]. *)
Definition sliceTo (n : nat) (s : str) : str := firstn n s.

(** [s.replace(/^p/, '')] for a literal [p]. *)
Definition stripPrefix (p s : str) : str :=
  if startsWith p s then sliceFrom (length p) s else s.

(** [s.indexOf(c)] for a one-character needle; [-1] when absent. *)
Fixpoint indexOf (c : ascii) (s : str) : Z :=
  match s with
  | [] => (-1)%Z
  | x :: t =>
      if chr_eqb x c then 0%Z
      else let i := indexOf c t in
           if (i <? 0)%Z then (-1)%Z else (i + 1)%Z
  end.

(** [s.includes(needle)] *)
Fixpoint includes (needle s : str) : bool :=
  startsWith needle s ||
  match s with
  | [] => false
  | _ :: t => includes needle t
  end.

(** [s.split(c)] for a one-character separator: always at least one
    piece. *)
Fixpoint split (c : ascii) (s : str) : list str :=
  match s with
  | [] => [[]]
  | x :: t =>
      match split c t with
      | [] => [[]]                      (* unreachable: split is never empty *)
      | piece :: rest =>
          if chr_eqb x c then [] :: piece :: rest
          else (x :: piece) :: rest
      end
  end.

(** [pieces.join(sep)] *)
Fixpoint join (sep : str) (pieces : list str) : str :=
  match pieces with
  | [] => []
  | [p] => p
  | p :: rest => p ++ sep ++ join sep rest
  end.

(** [s.replace(/[class]+/g, r)]: every maximal run of characters of the
    class is replaced by [r].  [inRun] tells that the previous character
    belonged to the run being replaced. *)
Fixpoint replaceRunsFrom (p : ascii -> bool) (r : str) (inRun : bool) (s : str) : str :=
  match s with
  | [] => []
  | c :: t =>
      if p c then (if inRun then [] else r) ++ replaceRunsFrom p r true t
      else c :: replaceRunsFrom p r false t
  end.

Definition replaceRuns (p : ascii -> bool) (r : str) (s : str) : str :=
  replaceRunsFrom p r false s.

(** [s.replace(/c/g, r)] for a single character [c]. *)
Definition replaceAll (c : ascii) (r : str) (s : str) : str :=
  flat_map (fun x => if chr_eqb x c then r else [x]) s.

(** [s.toLowerCase()] on code units below U+0100. *)
Definition lowerChar (c : ascii) : ascii :=
  let n := charCode c in
  if ((65 <=? n) && (n <=? 90)) || ((192 <=? n) && (n <=? 214)) || ((216 <=? n) && (n <=? 222))
  then ascii_of_nat (n + 32) else c.

Definition toLowerCase (s : str) : str := map lowerChar s.

(** [.filter(Boolean)] on an array of strings. *)
Definition filterNonEmpty (l : list str) : list str :=
  filter (fun s => negb (isEmpty s)) l.

Definition isHyphen (c : ascii) : bool := chr_eqb c "-"%char.
Definition isSlash (c : ascii) : bool := chr_eqb c "/"%char.

End Js.

Import Js.

(* ------------------------------------------------------------------ *)
(** ** Numbers *)

(** A number that [parseInt] gives for a run of decimal digits: the
    integer that the double holds, or [Infinity]. *)
Inductive JsNumber : Type :=
| Finite (value : Z)
| Infinity.

Coercion Finite : Z >-> JsNumber.
Bind Scope Z_scope with JsNumber.

(* ------------------------------------------------------------------ *)
(** ** Status mapping of the structured adapter *)

(** [Status] is the numeric enum of the adapter's [git.d.ts] (not part of
    the sources; the numbering is the one written in [mapStatus]). *)
Definition Status := Z.

Definition statusMap (status : Status) : option str :=
  match status with
  | 0 => Some (lit "M")    (* INDEX_MODIFIED *)
  | 1 => Some (lit "A")    (* INDEX_ADDED *)
  | 2 => Some (lit "D")    (* INDEX_DELETED *)
  | 3 => Some (lit "R")    (* INDEX_RENAMED *)
  | 4 => Some (lit "C")    (* INDEX_COPIED *)
  | 5 => Some (lit "M")    (* MODIFIED *)
  | 6 => Some (lit "D")    (* DELETED *)
  | 7 => Some (lit "?")    (* UNTRACKED *)
  | 8 => Some (lit "!")    (* IGNORED *)
  | 9 => Some (lit "A")    (* INTENT_TO_ADD *)
  | 10 => Some (lit "R")   (* INTENT_TO_RENAME *)
  | 11 => Some (lit "T")   (* TYPE_CHANGED *)
  | 12 => Some (lit "U")   (* ADDED_BY_US *)
  | 13 => Some (lit "U")   (* ADDED_BY_THEM *)
  | 14 => Some (lit "U")   (* DELETED_BY_US *)
  | 15 => Some (lit "U")   (* DELETED_BY_THEM *)
  | 16 => Some (lit "U")   (* BOTH_ADDED *)
  | 17 => Some (lit "U")   (* BOTH_DELETED *)
  | 18 => Some (lit "U")   (* BOTH_MODIFIED *)
  | _ => None
  end%Z.

(** [statusMap[status] || ' '] *)
Definition mapStatus (status : Status) : str :=
  match statusMap status with
  | Some s => orElse s (lit " ")
  | None => lit " "
  end.

(* ------------------------------------------------------------------ *)
(** ** Worktree names *)

Definition isSlugChar (c : ascii) : bool :=
  let n := charCode c in
  ((65 <=? n) && (n <=? 90)) || ((97 <=? n) && (n <=? 122)) ||
  ((48 <=? n) && (n <=? 57)) ||
  chr_eqb c "."%char || chr_eqb c "_"%char || chr_eqb c "-"%char.

Definition slugWorktreeName (value : str) : str :=
  let s := trim value in
  let s := stripPrefix (lit "refs/heads/") s in
  let s := stripPrefix (lit "heads/") s in
  let s := replaceRuns isSpace (lit "-") s in                 (* /\s+/g *)
  let s := dropWhileEnd isSlash (dropWhile isSlash s) in      (* /^\/+|\/+$/g *)
  let s := join (lit "-") (split "/"%char s) in
  let s := replaceRuns (fun c => negb (isSlugChar c)) (lit "-") s in
  let s := replaceRuns isHyphen (lit "-") s in                (* /-+/g *)
  let s := dropWhile isHyphen s in                            (* /^-+/ *)
  let s := dropWhileEnd isHyphen s in                         (* /-+$/ *)
  sliceTo 80 s.

(** [cleanBranchName] *)
Definition cleanBranchName (branch : str) : str :=
  if isEmpty branch then branch
  else if startsWith (lit "refs/heads/") branch then sliceFrom 11 branch
  else if startsWith (lit "heads/") branch then sliceFrom 6 branch
  else if startsWith (lit "refs/") branch then sliceFrom 5 branch
  else branch.

(** [normalizeStartRef]; an absent value is [None]. *)
Definition optStr (v : option str) : str :=
  match v with Some s => s | None => [] end.

Definition normalizeStartRef (value : option str) : str :=
  let trimmed := trim (optStr value) in
  orElse trimmed (lit "HEAD").

Record RemoteBranchRef := {
  remote : str;
  branch : str;
  remoteRef : str;
  fullRef : str
}.

(** The part of [parseRemoteBranchRef] shared by its two returning
    branches: split [rest] at its first slash. *)
Definition splitRemoteRef (rest : str) : option RemoteBranchRef :=
  let slashIndex := indexOf "/"%char rest in
  if (slashIndex <=? 0)%Z || (slashIndex =? Z.of_nat (length rest) - 1)%Z then None
  else Some {| remote := sliceTo (Z.to_nat slashIndex) rest;
               branch := sliceFrom (Z.to_nat slashIndex + 1) rest;
               remoteRef := rest;
               fullRef := lit "refs/remotes/" ++ rest |}.

(** [parseRemoteBranchRef] calls itself once, on ["refs/" + trimmed], when
    the input starts with ["remotes/"]; the recursion is bounded by
    [fuel], and the outer [None] means that the bound was reached. *)
Fixpoint parseRemoteBranchRefN (fuel : nat) (value : str) : option (option RemoteBranchRef) :=
  match fuel with
  | O => None
  | S fuel' =>
      let trimmed := trim value in
      if isEmpty trimmed then Some None
      else if startsWith (lit "refs/remotes/") trimmed then
        Some (splitRemoteRef (sliceFrom 13 trimmed))
      else if startsWith (lit "remotes/") trimmed then
        parseRemoteBranchRefN fuel' (lit "refs/" ++ trimmed)
      else Some (splitRemoteRef trimmed)
  end.

(** Two levels always suffice ([parseRemoteBranchRefN_enough]). *)
Definition parseRemoteBranchRef (value : str) : option RemoteBranchRef :=
  match parseRemoteBranchRefN 2 value with
  | Some r => r
  | None => None
  end.

Definition normalizeUpstreamTarget (remoteName branchName : option str)
  : option (str * str * str) :=
  let r := trim (optStr remoteName) in
  let b := trim (optStr branchName) in
  if isEmpty r || isEmpty b then None
  else Some (r, b, r ++ lit "/" ++ b).

(** *** [git worktree list --porcelain] *)

Record WorktreeListEntry := {
  worktree : str;
  head : option str;
  branchRef : option str;
  entryBranch : option str
}.

Definition pushCurrent (entries : list WorktreeListEntry) (current : option WorktreeListEntry)
  : list WorktreeListEntry :=
  match current with
  | Some e => if isEmpty (worktree e) then entries else entries ++ [e]
  | None => entries
  end.

(** One iteration of the line loop of [parseWorktreePorcelain]. *)
Definition porcelainStep (st : list WorktreeListEntry * option WorktreeListEntry) (line : str)
  : list WorktreeListEntry * option WorktreeListEntry :=
  let '(entries, current) := st in
  if isEmpty line then (pushCurrent entries current, None)
  else if startsWith (lit "worktree ") line then
    (pushCurrent entries current,
     Some {| worktree := trim (sliceFrom 9 line); head := None;
             branchRef := None; entryBranch := None |})
  else match current with
       | None => (entries, None)
       | Some e =>
           if startsWith (lit "HEAD ") line then
             (entries, Some {| worktree := worktree e; head := Some (trim (sliceFrom 5 line));
                               branchRef := branchRef e; entryBranch := entryBranch e |})
           else if startsWith (lit "branch ") line then
             let ref := trim (sliceFrom 7 line) in
             (entries, Some {| worktree := worktree e; head := head e;
                               branchRef := Some ref;
                               entryBranch := Some (cleanBranchName ref) |})
           else (entries, Some e)
       end.

Definition parseWorktreePorcelain (raw : str) : list WorktreeListEntry :=
  let lines := map trim (split (ascii_of_nat 10) raw) in
  let '(entries, current) := fold_left porcelainStep lines ([], None) in
  pushCurrent entries current.

(** *** Candidate names *)

Definition OPENCODE_ADJECTIVES : list str := map lit
  [ "brave"; "calm"; "clever"; "cosmic"; "crisp"; "curious"; "eager"; "gentle"; "glowing"; "happy";
    "hidden"; "jolly"; "kind"; "lucky"; "mighty"; "misty"; "neon"; "nimble"; "playful"; "proud";
    "quick"; "quiet"; "shiny"; "silent"; "stellar"; "sunny"; "swift"; "tidy"; "witty" ]%string.

Definition OPENCODE_NOUNS : list str := map lit
  [ "cabin"; "cactus"; "canyon"; "circuit"; "comet"; "eagle"; "engine"; "falcon"; "forest"; "garden";
    "harbor"; "island"; "knight"; "lagoon"; "meadow"; "moon"; "mountain"; "nebula"; "orchid"; "otter";
    "panda"; "pixel"; "planet"; "river"; "rocket"; "sailor"; "squid"; "star"; "tiger"; "wizard"; "wolf" ]%string.

Definition OPENCODE_WORKTREE_ATTEMPTS : nat := 26.

(* ------------------------------------------------------------------ *)
(** ** The host: subprocess, file system, runtime *)

(** A promise either resolves with a value or rejects with an [Error]
    carrying a message. *)
Inductive Outcome (A : Type) : Type :=
| Ok (value : A)
| Throw (message : str).
Arguments Ok {A} value.
Arguments Throw {A} message.

Record ExecResult := {
  stdout : str;
  stderr : str;
  exitCode : Z
}.

(** The project record of the metadata store, [extra] standing for the
    members of the stored object that the service does not touch (the
    spread [{...base, ...parsed}] keeps them). *)
Record Project := {
  id : str;
  projectWorktree : str;
  vcs : str;
  sandboxes : list str;
  timeCreated : Z;
  timeUpdated : Z;
  extra : str
}.

(** What [JSON.parse] found in a stored record when it is an object,
    member by member; [None] is an absent or falsy member ([parsedSandboxes]: not an array;
    [parsedCreated]: [Number(time.created)] not finite or not positive).
    The entries of [parsedSandboxes] are [String(entry || '')]. *)
Record ParsedProject := {
  parsedId : option str;
  parsedWorktree : option str;
  parsedVcs : option str;
  parsedSandboxes : option (list str);
  parsedCreated : option Z;
  parsedExtra : str
}.

(** Everything outside the service.  The stateful members take the world
    and return the next one.  [execGit] is the process executor (it never
    rejects: a spawn failure is exit code 1); the [fs_] members are
    [fs.promises]; [random] is the source behind [Math.random];
    [getRepository] and [repo_setConfig] are the structured adapter. *)
Record Host := {
  World : Type;
  Repository : Type;
  execGit : list str -> str -> World -> ExecResult * World;
  fs_readFile : str -> World -> Outcome str * World;
  fs_writeFile : str -> str -> World -> Outcome unit * World;
  fs_mkdir : str -> World -> Outcome unit * World;
  fs_stat : str -> World -> Outcome unit * World;
  fs_rm : str -> World -> Outcome unit * World;
  fs_realpath : str -> World -> Outcome str * World;
  random : World -> nat * World;
  date_now : World -> Z * World;
  getRepository : str -> World -> option Repository * World;
  repo_setConfig : Repository -> str -> str -> World -> Outcome unit * World;
  (* pure runtime *)
  platform_win32 : bool;
  os_homedir : str;
  env_XDG_DATA_HOME : str;
  path_join : list str -> str;
  path_resolve : list str -> str;
  path_dirname : str -> str;
  path_normalize : str -> str;
  sort_localeCompare : list str -> list str;
  JSON_parse_project : str -> option ParsedProject;
  JSON_stringify_project : Project -> str
}.

(** What a call did to the outside, in order. *)
Inductive Event : Type :=
| EvExecGit (args : list str) (cwd : str)
| EvReadFile (path : str)
| EvWriteFile (path content : str)
| EvMkdir (path : str)
| EvStat (path : str)
| EvRm (path : str)
| EvRealpath (path : str)
| EvRandom
| EvDateNow
| EvGetRepository (directory : str)
| EvSetConfig (key value : str)
| EvWarn (text : str)
| EvQueueStartScripts (directory projectID : str) (startCommand : option str).

Section Service.

Variable host : Host.

(** An asynchronous computation: from a world to an outcome, the next
    world and the events it produced. *)
Definition M (A : Type) : Type := World host -> Outcome A * World host * list Event.

Definition ret {A} (a : A) : M A := fun w => (Ok a, w, []).

Definition throw {A} (message : str) : M A := fun w => (Throw message, w, []).

Definition bind {A B} (m : M A) (k : A -> M B) : M B :=
  fun w =>
    let '(r, w1, t1) := m w in
    match r with
    | Ok a => let '(r2, w2, t2) := k a w1 in (r2, w2, t1 ++ t2)
    | Throw e => (Throw e, w1, t1)
    end.

(** [try { m } catch (error) { handler(error.message) }] *)
Definition tryCatch {A} (m : M A) (handler : str -> M A) : M A :=
  fun w =>
    let '(r, w1, t1) := m w in
    match r with
    | Ok a => (Ok a, w1, t1)
    | Throw e => let '(r2, w2, t2) := handler e w1 in (r2, w2, t1 ++ t2)
    end.

Definition perform {A} (f : World host -> A * World host) (ev : Event) : M A :=
  fun w => let '(a, w1) := f w in (Ok a, w1, [ev]).

Definition performOutcome {A} (f : World host -> Outcome A * World host) (ev : Event) : M A :=
  fun w => let '(r, w1) := f w in (r, w1, [ev]).

Definition emit (ev : Event) : M unit := fun w => (Ok tt, w, [ev]).

Notation "x <- m ;; k" := (bind m (fun x => k))
  (at level 61, m at next level, right associativity).
Notation "m ;;; k" := (bind m (fun _ => k))
  (at level 61, right associativity).

(** [promise.catch(() => fallback)] *)
Definition orOnReject {A} (m : M A) (fallback : A) : M A :=
  tryCatch m (fun _ => ret fallback).

(** *** Process executor and git commands *)

Definition doExecGit (args : list str) (cwd : str) : M ExecResult :=
  perform (execGit host args cwd) (EvExecGit args cwd).

Record GitCommandResult := {
  success : bool;
  cmdExitCode : Z;
  cmdStdout : str;
  cmdStderr : str;
  cmdMessage : str
}.

Definition newline : str := [ascii_of_nat 10].

Definition runGitCommand (cwd : str) (args : list str) : M GitCommandResult :=
  result <- doExecGit args cwd ;;
  let message :=
    trim (join newline (filterNonEmpty (map trim [stderr result; stdout result]))) in
  ret {| success := (exitCode result =? 0)%Z;
         cmdExitCode := exitCode result;
         cmdStdout := stdout result;
         cmdStderr := stderr result;
         cmdMessage := message |}.

Definition runGitCommandOrThrow (cwd : str) (args : list str) (fallbackMessage : str)
  : M GitCommandResult :=
  result <- runGitCommand cwd args ;;
  if negb (success result)
  then throw (orElse (cmdMessage result) (orElse fallbackMessage (lit "Git command failed")))
  else ret result.

(** *** File system helpers *)

Definition readFile (p : str) : M str := performOutcome (fs_readFile host p) (EvReadFile p).
Definition writeFile (p content : str) : M unit :=
  performOutcome (fs_writeFile host p content) (EvWriteFile p content).
Definition mkdir (p : str) : M unit := performOutcome (fs_mkdir host p) (EvMkdir p).
Definition stat (p : str) : M unit := performOutcome (fs_stat host p) (EvStat p).
Definition rm (p : str) : M unit := performOutcome (fs_rm host p) (EvRm p).
Definition realpath (p : str) : M str := performOutcome (fs_realpath host p) (EvRealpath p).
Definition warn (text : str) : M unit := emit (EvWarn text).

Definition canonicalPath (input : str) : M str :=
  let absolutePath := path_resolve host [input] in
  realPath <- orOnReject (realpath absolutePath) absolutePath ;;
  let normalized := path_normalize host realPath in
  ret (if platform_win32 host then toLowerCase normalized else normalized).

Definition checkPathExists (targetPath : str) : M bool :=
  tryCatch (stat targetPath ;;; ret true) (fun _ => ret false).

Definition getOpenCodeDataPath : str :=
  let xdgDataHome :=
    orElse (env_XDG_DATA_HOME host) (path_join host [os_homedir host; lit ".local"; lit "share"]) in
  path_join host [xdgDataHome; lit "opencode"].

(** [normalizeDirectoryPath] *)
Definition normalizeDirectoryPath (value : str) : str :=
  let trimmed := trim value in
  if isEmpty trimmed then trimmed
  else if str_eqb trimmed (lit "~") then os_homedir host
  else if startsWith (lit "~/") trimmed || startsWith (lit "~\") trimmed
       then path_join host [os_homedir host; sliceFrom 2 trimmed]
  else trimmed.


(** *** Project context *)

Definition ensureOpenCodeProjectId (primaryWorktree : str) : M str :=
  let gitDir := path_join host [primaryWorktree; lit ".git"] in
  let idFile := path_join host [gitDir; lit "opencode"] in
  existing <- tryCatch (value <- readFile idFile ;; ret (trim value)) (fun _ => ret []) ;;
  if negb (isEmpty existing) then ret existing
  else
    rootsResult <- runGitCommandOrThrow primaryWorktree
                     (map lit ["rev-list"; "--max-parents=0"; "--all"]%string)
                     (lit "Failed to resolve repository roots") ;;
    let roots :=
      sort_localeCompare host
        (filterNonEmpty (map trim (split (ascii_of_nat 10) (cmdStdout rootsResult)))) in
    let projectId := match roots with r :: _ => r | [] => [] end in
    if isEmpty projectId then throw (lit "Failed to derive OpenCode project ID")
    else
      orOnReject (mkdir gitDir) tt ;;;
      orOnReject (writeFile idFile projectId) tt ;;;
      ret projectId.

Record ProjectContext := {
  projectID : str;
  sandbox : str;
  primaryWorktree : str;
  worktreeRoot : str
}.

Definition resolveWorktreeProjectContext (directory : str) : M ProjectContext :=
  let directoryPath := normalizeDirectoryPath directory in
  if isEmpty directoryPath then throw (lit "Directory is required")
  else
    topResult <- runGitCommandOrThrow directoryPath
                   (map lit ["rev-parse"; "--show-toplevel"]%string)
                   (lit "Failed to resolve git top-level directory") ;;
    let sandbox := path_resolve host [directoryPath; trim (cmdStdout topResult)] in
    commonResult <- runGitCommandOrThrow sandbox
                      (map lit ["rev-parse"; "--git-common-dir"]%string)
                      (lit "Failed to resolve git common directory") ;;
    let commonDir := path_resolve host [sandbox; trim (cmdStdout commonResult)] in
    let primaryWorktree := path_dirname host commonDir in
    projectID <- ensureOpenCodeProjectId primaryWorktree ;;
    let worktreeRoot := path_join host [getOpenCodeDataPath; lit "worktree"; projectID] in
    ret {| projectID := projectID; sandbox := sandbox;
           primaryWorktree := primaryWorktree; worktreeRoot := worktreeRoot |}.

Definition listWorktreeEntries (directory : str) : M (list WorktreeListEntry) :=
  rawResult <- runGitCommandOrThrow directory
                 (map lit ["worktree"; "list"; "--porcelain"]%string)
                 (lit "Failed to list git worktrees") ;;
  ret (parseWorktreePorcelain (cmdStdout rawResult)).

(** *** Candidate names and directories *)

(** [values[Math.floor(Math.random() * values.length)]]: the random source
    yields a natural number, brought into the range of the list. *)
Definition pickRandom (values : list str) : M str :=
  i <- perform (random host) EvRandom ;;
  ret (nth (i mod length values) values []).

Definition generateOpenCodeRandomName : M str :=
  adjective <- pickRandom OPENCODE_ADJECTIVES ;;
  noun <- pickRandom OPENCODE_NOUNS ;;
  ret (adjective ++ lit "-" ++ noun).

(** [Array.from({ length }, (_, index) => f(index))], from index [from]. *)
Fixpoint arrayFrom {A} (count from : nat) (f : nat -> M A) : M (list A) :=
  match count with
  | O => ret []
  | S count' =>
      x <- f from ;;
      rest <- arrayFrom count' (S from) f ;;
      ret (x :: rest)
  end.

Definition resolveWorktreeNameCandidates (baseName : str) : M (list str) :=
  let normalizedBase := slugWorktreeName baseName in
  if isEmpty normalizedBase
  then arrayFrom OPENCODE_WORKTREE_ATTEMPTS 0 (fun _ => generateOpenCodeRandomName)
  else arrayFrom OPENCODE_WORKTREE_ATTEMPTS 0
         (fun index =>
            match index with
            | O => ret normalizedBase
            | S _ => suffix <- generateOpenCodeRandomName ;;
                     ret (normalizedBase ++ lit "-" ++ suffix)
            end).

Record Candidate := {
  candName : str;
  candDirectory : str;
  candBranch : str
}.

Definition showRefArgs (ref : str) : list str :=
  map lit ["show-ref"; "--verify"; "--quiet"]%string ++ [ref].

(** The [for (const name of candidates)] loop of
    [resolveCandidateDirectory]. *)
Fixpoint tryCandidates (worktreeRoot explicitBranchName primaryWorktree : str)
    (candidates : list str) : M Candidate :=
  match candidates with
  | [] => throw (lit "Failed to generate a unique worktree name")
  | name :: rest =>
      let directory := path_join host [worktreeRoot; name] in
      taken <- checkPathExists directory ;;
      if taken : bool then tryCandidates worktreeRoot explicitBranchName primaryWorktree rest
      else if negb (isEmpty explicitBranchName)
      then ret {| candName := name; candDirectory := directory; candBranch := explicitBranchName |}
      else
        let branch := lit "openchamber/" ++ name in
        let branchRef := lit "refs/heads/" ++ branch in
        branchExists <- runGitCommand primaryWorktree (showRefArgs branchRef) ;;
        if success branchExists
        then tryCandidates worktreeRoot explicitBranchName primaryWorktree rest
        else ret {| candName := name; candDirectory := directory; candBranch := branch |}
  end.

Definition resolveCandidateDirectory
    (worktreeRoot preferredName explicitBranchName primaryWorktree : str) : M Candidate :=
  candidates <- resolveWorktreeNameCandidates preferredName ;;
  tryCandidates worktreeRoot explicitBranchName primaryWorktree candidates.

(** *** Branch resolution *)

Definition fetchRemoteBranchRef (primaryWorktree remoteName branchName : str) : M unit :=
  let remote := trim remoteName in
  let branch := trim branchName in
  if isEmpty remote || isEmpty branch then ret tt
  else
    let refspec := lit "+refs/heads/" ++ branch ++ lit ":refs/remotes/" ++ remote ++ lit "/" ++ branch in
    runGitCommandOrThrow primaryWorktree [lit "fetch"; remote; refspec]
      (lit "Failed to fetch " ++ remote ++ lit "/" ++ branch) ;;;
    ret tt.

Record ResolvedBranch := {
  localBranch : str;
  checkoutRef : str;
  createLocalBranch : bool;
  resolvedRemoteRef : option RemoteBranchRef
}.

Definition resolveBranchForExistingMode
    (primaryWorktree existingBranch preferredBranchName : str) : M ResolvedBranch :=
  let requested := trim existingBranch in
  if isEmpty requested then throw (lit "existingBranch is required in existing mode")
  else
    let normalizedLocal := cleanBranchName requested in
    let localRef := lit "refs/heads/" ++ normalizedLocal in
    localExists <- runGitCommand primaryWorktree (showRefArgs localRef) ;;
    if success localExists
    then ret {| localBranch := normalizedLocal; checkoutRef := normalizedLocal;
                createLocalBranch := false; resolvedRemoteRef := None |}
    else
      match parseRemoteBranchRef requested with
      | None => throw (lit "Branch not found: " ++ requested)
      | Some ref =>
          remoteExists <- runGitCommand primaryWorktree (showRefArgs (fullRef ref)) ;;
          (if negb (success remoteExists)
           then
             orOnReject (fetchRemoteBranchRef primaryWorktree (remote ref) (branch ref)) tt ;;;
             recheck <- runGitCommand primaryWorktree (showRefArgs (fullRef ref)) ;;
             if negb (success recheck)
             then throw (lit "Remote branch not found: " ++ requested)
             else ret tt
           else ret tt) ;;;
          let localBranch :=
            cleanBranchName (orElse preferredBranchName (orElse (branch ref) requested)) in
          if isEmpty localBranch
          then throw (lit "Failed to resolve local branch name for existing branch worktree")
          else ret {| localBranch := localBranch; checkoutRef := remoteRef ref;
                      createLocalBranch := true; resolvedRemoteRef := Some ref |}
      end.

(** The predicate of [entries.find] in [findBranchInUse]. *)
Definition entryUsesBranch (targetRef targetClean : str) (entry : WorktreeListEntry) : bool :=
  let entryRef := trim (optStr (branchRef entry)) in
  let entryClean := cleanBranchName (orElse entryRef (optStr (entryBranch entry))) in
  str_eqb entryRef targetRef || str_eqb entryClean targetClean.

Definition findBranchInUse (primaryWorktree localBranchName : str)
  : M (option WorktreeListEntry) :=
  if isEmpty localBranchName then ret None
  else
    entries <- listWorktreeEntries primaryWorktree ;;
    let targetRef := lit "refs/heads/" ++ localBranchName in
    let targetClean := cleanBranchName targetRef in
    ret (find (entryUsesBranch targetRef targetClean) entries).

(** *** Project metadata store *)

Definition getProjectStoragePath (projectID : str) : str :=
  path_join host [getOpenCodeDataPath; lit "storage"; lit "project"; projectID ++ lit ".json"].

Definition normalizeSandboxes (entries : list str) : list str :=
  filterNonEmpty (map trim entries).

(** [[...new Set(entries)]]: the first occurrence of each entry, in order. *)
Fixpoint dedupe (seen entries : list str) : list str :=
  match entries with
  | [] => []
  | e :: rest =>
      if existsb (str_eqb e) seen then dedupe seen rest
      else e :: dedupe (e :: seen) rest
  end.

(** The record before the update: the defaults, overridden by what was
    parsed from the store, with its members normalized. *)
Definition currentProject (projectID primaryWorktree : str) (now : Z)
    (parsed : option ParsedProject) : Project :=
  match parsed with
  | Some p =>
      {| id := match parsedId p with Some v => v | None => projectID end;
         projectWorktree := match parsedWorktree p with Some v => v | None => primaryWorktree end;
         vcs := match parsedVcs p with Some v => v | None => lit "git" end;
         sandboxes := match parsedSandboxes p with
                      | Some l => normalizeSandboxes l
                      | None => []
                      end;
         timeCreated := match parsedCreated p with Some c => c | None => now end;
         timeUpdated := now;
         extra := parsedExtra p |}
  | None =>
      {| id := projectID;
         projectWorktree := primaryWorktree;
         vcs := lit "git";
         sandboxes := [];
         timeCreated := now;
         timeUpdated := now;
         extra := [] |}
  end.

(** The record as it is written: its sandboxes normalized once more and
    de-duplicated. *)
Definition finalizeProject (updated : Project) : Project :=
  {| id := id updated; projectWorktree := projectWorktree updated; vcs := vcs updated;
     sandboxes := dedupe [] (normalizeSandboxes (sandboxes updated));
     timeCreated := timeCreated updated; timeUpdated := timeUpdated updated;
     extra := extra updated |}.

Definition updateProjectSandboxes (projectID primaryWorktree : str)
    (updater : Project -> Project) : M unit :=
  let storagePath := getProjectStoragePath projectID in
  mkdir (path_dirname host storagePath) ;;;
  now <- perform (date_now host) EvDateNow ;;
  parsed <- tryCatch (raw <- readFile storagePath ;; ret (JSON_parse_project host raw))
                     (fun _ => ret None) ;;
  let current := currentProject projectID primaryWorktree now parsed in
  let updated := updater current in
  writeFile storagePath (JSON_stringify_project host (finalizeProject updated) ++ newline).

Definition withSandboxes (project : Project) (l : list str) : Project :=
  {| id := id project; projectWorktree := projectWorktree project; vcs := vcs project;
     sandboxes := l;
     timeCreated := timeCreated project; timeUpdated := timeUpdated project;
     extra := extra project |}.

Definition syncProjectSandboxAdd (projectID primaryWorktree sandboxPath : str) : M unit :=
  let sandbox := trim sandboxPath in
  if isEmpty sandbox then ret tt
  else updateProjectSandboxes projectID primaryWorktree
         (fun project =>
            if existsb (str_eqb sandbox) (sandboxes project) then project
            else withSandboxes project (sandboxes project ++ [sandbox])).

Definition syncProjectSandboxRemove (projectID primaryWorktree sandboxPath : str) : M unit :=
  let sandbox := trim sandboxPath in
  if isEmpty sandbox then ret tt
  else updateProjectSandboxes projectID primaryWorktree
         (fun project =>
            withSandboxes project
              (filter (fun entry => negb (str_eqb entry sandbox)) (sandboxes project))).

(** *** Remotes and upstream configuration *)

Definition ensureRemoteWithUrl (primaryWorktree remoteName remoteUrl : str) : M unit :=
  let name := trim remoteName in
  let url := trim remoteUrl in
  if isEmpty name || isEmpty url then ret tt
  else
    getUrl <- runGitCommand primaryWorktree [lit "remote"; lit "get-url"; name] ;;
    if success getUrl
    then
      let currentUrl := trim (cmdStdout getUrl) in
      if negb (str_eqb currentUrl url)
      then runGitCommandOrThrow primaryWorktree [lit "remote"; lit "set-url"; name; url]
             (lit "Failed to update git remote URL") ;;; ret tt
      else ret tt
    else
      runGitCommandOrThrow primaryWorktree [lit "remote"; lit "add"; name; url]
        (lit "Failed to add git remote") ;;; ret tt.

Record RemoteCheck := {
  checkSuccess : bool;
  found : bool
}.

Definition checkRemoteBranchExists (primaryWorktree remoteName branchName remoteUrl : str)
  : M RemoteCheck :=
  let remote := trim remoteName in
  let branch := trim branchName in
  let url := trim remoteUrl in
  if isEmpty remote || isEmpty branch
  then ret {| checkSuccess := false; found := false |}
  else
    let target := orElse url remote in
    lsRemote <- runGitCommand primaryWorktree
                  [lit "ls-remote"; lit "--heads"; target; lit "refs/heads/" ++ branch] ;;
    if negb (success lsRemote)
    then ret {| checkSuccess := false; found := false |}
    else ret {| checkSuccess := true; found := negb (isEmpty (trim (cmdStdout lsRemote))) |}.

Definition setBranchTrackingFallback (worktreeDirectory localBranch upstreamRemote upstreamBranch : str)
  : M unit :=
  runGitCommandOrThrow worktreeDirectory
    [lit "config"; lit "branch." ++ localBranch ++ lit ".remote"; upstreamRemote]
    (lit "Failed to set branch." ++ localBranch ++ lit ".remote") ;;;
  runGitCommandOrThrow worktreeDirectory
    [lit "config"; lit "branch." ++ localBranch ++ lit ".merge"; lit "refs/heads/" ++ upstreamBranch]
    (lit "Failed to set branch." ++ localBranch ++ lit ".merge") ;;;
  ret tt.

Definition applyUpstreamConfiguration
    (primaryWorktree worktreeDirectory localBranch : str) (setUpstream : bool)
    (upstreamRemote upstreamBranch ensureRemoteName ensureRemoteUrl : str) : M unit :=
  if negb setUpstream then ret tt
  else
    (if negb (isEmpty ensureRemoteName) && negb (isEmpty ensureRemoteUrl)
     then ensureRemoteWithUrl primaryWorktree ensureRemoteName ensureRemoteUrl
     else ret tt) ;;;
    match normalizeUpstreamTarget (Some upstreamRemote) (Some upstreamBranch) with
    | None => ret tt
    | Some (upRemote, upBranch, upFull) =>
        if isEmpty localBranch then ret tt
        else
          fetched <- tryCatch (fetchRemoteBranchRef primaryWorktree upRemote upBranch ;;; ret true)
                              (fun _ => ret false) ;;
          if fetched : bool
          then runGitCommandOrThrow worktreeDirectory
                 [lit "branch"; lit "--set-upstream-to=" ++ upFull; localBranch]
                 (lit "Failed to set upstream to " ++ upFull) ;;; ret tt
          else setBranchTrackingFallback worktreeDirectory localBranch upRemote upBranch
    end.

(** *** Validation *)

Inductive Mode := ModeNew | ModeExisting.

Record CreateGitWorktreePayload := {
  mode : option Mode;
  worktreeName : option str;
  name : option str;
  branchName : option str;
  existingBranch : option str;
  startRef : option str;
  startCommand : option str;
  setUpstream : option bool;
  upstreamRemote : option str;
  upstreamBranch : option str;
  ensureRemoteName : option str;
  ensureRemoteUrl : option str
}.

Record GitWorktreeValidationError := {
  code : str;
  message : str
}.

Record GitWorktreeValidationResult := {
  ok : bool;
  errors : list GitWorktreeValidationError;
  resolved : option (Mode * option str)
}.

Definition mkError (c : string) (m : str) : GitWorktreeValidationError :=
  {| code := lit c; message := m |}.

Definition payloadMode (input : CreateGitWorktreePayload) : Mode :=
  match mode input with Some ModeExisting => ModeExisting | _ => ModeNew end.

Definition truthy (s : str) : bool := negb (isEmpty s).

(** The [existing] branch of the validation, inside its own [try]: the
    local branch and the inferred upstream it assigns. *)
Definition validateExisting (context : ProjectContext) (input : CreateGitWorktreePayload)
    (preferredBranchName ensureRemoteName ensureRemoteUrl : str)
  : M (str * option (str * str)) :=
  let requestedExistingBranch := trim (optStr (existingBranch input)) in
  let parsedExistingRemote := parseRemoteBranchRef requestedExistingBranch in
  match parsedExistingRemote with
  | Some parsed =>
      if truthy ensureRemoteName && truthy ensureRemoteUrl && str_eqb ensureRemoteName (remote parsed)
      then
        lsRemote <- runGitCommand (primaryWorktree context)
                      [lit "ls-remote"; lit "--heads"; ensureRemoteUrl; lit "refs/heads/" ++ branch parsed] ;;
        if negb (success lsRemote)
        then throw (lit "Unable to query remote " ++ ensureRemoteName)
        else if isEmpty (trim (cmdStdout lsRemote))
        then throw (lit "Remote branch not found: " ++ remoteRef parsed)
        else ret (cleanBranchName (orElse preferredBranchName (branch parsed)),
                  Some (remote parsed, branch parsed))
      else
        resolvedBranch <- resolveBranchForExistingMode (primaryWorktree context)
                            requestedExistingBranch preferredBranchName ;;
        ret (localBranch resolvedBranch,
             match resolvedRemoteRef resolvedBranch with
             | Some r => Some (remote r, branch r)
             | None => None
             end)
  | None =>
      resolvedBranch <- resolveBranchForExistingMode (primaryWorktree context)
                          requestedExistingBranch preferredBranchName ;;
      ret (localBranch resolvedBranch,
           match resolvedRemoteRef resolvedBranch with
           | Some r => Some (remote r, branch r)
           | None => None
           end)
  end.

Definition remoteCheckErrors (check : RemoteCheck) (remoteLabel remoteRefLabel : str)
  : list GitWorktreeValidationError :=
  if negb (checkSuccess check)
  then [mkError "remote_unreachable" (lit "Unable to query remote " ++ remoteLabel)]
  else if negb (found check)
  then [mkError "start_ref_not_found" (lit "Remote branch not found: " ++ remoteRefLabel)]
  else [].

(** The check of the start ref in [new] mode. *)
Definition validateStartRef (context : ProjectContext)
    (startRef ensureRemoteName ensureRemoteUrl : str)
    (parsedRemoteRef : option RemoteBranchRef) : M (list GitWorktreeValidationError) :=
  if truthy startRef && negb (str_eqb startRef (lit "HEAD"))
  then
    match parsedRemoteRef with
    | Some parsed =>
        if truthy ensureRemoteName && truthy ensureRemoteUrl
           && str_eqb ensureRemoteName (remote parsed)
        then
          remoteCheck <- checkRemoteBranchExists (primaryWorktree context)
                           (remote parsed) (branch parsed) ensureRemoteUrl ;;
          ret (remoteCheckErrors remoteCheck ensureRemoteName (remoteRef parsed))
        else
          remoteCheck <- checkRemoteBranchExists (primaryWorktree context)
                           (remote parsed) (branch parsed) [] ;;
          ret (remoteCheckErrors remoteCheck (remote parsed) (remoteRef parsed))
    | None =>
        startRefExists <- runGitCommand (primaryWorktree context)
                            [lit "rev-parse"; lit "--verify"; lit "--quiet"; startRef] ;;
        ret (if negb (success startRefExists)
             then [mkError "start_ref_not_found" (lit "Start ref not found: " ++ startRef)]
             else [])
    end
  else ret [].

(** The [new] branch of the validation: its errors, the local branch and
    the inferred upstream. *)
Definition validateNew (context : ProjectContext)
    (preferredBranchName startRef ensureRemoteName ensureRemoteUrl : str)
  : M (list GitWorktreeValidationError * str * option (str * str)) :=
  branchPart <-
    (if truthy preferredBranchName
     then
       exists_ <- runGitCommand (primaryWorktree context)
                    (showRefArgs (lit "refs/heads/" ++ preferredBranchName)) ;;
       ret (if success exists_
            then [mkError "branch_exists" (lit "Branch already exists: " ++ preferredBranchName)]
            else [],
            preferredBranchName)
     else ret ([], [])) ;;
  let '(errors1, localBranch) := branchPart in
  let parsedRemoteRef := parseRemoteBranchRef startRef in
  errors2 <- validateStartRef context startRef ensureRemoteName ensureRemoteUrl parsedRemoteRef ;;
  ret (errors1 ++ errors2, localBranch,
       match parsedRemoteRef with
       | Some parsed => Some (remote parsed, branch parsed)
       | None => None
       end).

Definition optBool (b : option bool) : bool :=
  match b with Some true => true | _ => false end.

(** [if (localBranch) { ... branch_in_use ... }] *)
Definition validateInUse (context : ProjectContext) (localBranch : str)
  : M (list GitWorktreeValidationError) :=
  if truthy localBranch
  then
    inUse <- findBranchInUse (primaryWorktree context) localBranch ;;
    ret (match inUse with
         | Some entry =>
             [mkError "branch_in_use" (lit "Branch is already checked out in " ++ worktree entry)]
         | None => []
         end)
  else ret [].

(** The paired-remote-config check. *)
Definition remoteConfigErrors (ensureRemoteName ensureRemoteUrl : str)
  : list GitWorktreeValidationError :=
  if (truthy ensureRemoteName && negb (truthy ensureRemoteUrl))
     || (negb (truthy ensureRemoteName) && truthy ensureRemoteUrl)
  then [mkError "invalid_remote_config"
          (lit "Both ensureRemoteName and ensureRemoteUrl are required together")]
  else [].

(** [if (shouldSetUpstream) { ... }] *)
Definition validateUpstream (context : ProjectContext) (input : CreateGitWorktreePayload)
    (inferredUpstream : option (str * str)) (ensureRemoteName : str)
  : M (list GitWorktreeValidationError) :=
  if optBool (setUpstream input)
  then
    let upstreamRemote :=
      trim (orElse (optStr (upstreamRemote input))
                   (match inferredUpstream with Some u => fst u | None => [] end)) in
    let upstreamBranch :=
      trim (orElse (optStr (upstreamBranch input))
                   (match inferredUpstream with Some u => snd u | None => [] end)) in
    if negb (truthy upstreamRemote) || negb (truthy upstreamBranch)
    then ret [mkError "upstream_incomplete"
                (lit "upstreamRemote and upstreamBranch are required when setUpstream is true")]
    else
      remoteExists <- runGitCommand (primaryWorktree context)
                        [lit "remote"; lit "get-url"; upstreamRemote] ;;
      ret (if negb (success remoteExists)
              && (negb (truthy ensureRemoteName) || negb (str_eqb ensureRemoteName upstreamRemote))
           then [mkError "remote_not_found" (lit "Remote not found: " ++ upstreamRemote)]
           else [])
  else ret [].

(** The body of the outer [try] of [validateWorktreeCreate]. *)
Definition validateWorktreeCreateBody (directory : str) (input : CreateGitWorktreePayload)
  : M GitWorktreeValidationResult :=
  let mode := payloadMode input in
  context <- resolveWorktreeProjectContext directory ;;
  let preferredBranchName := cleanBranchName (trim (optStr (branchName input))) in
  let startRef := normalizeStartRef (startRef input) in
  let ensureRemoteName := trim (optStr (ensureRemoteName input)) in
  let ensureRemoteUrl := trim (optStr (ensureRemoteUrl input)) in
  modePart <-
    match mode with
    | ModeExisting =>
        tryCatch
          (r <- validateExisting context input preferredBranchName ensureRemoteName ensureRemoteUrl ;;
           ret ([], fst r, snd r))
          (fun message => ret ([mkError "branch_not_found" message], [], None))
    | ModeNew =>
        validateNew context preferredBranchName startRef ensureRemoteName ensureRemoteUrl
    end ;;
  let '(errors1, localBranch, inferredUpstream) := modePart in
  errors2 <- validateInUse context localBranch ;;
  let errors3 := remoteConfigErrors ensureRemoteName ensureRemoteUrl in
  errors4 <- validateUpstream context input inferredUpstream ensureRemoteName ;;
  let errors := errors1 ++ errors2 ++ errors3 ++ errors4 in
  ret {| ok := match errors with [] => true | _ => false end;
         errors := errors;
         resolved := Some (mode, if truthy localBranch then Some localBranch else None) |}.

Definition validateWorktreeCreate (directory : str) (input : CreateGitWorktreePayload)
  : M GitWorktreeValidationResult :=
  tryCatch (validateWorktreeCreateBody directory input)
    (fun message =>
       ret {| ok := false;
              errors := [mkError "validation_failed" message];
              resolved := None |}).

(** *** Creation *)

Record GitWorktreeInfo := {
  infoHead : str;
  infoName : str;
  infoBranch : str;
  infoPath : str
}.

Definition throwIfInUse (primaryWorktree localBranch : str) : M unit :=
  inUse <- findBranchInUse primaryWorktree localBranch ;;
  match inUse with
  | Some entry => throw (lit "Branch is already checked out in " ++ worktree entry)
  | None => ret tt
  end.

Definition createWorktree (directory : str) (input : CreateGitWorktreePayload)
  : M GitWorktreeInfo :=
  let mode := payloadMode input in
  context <- resolveWorktreeProjectContext directory ;;
  mkdir (worktreeRoot context) ;;;
  let preferredName := trim (orElse (optStr (worktreeName input)) (optStr (name input))) in
  let preferredBranchName := cleanBranchName (trim (optStr (branchName input))) in
  let startRef := normalizeStartRef (startRef input) in
  let ensureRemoteName := trim (optStr (ensureRemoteName input)) in
  let ensureRemoteUrl := trim (optStr (ensureRemoteUrl input)) in
  candidate <- resolveCandidateDirectory (worktreeRoot context) preferredName
                 (match mode with
                  | ModeNew => preferredBranchName
                  | ModeExisting => []
                  end)
                 (primaryWorktree context) ;;
  let worktreeAddArgs := map lit ["worktree"; "add"; "--no-checkout"]%string in
  modePart <-
    match mode with
    | ModeExisting =>
        let requestedExistingBranch := trim (optStr (existingBranch input)) in
        (match parseRemoteBranchRef requestedExistingBranch with
         | Some parsed =>
             if truthy ensureRemoteName && truthy ensureRemoteUrl
                && str_eqb (remote parsed) ensureRemoteName
             then
               ensureRemoteWithUrl (primaryWorktree context) ensureRemoteName ensureRemoteUrl ;;;
               fetchRemoteBranchRef (primaryWorktree context) (remote parsed) (branch parsed)
             else ret tt
         | None => ret tt
         end) ;;;
        resolvedBranch <- resolveBranchForExistingMode (primaryWorktree context)
                            requestedExistingBranch preferredBranchName ;;
        let localBranch := localBranch resolvedBranch in
        throwIfInUse (primaryWorktree context) localBranch ;;;
        ret (localBranch,
             worktreeAddArgs
               ++ (if createLocalBranch resolvedBranch then [lit "-b"; localBranch] else [])
               ++ [candDirectory candidate; checkoutRef resolvedBranch],
             match resolvedRemoteRef resolvedBranch with
             | Some r => Some (remote r, branch r)
             | None => None
             end)
    | ModeNew =>
        let localBranch := candBranch candidate in
        if isEmpty localBranch
        then throw (lit "Failed to resolve branch name for new worktree")
        else
          branchExists <- runGitCommand (primaryWorktree context)
                            (showRefArgs (lit "refs/heads/" ++ localBranch)) ;;
          if success branchExists
          then throw (lit "Branch already exists: " ++ localBranch)
          else
            throwIfInUse (primaryWorktree context) localBranch ;;;
            ret (localBranch,
                 worktreeAddArgs ++ [lit "-b"; localBranch; candDirectory candidate]
                   ++ (if truthy startRef && negb (str_eqb startRef (lit "HEAD"))
                       then [startRef] else []),
                 match parseRemoteBranchRef startRef with
                 | Some parsed => Some (remote parsed, branch parsed)
                 | None => None
                 end)
    end ;;
  let '(localBranch, addArgs, inferredUpstream) := modePart in
  (if truthy ensureRemoteName && truthy ensureRemoteUrl
   then ensureRemoteWithUrl (primaryWorktree context) ensureRemoteName ensureRemoteUrl
   else ret tt) ;;;
  (match mode with
   | ModeNew =>
       match parseRemoteBranchRef startRef with
       | Some parsed =>
           fetchRemoteBranchRef (primaryWorktree context) (remote parsed) (branch parsed)
       | None => ret tt
       end
   | ModeExisting => ret tt
   end) ;;;
  runGitCommandOrThrow (primaryWorktree context) addArgs (lit "Failed to create git worktree") ;;;
  runGitCommandOrThrow (candDirectory candidate) [lit "reset"; lit "--hard"]
    (lit "Failed to populate worktree") ;;;
  tryCatch
    (syncProjectSandboxAdd (projectID context) (primaryWorktree context) (candDirectory candidate))
    (fun message =>
       warn (lit "[GitService] Failed to sync OpenCode sandbox metadata (add): " ++ message)) ;;;
  let shouldSetUpstream := optBool (setUpstream input) in
  let upstreamRemote :=
    trim (orElse (optStr (upstreamRemote input))
                 (match inferredUpstream with Some u => fst u | None => [] end)) in
  let upstreamBranch :=
    trim (orElse (optStr (upstreamBranch input))
                 (match inferredUpstream with Some u => snd u | None => [] end)) in
  (if shouldSetUpstream
   then applyUpstreamConfiguration (primaryWorktree context) (candDirectory candidate)
          localBranch shouldSetUpstream upstreamRemote upstreamBranch
          ensureRemoteName ensureRemoteUrl
   else ret tt) ;;;
  emit (EvQueueStartScripts (candDirectory candidate) (projectID context) (startCommand input)) ;;;
  headResult <- runGitCommand (candDirectory candidate) [lit "rev-parse"; lit "HEAD"] ;;
  ret {| infoHead := trim (cmdStdout headResult);
         infoName := candName candidate;
         infoBranch := localBranch;
         infoPath := candDirectory candidate |}.

(** *** Removal *)

Record RemoveGitWorktreePayload := {
  removeDirectory : str;
  deleteLocalBranch : option bool
}.

(** The loop that looks the target up among the worktree entries. *)
Fixpoint findMatchedEntry (targetCanonical : str) (entries : list WorktreeListEntry)
  : M (option WorktreeListEntry) :=
  match entries with
  | [] => ret None
  | entry :: rest =>
      if isEmpty (worktree entry) then findMatchedEntry targetCanonical rest
      else
        entryCanonical <- canonicalPath (worktree entry) ;;
        if str_eqb entryCanonical targetCanonical then ret (Some entry)
        else findMatchedEntry targetCanonical rest
  end.

Definition syncRemoveLogged (context : ProjectContext) (sandboxPath : str) : M unit :=
  tryCatch
    (syncProjectSandboxRemove (projectID context) (primaryWorktree context) sandboxPath)
    (fun message =>
       warn (lit "[GitService] Failed to sync OpenCode sandbox metadata (remove): " ++ message)).

Definition removeWorktree (directory : str) (input : RemoveGitWorktreePayload) : M bool :=
  let targetDirectory := normalizeDirectoryPath (removeDirectory input) in
  if isEmpty targetDirectory then throw (lit "Worktree directory is required")
  else
    context <- resolveWorktreeProjectContext directory ;;
    let deleteLocalBranch := optBool (deleteLocalBranch input) in
    targetCanonical <- canonicalPath targetDirectory ;;
    primaryCanonical <- canonicalPath (primaryWorktree context) ;;
    if str_eqb targetCanonical primaryCanonical
    then throw (lit "Cannot remove the primary workspace")
    else
      entries <- listWorktreeEntries (primaryWorktree context) ;;
      matchedEntry <- findMatchedEntry targetCanonical entries ;;
      match matchedEntry with
      | None =>
          targetExists <- checkPathExists targetDirectory ;;
          (if targetExists : bool then rm targetDirectory else ret tt) ;;;
          syncRemoveLogged context targetDirectory ;;;
          ret true
      | Some entry =>
          runGitCommandOrThrow (primaryWorktree context)
            [lit "worktree"; lit "remove"; lit "--force"; worktree entry]
            (lit "Failed to remove git worktree") ;;;
          (if deleteLocalBranch
           then
             let branchName :=
               cleanBranchName
                 (trim (orElse (optStr (branchRef entry)) (optStr (entryBranch entry)))) in
             if truthy branchName
             then runGitCommandOrThrow (primaryWorktree context)
                    [lit "branch"; lit "-D"; branchName]
                    (lit "Failed to delete local branch " ++ branchName) ;;; ret tt
             else ret tt
           else ret tt) ;;;
          syncRemoveLogged context (worktree entry) ;;;
          ret true
      end.

(** *** Raw status *)

Record GitStatusFile := {
  filePath : str;
  index : str;
  working_dir : str
}.

Record GitMergeInProgress := {
  mergeHead : str;
  mergeMessage : str
}.

Record GitRebaseInProgress := {
  headName : str;
  onto : str
}.

Record GitStatusResult := {
  current : str;
  tracking : option str;
  ahead : JsNumber;
  behind : JsNumber;
  files : list GitStatusFile;
  isClean : bool;
  mergeInProgress : option GitMergeInProgress;
  rebaseInProgress : option GitRebaseInProgress
}.

(** [.] of a regular expression: anything but a line terminator. *)
Definition isDot (c : ascii) : bool := negb (charCode c =? 10) && negb (charCode c =? 13).

Definition isDigit (c : ascii) : bool := (48 <=? charCode c) && (charCode c <=? 57).

Fixpoint takeWhile (p : ascii -> bool) (s : str) : str :=
  match s with
  | [] => []
  | c :: t => if p c then c :: takeWhile p t else []
  end.

(** The integer that a run of decimal digits writes. *)
Definition decimalValue (digits : str) : Z :=
  fold_left (fun acc c => (acc * 10 + Z.of_nat (charCode c - 48))%Z) digits 0%Z.

(** The double nearest to a natural number, ties to even: the number
    itself when it has at most 53 bits; otherwise its 53 leading bits,
    rounded by the rest, and [Infinity] when that reaches [2^1024]. *)
Definition nearestDouble (n : Z) : JsNumber :=
  let bits := (Z.log2 n + 1)%Z in
  if (bits <=? 53)%Z then Finite n
  else
    let shift := (bits - 53)%Z in
    let kept := Z.shiftr n shift in
    let rest := Z.land n (Z.ones shift) in
    let half := Z.shiftl 1 (shift - 1) in
    let rounded :=
      if (half <? rest)%Z || ((rest =? half)%Z && Z.odd kept) then (kept + 1)%Z else kept in
    let value := Z.shiftl rounded shift in
    if (Z.shiftl 1 1024 <=? value)%Z then Infinity else Finite value.

(** [parseInt(digits, 10)] on a run of decimal digits: the value of the
    digits as a double. *)
Definition parseDigits (digits : str) : JsNumber :=
  nearestDouble (decimalValue digits).

(** [s.match(/key(\d+)/)], first group, parsed. *)
Fixpoint findNumberAfter (key : str) (s : str) : option JsNumber :=
  match s with
  | [] => None
  | _ :: t =>
      let digits := takeWhile isDigit (sliceFrom (length key) s) in
      if startsWith key s && negb (isEmpty digits) then Some (parseDigits digits)
      else findNumberAfter key t
  end.

(** The tail [(?:\s+\[(.+)\])?$] of the branch header pattern. *)
Definition matchTrackingInfo (s : str) : option (option str) :=
  let afterSpace := dropWhile isSpace s in
  let group :=
    if length afterSpace <? length s
    then match afterSpace with
         | c :: body =>
             if chr_eqb c "["%char
             then match rev body with
                  | d :: revInfo =>
                      if chr_eqb d "]"%char && negb (isEmpty revInfo) && forallb isDot revInfo
                      then Some (rev revInfo) else None
                  | [] => None
                  end
             else None
         | [] => None
         end
    else None in
  match group with
  | Some info => Some (Some info)
  | None => if isEmpty s then Some None else None
  end.

(** A lazy group [(.+?)] followed by the rest of the pattern [k]: the
    shortest non-empty prefix after which [k] matches. *)
Fixpoint lazyGroup {A} (k : str -> option A) (revPrefix : str) (s : str) : option (str * A) :=
  match s with
  | [] => None
  | c :: t =>
      if isDot c
      then match k t with
           | Some a => Some (rev (c :: revPrefix), a)
           | None => lazyGroup k (c :: revPrefix) t
           end
      else None
  end.

(** [(?:\.\.\.(.+?))?(?:\s+\[(.+)\])?$] *)
Definition matchTracking (s : str) : option (option str * option str) :=
  let group :=
    if startsWith (lit "...") s
    then lazyGroup matchTrackingInfo [] (sliceFrom 3 s)
    else None in
  match group with
  | Some (trackingRef, info) => Some (Some trackingRef, info)
  | None =>
      match matchTrackingInfo s with
      | Some info => Some (None, info)
      | None => None
      end
  end.

(** [line.match(/^## (.+?)(?:\.\.\.(.+?))?(?:\s+\[(.+)\])?$/)] *)
Definition branchMatch (line : str) : option (str * (option str * option str)) :=
  if startsWith (lit "## ") line
  then lazyGroup matchTracking [] (sliceFrom 3 line)
  else None.

Record StatusAcc := {
  accCurrent : str;
  accTracking : option str;
  accAhead : JsNumber;
  accBehind : JsNumber;
  accFiles : list GitStatusFile
}.

(** One iteration of the line loop of [getGitStatusRaw]. *)
Definition statusLineStep (acc : StatusAcc) (line : str) : StatusAcc :=
  if startsWith (lit "##") line
  then match branchMatch line with
       | Some (cur, (trackingRef, info)) =>
           let trackingInfo := optStr info in
           {| accCurrent := cur;
              accTracking := match trackingRef with
                             | Some t => if isEmpty t then None else Some t
                             | None => None
                             end;
              accAhead := match findNumberAfter (lit "ahead ") trackingInfo with
                          | Some n => n | None => 0%Z end;
              accBehind := match findNumberAfter (lit "behind ") trackingInfo with
                           | Some n => n | None => 0%Z end;
              accFiles := accFiles acc |}
       | None => acc
       end
  else
    let charAt (i : nat) := match nth_error line i with Some c => [c] | None => lit " " end in
    {| accCurrent := accCurrent acc; accTracking := accTracking acc;
       accAhead := accAhead acc; accBehind := accBehind acc;
       accFiles := accFiles acc ++
                   [{| filePath := trim (sliceFrom 3 line);
                       index := charAt 0; working_dir := charAt 1 |}] |}.

(** [s.replace(needle, '')] with a string needle: the first occurrence. *)
Fixpoint removeFirst (needle s : str) : str :=
  match s with
  | [] => []
  | c :: t =>
      if startsWith needle s then sliceFrom (length needle) s
      else c :: removeFirst needle t
  end.

Definition existsPath (p : str) : M bool :=
  tryCatch (stat p ;;; ret true) (fun _ => ret false).

Definition checkInProgressOperations (directory : str)
  : M (option GitMergeInProgress * option GitRebaseInProgress) :=
  let gitDir := path_join host [directory; lit ".git"] in
  let mergeHeadPath := path_join host [gitDir; lit "MERGE_HEAD"] in
  mergeHeadExists <- existsPath mergeHeadPath ;;
  merging <-
    (if mergeHeadExists : bool
     then
       mergeHead <- orOnReject (readFile mergeHeadPath) [] ;;
       let headSha := sliceTo 7 (trim mergeHead) in
       if truthy headSha
       then
         mergeMsg <- orOnReject (readFile (path_join host [gitDir; lit "MERGE_MSG"])) [] ;;
         ret (Some {| mergeHead := headSha;
                      mergeMessage := match split (ascii_of_nat 10) mergeMsg with
                                      | first :: _ => first
                                      | [] => []
                                      end |})
       else ret None
     else ret None) ;;
  rebaseMergeExists <- existsPath (path_join host [gitDir; lit "rebase-merge"]) ;;
  rebaseApplyExists <- existsPath (path_join host [gitDir; lit "rebase-apply"]) ;;
  rebasing <-
    (if rebaseMergeExists || rebaseApplyExists
     then
       let rebaseDir := if rebaseMergeExists : bool then lit "rebase-merge" else lit "rebase-apply" in
       headName <- orOnReject (readFile (path_join host [gitDir; rebaseDir; lit "head-name"])) [] ;;
       onto <- orOnReject (readFile (path_join host [gitDir; rebaseDir; lit "onto"])) [] ;;
       let headNameTrimmed := removeFirst (lit "refs/heads/") (trim headName) in
       let ontoTrimmed := sliceTo 7 (trim onto) in
       if truthy headNameTrimmed || truthy ontoTrimmed
       then ret (Some {| headName := headNameTrimmed; onto := ontoTrimmed |})
       else ret None
     else ret None) ;;
  ret (merging, rebasing).

Definition getGitStatusRaw (directory : str) : M GitStatusResult :=
  statusResult <- doExecGit (map lit ["status"; "--porcelain=v1"; "-b"; "-uall"]%string) directory ;;
  if negb (exitCode statusResult =? 0)%Z
  then ret {| current := []; tracking := None; ahead := 0; behind := 0;
              files := []; isClean := true;
              mergeInProgress := None; rebaseInProgress := None |}
  else
    let lines := filterNonEmpty (split (ascii_of_nat 10) (trim (stdout statusResult))) in
    let acc := fold_left statusLineStep lines
                 {| accCurrent := []; accTracking := None; accAhead := 0; accBehind := 0;
                    accFiles := [] |} in
    inProgressState <- checkInProgressOperations directory ;;
    ret {| current := accCurrent acc; tracking := accTracking acc;
           ahead := accAhead acc; behind := accBehind acc;
           files := accFiles acc;
           isClean := match accFiles acc with [] => true | _ => false end;
           mergeInProgress := fst inProgressState;
           rebaseInProgress := snd inProgressState |}.

(** *** Merge and rebase *)

Record GitMergeResult := {
  mergeSuccess : bool;
  conflict : option bool;
  conflictFiles : option (list str)
}.

Definition isConflictLine (line : str) : bool :=
  startsWith (lit "UU") line || startsWith (lit "AA") line || startsWith (lit "DD") line.

(** The conflict list read back from [git status --porcelain]. *)
Definition conflictFilesOf (statusStdout : str) : list str :=
  map (fun line => trim (sliceFrom 3 line))
      (filter isConflictLine (split (ascii_of_nat 10) statusStdout)).

Definition collectConflict (directory : str) : M GitMergeResult :=
  statusResult <- doExecGit (map lit ["status"; "--porcelain"]%string) directory ;;
  ret {| mergeSuccess := false; conflict := Some true;
         conflictFiles := Some (conflictFilesOf (stdout statusResult)) |}.

Definition rebaseIsConflict (result : ExecResult) : bool :=
  let output := toLowerCase (stdout result ++ stderr result) in
  includes (lit "conflict") output
  || includes (lit "could not apply") output
  || includes (lit "merge conflict") output.

Definition rebase (directory onto : str) : M GitMergeResult :=
  result <- doExecGit [lit "rebase"; onto] directory ;;
  if (exitCode result =? 0)%Z
  then ret {| mergeSuccess := true; conflict := Some false; conflictFiles := None |}
  else if rebaseIsConflict result
  then collectConflict directory
  else throw (orElse (stderr result) (lit "Rebase failed")).

Definition mergeIsConflict (result : ExecResult) : bool :=
  let output := toLowerCase (stdout result ++ stderr result) in
  includes (lit "conflict") output
  || includes (lit "merge conflict") output
  || includes (lit "automatic merge failed") output.

Definition merge (directory branch : str) : M GitMergeResult :=
  result <- doExecGit [lit "merge"; branch] directory ;;
  if (exitCode result =? 0)%Z
  then ret {| mergeSuccess := true; conflict := Some false; conflictFiles := None |}
  else if mergeIsConflict result
  then collectConflict directory
  else throw (orElse (stderr result) (lit "Merge failed")).

(** *** Identity *)

(** The character class tested by [escapeSshKeyPath]: backtick, dollar,
    backslash, exclamation mark, double quote (code 34), single quote,
    semicolon, ampersand, bar, angle brackets, parentheses, braces,
    brackets, star, question mark, hash and tilde. *)
Definition dangerousChars : str :=
  [ "`"; "$"; "\"; "!"; ascii_of_nat 34; "'"; ";"; "&"; "|"; "<"; ">"; "("; ")"; "{"; "}";
    "["; "]"; "*"; "?"; "#"; "~" ]%char.

Definition isDangerousChar (c : ascii) : bool := existsb (chr_eqb c) dangerousChars.

Definition isAsciiLetter (c : ascii) : bool :=
  let n := charCode c in
  ((65 <=? n) && (n <=? 90)) || ((97 <=? n) && (n <=? 122)).

(** [escapeSshKeyPath]; it throws synchronously. *)
Definition escapeSshKeyPath (sshKeyPath : str) : Outcome str :=
  if existsb isDangerousChar sshKeyPath
  then Throw (lit "SSH key path contains invalid characters: " ++ sshKeyPath)
  else
    if platform_win32 host
    then
      let unixPath := replaceAll "\"%char (lit "/") sshKeyPath in
      let unixPath :=
        match unixPath with
        | drive :: colon :: slash :: _ =>
            if isAsciiLetter drive && chr_eqb colon ":"%char && chr_eqb slash "/"%char
            then lit "/" ++ [lowerChar drive] ++ sliceFrom 2 unixPath
            else unixPath
        | _ => unixPath
        end in
      Ok (lit "'" ++ unixPath ++ lit "'")
    else
      let escaped := replaceAll "'"%char (lit "'\''") sshKeyPath in
      Ok (lit "'" ++ escaped ++ lit "'").

Definition buildSshCommand (sshKeyPath : str) : Outcome str :=
  match escapeSshKeyPath sshKeyPath with
  | Ok escapedPath => Ok (lit "ssh -i " ++ escapedPath ++ lit " -o IdentitiesOnly=yes")
  | Throw e => Throw e
  end.

Definition liftOutcome {A} (o : Outcome A) : M A := fun w => (o, w, []).

Definition setConfig (repo : Repository host) (key value : str) : M unit :=
  performOutcome (repo_setConfig host repo key value) (EvSetConfig key value).

Definition setGitIdentity (directory userName userEmail : str) (sshKey : option str)
  : M bool :=
  repo <- perform (getRepository host directory) (EvGetRepository directory) ;;
  sshCommand <-
    (match sshKey with
     | Some key => if truthy key
                   then command <- liftOutcome (buildSshCommand key) ;; ret (Some command)
                   else ret None
     | None => ret None
     end) ;;
  let viaAdapter :=
    match repo with
    | Some r =>
        tryCatch
          (setConfig r (lit "user.name") userName ;;;
           setConfig r (lit "user.email") userEmail ;;;
           (match sshCommand with
            | Some command => setConfig r (lit "core.sshCommand") command
            | None => ret tt
            end) ;;;
           ret true)
          (fun message =>
             warn (lit "[GitService] Failed to set identity: " ++ message) ;;; ret false)
    | None => ret false
    end in
  done <- viaAdapter ;;
  if done : bool then ret true
  else
    doExecGit [lit "config"; lit "user.name"; userName] directory ;;;
    doExecGit [lit "config"; lit "user.email"; userEmail] directory ;;;
    (match sshCommand with
     | Some command => doExecGit [lit "config"; lit "core.sshCommand"; command] directory ;;; ret tt
     | None => ret tt
     end) ;;;
    ret true.

End Service.

Arguments ret {host A} a.
Arguments throw {host A} message.
Arguments bind {host A B} m k.
Arguments tryCatch {host A} m handler.

(* ------------------------------------------------------------------ *)
(** ** A scripted host

    A concrete host whose answers are fixed tables; the world only counts
    the draws of the random source.  The statements below hold for every
    host; this one provides the concrete instances. *)

Module Scripted.

Fixpoint args_eqb (a b : list str) : bool :=
  match a, b with
  | [], [] => true
  | x :: a', y :: b' => str_eqb x y && args_eqb a' b'
  | _, _ => false
  end.

Record Script := {
  gitReply : list str -> str -> ExecResult;
  present : str -> bool;                 (* paths that [stat] finds *)
  fileText : str -> option str;          (* readable files *)
  writable : str -> bool;                (* paths [writeFile] and [mkdir] accept *)
  removable : str -> bool;               (* paths [rm] accepts *)
  realPaths : str -> option str;         (* what [realpath] resolves *)
  win32 : bool;
  adapter : bool;                        (* a repository handle is available *)
  adapterWritable : bool
}.

Definition answer (okay : bool) (failure : string) : Outcome unit :=
  if okay then Ok tt else Throw (lit failure).

(** [path.dirname] on POSIX paths without trailing slash. *)
Definition dirname (p : str) : str :=
  match rev (split "/"%char p) with
  | _ :: parent => join (lit "/") (rev parent)
  | [] => []
  end.

(** [path.resolve] on arguments the last absolute one of which wins. *)
Definition resolve (parts : list str) : str :=
  fold_left (fun acc p => if startsWith (lit "/") p then p
                          else if isEmpty acc then p else acc ++ lit "/" ++ p)
            parts [].

(** A line-oriented stand-in for the JSON codec of the store: one sandbox
    per line. *)
Definition stringifyProject (p : Project) : str := join newline (sandboxes p).

Definition parseProject (raw : str) : option ParsedProject :=
  Some {| parsedId := None; parsedWorktree := None; parsedVcs := None;
          parsedSandboxes := Some (split (ascii_of_nat 10) raw);
          parsedCreated := None; parsedExtra := [] |}.

Definition make (s : Script) : Host := {|
  World := nat;
  Repository := unit;
  execGit := fun args cwd w => (gitReply s args cwd, w);
  fs_readFile := fun p w =>
    (match fileText s p with Some t => Ok t | None => Throw (lit "ENOENT") end, w);
  fs_writeFile := fun p _ w => (answer (writable s p) "EACCES", w);
  fs_mkdir := fun p w => (answer (writable s p) "EACCES", w);
  fs_stat := fun p w => (answer (present s p) "ENOENT", w);
  fs_rm := fun p w => (answer (removable s p) "EACCES", w);
  fs_realpath := fun p w =>
    (match realPaths s p with Some t => Ok t | None => Throw (lit "ENOENT") end, w);
  random := fun w => (w, S w);
  date_now := fun w => (1700000000000%Z, w);
  getRepository := fun _ w => (if adapter s then Some tt else None, w);
  repo_setConfig := fun _ _ _ w => (answer (adapterWritable s) "setConfig failed", w);
  platform_win32 := win32 s;
  os_homedir := lit "/home/dev";
  env_XDG_DATA_HOME := lit "/data";
  path_join := join (lit "/");
  path_resolve := resolve;
  path_dirname := dirname;
  path_normalize := fun p => p;
  sort_localeCompare := fun l => l;
  JSON_parse_project := parseProject;
  JSON_stringify_project := stringifyProject
|}.

Definition exec (out err : string) (exit : Z) : ExecResult :=
  {| stdout := lit out; stderr := lit err; exitCode := exit |}.

(** A repository at [/repo] whose project id is cached, with one linked
    worktree and one local branch [main]. *)
Definition repoGit (args : list str) (cwd : str) : ExecResult :=
  if args_eqb args (map lit ["rev-parse"; "--show-toplevel"]%string) then exec "/repo" "" 0
  else if args_eqb args (map lit ["rev-parse"; "--git-common-dir"]%string) then exec "/repo/.git" "" 0
  else if args_eqb args (map lit ["rev-list"; "--max-parents=0"; "--all"]%string) then exec "abc123" "" 0
  else if args_eqb args (map lit ["worktree"; "list"; "--porcelain"]%string)
       then {| stdout := lit "worktree /repo" ++ newline ++ lit "HEAD 1111111" ++ newline
                           ++ lit "branch refs/heads/main" ++ newline;
               stderr := []; exitCode := 0 |}
  else if args_eqb args (map lit ["show-ref"; "--verify"; "--quiet"; "refs/heads/main"]%string)
       then exec "" "" 0
  else if args_eqb args (map lit ["rev-parse"; "HEAD"]%string) then exec "1111111" "" 0
  else match args with
       | cmd :: _ =>
           if str_eqb cmd (lit "show-ref") || str_eqb cmd (lit "fetch") || str_eqb cmd (lit "ls-remote")
           then exec "" "" 1
           else exec "" "" 0
       | [] => exec "" "usage" 1
       end.

Definition idFile : str := lit "/repo/.git/opencode".
Definition storeFile : str := lit "/data/opencode/storage/project/abc123.json".

Definition repoScript : Script := {|
  gitReply := repoGit;
  present := fun p => str_eqb p (lit "/repo");
  fileText := fun p => if str_eqb p idFile then Some (lit "abc123") else None;
  writable := fun _ => true;
  removable := fun _ => true;
  realPaths := fun p => Some p;
  win32 := false;
  adapter := false;
  adapterWritable := true
|}.

End Scripted.

(* ------------------------------------------------------------------ *)
(** ** Further operations of the service *)

Section Resume.

Variable host : Host.

Notation "x <- m ;; k" := (bind m (fun x => k))
  (at level 61, m at next level, right associativity).

(** *** Resuming and aborting a merge or a rebase *)

(** The test of [continueRebase] and of [continueMerge] on a failure. *)
Definition continueIsConflict (result : ExecResult) : bool :=
  let output := toLowerCase (stdout result ++ stderr result) in
  includes (lit "conflict") output
  || includes (lit "needs merge") output
  || includes (lit "unmerged") output.

Definition continueRebase (directory : str) : M host GitMergeResult :=
  result <- doExecGit host [lit "rebase"; lit "--continue"] directory ;;
  if (exitCode result =? 0)%Z
  then ret {| mergeSuccess := true; conflict := Some false; conflictFiles := None |}
  else if continueIsConflict result
  then collectConflict host directory
  else throw (orElse (stderr result) (lit "Continue rebase failed")).

(** A merge is resumed by committing. *)
Definition continueMerge (directory : str) : M host GitMergeResult :=
  result <- doExecGit host [lit "commit"; lit "--no-edit"] directory ;;
  if (exitCode result =? 0)%Z
  then ret {| mergeSuccess := true; conflict := Some false; conflictFiles := None |}
  else if continueIsConflict result
  then collectConflict host directory
  else throw (orElse (stderr result) (lit "Continue merge failed")).

Definition abortRebase (directory : str) : M host bool :=
  result <- doExecGit host [lit "rebase"; lit "--abort"] directory ;;
  ret (exitCode result =? 0)%Z.

Definition abortMerge (directory : str) : M host bool :=
  result <- doExecGit host [lit "merge"; lit "--abort"] directory ;;
  ret (exitCode result =? 0)%Z.

End Resume.

(* ------------------------------------------------------------------ *)
(** ** The list of remotes *)

Module Remotes.

Record GitRemote := {
  name : str;
  fetchUrl : str;
  pushUrl : str
}.

Inductive UrlKind := Fetch | Push.

Definition notSpace (c : ascii) : bool := negb (isSpace c).

(** [line.match(/^(\S+)\s+(\S+)\s+\((fetch|push)\)$/)]: the name, the URL
    and the kind.  A run of [\S] or of [\s] can only end where the class
    changes, so each group is the longest run. *)
Definition matchRemoteLine (line : str) : option (str * str * UrlKind) :=
  let remoteName := takeWhile notSpace line in
  let afterName := dropWhile notSpace line in
  let atUrl := dropWhile isSpace afterName in
  let url := takeWhile notSpace atUrl in
  let afterUrl := dropWhile notSpace atUrl in
  let atKind := dropWhile isSpace afterUrl in
  if isEmpty remoteName || (length atUrl =? length afterName)
     || isEmpty url || (length atKind =? length afterUrl)
  then None
  else if str_eqb atKind (lit "(fetch)") then Some (remoteName, url, Fetch)
  else if str_eqb atKind (lit "(push)") then Some (remoteName, url, Push)
  else None.

Definition setUrl (kind : UrlKind) (url : str) (r : GitRemote) : GitRemote :=
  match kind with
  | Fetch => {| name := name r; fetchUrl := url; pushUrl := pushUrl r |}
  | Push => {| name := name r; fetchUrl := fetchUrl r; pushUrl := url |}
  end.

(** The [Map] from names to remotes, in insertion order: the remote of
    that name is updated where it stands. *)
Fixpoint updateRemote (remoteName : str) (kind : UrlKind) (url : str)
    (remoteMap : list GitRemote) : list GitRemote :=
  match remoteMap with
  | [] => []
  | r :: rest =>
      if str_eqb (name r) remoteName then setUrl kind url r :: rest
      else r :: updateRemote remoteName kind url rest
  end.

Definition hasRemote (remoteName : str) (remoteMap : list GitRemote) : bool :=
  existsb (fun r => str_eqb (name r) remoteName) remoteMap.

(** One iteration of the line loop. *)
Definition remoteLineStep (remoteMap : list GitRemote) (line : str) : list GitRemote :=
  match matchRemoteLine line with
  | Some (remoteName, url, kind) =>
      let remoteMap :=
        if hasRemote remoteName remoteMap then remoteMap
        else remoteMap ++ [{| name := remoteName; fetchUrl := []; pushUrl := [] |}] in
      updateRemote remoteName kind url remoteMap
  | None => remoteMap
  end.

Definition parseRemotes (out : str) : list GitRemote :=
  fold_left remoteLineStep (filterNonEmpty (split (ascii_of_nat 10) out)) [].

Section Run.

Variable host : Host.

Definition getRemotes (directory : str) : M host (list GitRemote) :=
  bind (doExecGit host [lit "remote"; lit "-v"] directory)
    (fun result =>
       if negb (exitCode result =? 0)%Z then ret []
       else ret (parseRemotes (stdout result))).

End Run.

End Remotes.

(* ------------------------------------------------------------------ *)
(** ** Pushing *)

Module Push.

(** A value of an options object, as far as the service tells values
    apart; [ValueOther] carries [String(value)]. *)
Inductive OptionValue : Type :=
| ValueNull
| ValueTrue
| ValueFalse
| ValueUndefined
| ValueOther (text : str).

(** Options are an array of arguments or a plain object; the entries of
    the object are those of [Object.entries], in its order, one per key. *)
Inductive GitOptions : Type :=
| OptionArray (flags : list str)
| OptionObject (entries : list (str * OptionValue)).

Definition optionArgs (entry : str * OptionValue) : list str :=
  match snd entry with
  | ValueNull | ValueTrue => [fst entry]
  | ValueFalse | ValueUndefined => []
  | ValueOther text => [fst entry; text]
  end.

Definition normalizeGitOptions (options : option GitOptions) : list str :=
  match options with
  | None => []
  | Some (OptionArray flags) => flags
  | Some (OptionObject entries) => flat_map optionArgs entries
  end.

(** The properties that every plain object inherits: for these
    [flag in options] holds without an entry of that key, and the
    inherited value is not [false]. *)
Definition inheritedProperties : list str := map lit
  [ "constructor"; "hasOwnProperty"; "isPrototypeOf"; "propertyIsEnumerable";
    "toLocaleString"; "toString"; "valueOf"; "__proto__";
    "__defineGetter__"; "__defineSetter__"; "__lookupGetter__"; "__lookupSetter__" ]%string.

Definition hasOption (options : option GitOptions) (flag : str) : bool :=
  match options with
  | None => false
  | Some (OptionArray flags) => existsb (str_eqb flag) flags
  | Some (OptionObject entries) =>
      match find (fun entry => str_eqb (fst entry) flag) entries with
      | Some (_, ValueFalse) => false
      | Some _ => true
      | None => existsb (str_eqb flag) inheritedProperties
      end
  end.

(** [buildUpstreamOptions] of [gitPush] *)
Definition buildUpstreamOptions (raw : option GitOptions) : list str :=
  let normalized := normalizeGitOptions raw in
  if hasOption (Some (OptionArray normalized)) (lit "--set-upstream")
     || hasOption (Some (OptionArray normalized)) (lit "-u")
  then normalized
  else normalized ++ [lit "--set-upstream"].

(** The text of a failure: the trimmed message, or the fixed one. *)
Definition failureText (message : str) : str :=
  orElse (trim message) (lit "Failed to push to remote").

(** [describePushFailure] of the result of a command, which has no
    [message]: stderr, else stdout. *)
Definition describePushFailure (result : ExecResult) : str :=
  failureText (orElse (stderr result) (stdout result)).

(** [looksLikeMissingUpstream] of a caught error, by its message. *)
Definition looksLikeMissingUpstream (message : str) : bool :=
  let text := toLowerCase message in
  includes (lit "has no upstream") text
  || includes (lit "no upstream") text
  || includes (lit "set-upstream") text
  || includes (lit "set upstream") text
  || (includes (lit "upstream") text && includes (lit "push") text && includes (lit "-u") text).

Record PushOptions := {
  pushRemote : option str;
  pushBranch : option str;
  gitOptions : option GitOptions
}.

(** The result; its [ref] is always [null]. *)
Record PushResult := {
  pushSuccess : bool;
  pushed : list (str * str);
  repo : str
}.

Section Run.

Variable host : Host.

Notation "x <- m ;; k" := (bind m (fun x => k))
  (at level 61, m at next level, right associativity).
Notation "m ;;; k" := (bind m (fun _ => k))
  (at level 61, right associativity).

Variable directory : str.

Definition getCurrentBranch : M host str :=
  result <- doExecGit host (map lit ["rev-parse"; "--abbrev-ref"; "HEAD"]%string) directory ;;
  ret (trim (stdout result)).

Definition hasTrackingBranch : M host bool :=
  result <- doExecGit host
              (map lit ["rev-parse"; "--abbrev-ref"; "--symbolic-full-name"; "@{u}"]%string)
              directory ;;
  ret ((exitCode result =? 0)%Z && negb (isEmpty (trim (stdout result)))).

(** The [getRemotes] local to [gitPush]: the names that [git remote]
    prints. *)
Definition getRemoteNames : M host (list str) :=
  result <- doExecGit host [lit "remote"] directory ;;
  if negb (exitCode result =? 0)%Z then ret []
  else ret (filterNonEmpty (map trim (split (ascii_of_nat 10) (stdout result)))).

Definition pushRaw (args : list str) : M host unit :=
  result <- doExecGit host args directory ;;
  if negb (exitCode result =? 0)%Z then throw (describePushFailure result)
  else ret tt.

Definition normalizePushResult (localName remoteName : str) : PushResult :=
  {| pushSuccess := true; pushed := [(localName, remoteName)]; repo := directory |}.

(** The retry of a push that failed for want of an upstream, when
    neither a remote nor a branch was given. *)
Definition retryWithUpstream (raw : option GitOptions) (error : str) : M host PushResult :=
  if negb (looksLikeMissingUpstream error) then throw (failureText error)
  else
    currentBranch <- getCurrentBranch ;;
    remotes <- getRemoteNames ;;
    let fallbackRemote :=
      if existsb (str_eqb (lit "origin")) remotes then lit "origin"
      else match remotes with r :: _ => r | [] => [] end in
    if isEmpty currentBranch || isEmpty fallbackRemote then throw (failureText error)
    else
      pushRaw (lit "push" :: buildUpstreamOptions raw ++ [fallbackRemote; currentBranch]) ;;;
      ret (normalizePushResult currentBranch fallbackRemote).

(** The push that sets the upstream first, when no branch was given and
    the current branch tracks none; a failure here is only logged. *)
Definition pushUntracked (raw : option GitOptions) (remoteName : str)
  : M host (option PushResult) :=
  tryCatch
    (currentBranch <- getCurrentBranch ;;
     tracking <- hasTrackingBranch ;;
     if negb (isEmpty currentBranch) && negb tracking
     then
       pushRaw (lit "push" :: buildUpstreamOptions raw ++ [remoteName; currentBranch]) ;;;
       ret (Some (normalizePushResult currentBranch remoteName))
     else ret None)
    (fun error =>
       warn host (lit "[GitService] Failed to determine upstream state before push: " ++ error) ;;;
       ret None).

(** The retry of a push to a remote that failed for want of an upstream. *)
Definition retryToRemote (raw : option GitOptions) (remoteName branch error : str)
  : M host PushResult :=
  if negb (looksLikeMissingUpstream error) then throw (failureText error)
  else
    fallbackBranch <- (if negb (isEmpty branch) then ret branch else getCurrentBranch) ;;
    if isEmpty fallbackBranch then throw (failureText error)
    else
      pushRaw (lit "push" :: buildUpstreamOptions raw ++ [remoteName; fallbackBranch]) ;;;
      ret (normalizePushResult fallbackBranch remoteName).

Definition gitPush (options : option PushOptions) : M host PushResult :=
  let remote :=
    match options with
    | Some o => match pushRemote o with Some r => trim r | None => [] end
    | None => []
    end in
  let branch :=
    match options with
    | Some o => optStr (pushBranch o)
    | None => []
    end in
  let raw := match options with Some o => gitOptions o | None => None end in
  if isEmpty remote && isEmpty branch
  then
    tryCatch
      (pushRaw (lit "push" :: normalizeGitOptions raw) ;;;
       ret {| pushSuccess := true; pushed := []; repo := directory |})
      (retryWithUpstream raw)
  else
    let remoteName := orElse remote (lit "origin") in
    early <- (if isEmpty branch then pushUntracked raw remoteName else ret None) ;;
    match early with
    | Some result => ret result
    | None =>
        tryCatch
          (pushRaw (lit "push" :: normalizeGitOptions raw ++ [remoteName]
                      ++ (if negb (isEmpty branch) then [branch] else [])) ;;;
           ret (normalizePushResult branch remoteName))
          (retryToRemote raw remoteName branch)
    end.

End Run.

End Push.

(* ------------------------------------------------------------------ *)
(** ** Branches *)

Module Branches.

Record GitBranchDetails := {
  isCurrent : bool;
  name : str;
  commit : str;
  label : str;
  tracking : option str;
  ahead : option Z;
  behind : option Z
}.

(** The plain object that maps branch names to their details: its own
    properties and, once details were stored under [__proto__], the
    details that became its prototype.  On a plain object
    [branches['__proto__'] = details] goes through the setter that every
    object inherits: it replaces the prototype and adds no own
    property. *)
Record BranchTable := {
  ownBranch : str -> option GitBranchDetails;
  prototypeBranch : option GitBranchDetails
}.

Definition protoKey : str := lit "__proto__".

(** [branches[key]] where it yields details: an own property, or, for
    [__proto__], the details that became the prototype. *)
Definition lookup (table : BranchTable) (key : str) : option GitBranchDetails :=
  if str_eqb key protoKey then prototypeBranch table else ownBranch table key.

Coercion lookup : BranchTable >-> Funclass.

(** [{}] *)
Definition emptyTable : BranchTable :=
  {| ownBranch := fun _ => None; prototypeBranch := None |}.

(** [branches[key] = details] *)
Definition setBranch (key : str) (details : GitBranchDetails) (table : BranchTable)
  : BranchTable :=
  if str_eqb key protoKey
  then {| ownBranch := ownBranch table; prototypeBranch := Some details |}
  else {| ownBranch := fun k => if str_eqb k key then Some details else ownBranch table k;
          prototypeBranch := prototypeBranch table |}.

Record GitBranchResult := {
  all : list str;
  current : str;
  branches : BranchTable
}.

(** [const [name, commit, tracking, head] = line.split('|')]: a part that
    is missing is [undefined], which the loop treats as the empty string
    ([commit || ''], [tracking || undefined], [head === '*']). *)
Definition part (n : nat) (parts : list str) : str := nth n parts [].

(** One iteration of the line loop of [getGitBranchesRaw]. *)
Definition branchLineStep (acc : GitBranchResult) (line : str) : GitBranchResult :=
  let parts := split "|"%char line in
  let branchName := part 0 parts in
  if isEmpty branchName then acc
  else
    let headMark := str_eqb (part 3 parts) (lit "*") in
    {| all := all acc ++ [branchName];
       current := if headMark then branchName else current acc;
       branches :=
         setBranch branchName
           {| isCurrent := headMark;
              name := branchName;
              commit := part 1 parts;
              label := stripPrefix (lit "remotes/") branchName;
              tracking := if isEmpty (part 2 parts) then None else Some (part 2 parts);
              ahead := None;
              behind := None |}
           (branches acc) |}.

Definition noBranches : GitBranchResult :=
  {| all := []; current := []; branches := emptyTable |}.

Definition branchListArgs : list str :=
  map lit [ "branch"; "-a"; "-v";
            "--format=%(refname:short)|%(objectname:short)|%(upstream:short)|%(HEAD)" ]%string.

Section Run.

Variable host : Host.

Definition getGitBranchesRaw (directory : str) : M host GitBranchResult :=
  bind (doExecGit host branchListArgs directory)
    (fun result =>
       if negb (exitCode result =? 0)%Z then ret noBranches
       else
         let lines := filterNonEmpty (split (ascii_of_nat 10) (trim (stdout result))) in
         ret (fold_left branchLineStep lines noBranches)).

End Run.

(** The branches that the worktrees have checked out:
    [wt.branch.replace(/^refs\/heads\//, '')] of every worktree that has
    a branch. *)
Definition checkedOutBranches (worktrees : list GitWorktreeInfo) : list str :=
  flat_map (fun wt => if isEmpty (infoBranch wt) then []
                      else [stripPrefix (lit "refs/heads/") (infoBranch wt)])
           worktrees.

(** The loop of [getAvailableBranchesForWorktree] over the branches and
    the worktrees that it was given. *)
Definition availableBranches (listed : GitBranchResult) (worktrees : list GitWorktreeInfo)
  : list GitBranchDetails :=
  let checkedOut := checkedOutBranches worktrees in
  flat_map (fun branchName =>
              if startsWith (lit "remotes/") branchName then []
              else if existsb (str_eqb branchName) checkedOut then []
              else match branches listed branchName with
                   | Some details => [details]
                   | None => []
                   end)
           (all listed).

End Branches.

Coercion Branches.lookup : Branches.BranchTable >-> Funclass.

(* ------------------------------------------------------------------ *)
(** ** The status through the structured adapter: the files *)

Module StatusFiles.

(** A change that the adapter reports, with the path of its resource
    relative to the workspace ([asRelativePath]). *)
Record Change := {
  changePath : str;
  changeStatus : Status
}.

(** The loop over the index changes of [getGitStatus]. *)
Definition indexFiles (indexChanges : list Change) : list GitStatusFile :=
  map (fun change => {| filePath := changePath change;
                        index := mapStatus (changeStatus change);
                        working_dir := lit " " |})
      indexChanges.

(** [existing = files.find(f => f.path === relativePath)] followed by
    [existing.working_dir = letter]: the first file of that path is
    updated where it stands; [None] when there is none. *)
Fixpoint setWorkingDir (relativePath letter : str) (files : list GitStatusFile)
  : option (list GitStatusFile) :=
  match files with
  | [] => None
  | f :: rest =>
      if str_eqb (filePath f) relativePath
      then Some ({| filePath := filePath f; index := index f; working_dir := letter |} :: rest)
      else match setWorkingDir relativePath letter rest with
           | Some rest' => Some (f :: rest')
           | None => None
           end
  end.

(** One iteration of the loop over the working tree changes. *)
Definition workingTreeStep (files : list GitStatusFile) (change : Change)
  : list GitStatusFile :=
  match setWorkingDir (changePath change) (mapStatus (changeStatus change)) files with
  | Some files' => files'
  | None => files ++ [{| filePath := changePath change;
                         index := lit " ";
                         working_dir := mapStatus (changeStatus change) |}]
  end.

(** The files of [getGitStatus]: the two loops. *)
Definition collectStatusFiles (indexChanges workingTreeChanges : list Change)
  : list GitStatusFile :=
  fold_left workingTreeStep workingTreeChanges (indexFiles indexChanges).

End StatusFiles.

(* ------------------------------------------------------------------ *)
(** ** The files of a range *)

Section RangeFiles.

Variable host : Host.

Notation "x <- m ;; k" := (bind m (fun x => k))
  (at level 61, m at next level, right associativity).

(** The reference whose existence makes [origin/<base>] the base. *)
Definition verifyOriginArgs (baseRef : str) : list str :=
  [lit "rev-parse"; lit "--verify"; lit "refs/remotes/origin/" ++ baseRef].

Definition rangeDiffArgs (resolvedBase headRef : str) : list str :=
  [lit "diff"; lit "--name-only"; resolvedBase ++ lit "..." ++ headRef].

(** [getGitRangeFiles] *)
Definition getGitRangeFiles (directory base head : str) : M host (list str) :=
  let baseRef := trim base in
  let headRef := trim head in
  if isEmpty baseRef || isEmpty headRef then ret []
  else
    resolvedBase <-
      tryCatch
        (verify <- doExecGit host (verifyOriginArgs baseRef) directory ;;
         ret (if (exitCode verify =? 0)%Z then lit "origin/" ++ baseRef else baseRef))
        (fun _ => ret baseRef) ;;
    result <- doExecGit host (rangeDiffArgs resolvedBase headRef) directory ;;
    if negb (exitCode result =? 0)%Z then ret []
    else ret (filterNonEmpty (map trim (split (ascii_of_nat 10) (stdout result)))).

End RangeFiles.

(* ------------------------------------------------------------------ *)
(** ** Vocabulary of the statements *)

(** Modelled from the spec: the [Status] enum of the structured adapter
    ([git.d.ts] is not among the sources); the names and their numbers
    are the ones annotated in the table of [mapStatus]. *)
Module StatusCode.
Definition INDEX_MODIFIED : Status := 0%Z.
Definition INDEX_ADDED : Status := 1%Z.
Definition INDEX_DELETED : Status := 2%Z.
Definition INDEX_RENAMED : Status := 3%Z.
Definition INDEX_COPIED : Status := 4%Z.
Definition MODIFIED : Status := 5%Z.
Definition DELETED : Status := 6%Z.
Definition UNTRACKED : Status := 7%Z.
Definition IGNORED : Status := 8%Z.
Definition INTENT_TO_ADD : Status := 9%Z.
Definition INTENT_TO_RENAME : Status := 10%Z.
Definition TYPE_CHANGED : Status := 11%Z.
Definition ADDED_BY_US : Status := 12%Z.
Definition ADDED_BY_THEM : Status := 13%Z.
Definition DELETED_BY_US : Status := 14%Z.
Definition DELETED_BY_THEM : Status := 15%Z.
Definition BOTH_ADDED : Status := 16%Z.
Definition BOTH_DELETED : Status := 17%Z.
Definition BOTH_MODIFIED : Status := 18%Z.

(** The "both/added-by/deleted-by" states of the table. *)
Definition conflictStates : list Status :=
  [ADDED_BY_US; ADDED_BY_THEM; DELETED_BY_US; DELETED_BY_THEM;
   BOTH_ADDED; BOTH_DELETED; BOTH_MODIFIED].
End StatusCode.

(** No two hyphens in a row. *)
Fixpoint noDoubleHyphen (s : str) : bool :=
  match s with
  | a :: (b :: _) as t => negb (isHyphen a && isHyphen b) && noDoubleHyphen t
  | _ => true
  end.

Definition firstChar (s : str) : option ascii := List.hd_error s.
Definition lastChar (s : str) : option ascii := List.hd_error (rev s).

(** [s] matches [^[A-Za-z0-9._-]{0,80}$]. *)
Definition matchesSlugPattern (s : str) : Prop :=
  Forall (fun c => isSlugChar c = true) s /\ length s <= 80.

(** A string that [trim] leaves alone. *)
Definition trimmed (s : str) : Prop := trim s = s.

Definition noSlash (s : str) : Prop := ~ In "/"%char s.

(** The command line of the raw status. *)
Definition statusArgs : list str := map lit ["status"; "--porcelain=v1"; "-b"; "-uall"]%string.

(** The status of a clean repository whose branch has no name. *)
Definition emptyStatus : GitStatusResult :=
  {| current := []; tracking := None; ahead := 0; behind := 0;
     files := []; isClean := true;
     mergeInProgress := None; rebaseInProgress := None |}.

(** The command line that reads the conflict list back. *)
Definition porcelainArgs : list str := map lit ["status"; "--porcelain"]%string.

Definition completed : GitMergeResult :=
  {| mergeSuccess := true; conflict := Some false; conflictFiles := None |}.

Definition conflicted (paths : list str) : GitMergeResult :=
  {| mergeSuccess := false; conflict := Some true; conflictFiles := Some paths |}.

(** [stdout + stderr], lower-cased: the text the phrases are looked up in. *)
Definition combinedOutput (result : ExecResult) : str :=
  toLowerCase (stdout result ++ stderr result).

(** A key path free of every character of the denylist. *)
Definition safeKeyPath (p : str) : Prop := existsb isDangerousChar p = false.

(** The MSYS form of a path: a leading drive prefix [X:/] becomes [/x/]. *)
Definition msysPath (p : str) : str :=
  match p with
  | drive :: colon :: slash :: rest =>
      if isAsciiLetter drive && chr_eqb colon ":"%char && chr_eqb slash "/"%char
      then "/"%char :: lowerChar drive :: "/"%char :: rest
      else p
  | _ => p
  end.

(** The path as the generated command quotes it. *)
Definition quotedKeyPath (host : Host) (p : str) : str :=
  if platform_win32 host then msysPath p else p.

Definition sshCommandFor (host : Host) (p : str) : str :=
  lit "ssh -i '" ++ quotedKeyPath host p ++ lit "' -o IdentitiesOnly=yes".







(** *** Kinds of events *)

(** Git commands that only read: [rev-parse], [rev-list], [show-ref],
    [ls-remote], [worktree list], [remote get-url]. *)
Definition isQueryCommand (args : list str) : bool :=
  match args with
  | cmd :: rest =>
      str_eqb cmd (lit "rev-parse") || str_eqb cmd (lit "rev-list")
      || str_eqb cmd (lit "show-ref") || str_eqb cmd (lit "ls-remote")
      || (str_eqb cmd (lit "worktree")
          && match rest with sub :: _ => str_eqb sub (lit "list") | [] => false end)
      || (str_eqb cmd (lit "remote")
          && match rest with sub :: _ => str_eqb sub (lit "get-url") | [] => false end)
  | [] => false
  end.

Definition isFetchCommand (args : list str) : bool :=
  match args with
  | cmd :: _ => str_eqb cmd (lit "fetch")
  | [] => false
  end.

(** Events that change nothing: read-only git commands and reads of the
    file system. *)
Definition isObservation (ev : Event) : Prop :=
  match ev with
  | EvExecGit args _ => isQueryCommand args = true
  | EvReadFile _ | EvStat _ | EvRealpath _ => True
  | _ => False
  end.

Definition gitDirOf (host : Host) (primary : str) : str :=
  path_join host [primary; lit ".git"].

(** The marker file that caches the project ID. *)
Definition idFileOf (host : Host) (primary : str) : str :=
  path_join host [gitDirOf host primary; lit "opencode"].

(** The write of the project-ID marker: [mkdir] of the git directory and
    [writeFile] of the marker. *)
Definition isMarkerWrite (host : Host) (ev : Event) : Prop :=
  (exists primary, ev = EvMkdir (gitDirOf host primary)) \/
  (exists primary content, ev = EvWriteFile (idFileOf host primary) content).

(** Every event a computation produces, whatever the world, satisfies [P]. *)
Definition emits {A} (host : Host) (P : Event -> Prop) (m : M host A) : Prop :=
  forall w, Forall P (snd (m w)).

(** A computation that returns, whatever the world, a value that
    satisfies [Q]. *)
Definition returns {A} (host : Host) (Q : A -> Prop) (m : M host A) : Prop :=
  forall w, exists a w1 t, m w = (Ok a, w1, t) /\ Q a.

(** The primary worktree that the resolution of the context finds from
    [directory] in the world [w], by the two [rev-parse] commands, and
    the world in which it then reads the project-ID marker. *)
Definition contextProbe (host : Host) (directory : str) (w : World host) : str * World host :=
  let directoryPath := normalizeDirectoryPath host directory in
  let top :=
    execGit host (map lit ["rev-parse"; "--show-toplevel"]%string) directoryPath w in
  let sandbox := path_resolve host [directoryPath; trim (stdout (fst top))] in
  let common :=
    execGit host (map lit ["rev-parse"; "--git-common-dir"]%string) sandbox (snd top) in
  (path_dirname host (path_resolve host [sandbox; trim (stdout (fst common))]), snd common).

(** The marker of the primary worktree holds a project ID when the
    resolution of the context reads it. *)
Definition idCached (host : Host) (directory : str) (w : World host) : Prop :=
  exists text,
    fst (fs_readFile host (idFileOf host (fst (contextProbe host directory w)))
           (snd (contextProbe host directory w))) = Ok text /\
    trim text <> [].

(** The write of the project-ID marker of one primary worktree. *)
Definition markerWriteAt (host : Host) (primary : str) (ev : Event) : Prop :=
  ev = EvMkdir (gitDirOf host primary) \/
  exists content, ev = EvWriteFile (idFileOf host primary) content.

(** [git fetch <remote> +refs/heads/<branch>:refs/remotes/<remote>/<branch>] *)
Definition fetchArgs (remoteName branchName : str) : list str :=
  [ lit "fetch"; trim remoteName;
    lit "+refs/heads/" ++ trim branchName ++ lit ":refs/remotes/" ++ trim remoteName
      ++ lit "/" ++ trim branchName ].

(** The fetch of the remote branch that an [existing]-mode request
    names, in the primary worktree. *)
Definition validationFetch (input : CreateGitWorktreePayload) (primary : str) (ev : Event)
  : Prop :=
  exists ref,
    parseRemoteBranchRef (trim (optStr (existingBranch input))) = Some ref /\
    ev = EvExecGit (fetchArgs (remote ref) (branch ref)) primary.

(** What the validation of [input] from [directory] may do when it
    starts in [w]: observe, write the marker of the primary worktree,
    and, in [existing] mode, fetch the requested remote branch. *)
Definition validationEvent (host : Host) (directory : str) (input : CreateGitWorktreePayload)
    (w : World host) (ev : Event) : Prop :=
  isObservation ev \/
  markerWriteAt host (fst (contextProbe host directory w)) ev \/
  (payloadMode input = ModeExisting /\
   validationFetch input (fst (contextProbe host directory w)) ev).

(** What the resolution of the project context may do. *)
Definition contextEvent (host : Host) (ev : Event) : Prop :=
  isObservation ev \/ isMarkerWrite host ev.

(** *** The metadata store *)

(** An entry as the store keeps it: trimmed and not empty. *)
Definition normalizedEntry (e : str) : Prop := trim e = e /\ e <> [].

Definition storageDirOf (host : Host) (projectID : str) : str :=
  path_dirname host (getProjectStoragePath host projectID).

(** The record that the removal of [sandboxPath] writes when it read
    [current]. *)
Definition withoutSandbox (current : Project) (sandboxPath : str) : Project :=
  finalizeProject
    (withSandboxes current
       (filter (fun entry => negb (str_eqb entry (trim sandboxPath))) (sandboxes current))).

Definition isWarning (ev : Event) : Prop := exists text, ev = EvWarn text.

(* ------------------------------------------------------------------ *)
(** ** Scripts of the concrete cases *)

Module Cases.

Import Scripted.

Definition bareScript (reply : list str -> str -> ExecResult) : Script := {|
  gitReply := reply;
  present := fun _ => false;
  fileText := fun _ => None;
  writable := fun _ => true;
  removable := fun _ => true;
  realPaths := fun p => Some p;
  win32 := false;
  adapter := false;
  adapterWritable := true
|}.

(** A directory that is no repository: every git command fails. *)
Definition notARepository : Script :=
  bareScript (fun _ _ => exec "" "fatal: not a git repository" 128).

(** A repository where every git command succeeds and prints nothing. *)
Definition silentRepository : Script :=
  bareScript (fun _ _ => exec "" "" 0).

(** A merge that stops on a conflict in [x.txt]. *)
Definition conflictReply (args : list str) (cwd : str) : ExecResult :=
  match args with
  | cmd :: _ =>
      if str_eqb cmd (lit "status")
      then {| stdout := lit "UU x.txt" ++ newline ++ lit "M  y.txt" ++ newline;
              stderr := []; exitCode := 0 |}
      else exec "CONFLICT (content): Merge conflict in x.txt" "" 1
  | [] => exec "" "usage" 1
  end.

Definition conflictingRepository : Script := bareScript conflictReply.

(** A failure whose only conflict-like phrase is "could not apply". *)
Definition couldNotApply : Script :=
  bareScript (fun _ _ => exec "" "error: could not apply 1a2b3c4" 1).

(** A failure whose only conflict-like phrase is "Automatic merge failed". *)
Definition automaticMergeFailed : Script :=
  bareScript (fun _ _ => exec "Automatic merge failed" "" 1).

(** A Windows machine without the structured adapter. *)
Definition windowsMachine : Script := {|
  gitReply := fun _ _ => exec "" "" 0;
  present := fun _ => false;
  fileText := fun _ => None;
  writable := fun _ => true;
  removable := fun _ => true;
  realPaths := fun p => Some p;
  win32 := true;
  adapter := false;
  adapterWritable := true
|}.

(** A machine whose structured adapter accepts every setting. *)
Definition adapterMachine : Script := {|
  gitReply := fun _ _ => exec "" "" 0;
  present := fun _ => false;
  fileText := fun _ => None;
  writable := fun _ => true;
  removable := fun _ => true;
  realPaths := fun p => Some p;
  win32 := false;
  adapter := true;
  adapterWritable := true
|}.

(** The repository of [Scripted.repoScript] once the worktree directory
    [demo] exists. *)
Definition demoDirectory : str := lit "/data/opencode/worktree/abc123/demo".





(** A request for a new worktree called [demo]. *)
Definition demoRequest : CreateGitWorktreePayload := {|
  mode := Some ModeNew;
  worktreeName := Some (lit "demo");
  name := None;
  branchName := None;
  existingBranch := None;
  startRef := None;
  startCommand := None;
  setUpstream := None;
  upstreamRemote := None;
  upstreamBranch := None;
  ensureRemoteName := None;
  ensureRemoteUrl := None
|}.


(** A worktree path that git no longer lists. *)
Definition goneDirectory : str := lit "/data/opencode/worktree/abc123/gone".

Definition removeGone : RemoveGitWorktreePayload :=
  {| removeDirectory := goneDirectory; deleteLocalBranch := None |}.

(** The repository with [gone] still registered in the store and absent
    from disk. *)
Definition goneRegistered : Script := {|
  gitReply := repoGit;
  present := fun p => str_eqb p (lit "/repo");
  fileText := fun p => if str_eqb p idFile then Some (lit "abc123")
                       else if str_eqb p storeFile
                       then Some (demoDirectory ++ newline ++ goneDirectory)
                       else None;
  writable := fun _ => true;
  removable := fun _ => true;
  realPaths := fun p => Some p;
  win32 := false;
  adapter := false;
  adapterWritable := true
|}.

(** The same, on a data directory that cannot be written. *)
Definition storeReadOnly : Script := {|
  gitReply := repoGit;
  present := fun p => str_eqb p (lit "/repo");
  fileText := fileText goneRegistered;
  writable := fun _ => false;
  removable := fun _ => true;
  realPaths := fun p => Some p;
  win32 := false;
  adapter := false;
  adapterWritable := true
|}.

(** The same, with [gone] still on disk and not deletable. *)
Definition undeletable : Script := {|
  gitReply := repoGit;
  present := fun p => str_eqb p (lit "/repo") || str_eqb p goneDirectory;
  fileText := fileText goneRegistered;
  writable := fun _ => true;
  removable := fun _ => false;
  realPaths := fun p => Some p;
  win32 := false;
  adapter := false;
  adapterWritable := true
|}.

(** The context that every script over [repoGit] resolves to. *)
Definition repoContext : ProjectContext :=
  {| projectID := lit "abc123"; sandbox := lit "/repo";
     primaryWorktree := lit "/repo";
     worktreeRoot := lit "/data/opencode/worktree/abc123" |}.

(** A request for a new worktree on the branch [main], which exists. *)
Definition mainRequest : CreateGitWorktreePayload := {|
  mode := Some ModeNew;
  worktreeName := Some (lit "demo");
  name := None;
  branchName := Some (lit "main");
  existingBranch := None;
  startRef := None;
  startCommand := None;
  setUpstream := None;
  upstreamRemote := None;
  upstreamBranch := None;
  ensureRemoteName := None;
  ensureRemoteUrl := None
|}.

(** A request for a worktree on the remote branch [origin/feature]. *)
Definition remoteRequest : CreateGitWorktreePayload := {|
  mode := Some ModeExisting;
  worktreeName := Some (lit "feature");
  name := None;
  branchName := None;
  existingBranch := Some (lit "origin/feature");
  startRef := None;
  startCommand := None;
  setUpstream := None;
  upstreamRemote := None;
  upstreamBranch := None;
  ensureRemoteName := None;
  ensureRemoteUrl := None
|}.

(** The repository of [Scripted.repoScript] before its project ID was
    cached in the marker file. *)
Definition freshClone : Script := {|
  gitReply := repoGit;
  present := fun p => str_eqb p (lit "/repo");
  fileText := fun _ => None;
  writable := fun _ => true;
  removable := fun _ => true;
  realPaths := fun p => Some p;
  win32 := false;
  adapter := false;
  adapterWritable := true
|}.

(** A repository where every file reads as the cached project ID. *)
Definition cachedClone : Script := {|
  gitReply := repoGit;
  present := fun p => str_eqb p (lit "/repo");
  fileText := fun _ => Some (lit "abc123");
  writable := fun _ => true;
  removable := fun _ => true;
  realPaths := fun p => Some p;
  win32 := false;
  adapter := false;
  adapterWritable := true
|}.

End Cases.

(* ------------------------------------------------------------------ *)
(** ** Vocabulary of the further properties *)

(** *** Names and worktree listings *)

(** A name that already is a slug: the pattern, no hyphen pair, no hyphen
    at either end. *)
Definition wellFormedSlug (s : str) : Prop :=
  matchesSlugPattern s /\ noDoubleHyphen s = true /\
  firstChar s <> Some "-"%char /\ lastChar s <> Some "-"%char.

(** A field of a porcelain record as git prints it: trimmed, not empty,
    on one line. *)
Definition porcelainField (s : str) : Prop :=
  normalizedEntry s /\ ~ In (ascii_of_nat 10) s.

(** One worktree as [git worktree list --porcelain] describes it: its
    path, its commit and, unless the head is detached, its branch ref. *)
Record WorktreeRecord := {
  recordPath : str;
  recordHead : str;
  recordBranch : option str
}.

Definition wellFormedRecord (r : WorktreeRecord) : Prop :=
  porcelainField (recordPath r) /\ porcelainField (recordHead r) /\
  match recordBranch r with Some ref => porcelainField ref | None => True end.

(** The block of lines git prints for one worktree, closed by an empty
    line. *)
Definition porcelainBlock (r : WorktreeRecord) : str :=
  lit "worktree " ++ recordPath r ++ newline
  ++ lit "HEAD " ++ recordHead r ++ newline
  ++ match recordBranch r with
     | Some ref => lit "branch " ++ ref ++ newline
     | None => lit "detached" ++ newline
     end
  ++ newline.

Definition porcelainOf (records : list WorktreeRecord) : str :=
  flat_map porcelainBlock records.

(** The entry that the parser is expected to build for a record. *)
Definition entryOfRecord (r : WorktreeRecord) : WorktreeListEntry :=
  {| worktree := recordPath r;
     head := Some (recordHead r);
     branchRef := recordBranch r;
     entryBranch := match recordBranch r with
                    | Some ref => Some (cleanBranchName ref)
                    | None => None
                    end |}.

(** The lines of the block of a record. *)
Definition blockLines (r : WorktreeRecord) : list str :=
  [ lit "worktree " ++ recordPath r;
    lit "HEAD " ++ recordHead r;
    match recordBranch r with
    | Some ref => lit "branch " ++ ref
    | None => lit "detached"
    end;
    [] ].

(** What every parsed entry satisfies: a path that is trimmed and not
    empty, a trimmed head and branch ref, and a branch that is the cleaned
    branch ref. *)
Definition consistentEntry (e : WorktreeListEntry) : Prop :=
  trimmed (worktree e) /\
  match head e with Some h => trimmed h | None => True end /\
  match branchRef e with Some ref => trimmed ref | None => True end /\
  entryBranch e = match branchRef e with
                  | Some ref => Some (cleanBranchName ref)
                  | None => None
                  end.

Definition listedEntry (e : WorktreeListEntry) : Prop :=
  worktree e <> [] /\ consistentEntry e.

(** A primary worktree on [main] and a linked one with a detached head. *)
Definition twoWorktrees : list WorktreeRecord :=
  [ {| recordPath := lit "/repo"; recordHead := lit "1111111";
       recordBranch := Some (lit "refs/heads/main") |};
    {| recordPath := lit "/data/wt/demo"; recordHead := lit "2222222";
       recordBranch := None |} ].

(** *** The project metadata store *)

(** The world in which [updateProjectSandboxes] reads the stored record:
    after [mkdir] and the reading of the clock. *)
Definition worldAtRead (host : Host) (projectID : str) (w : World host) : World host :=
  snd (date_now host (snd (fs_mkdir host (storageDirOf host projectID) w))).

(** The record that [updateProjectSandboxes] hands to its updater when it
    starts in [w]: what the store holds, normalized, or the defaults. *)
Definition storedProject (host : Host) (projectID primary : str) (w : World host) : Project :=
  let now := fst (date_now host (snd (fs_mkdir host (storageDirOf host projectID) w))) in
  let reading := fs_readFile host (getProjectStoragePath host projectID)
                   (worldAtRead host projectID w) in
  currentProject projectID primary now
    (match fst reading with
     | Ok raw => JSON_parse_project host raw
     | Throw _ => None
     end).

(** The world in which the record is written. *)
Definition worldAtWrite (host : Host) (projectID : str) (w : World host) : World host :=
  snd (fs_readFile host (getProjectStoragePath host projectID) (worldAtRead host projectID w)).

(** The four steps of an update of the store that gets as far as the
    write. *)
Definition storeUpdateTrace (host : Host) (projectID content : str) : list Event :=
  [ EvMkdir (storageDirOf host projectID); EvDateNow;
    EvReadFile (getProjectStoragePath host projectID);
    EvWriteFile (getProjectStoragePath host projectID) content ].

Definition recordText (host : Host) (record : Project) : str :=
  JSON_stringify_project host record ++ newline.

(** The warning that a failed deregistration leaves. *)
Definition removeWarning (message : str) : Event :=
  EvWarn (lit "[GitService] Failed to sync OpenCode sandbox metadata (remove): " ++ message).

(** What the logged deregistration of [target] does when it starts in
    [w], by what the store answers there.  When the storage directory
    can be made, the record to write is the stored one without the
    target: when the write is accepted these four steps are all, and
    when it is refused the refusal is logged.  When the directory cannot
    be made, that is logged and nothing is written. *)
Definition deregistered (host : Host) (context : ProjectContext) (target : str)
    (w : World host) (tsync : list Event) : Prop :=
  let record :=
    withoutSandbox (storedProject host (projectID context) (primaryWorktree context) w) target in
  let content := recordText host record in
  let written :=
    fs_writeFile host (getProjectStoragePath host (projectID context)) content
      (worldAtWrite host (projectID context) w) in
  match fst (fs_mkdir host (storageDirOf host (projectID context)) w) with
  | Ok _ =>
      ~ In target (sandboxes record) /\ ~ In (trim target) (sandboxes record) /\
      match fst written with
      | Ok _ => tsync = storeUpdateTrace host (projectID context) content
      | Throw e => tsync = storeUpdateTrace host (projectID context) content ++ [removeWarning e]
      end
  | Throw e => tsync = [EvMkdir (storageDirOf host (projectID context)); removeWarning e]
  end.

Definition isWrite (ev : Event) : bool :=
  match ev with EvWriteFile _ _ => true | _ => false end.

(** Two records that differ at most in their sandboxes. *)
Definition sameMembers (a b : Project) : Prop :=
  id a = id b /\ projectWorktree a = projectWorktree b /\ vcs a = vcs b /\
  timeCreated a = timeCreated b /\ timeUpdated a = timeUpdated b /\ extra a = extra b.

(** *** Branches in use *)

Definition worktreeListArgs : list str := map lit ["worktree"; "list"; "--porcelain"]%string.

(** The worktree has the branch [name] checked out: its branch ref,
    cleaned, is [name]. *)
Definition checkedOutOn (name : str) (r : WorktreeRecord) : bool :=
  match recordBranch r with
  | Some ref => str_eqb (cleanBranchName ref) name
  | None => false
  end.

(** *** Computations and their results *)

(** Whenever the computation returns, its value satisfies [Q]. *)
Definition ensures {A} (host : Host) (Q : A -> Prop) (m : M host A) : Prop :=
  forall w a w1 t, m w = (Ok a, w1, t) -> Q a.

(** Reads of the file system. *)
Definition isFileRead (ev : Event) : Prop :=
  match ev with
  | EvReadFile _ | EvStat _ => True
  | _ => False
  end.

(** *** The header of [git status --porcelain=v1 -b] *)

Definition isFullStop (c : ascii) : bool := chr_eqb c "."%char.

Fixpoint noDoubleDot (s : str) : bool :=
  match s with
  | a :: (b :: _) as t => negb (isFullStop a && isFullStop b) && noDoubleDot t
  | _ => true
  end.

Definition visible (s : str) : Prop := Forall (fun c => isSpace c = false) s.

(** A branch name as git allows it, as far as the header is concerned:
    not empty, no white space, no two dots in a row, no dot at the end. *)
Definition refName (s : str) : Prop :=
  s <> [] /\ visible s /\ noDoubleDot s = true /\ lastChar s <> Some "."%char.

(** The name of an upstream: not empty, no white space. *)
Definition upstreamName (s : str) : Prop := s <> [] /\ visible s.

(** A count as git prints it: decimal digits. *)
Definition decimal (s : str) : Prop := s <> [] /\ Forall (fun c => isDigit c = true) s.

(** A count that a double holds exactly: decimal digits that write a
    number below [2^53]. *)
Definition safeCount (s : str) : Prop := decimal s /\ (decimalValue s < 2 ^ 53)%Z.

(** How a branch stands with respect to its upstream, the counts being
    the digits that git prints. *)
Inductive Divergence : Type :=
| UpToDate
| Ahead (count : str)
| Behind (count : str)
| Diverged (aheadCount behindCount : str)
| Gone.

Definition wellFormedDivergence (d : Divergence) : Prop :=
  match d with
  | UpToDate | Gone => True
  | Ahead n | Behind n => safeCount n
  | Diverged a b => safeCount a /\ safeCount b
  end.

(** The text between the brackets of the header. *)
Definition divergenceText (d : Divergence) : option str :=
  match d with
  | UpToDate => None
  | Ahead n => Some (lit "ahead " ++ n)
  | Behind n => Some (lit "behind " ++ n)
  | Diverged a b => Some (lit "ahead " ++ a ++ lit ", behind " ++ b)
  | Gone => Some (lit "gone")
  end.

(** The counts that the digits write. *)
Definition aheadOf (d : Divergence) : Z :=
  match d with
  | Ahead n | Diverged n _ => decimalValue n
  | _ => 0%Z
  end.

Definition behindOf (d : Divergence) : Z :=
  match d with
  | Behind n | Diverged _ n => decimalValue n
  | _ => 0%Z
  end.

(** The header line for a branch and, when it has one, its upstream. *)
Definition headerLine (branchName : str) (upstream : option (str * Divergence)) : str :=
  lit "## " ++ branchName
  ++ match upstream with
     | Some (name, d) =>
         lit "..." ++ name
         ++ match divergenceText d with
            | Some text => lit " [" ++ text ++ lit "]"
            | None => []
            end
     | None => []
     end.

(** The part of the header after the branch name. *)
Definition headerTail (upstream : option (str * Divergence)) : str :=
  match upstream with
  | Some (name, d) =>
      lit "..." ++ name
      ++ match divergenceText d with
         | Some text => lit " [" ++ text ++ lit "]"
         | None => []
         end
  | None => []
  end.

Definition wellFormedUpstream (upstream : option (str * Divergence)) : Prop :=
  match upstream with
  | Some (name, d) => upstreamName name /\ wellFormedDivergence d
  | None => True
  end.

(** The lines that [getGitStatusRaw] loops over. *)
Definition statusLines (out : str) : list str :=
  filterNonEmpty (split (ascii_of_nat 10) (trim out)).

(** The file entry made from a line that is not a header. *)
Definition fileOfLine (line : str) : GitStatusFile :=
  {| filePath := trim (sliceFrom 3 line);
     index := match nth_error line 0 with Some c => [c] | None => lit " " end;
     working_dir := match nth_error line 1 with Some c => [c] | None => lit " " end |}.

Definition isHeaderLine (line : str) : bool := startsWith (lit "##") line.

(** What [checkInProgressOperations] may report: a merge only with a
    short, non-empty commit id; a rebase only with a branch or a commit
    id, the latter short. *)
Definition plausibleMerge (m : option GitMergeInProgress) : Prop :=
  match m with
  | Some merging => mergeHead merging <> [] /\ length (mergeHead merging) <= 7
  | None => True
  end.

Definition plausibleRebase (r : option GitRebaseInProgress) : Prop :=
  match r with
  | Some rebasing =>
      (headName rebasing <> [] \/ onto rebasing <> []) /\ length (onto rebasing) <= 7
  | None => True
  end.

(** Whenever the computation rejects, every event it produced until then
    satisfies [P]. *)
Definition failsCleanly {A} (host : Host) (P : Event -> Prop) (m : M host A) : Prop :=
  forall w e w1 t, m w = (Throw e, w1, t) -> Forall P t.

(** The computation rejects, whatever the world, and every event it
    produced until then satisfies [P]. *)
Definition rejects {A} (host : Host) (P : Event -> Prop) (m : M host A) : Prop :=
  forall w, exists e w1 t, m w = (Throw e, w1, t) /\ Forall P t.

(** *** What the worktree operations may do *)

Definition isWorktreeRemoveCommand (args : list str) : bool :=
  match args with
  | a :: b :: c :: _ =>
      str_eqb a (lit "worktree") && str_eqb b (lit "remove") && str_eqb c (lit "--force")
  | _ => false
  end.

Definition isBranchDeleteCommand (args : list str) : bool :=
  match args with
  | a :: b :: _ => str_eqb a (lit "branch") && str_eqb b (lit "-D")
  | _ => false
  end.

(** The write of the project record: [mkdir] of the storage directory
    and [writeFile] of the storage file. *)
Definition isStoreWrite (host : Host) (ev : Event) : Prop :=
  (exists projectID, ev = EvMkdir (storageDirOf host projectID)) \/
  (exists projectID content, ev = EvWriteFile (getProjectStoragePath host projectID) content).

(** What a removal of [target] may do: look (read-only git commands,
    reads of the file system, the clock), write the project-ID marker and
    the project record, log, remove the directory [target], run
    [git worktree remove --force] and, only when asked to delete the
    branch, [git branch -D]. *)
Definition removalEvent (host : Host) (target : str) (deleteBranch : bool) (ev : Event) : Prop :=
  match ev with
  | EvExecGit args _ =>
      isQueryCommand args = true \/ isWorktreeRemoveCommand args = true
      \/ (deleteBranch = true /\ isBranchDeleteCommand args = true)
  | EvWriteFile _ _ | EvMkdir _ => isMarkerWrite host ev \/ isStoreWrite host ev
  | EvRm p => p = target
  | EvReadFile _ | EvStat _ | EvRealpath _ | EvDateNow | EvWarn _ => True
  | EvRandom | EvGetRepository _ | EvSetConfig _ _ | EvQueueStartScripts _ _ _ => False
  end.

(** *** What the identity setter may do *)

(** The command that [setGitIdentity] configures for a key, if any. *)
Definition sshCommandOf (host : Host) (sshKey : option str) : option str :=
  match sshKey with
  | Some key => if truthy key then Some (sshCommandFor host key) else None
  | None => None
  end.

Definition usableKey (sshKey : option str) : Prop :=
  match sshKey with Some key => safeKeyPath key | None => True end.

(** The three settings, as pairs of key and value. *)
Definition identitySetting (userName userEmail : str) (sshCommand : option str)
    (key value : str) : Prop :=
  (key = lit "user.name" /\ value = userName) \/
  (key = lit "user.email" /\ value = userEmail) \/
  (key = lit "core.sshCommand" /\ sshCommand = Some value).

(** Looking the repository up, writing one of the three settings through
    the adapter or through [git config] in the directory, logging. *)
Definition identityEvent (directory userName userEmail : str) (sshCommand : option str)
    (ev : Event) : Prop :=
  match ev with
  | EvGetRepository d => d = directory
  | EvSetConfig key value => identitySetting userName userEmail sshCommand key value
  | EvExecGit args cwd =>
      cwd = directory /\
      exists key value, args = [lit "config"; key; value] /\
                        identitySetting userName userEmail sshCommand key value
  | EvWarn _ => True
  | _ => False
  end.

(** *** What a creation does before it adds the worktree *)

(** Resolving the context (reads and, at most, the project-ID marker),
    making a directory, drawing random names and looking for free
    candidates. *)
Definition creationPrelude (host : Host) (ev : Event) : Prop :=
  contextEvent host ev \/ ev = EvRandom \/ (exists p, ev = EvMkdir p).

(** The point at which [createWorktree], in [new] mode, asks whether the
    branch of its candidate exists: the context it resolved and the
    world it has reached, after making the worktree root and finding a
    free candidate; nothing when it does not get that far. *)
Definition creationCheckpoint (host : Host) (directory : str)
    (input : CreateGitWorktreePayload) (w : World host)
  : option (ProjectContext * World host) :=
  match resolveWorktreeProjectContext host directory w with
  | (Ok context, w1, _) =>
      match fs_mkdir host (worktreeRoot context) w1 with
      | (Ok _, w2) =>
          match resolveCandidateDirectory host (worktreeRoot context)
                  (trim (orElse (optStr (worktreeName input)) (optStr (name input))))
                  (cleanBranchName (trim (optStr (branchName input))))
                  (primaryWorktree context) w2 with
          | (Ok _, w3, _) => Some (context, w3)
          | _ => None
          end
      | _ => None
      end
  | _ => None
  end.

(** *** Validation results *)

(** The codes that the checks of a validation give. *)
Definition checkCodes : list str :=
  map lit [ "branch_not_found"; "branch_exists"; "start_ref_not_found"; "remote_unreachable";
            "branch_in_use"; "invalid_remote_config"; "upstream_incomplete";
            "remote_not_found" ]%string.

Definition checkError (e : GitWorktreeValidationError) : Prop := In (code e) checkCodes.

(** A result as [validateWorktreeCreate] builds it: [ok] exactly when
    there is no error; either the checks ran, and the result carries the
    mode and errors of the checks only, or the validation failed as a
    whole, and the result carries the single error [validation_failed]
    and nothing resolved. *)
Definition coherentResult (requested : Mode) (r : GitWorktreeValidationResult) : Prop :=
  (ok r = true <-> errors r = []) /\
  match resolved r with
  | Some (resolvedMode, _) => resolvedMode = requested /\ Forall checkError (errors r)
  | None => exists message, errors r = [mkError "validation_failed" message]
  end.

(** Only one of the remote name and URL is given. *)
Definition unpairedRemote (input : CreateGitWorktreePayload) : Prop :=
  (trim (optStr (ensureRemoteName input)) <> [] /\ trim (optStr (ensureRemoteUrl input)) = []) \/
  (trim (optStr (ensureRemoteName input)) = [] /\ trim (optStr (ensureRemoteUrl input)) <> []).

(** *** The listing of [git remote -v] *)

(** A word: not empty, no white space. *)
Definition token (s : str) : Prop := s <> [] /\ visible s.

Definition wellFormedRemote (r : Remotes.GitRemote) : Prop :=
  token (Remotes.name r) /\ token (Remotes.fetchUrl r) /\ token (Remotes.pushUrl r).

(** The two lines that git prints for a remote. *)
Definition remoteLines (r : Remotes.GitRemote) : list str :=
  [ Remotes.name r ++ [ascii_of_nat 9] ++ Remotes.fetchUrl r ++ lit " (fetch)";
    Remotes.name r ++ [ascii_of_nat 9] ++ Remotes.pushUrl r ++ lit " (push)" ].

Definition remotesText (remotes : list Remotes.GitRemote) : str :=
  flat_map (fun line => line ++ [ascii_of_nat 10]) (flat_map remoteLines remotes).

Definition remoteArgs : list str := [lit "remote"; lit "-v"].

Definition kindText (kind : Remotes.UrlKind) : str :=
  match kind with
  | Remotes.Fetch => lit "(fetch)"
  | Remotes.Push => lit "(push)"
  end.

(** *** Pushing *)

Definition isPushCommand (args : list str) : bool :=
  match args with
  | cmd :: _ => str_eqb cmd (lit "push")
  | [] => false
  end.

Definition isPushEvent (ev : Event) : bool :=
  match ev with
  | EvExecGit args _ => isPushCommand args
  | _ => false
  end.

(** The number of events of a kind in a trace. *)
Definition countOf (kind : Event -> bool) (t : list Event) : nat := length (filter kind t).

(** Whatever the world, the computation produces at most [n] events of
    the kind. *)
Definition atMost {A} (host : Host) (kind : Event -> bool) (n : nat) (m : M host A) : Prop :=
  forall w, countOf kind (snd (m w)) <= n.

(** The branch that a push request names, if any. *)
Definition requestedBranch (options : option Push.PushOptions) : str :=
  match options with
  | Some o => optStr (Push.pushBranch o)
  | None => []
  end.

Definition requestedRemote (options : option Push.PushOptions) : str :=
  match options with
  | Some o => match Push.pushRemote o with Some r => trim r | None => [] end
  | None => []
  end.

(** An options object that only switches flags on and off. *)
Definition flagsOnly (entries : list (str * Push.OptionValue)) : Prop :=
  Forall (fun entry => match snd entry with
                       | Push.ValueNull | Push.ValueTrue | Push.ValueFalse => True
                       | _ => False
                       end) entries.

Definition distinctKeys (entries : list (str * Push.OptionValue)) : Prop :=
  NoDup (map fst entries).

(** Any event at all. *)
Definition anyEvent (ev : Event) : Prop := True.

(** *** Branch lists *)

(** Every listed name has its details, under that name, and every entry
    of the table is that of a listed name. *)
Definition coherentBranches (listed : Branches.GitBranchResult) : Prop :=
  (forall n, In n (Branches.all listed) ->
     n <> [] /\
     exists details, Branches.branches listed n = Some details /\
                     Branches.name details = n /\
                     Branches.label details = stripPrefix (lit "remotes/") n) /\
  (forall n details, Branches.branches listed n = Some details -> In n (Branches.all listed)) /\
  (Branches.current listed = [] \/ In (Branches.current listed) (Branches.all listed)).

(** The own properties of the table: one for every listed name other
    than [__proto__], holding the details of that name, and no other;
    the details of a listed [__proto__] are the prototype of the table. *)
Definition ownBranches (listed : Branches.GitBranchResult) : Prop :=
  (forall n, Branches.ownBranch (Branches.branches listed) n <> None <->
             In n (Branches.all listed) /\ n <> Branches.protoKey) /\
  (forall n details, Branches.ownBranch (Branches.branches listed) n = Some details ->
                     Branches.name details = n) /\
  (Branches.prototypeBranch (Branches.branches listed) <> None <->
   In Branches.protoKey (Branches.all listed)) /\
  (forall details, Branches.prototypeBranch (Branches.branches listed) = Some details ->
                   Branches.name details = Branches.protoKey).

(** *** Status letters *)

(** The letters that [mapStatus] gives, and the blank. *)
Definition statusLetters : list str :=
  map lit ["M"; "A"; "D"; "R"; "C"; "?"; "!"; "T"; "U"; " "]%string.

Definition statusLetter (s : str) : Prop := In s statusLetters.

(** *** Configuring a remote *)

Definition remoteQuery (name : str) : list str := [lit "remote"; lit "get-url"; name].

Definition remoteSetUrl (name url : str) : list str :=
  [lit "remote"; lit "set-url"; name; url].

Definition remoteAdd (name url : str) : list str := [lit "remote"; lit "add"; name; url].

(** A computation that returned. *)
Definition returned {A W} (run : Outcome A * W * list Event) : Prop :=
  match fst (fst run) with
  | Ok _ => True
  | Throw _ => False
  end.

(** *** Configuring the upstream of a branch *)

(** [git branch --set-upstream-to=...] *)
Definition isSetUpstreamCommand (args : list str) : bool :=
  match args with
  | cmd :: option :: _ =>
      str_eqb cmd (lit "branch") && startsWith (lit "--set-upstream-to=") option
  | _ => false
  end.

(** [git config branch....] *)
Definition isTrackingConfigCommand (args : list str) : bool :=
  match args with
  | cmd :: key :: _ => str_eqb cmd (lit "config") && startsWith (lit "branch.") key
  | _ => false
  end.

Definition commandEvent (kind : list str -> bool) (ev : Event) : bool :=
  match ev with
  | EvExecGit args _ => kind args
  | _ => false
  end.

(** A [git remote ...] command. *)
Definition isRemoteEvent (ev : Event) : Prop :=
  match ev with
  | EvExecGit (cmd :: _) _ => cmd = lit "remote"
  | _ => False
  end.

(** *** The files of a range *)

(** A path as a list of files should have it: not empty, no blank at
    either end. *)
Definition cleanPath (p : str) : Prop := p <> [] /\ trim p = p.

(** What the listing of the files of a range may run. *)
Definition rangeEvent (directory baseRef headRef : str) (ev : Event) : Prop :=
  ev = EvExecGit (verifyOriginArgs baseRef) directory \/
  ev = EvExecGit (rangeDiffArgs baseRef headRef) directory \/
  ev = EvExecGit (rangeDiffArgs (lit "origin/" ++ baseRef) headRef) directory.

(* ------------------------------------------------------------------ *)
(** ** Further scripts *)

Module Examples.

Import Scripted.

(** A repository on [main], two commits ahead of [origin/main] and one
    behind, with one modified and one untracked file. *)
Definition divergedReply (args : list str) (cwd : str) : ExecResult :=
  {| stdout := lit "## main...origin/main [ahead 2, behind 1]" ++ newline
               ++ lit " M src/a.ts" ++ newline
               ++ lit "?? notes.txt" ++ newline;
     stderr := []; exitCode := 0 |}.

Definition divergedRepository : Script := Cases.bareScript divergedReply.

(** A repository whose worktree listing is that of [twoWorktrees]. *)
Definition listingRepository : Script :=
  Cases.bareScript (fun _ _ => {| stdout := porcelainOf twoWorktrees;
                                  stderr := []; exitCode := 0 |}).

(** Two remotes, the first with a push URL of its own. *)
Definition twoRemotes : list Remotes.GitRemote :=
  [ {| Remotes.name := lit "origin";
       Remotes.fetchUrl := lit "https://example.org/app.git";
       Remotes.pushUrl := lit "git@example.org:app.git" |};
    {| Remotes.name := lit "upstream";
       Remotes.fetchUrl := lit "https://example.org/base.git";
       Remotes.pushUrl := lit "https://example.org/base.git" |} ].

Definition remotesRepository : Script :=
  Cases.bareScript (fun _ _ => {| stdout := remotesText twoRemotes;
                                  stderr := []; exitCode := 0 |}).

(** A request that names a remote and gives no URL for it. *)
Definition unpairedRequest : CreateGitWorktreePayload := {|
  mode := Some ModeNew;
  worktreeName := Some (lit "demo");
  name := None;
  branchName := None;
  existingBranch := None;
  startRef := None;
  startCommand := None;
  setUpstream := None;
  upstreamRemote := None;
  upstreamBranch := None;
  ensureRemoteName := Some (lit "fork");
  ensureRemoteUrl := None
|}.

(** A repository on [main] without upstream where every push fails for
    want of one. *)
Definition noUpstreamReply (args : list str) (cwd : str) : ExecResult :=
  if isPushCommand args
  then exec "" "fatal: The current branch main has no upstream branch." 128
  else if args_eqb args (map lit ["rev-parse"; "--abbrev-ref"; "HEAD"]%string)
  then exec "main" "" 0
  else exec "" "" 1.

Definition noUpstreamRepository : Script := Cases.bareScript noUpstreamReply.

Definition pushToOrigin : Push.PushOptions :=
  {| Push.pushRemote := Some (lit "origin"); Push.pushBranch := None;
     Push.gitOptions := None |}.

(** The branches [main] (current, tracking [origin/main]) and
    [feature], and a worktree that has [main] checked out. *)
Definition twoBranches : Branches.GitBranchResult :=
  fold_left Branches.branchLineStep
    [lit "main|1111111|origin/main|*"; lit "feature|2222222||"] Branches.noBranches.

Definition featureDetails : Branches.GitBranchDetails :=
  {| Branches.isCurrent := false; Branches.name := lit "feature";
     Branches.commit := lit "2222222"; Branches.label := lit "feature";
     Branches.tracking := None; Branches.ahead := None; Branches.behind := None |}.

Definition mainWorktree : GitWorktreeInfo :=
  {| infoHead := lit "1111111"; infoName := lit "repo";
     infoBranch := lit "main"; infoPath := lit "/repo" |}.

End Examples.

(* ------------------------------------------------------------------ *)
(** ** Lemmas on the string primitives *)

Section StringLemmas.

Lemma chr_eqb_eq a b : chr_eqb a b = true <-> a = b.
Proof. unfold chr_eqb. apply Ascii.eqb_eq. Qed.

Lemma chr_eqb_refl a : chr_eqb a a = true.
Proof. apply chr_eqb_eq. reflexivity. Qed.

Lemma chr_eqb_neq a b : chr_eqb a b = false <-> a <> b.
Proof. unfold chr_eqb. apply Ascii.eqb_neq. Qed.

Lemma str_eqb_eq a : forall b, str_eqb a b = true <-> a = b.
Proof.
  induction a as [|x a IH]; intros [|y b]; simpl; split; intro H;
    try reflexivity; try discriminate.
  - apply andb_true_iff in H. destruct H as [Hx Ha].
    apply chr_eqb_eq in Hx. apply IH in Ha. congruence.
  - injection H as -> ->. rewrite chr_eqb_refl. simpl. apply IH. reflexivity.
Qed.

Lemma str_eqb_refl a : str_eqb a a = true.
Proof. apply str_eqb_eq. reflexivity. Qed.

Lemma str_eqb_neq a b : str_eqb a b = false <-> a <> b.
Proof.
  split; intro H.
  - intro E. apply str_eqb_eq in E. congruence.
  - destruct (str_eqb a b) eqn:E; [apply str_eqb_eq in E; contradiction | reflexivity].
Qed.

Lemma isEmpty_true s : isEmpty s = true <-> s = [].
Proof. destruct s; simpl; split; congruence. Qed.

Lemma isEmpty_false s : isEmpty s = false <-> s <> [].
Proof. destruct s; simpl; split; congruence. Qed.

(** *** [dropWhile], [dropWhileEnd], [trim] *)

Lemma dropWhile_suffix p s : exists pre, s = pre ++ dropWhile p s /\ forallb p pre = true.
Proof.
  induction s as [|c t IH]; simpl.
  - exists []. split; reflexivity.
  - destruct (p c) eqn:E.
    + destruct IH as [pre [H1 H2]]. exists (c :: pre). simpl. rewrite E, H2.
      split; [f_equal; exact H1 | reflexivity].
    + exists []. split; reflexivity.
Qed.

Lemma dropWhileEnd_prefix p s : exists suf, s = dropWhileEnd p s ++ suf /\ forallb p suf = true.
Proof.
  unfold dropWhileEnd. destruct (dropWhile_suffix p (rev s)) as [pre [H1 H2]].
  exists (rev pre). split.
  - rewrite <- rev_app_distr, <- H1, rev_involutive. reflexivity.
  - rewrite forallb_forall in *. intros x Hx. apply H2. apply in_rev. exact Hx.
Qed.

Lemma dropWhile_head p s c t : dropWhile p s = c :: t -> p c = false.
Proof.
  induction s as [|x s IH]; simpl; [discriminate|].
  destruct (p x) eqn:E; [exact IH|]. intro H. injection H as -> _. exact E.
Qed.

Lemma dropWhile_app_stop p a c t :
  p c = false -> dropWhile p (a ++ c :: t) = dropWhile p a ++ c :: t \/
                 (forallb p a = true /\ dropWhile p (a ++ c :: t) = c :: t).
Proof.
  intro Hc. induction a as [|x a IH]; simpl.
  - rewrite Hc. right. split; reflexivity.
  - destruct (p x) eqn:E.
    + destruct IH as [IH | [IH1 IH2]]; [left; exact IH | right; split; assumption].
    + left. reflexivity.
Qed.

Lemma dropWhileEnd_snoc_stop p s c : p c = false -> dropWhileEnd p (s ++ [c]) = s ++ [c].
Proof.
  intro Hc. unfold dropWhileEnd. rewrite rev_app_distr. simpl. rewrite Hc.
  simpl. rewrite rev_involutive. reflexivity.
Qed.

Lemma Forall_dropWhile (P : ascii -> Prop) p s : Forall P s -> Forall P (dropWhile p s).
Proof.
  intro H. destruct (dropWhile_suffix p s) as [pre [E _]].
  rewrite E in H. apply Forall_app in H. tauto.
Qed.

Lemma Forall_dropWhileEnd (P : ascii -> Prop) p s : Forall P s -> Forall P (dropWhileEnd p s).
Proof.
  intro H. destruct (dropWhileEnd_prefix p s) as [suf [E _]].
  rewrite E in H. apply Forall_app in H. tauto.
Qed.

End StringLemmas.

Section TrimLemmas.

Lemma trim_decompose s :
  exists pre suf, s = pre ++ trim s ++ suf /\
                  forallb isSpace pre = true /\ forallb isSpace suf = true.
Proof.
  unfold trim.
  destruct (dropWhile_suffix isSpace s) as [pre [E1 H1]].
  destruct (dropWhileEnd_prefix isSpace (dropWhile isSpace s)) as [suf [E2 H2]].
  exists pre, suf. split; [|split; assumption].
  rewrite <- E2. exact E1.
Qed.

Lemma In_trim c s : In c (trim s) -> In c s.
Proof.
  destruct (trim_decompose s) as [pre [suf [E _]]]. intro H.
  rewrite E. apply in_or_app. right. apply in_or_app. left. exact H.
Qed.

(** A string that starts and ends with a character that is not white
    space is left alone by [trim]. *)
Lemma trim_ends c m d :
  isSpace c = false -> isSpace d = false -> trim (c :: m ++ [d]) = c :: m ++ [d].
Proof.
  intros Hc Hd. unfold trim. simpl. rewrite Hc.
  change (c :: m ++ [d]) with ((c :: m) ++ [d]).
  apply dropWhileEnd_snoc_stop. exact Hd.
Qed.

Lemma trim_single c : isSpace c = false -> trim [c] = [c].
Proof.
  intro Hc. unfold trim, dropWhileEnd. simpl. rewrite Hc. simpl. rewrite Hc. reflexivity.
Qed.

(** The shape of a trimmed string. *)
Lemma trim_shape s :
  trim s = [] \/
  (exists c, trim s = [c] /\ isSpace c = false) \/
  (exists c m d, trim s = c :: m ++ [d] /\ isSpace c = false /\ isSpace d = false).
Proof.
  unfold trim. set (u := dropWhile isSpace s).
  assert (Hu : match u with c :: _ => isSpace c = false | [] => True end).
  { destruct u as [|c t] eqn:E; [exact I|]. eapply dropWhile_head. exact E. }
  destruct (dropWhileEnd_prefix isSpace u) as [suf [E _]].
  unfold dropWhileEnd in *.
  destruct (dropWhile isSpace (rev u)) as [|d w] eqn:Ew; simpl in *.
  - left. reflexivity.
  - right. apply dropWhile_head in Ew as Hd.
    destruct (rev w) as [|c m] eqn:Erw; simpl in *.
    + left. exists d. split; [reflexivity | exact Hd].
    + right. exists c, m, d. split; [reflexivity|]. split; [|exact Hd].
      rewrite E in Hu. exact Hu.
Qed.

Lemma trim_idempotent s : trim (trim s) = trim s.
Proof.
  destruct (trim_shape s) as [E | [[c [E Hc]] | [c [m [d [E [Hc Hd]]]]]]]; rewrite E.
  - reflexivity.
  - apply trim_single. exact Hc.
  - apply trim_ends; assumption.
Qed.

(** Prepending a word that starts with a visible character to a trimmed,
    non-empty string gives a trimmed string. *)
Lemma trim_prepend c p x :
  isSpace c = false -> trim x = x -> x <> [] -> trim (c :: p ++ x) = c :: p ++ x.
Proof.
  intros Hc Hx Hne.
  destruct (trim_shape x) as [E | [[d [E Hd]] | [a [m [d [E [_ Hd]]]]]]];
    rewrite Hx in E; subst x.
  - contradiction.
  - apply trim_ends; assumption.
  - replace (c :: p ++ a :: m ++ [d]) with (c :: (p ++ a :: m) ++ [d])
      by (rewrite <- app_assoc; reflexivity).
    apply trim_ends; assumption.
Qed.

End TrimLemmas.

Section IndexLemmas.

Lemma startsWith_iff p : forall s, startsWith p s = true <-> exists r, s = p ++ r.
Proof.
  induction p as [|x p IH]; intro s; simpl.
  - split; [intros _; exists s; reflexivity | reflexivity].
  - destruct s as [|y s]; split.
    + discriminate.
    + intros [r H]. discriminate.
    + intro H. apply andb_true_iff in H. destruct H as [H1 H2].
      apply chr_eqb_eq in H1. apply IH in H2. destruct H2 as [r ->].
      exists r. subst. reflexivity.
    + intros [r H]. injection H as -> ->. rewrite chr_eqb_refl. simpl.
      apply IH. exists r. reflexivity.
Qed.

Lemma startsWith_app p r : startsWith p (p ++ r) = true.
Proof. apply startsWith_iff. exists r. reflexivity. Qed.

Lemma indexOf_lower c s : (-1 <= indexOf c s)%Z.
Proof.
  induction s as [|x t IH]; simpl; [lia|].
  destruct (chr_eqb x c); [lia|].
  destruct (indexOf c t <? 0)%Z eqn:E; [lia|]. apply Z.ltb_ge in E. lia.
Qed.

Lemma indexOf_absent c s : ~ In c s -> indexOf c s = (-1)%Z.
Proof.
  induction s as [|x t IH]; simpl; intro H; [reflexivity|].
  destruct (chr_eqb x c) eqn:E.
  - apply chr_eqb_eq in E. exfalso. apply H. left. exact E.
  - rewrite IH by tauto. reflexivity.
Qed.

Lemma indexOf_present c s : In c s -> (0 <= indexOf c s)%Z.
Proof.
  induction s as [|x t IH]; simpl; intro H; [contradiction|].
  destruct (chr_eqb x c) eqn:E; [lia|].
  destruct H as [H|H]; [apply chr_eqb_neq in E; contradiction|].
  specialize (IH H).
  destruct (indexOf c t <? 0)%Z eqn:L; [apply Z.ltb_lt in L; lia | lia].
Qed.

Lemma indexOf_first c x r :
  ~ In c x -> indexOf c (x ++ c :: r) = Z.of_nat (length x).
Proof.
  induction x as [|y x IH]; simpl; intro H.
  - rewrite chr_eqb_refl. reflexivity.
  - destruct (chr_eqb y c) eqn:E.
    + apply chr_eqb_eq in E. exfalso. apply H. left. exact E.
    + rewrite IH by tauto.
      destruct (Z.of_nat (length x) <? 0)%Z eqn:L; [apply Z.ltb_lt in L; lia | lia].
Qed.

(** A found index points at the first occurrence. *)
Lemma indexOf_found c s :
  (0 <= indexOf c s)%Z ->
  exists x r, s = x ++ c :: r /\ ~ In c x /\ indexOf c s = Z.of_nat (length x).
Proof.
  induction s as [|y t IH]; simpl; [lia|].
  destruct (chr_eqb y c) eqn:E.
  - intros _. apply chr_eqb_eq in E. subst y. exists [], t. simpl. tauto.
  - destruct (indexOf c t <? 0)%Z eqn:L; [lia|]. intros _.
    apply Z.ltb_ge in L. destruct (IH L) as [x [r [E1 [E2 E3]]]].
    exists (y :: x), r. subst t. split; [reflexivity|]. split.
    + simpl. intros [H|H]; [apply chr_eqb_neq in E; contradiction | contradiction].
    + rewrite E3. simpl length. lia.
Qed.

End IndexLemmas.

(* ------------------------------------------------------------------ *)
(** ** Lemmas on computations *)

Section MonadLemmas.

Variable host : Host.

Lemma bind_throw {A B} (m : M host A) (k : A -> M host B) w e w1 t1 :
  m w = (Throw e, w1, t1) -> bind m k w = (Throw e, w1, t1).
Proof. intro H. unfold bind. rewrite H. reflexivity. Qed.

(** Sequencing: a step that returned, then the rest. *)
Lemma bind_step {A B} (m : M host A) (k : A -> M host B) w a w1 t1 r w2 t2 :
  m w = (Ok a, w1, t1) -> k a w1 = (r, w2, t2) -> bind m k w = (r, w2, t1 ++ t2).
Proof. intros H1 H2. unfold bind. rewrite H1, H2. reflexivity. Qed.

Lemma bind_ret_l {A B} (a : A) (k : A -> M host B) w : bind (ret a) k w = k a w.
Proof. unfold bind, ret. destruct (k a w) as [[r w2] t2]. reflexivity. Qed.

Lemma tryCatch_ok {A} (m : M host A) handler w a w1 t1 :
  m w = (Ok a, w1, t1) -> tryCatch m handler w = (Ok a, w1, t1).
Proof. intro H. unfold tryCatch. rewrite H. reflexivity. Qed.

Lemma tryCatch_throw {A} (m : M host A) handler w e w1 t1 r w2 t2 :
  m w = (Throw e, w1, t1) -> handler e w1 = (r, w2, t2) ->
  tryCatch m handler w = (r, w2, t1 ++ t2).
Proof. intros H1 H2. unfold tryCatch. rewrite H1, H2. reflexivity. Qed.

(** Inversion of a [bind] that returned. *)
Lemma bind_inv_ok {A B} (m : M host A) (k : A -> M host B) w b w2 t :
  bind m k w = (Ok b, w2, t) ->
  exists a w1 t1 t2, m w = (Ok a, w1, t1) /\ k a w1 = (Ok b, w2, t2) /\ t = t1 ++ t2.
Proof.
  unfold bind. destruct (m w) as [[[a|e] w1] t1]; [|discriminate].
  destruct (k a w1) as [[r w3] t2] eqn:E. intro H. injection H as -> -> <-.
  exists a, w1, t1, t2. auto.
Qed.

(** [existsPath] and [checkPathExists] answer [false] when [stat]
    rejects and [true] when it resolves; they never reject. *)
Lemma checkPathExists_run p w :
  exists w1,
    checkPathExists host p w =
      (Ok (match fst (fs_stat host p w) with Ok _ => true | Throw _ => false end),
       w1, [EvStat p]) /\
    w1 = snd (fs_stat host p w).
Proof.
  unfold checkPathExists, tryCatch, bind, stat, performOutcome, ret.
  destruct (fs_stat host p w) as [[u|e] w1]; simpl; exists w1; split; reflexivity.
Qed.

Lemma existsPath_run p w : existsPath host p w = checkPathExists host p w.
Proof. reflexivity. Qed.

Lemma canonicalPath_ok input w :
  exists c w1 t, canonicalPath host input w = (Ok c, w1, t) /\
                 t = [EvRealpath (path_resolve host [input])].
Proof.
  unfold canonicalPath, bind, orOnReject, tryCatch, realpath, performOutcome, ret.
  destruct (fs_realpath host (path_resolve host [input]) w) as [[p|e] w1]; simpl;
    eexists; eexists; eexists; split; reflexivity.
Qed.

End MonadLemmas.

Section CommandLemmas.

Variable host : Host.

Lemma doExecGit_run args cwd w :
  doExecGit host args cwd w
    = (Ok (fst (execGit host args cwd w)), snd (execGit host args cwd w), [EvExecGit args cwd]).
Proof. unfold doExecGit, perform. destruct (execGit host args cwd w). reflexivity. Qed.

(** [runGitCommand] never rejects; it issues the one command. *)
Lemma runGitCommand_run cwd args w :
  exists result,
    runGitCommand host cwd args w
      = (Ok result, snd (execGit host args cwd w), [EvExecGit args cwd]) /\
    success result = (exitCode (fst (execGit host args cwd w)) =? 0)%Z /\
    cmdStdout result = stdout (fst (execGit host args cwd w)).
Proof.
  unfold runGitCommand, bind, ret. rewrite doExecGit_run. simpl.
  eexists. split; [reflexivity|]. split; reflexivity.
Qed.

(** [runGitCommandOrThrow] issues the one command, and rejects exactly
    when it exits nonzero. *)
Lemma runGitCommandOrThrow_run cwd args fallback w :
  exists outcome,
    runGitCommandOrThrow host cwd args fallback w
      = (outcome, snd (execGit host args cwd w), [EvExecGit args cwd]) /\
    match outcome with
    | Ok result => exitCode (fst (execGit host args cwd w)) = 0%Z /\
                   cmdStdout result = stdout (fst (execGit host args cwd w))
    | Throw _ => exitCode (fst (execGit host args cwd w)) <> 0%Z
    end.
Proof.
  unfold runGitCommandOrThrow.
  destruct (runGitCommand_run cwd args w) as [result [E [Hs Ho]]].
  unfold bind. rewrite E.
  destruct (success result) eqn:Es; simpl; eexists; (split; [reflexivity|]); simpl.
  - symmetry in Hs. apply Z.eqb_eq in Hs. auto.
  - symmetry in Hs. apply Z.eqb_neq in Hs. exact Hs.
Qed.

Lemma writeFile_run p content w :
  writeFile host p content w
    = (fst (fs_writeFile host p content w), snd (fs_writeFile host p content w),
       [EvWriteFile p content]).
Proof. unfold writeFile, performOutcome. destruct (fs_writeFile host p content w). reflexivity. Qed.

Lemma rm_run p w :
  rm host p w = (fst (fs_rm host p w), snd (fs_rm host p w), [EvRm p]).
Proof. unfold rm, performOutcome. destruct (fs_rm host p w). reflexivity. Qed.

End CommandLemmas.


(* ------------------------------------------------------------------ *)
(** ** A logic of emitted events *)

Section Emits.

Variable host : Host.
Variable P : Event -> Prop.

Lemma emits_ret {A} (a : A) : emits host P (ret a).
Proof. intro w. constructor. Qed.

Lemma emits_throw {A} e : emits host P (@throw host A e).
Proof. intro w. constructor. Qed.

Lemma emits_bind {A B} (m : M host A) (k : A -> M host B) :
  emits host P m -> (forall a, emits host P (k a)) -> emits host P (bind m k).
Proof.
  intros Hm Hk w. unfold bind. specialize (Hm w).
  destruct (m w) as [[[a|e] w1] t1]; simpl in *; [|exact Hm].
  specialize (Hk a w1). destruct (k a w1) as [[r w2] t2]. simpl in *.
  apply Forall_app. split; assumption.
Qed.

Lemma emits_tryCatch {A} (m : M host A) handler :
  emits host P m -> (forall e, emits host P (handler e)) -> emits host P (tryCatch m handler).
Proof.
  intros Hm Hh w. unfold tryCatch. specialize (Hm w).
  destruct (m w) as [[[a|e] w1] t1]; simpl in *; [exact Hm|].
  specialize (Hh e w1). destruct (handler e w1) as [[r w2] t2]. simpl in *.
  apply Forall_app. split; assumption.
Qed.

Lemma emits_orOnReject {A} (m : M host A) fallback :
  emits host P m -> emits host P (orOnReject host m fallback).
Proof. intro Hm. apply emits_tryCatch; [exact Hm | intro e; apply emits_ret]. Qed.

Lemma emits_perform {A} (f : World host -> A * World host) ev :
  P ev -> emits host P (perform host f ev).
Proof. intros Hev w. unfold perform. destruct (f w). simpl. repeat constructor. exact Hev. Qed.

Lemma emits_performOutcome {A} (f : World host -> Outcome A * World host) ev :
  P ev -> emits host P (performOutcome host f ev).
Proof.
  intros Hev w. unfold performOutcome. destruct (f w). simpl. repeat constructor. exact Hev.
Qed.

Lemma emits_runGitCommand cwd args :
  P (EvExecGit args cwd) -> emits host P (runGitCommand host cwd args).
Proof.
  intro H. unfold runGitCommand. apply emits_bind.
  - apply emits_perform. exact H.
  - intro a. apply emits_ret.
Qed.

Lemma emits_runGitCommandOrThrow cwd args fallback :
  P (EvExecGit args cwd) -> emits host P (runGitCommandOrThrow host cwd args fallback).
Proof.
  intro H. unfold runGitCommandOrThrow. apply emits_bind.
  - apply emits_runGitCommand. exact H.
  - intro a. destruct (negb (success a)); [apply emits_throw | apply emits_ret].
Qed.

End Emits.

(* ------------------------------------------------------------------ *)
(** ** Computations that always return *)

Section Returns.

Variable host : Host.

Lemma returns_ret {A} (Q : A -> Prop) a : Q a -> returns host Q (ret a).
Proof. intros H w. exists a, w, []. split; [reflexivity | exact H]. Qed.

Lemma returns_bind {A B} (Q1 : A -> Prop) (Q2 : B -> Prop) (m : M host A) (k : A -> M host B) :
  returns host Q1 m -> (forall a, Q1 a -> returns host Q2 (k a)) ->
  returns host Q2 (bind m k).
Proof.
  intros Hm Hk w. destruct (Hm w) as [a [w1 [t1 [E1 H1]]]].
  destruct (Hk a H1 w1) as [b [w2 [t2 [E2 H2]]]].
  exists b, w2, (t1 ++ t2). split; [|exact H2].
  eapply bind_step; [exact E1 | exact E2].
Qed.

Lemma returns_runGitCommand cwd args :
  returns host (fun _ => True) (runGitCommand host cwd args).
Proof.
  intro w. destruct (runGitCommand_run host cwd args w) as [result [E _]].
  eexists. eexists. eexists. split; [exact E | exact I].
Qed.

End Returns.

(* ------------------------------------------------------------------ *)
(** ** Status mapping *)

Section MapStatus.

Lemma mapStatus_U_range (c : Status) : mapStatus c = lit "U" -> (12 <= c <= 18)%Z.
Proof.
  unfold mapStatus, statusMap. destruct c as [|p|p]; try discriminate.
  do 5 (try destruct p as [p|p|]); simpl; try discriminate; intros _; lia.
Qed.

Lemma mapStatus_outside (c : Status) : (c < 0 \/ 18 < c)%Z -> mapStatus c = lit " ".
Proof.
  unfold mapStatus, statusMap. destruct c as [|p|p]; try reflexivity; try lia.
  do 5 (try destruct p as [p|p|]); simpl; try reflexivity; lia.
Qed.

Lemma mapStatus_conflict (c : Status) : (12 <= c <= 18)%Z -> mapStatus c = lit "U".
Proof.
  intro H.
  assert (E : (c = 12 \/ c = 13 \/ c = 14 \/ c = 15 \/ c = 16 \/ c = 17 \/ c = 18)%Z) by lia.
  destruct E as [->|[->|[->|[->|[->|[->| ->]]]]]]; reflexivity.
Qed.

(** C8, as stated, fails: the table holds seven conflict states, not
    eight; no eight distinct status codes are mapped to ['U']. *)
Lemma mapStatus_no_eight_conflict_states :
  ~ exists states : list Status,
      NoDup states /\ length states = 8 /\
      Forall (fun c => mapStatus c = lit "U") states.
Proof.
  intros [states [Hnd [Hlen Hall]]].
  assert (Hincl : incl states StatusCode.conflictStates).
  { intros c Hc. rewrite Forall_forall in Hall. specialize (Hall c Hc).
    apply mapStatus_U_range in Hall. unfold StatusCode.conflictStates. simpl.
    unfold StatusCode.ADDED_BY_US, StatusCode.ADDED_BY_THEM, StatusCode.DELETED_BY_US,
      StatusCode.DELETED_BY_THEM, StatusCode.BOTH_ADDED, StatusCode.BOTH_DELETED,
      StatusCode.BOTH_MODIFIED. lia. }
  pose proof (NoDup_incl_length Hnd Hincl) as Hle.
  rewrite Hlen in Hle. simpl in Hle. lia.
Qed.

(** C8 (amended): [mapStatus] maps modified to ['M'], added and
    intent-to-add to ['A'], deleted to ['D'], renamed and intent-to-rename
    to ['R'], copied to ['C'], untracked to ['?'], ignored to ['!'],
    type-changed to ['T'], each of the seven conflict states (and only
    them) to ['U'], and every code outside the table to one space. *)
Theorem mapStatus_table :
  mapStatus StatusCode.INDEX_MODIFIED = lit "M" /\
  mapStatus StatusCode.MODIFIED = lit "M" /\
  mapStatus StatusCode.INDEX_ADDED = lit "A" /\
  mapStatus StatusCode.INTENT_TO_ADD = lit "A" /\
  mapStatus StatusCode.INDEX_DELETED = lit "D" /\
  mapStatus StatusCode.DELETED = lit "D" /\
  mapStatus StatusCode.INDEX_RENAMED = lit "R" /\
  mapStatus StatusCode.INTENT_TO_RENAME = lit "R" /\
  mapStatus StatusCode.INDEX_COPIED = lit "C" /\
  mapStatus StatusCode.UNTRACKED = lit "?" /\
  mapStatus StatusCode.IGNORED = lit "!" /\
  mapStatus StatusCode.TYPE_CHANGED = lit "T" /\
  length StatusCode.conflictStates = 7 /\
  NoDup StatusCode.conflictStates /\
  (forall c : Status, mapStatus c = lit "U" <-> In c StatusCode.conflictStates) /\
  (forall c : Status, (c < 0 \/ 18 < c)%Z -> mapStatus c = lit " ").
Proof.
  repeat (split; [reflexivity|]).
  split; [|split; [|exact mapStatus_outside]].
  - unfold StatusCode.conflictStates.
    repeat (constructor; [simpl; intuition discriminate|]). constructor.
  - intro c. split.
    + intro H. apply mapStatus_U_range in H. simpl.
      unfold StatusCode.ADDED_BY_US, StatusCode.ADDED_BY_THEM, StatusCode.DELETED_BY_US,
        StatusCode.DELETED_BY_THEM, StatusCode.BOTH_ADDED, StatusCode.BOTH_DELETED,
        StatusCode.BOTH_MODIFIED. lia.
    + intro H. apply mapStatus_conflict. simpl in H.
      unfold StatusCode.ADDED_BY_US, StatusCode.ADDED_BY_THEM, StatusCode.DELETED_BY_US,
        StatusCode.DELETED_BY_THEM, StatusCode.BOTH_ADDED, StatusCode.BOTH_DELETED,
        StatusCode.BOTH_MODIFIED in H. lia.
Qed.

End MapStatus.

(** The table at a conflict state and at a code outside it. *)
Lemma mapStatus_table_witness :
  mapStatus StatusCode.BOTH_MODIFIED = lit "U" /\ mapStatus 42%Z = lit " ".
Proof.
  pose proof mapStatus_table as T.
  destruct T as (_ & _ & _ & _ & _ & _ & _ & _ & _ & _ & _ & _ & _ & _ & HU & Hout).
  split.
  - apply HU. simpl. tauto.
  - apply Hout. right. lia.
Defined.

(* ------------------------------------------------------------------ *)
(** ** Worktree name slugs *)

Section Slug.

Lemma replaceRunsFrom_Forall (P : ascii -> Prop) p r :
  Forall P r -> (forall c, p c = false -> P c) ->
  forall s inRun, Forall P (replaceRunsFrom p r inRun s).
Proof.
  intros Hr Hkeep. induction s as [|c t IH]; intro inRun; simpl; [constructor|].
  destruct (p c) eqn:E.
  - apply Forall_app. split; [destruct inRun; [constructor | exact Hr] | apply IH].
  - constructor; [apply Hkeep; exact E | apply IH].
Qed.

Lemma replaceRunsFrom_Forall_in (P : ascii -> Prop) p r :
  Forall P r -> forall s inRun, Forall P s -> Forall P (replaceRunsFrom p r inRun s).
Proof.
  intros Hr. induction s as [|c t IH]; intros inRun Hs; simpl; [constructor|].
  inversion Hs as [|? ? Hc Ht]; subst.
  destruct (p c).
  - apply Forall_app. split; [destruct inRun; [constructor | exact Hr] | apply IH; exact Ht].
  - constructor; [exact Hc | apply IH; exact Ht].
Qed.

(** Inside a run nothing is emitted for a hyphen, so the output of the
    hyphen collapse never starts with a hyphen there, and never holds two
    in a row. *)
Lemma collapse_hyphens_shape s :
  (firstChar (replaceRunsFrom isHyphen (lit "-") true s) <> Some "-"%char) /\
  (forall inRun, noDoubleHyphen (replaceRunsFrom isHyphen (lit "-") inRun s) = true).
Proof.
  change (lit "-") with ["-"%char].
  induction s as [|c t [IHhead IHall]].
  - split; [simpl; discriminate | reflexivity].
  - split.
    + simpl. destruct (isHyphen c) eqn:E; simpl.
      * exact IHhead.
      * intro H. injection H as ->. discriminate.
    + intro inRun. simpl. destruct (isHyphen c) eqn:E.
      * destruct inRun; simpl app; [apply IHall|].
        pose proof (IHall true) as Hall.
        destruct (replaceRunsFrom isHyphen ["-"%char] true t) as [|d rest];
          [reflexivity|].
        change (negb (isHyphen "-"%char && isHyphen d) && noDoubleHyphen (d :: rest) = true).
        rewrite Hall, andb_true_r.
        destruct (isHyphen d) eqn:Ed; [|reflexivity].
        exfalso. apply IHhead. simpl. f_equal. apply chr_eqb_eq. exact Ed.
      * pose proof (IHall false) as Hall.
        destruct (replaceRunsFrom isHyphen ["-"%char] false t) as [|d rest];
          [reflexivity|].
        change (negb (isHyphen c && isHyphen d) && noDoubleHyphen (d :: rest) = true).
        rewrite Hall, E. reflexivity.
Qed.

Lemma noDoubleHyphen_app a b :
  noDoubleHyphen (a ++ b) = true -> noDoubleHyphen a = true /\ noDoubleHyphen b = true.
Proof.
  induction a as [|x a IH]; simpl; intro H.
  - split; [reflexivity | exact H].
  - destruct a as [|y a'].
    + split; [reflexivity|]. destruct b as [|z b']; [reflexivity|].
      simpl in H. apply andb_true_iff in H. tauto.
    + change ((x :: y :: a') ++ b) with (x :: y :: (a' ++ b)) in H. simpl in H.
      apply andb_true_iff in H. destruct H as [H1 H2].
      destruct (IH H2) as [IHa IHb]. split; [|exact IHb].
      change (negb (isHyphen x && isHyphen y) && noDoubleHyphen (y :: a') = true).
      rewrite H1, IHa. reflexivity.
Qed.

Lemma firstChar_prefix a b c : firstChar (a ++ b) <> Some c -> firstChar a <> Some c.
Proof. destruct a; simpl; [discriminate | trivial]. Qed.

(** What the slug function does guarantee: the pattern, no hyphen pair,
    no leading hyphen. *)
Lemma slugWorktreeName_shape (value : str) :
  matchesSlugPattern (slugWorktreeName value) /\
  noDoubleHyphen (slugWorktreeName value) = true /\
  firstChar (slugWorktreeName value) <> Some "-"%char.
Proof.
  unfold slugWorktreeName, replaceRuns, sliceTo.
  set (s6 := join (lit "-") (split "/"%char _)).
  set (s7 := replaceRunsFrom (fun c => negb (isSlugChar c)) (lit "-") false s6).
  set (s8 := replaceRunsFrom isHyphen (lit "-") false s7).
  assert (H7 : Forall (fun c => isSlugChar c = true) s7).
  { apply replaceRunsFrom_Forall.
    - repeat constructor.
    - intros c Hc. apply negb_false_iff in Hc. exact Hc. }
  assert (H8 : Forall (fun c => isSlugChar c = true) s8).
  { apply replaceRunsFrom_Forall_in; [repeat constructor | exact H7]. }
  assert (D8 : noDoubleHyphen s8 = true) by apply collapse_hyphens_shape.
  destruct (dropWhile_suffix isHyphen s8) as [pre [E9 _]].
  set (s9 := dropWhile isHyphen s8) in *.
  destruct (dropWhileEnd_prefix isHyphen s9) as [suf [E10 _]].
  set (s10 := dropWhileEnd isHyphen s9) in *.
  assert (D9 : noDoubleHyphen s9 = true).
  { rewrite E9 in D8. apply noDoubleHyphen_app in D8. tauto. }
  assert (D10 : noDoubleHyphen s10 = true).
  { rewrite E10 in D9. apply noDoubleHyphen_app in D9. tauto. }
  assert (F9 : firstChar s9 <> Some "-"%char).
  { subst s9. destruct (dropWhile isHyphen s8) as [|c t] eqn:E; simpl; [discriminate|].
    apply dropWhile_head in E. intro H. injection H as ->. discriminate. }
  assert (F10 : firstChar s10 <> Some "-"%char).
  { rewrite E10 in F9. eapply firstChar_prefix. exact F9. }
  repeat split.
  - assert (F : Forall (fun c => isSlugChar c = true) s10).
    { subst s10 s9. apply Forall_dropWhileEnd, Forall_dropWhile. exact H8. }
    rewrite <- (firstn_skipn 80 s10) in F. apply Forall_app in F. tauto.
  - apply firstn_le_length.
  - rewrite <- (firstn_skipn 80 s10) in D10. apply noDoubleHyphen_app in D10. tauto.
  - rewrite <- (firstn_skipn 80 s10) in F10. eapply firstChar_prefix. exact F10.
Qed.

End Slug.

(** C4: the failing input.  Seventy-nine letters, a hyphen and one more
    letter: the cut at eighty characters comes after the trailing
    hyphens were stripped, and leaves a slug that ends in a hyphen. *)
Theorem slugWorktreeName_trailing_hyphen :
  slugWorktreeName (repeat "a"%char 79 ++ lit "-b") = repeat "a"%char 79 ++ lit "-" /\
  lastChar (slugWorktreeName (repeat "a"%char 79 ++ lit "-b")) = Some "-"%char.
Proof. split; vm_compute; reflexivity. Qed.

(* ------------------------------------------------------------------ *)
(** ** Remote branch references *)

Section ParseRemoteBranchRef.

Lemma splitRemoteRef_split r b :
  r <> [] -> b <> [] -> noSlash r ->
  splitRemoteRef (r ++ lit "/" ++ b) =
    Some {| remote := r; branch := b; remoteRef := r ++ lit "/" ++ b;
            fullRef := lit "refs/remotes/" ++ r ++ lit "/" ++ b |}.
Proof.
  intros Hr Hb Hs. unfold splitRemoteRef.
  change (lit "/" ++ b) with ("/"%char :: b).
  rewrite (indexOf_first "/"%char r b Hs).
  assert (Lr : 0 < length r) by (destruct r; [contradiction | simpl; lia]).
  assert (Lb : 0 < length b) by (destruct b; [contradiction | simpl; lia]).
  rewrite length_app. simpl length.
  destruct (Z.of_nat (length r) <=? 0)%Z eqn:E1; [apply Z.leb_le in E1; lia|].
  destruct (Z.of_nat (length r) =? Z.of_nat (length r + S (length b)) - 1)%Z eqn:E2;
    [apply Z.eqb_eq in E2; lia|].
  simpl orb. cbv iota. rewrite Nat2Z.id. unfold sliceTo, sliceFrom.
  f_equal. f_equal.
  - rewrite firstn_app, firstn_all, Nat.sub_diag. simpl. apply app_nil_r.
  - rewrite skipn_app. replace (length r + 1 - length r) with 1 by lia.
    rewrite skipn_all2 by lia. reflexivity.
Qed.

Lemma splitRemoteRef_none rest :
  (indexOf "/"%char rest <= 0)%Z \/ indexOf "/"%char rest = (Z.of_nat (length rest) - 1)%Z ->
  splitRemoteRef rest = None.
Proof.
  intro H. unfold splitRemoteRef.
  destruct (indexOf "/"%char rest <=? 0)%Z eqn:E1; [reflexivity|].
  destruct (indexOf "/"%char rest =? Z.of_nat (length rest) - 1)%Z eqn:E2; [reflexivity|].
  apply Z.leb_gt in E1. apply Z.eqb_neq in E2. lia.
Qed.

(** The function in one piece: the self-call on ["refs/" + trimmed] always
    lands in the [refs/remotes/] branch. *)
Lemma parseRemoteBranchRefN_unfold fuel value :
  parseRemoteBranchRefN (S (S fuel)) value =
    Some (let t := trim value in
          if isEmpty t then None
          else if startsWith (lit "refs/remotes/") t then splitRemoteRef (sliceFrom 13 t)
          else if startsWith (lit "remotes/") t then splitRemoteRef (sliceFrom 8 t)
          else splitRemoteRef t).
Proof.
  cbn [parseRemoteBranchRefN]. cbv zeta.
  destruct (isEmpty (trim value)) eqn:E0; [reflexivity|].
  destruct (startsWith (lit "refs/remotes/") (trim value)) eqn:E1; [reflexivity|].
  destruct (startsWith (lit "remotes/") (trim value)) eqn:E2; [|reflexivity].
  apply startsWith_iff in E2. destruct E2 as [r Er].
  assert (T : trim (lit "refs/" ++ trim value) = lit "refs/" ++ trim value).
  { change (lit "refs/" ++ trim value) with ("r"%char :: lit "efs/" ++ trim value).
    apply trim_prepend.
    - reflexivity.
    - apply trim_idempotent.
    - apply isEmpty_false. exact E0. }
  rewrite T, Er. reflexivity.
Qed.

(** Two levels of the recursion are enough, whatever the input. *)
Lemma parseRemoteBranchRefN_enough fuel value :
  parseRemoteBranchRefN (S (S fuel)) value = Some (parseRemoteBranchRef value).
Proof.
  unfold parseRemoteBranchRef.
  rewrite (parseRemoteBranchRefN_unfold 0 value).
  apply parseRemoteBranchRefN_unfold.
Qed.

Lemma parseRemoteBranchRef_unfold value :
  parseRemoteBranchRef value =
    let t := trim value in
    if isEmpty t then None
    else if startsWith (lit "refs/remotes/") t then splitRemoteRef (sliceFrom 13 t)
    else if startsWith (lit "remotes/") t then splitRemoteRef (sliceFrom 8 t)
    else splitRemoteRef t.
Proof.
  unfold parseRemoteBranchRef. rewrite (parseRemoteBranchRefN_unfold 0 value). reflexivity.
Qed.

Lemma noSlash_not_prefixed (p t : str) :
  In "/"%char p -> noSlash t -> startsWith p t = false.
Proof.
  intros Hp Ht. destruct (startsWith p t) eqn:E; [|reflexivity].
  apply startsWith_iff in E. destruct E as [r ->].
  exfalso. apply Ht. apply in_or_app. left. exact Hp.
Qed.

Lemma parse_no_slash s : noSlash s -> parseRemoteBranchRef s = None.
Proof.
  intro H. rewrite parseRemoteBranchRef_unfold. cbv zeta.
  assert (Ht : noSlash (trim s)) by (intro Hin; apply H, In_trim; exact Hin).
  destruct (isEmpty (trim s)); [reflexivity|].
  rewrite (noSlash_not_prefixed (lit "refs/remotes/") (trim s)); [|simpl; tauto|exact Ht].
  rewrite (noSlash_not_prefixed (lit "remotes/") (trim s)); [|simpl; tauto|exact Ht].
  apply splitRemoteRef_none. left. rewrite indexOf_absent by exact Ht. lia.
Qed.

Lemma parse_leading_slash s : parseRemoteBranchRef ("/"%char :: s) = None.
Proof.
  rewrite parseRemoteBranchRef_unfold. cbv zeta.
  destruct (trim_decompose ("/"%char :: s)) as [pre [suf [E [Hpre _]]]].
  destruct pre as [|c pre].
  - destruct (trim ("/"%char :: s)) as [|d t] eqn:Et; [reflexivity|].
    simpl in E. injection E as <- _.
    cbn [isEmpty]. change (startsWith (lit "refs/remotes/") ("/"%char :: t)) with false.
    change (startsWith (lit "remotes/") ("/"%char :: t)) with false.
    cbv iota. apply splitRemoteRef_none. left. simpl. lia.
  - simpl in E. injection E as <- _. simpl in Hpre. discriminate.
Qed.

Lemma parse_trailing_slash x :
  noSlash x -> parseRemoteBranchRef (x ++ lit "/") = None.
Proof.
  intro Hx. rewrite parseRemoteBranchRef_unfold. cbv zeta.
  (* the trimmed input is again a slash-free word followed by the slash *)
  assert (T : exists y, trim (x ++ lit "/") = y ++ lit "/" /\ noSlash y).
  { unfold trim. change (lit "/") with ["/"%char].
    destruct (dropWhile_app_stop isSpace x "/"%char [] eq_refl) as [E | [_ E]]; rewrite E.
    - exists (dropWhile isSpace x). split.
      + apply dropWhileEnd_snoc_stop. reflexivity.
      + intro Hin. apply Hx. destruct (dropWhile_suffix isSpace x) as [pre [Ex _]].
        rewrite Ex. apply in_or_app. right. exact Hin.
    - exists []. split; [reflexivity | intros []]. }
  destruct T as [y [-> Hy]].
  destruct (isEmpty (y ++ lit "/")); [reflexivity|].
  destruct (startsWith (lit "refs/remotes/") (y ++ lit "/")) eqn:E1.
  { exfalso. apply startsWith_iff in E1. destruct E1 as [r E1].
    do 5 (destruct y as [|? y]; [discriminate E1|]).
    simpl in E1. injection E1 as -> -> -> -> -> _.
    apply Hy. simpl. tauto. }
  destruct (startsWith (lit "remotes/") (y ++ lit "/")) eqn:E2.
  { apply startsWith_iff in E2. destruct E2 as [r E2].
    do 7 (destruct y as [|? y]; [discriminate E2|]).
    destruct y as [|c y].
    - simpl in E2. injection E2 as -> -> -> -> -> -> -> <-. reflexivity.
    - exfalso. simpl in E2. injection E2 as -> -> -> -> -> -> -> -> _.
      apply Hy. simpl. tauto. }
  apply splitRemoteRef_none. right.
  change (lit "/") with ["/"%char].
  rewrite (indexOf_first "/"%char y [] Hy), length_app. simpl. lia.
Qed.

End ParseRemoteBranchRef.

(** Only the first slash counts: a reference whose first slash is
    interior is split there, even when it ends with a slash. *)
Remark parseRemoteBranchRef_interior_slash :
  parseRemoteBranchRef (lit "origin/feature/")
    = Some {| remote := lit "origin"; branch := lit "feature/";
              remoteRef := lit "origin/feature/";
              fullRef := lit "refs/remotes/origin/feature/" |}.
Proof. reflexivity. Qed.

(** C5: a reference [<remote>/<branch>] is split at its first slash,
    with or without the [refs/remotes/] or [remotes/] prefix in front of
    it, and a string with no slash, or whose first slash is its first or
    its last character, is rejected. *)
Theorem parseRemoteBranchRef_spec :
  (forall r b : str,
      r <> [] -> b <> [] -> noSlash r -> trimmed (r ++ lit "/" ++ b) ->
      let parsed := Some {| remote := r; branch := b;
                            remoteRef := r ++ lit "/" ++ b;
                            fullRef := lit "refs/remotes/" ++ r ++ lit "/" ++ b |} in
      parseRemoteBranchRef (lit "refs/remotes/" ++ r ++ lit "/" ++ b) = parsed /\
      parseRemoteBranchRef (lit "remotes/" ++ r ++ lit "/" ++ b) = parsed /\
      (startsWith (lit "refs/remotes/") (r ++ lit "/" ++ b) = false ->
       startsWith (lit "remotes/") (r ++ lit "/" ++ b) = false ->
       parseRemoteBranchRef (r ++ lit "/" ++ b) = parsed)) /\
  (forall s : str,
      indexOf "/"%char s = (-1)%Z \/ indexOf "/"%char s = 0%Z \/
      indexOf "/"%char s = (Z.of_nat (length s) - 1)%Z ->
      parseRemoteBranchRef s = None).
Proof.
  split.
  - intros r b Hr Hb Hs Ht parsed.
    assert (Hne : r ++ lit "/" ++ b <> []) by (destruct r; [contradiction | discriminate]).
    assert (T1 : trim (lit "refs/remotes/" ++ r ++ lit "/" ++ b)
                 = lit "refs/remotes/" ++ r ++ lit "/" ++ b).
    { change (lit "refs/remotes/" ++ r ++ lit "/" ++ b)
        with ("r"%char :: lit "efs/remotes/" ++ r ++ lit "/" ++ b).
      apply trim_prepend; [reflexivity | exact Ht | exact Hne]. }
    assert (T2 : trim (lit "remotes/" ++ r ++ lit "/" ++ b)
                 = lit "remotes/" ++ r ++ lit "/" ++ b).
    { change (lit "remotes/" ++ r ++ lit "/" ++ b)
        with ("r"%char :: lit "emotes/" ++ r ++ lit "/" ++ b).
      apply trim_prepend; [reflexivity | exact Ht | exact Hne]. }
    split; [|split].
    + rewrite parseRemoteBranchRef_unfold, T1. cbv zeta.
      rewrite startsWith_app. cbn [isEmpty lit list_ascii_of_string app].
      apply splitRemoteRef_split; assumption.
    + rewrite parseRemoteBranchRef_unfold, T2. cbv zeta.
      rewrite startsWith_app.
      replace (startsWith (lit "refs/remotes/") (lit "remotes/" ++ r ++ lit "/" ++ b))
        with false by reflexivity.
      cbn [isEmpty lit list_ascii_of_string app].
      apply splitRemoteRef_split; assumption.
    + intros P1 P2. rewrite parseRemoteBranchRef_unfold. cbv zeta.
      rewrite Ht, P1, P2.
      destruct (isEmpty (r ++ lit "/" ++ b)) eqn:E;
        [apply isEmpty_true in E; contradiction|].
      apply splitRemoteRef_split; assumption.
  - intros s [H | [H | H]].
    + apply parse_no_slash. intro Hin.
      pose proof (indexOf_present "/"%char s Hin). lia.
    + assert (P : (0 <= indexOf "/"%char s)%Z) by lia.
      destruct (indexOf_found _ _ P) as [x [r [E [_ L]]]].
      rewrite H in L. destruct x; [|simpl in L; lia].
      subst s. apply parse_leading_slash.
    + destruct (Z.eq_dec (indexOf "/"%char s) (-1)) as [A|A].
      * (* only the empty string has length 0 *)
        destruct s; [reflexivity | simpl length in H; lia].
      * pose proof (indexOf_lower "/"%char s) as L.
        assert (P : (0 <= indexOf "/"%char s)%Z) by lia.
        destruct (indexOf_found _ _ P) as [x [r [E [Hx Lx]]]].
        subst s. rewrite Lx, length_app in H. simpl in H.
        destruct r; [|simpl in H; lia].
        apply parse_trailing_slash. exact Hx.
Qed.

(** The reference ["origin/feature/x"], bare and with both prefixes. *)
Lemma parseRemoteBranchRef_spec_witness :
  let parsed := Some {| remote := lit "origin"; branch := lit "feature/x";
                        remoteRef := lit "origin/feature/x";
                        fullRef := lit "refs/remotes/origin/feature/x" |} in
  parseRemoteBranchRef (lit "refs/remotes/origin/feature/x") = parsed /\
  parseRemoteBranchRef (lit "remotes/origin/feature/x") = parsed /\
  parseRemoteBranchRef (lit "origin/feature/x") = parsed /\
  parseRemoteBranchRef (lit "origin") = None /\
  parseRemoteBranchRef (lit "/origin") = None /\
  parseRemoteBranchRef (lit "origin/") = None.
Proof.
  destruct parseRemoteBranchRef_spec as [Hsplit Hnone].
  assert (Hr : lit "origin" <> []) by discriminate.
  assert (Hb : lit "feature/x" <> []) by discriminate.
  assert (Hs : noSlash (lit "origin")).
  { unfold noSlash. simpl. intro H.
    repeat (destruct H as [H|H]; [discriminate H|]). exact H. }
  assert (Ht : trimmed (lit "origin" ++ lit "/" ++ lit "feature/x")) by reflexivity.
  destruct (Hsplit (lit "origin") (lit "feature/x") Hr Hb Hs Ht) as [H1 [H2 H3]].
  cbv zeta.
  split; [exact H1|]. split; [exact H2|]. split; [apply H3; reflexivity|].
  split; [apply Hnone; left; reflexivity|].
  split; [apply Hnone; right; left; reflexivity|].
  apply Hnone. right. right. reflexivity.
Defined.

(* ------------------------------------------------------------------ *)
(** ** The raw status fallback *)

Section RawStatus.

Variable host : Host.

Lemma existsPath_absent p w :
  (forall q w0, exists e, fst (fs_stat host q w0) = Throw e) ->
  exists w1, existsPath host p w = (Ok false, w1, [EvStat p]).
Proof.
  intro H. destruct (checkPathExists_run host p w) as [w1 [E _]].
  rewrite existsPath_run, E. destruct (H p w) as [e ->]. exists w1. reflexivity.
Qed.

Lemma checkInProgressOperations_none directory w :
  (forall q w0, exists e, fst (fs_stat host q w0) = Throw e) ->
  exists w1 t, checkInProgressOperations host directory w = (Ok (None, None), w1, t).
Proof.
  intro H. unfold checkInProgressOperations.
  set (gitDir := path_join host [directory; lit ".git"]).
  destruct (existsPath_absent (path_join host [gitDir; lit "MERGE_HEAD"]) w H) as [w1 E1].
  destruct (existsPath_absent (path_join host [gitDir; lit "rebase-merge"]) w1 H) as [w2 E2].
  destruct (existsPath_absent (path_join host [gitDir; lit "rebase-apply"]) w2 H) as [w3 E3].
  eexists. eexists.
  eapply bind_step; [exact E1|]. cbv beta iota. rewrite bind_ret_l.
  eapply bind_step; [exact E2|].
  eapply bind_step; [exact E3|]. cbv beta iota. simpl orb. cbv iota.
  rewrite bind_ret_l. reflexivity.
Qed.

End RawStatus.

(** C10: when the status command of the fallback path exits nonzero,
    [getGitStatusRaw] reports no error: it resolves, after that single
    command, with the empty status — the very value it resolves with for a
    repository whose status output is empty and that has no merge or
    rebase marker. *)
Theorem getGitStatusRaw_nonzero_exit (host : Host) (directory : str) (w : World host) :
  (exitCode (fst (execGit host statusArgs directory w)) <> 0%Z ->
   getGitStatusRaw host directory w =
     (Ok emptyStatus, snd (execGit host statusArgs directory w),
      [EvExecGit statusArgs directory])) /\
  (exitCode (fst (execGit host statusArgs directory w)) = 0%Z ->
   trim (stdout (fst (execGit host statusArgs directory w))) = [] ->
   (forall q w0, exists e, fst (fs_stat host q w0) = Throw e) ->
   fst (fst (getGitStatusRaw host directory w)) = Ok emptyStatus).
Proof.
  destruct (execGit host statusArgs directory w) as [result w1] eqn:E.
  assert (R : doExecGit host statusArgs directory w
              = (Ok result, w1, [EvExecGit statusArgs directory])).
  { unfold doExecGit, perform. rewrite E. reflexivity. }
  unfold statusArgs in *. simpl fst. simpl snd. unfold getGitStatusRaw.
  split.
  - intro Hexit. apply Z.eqb_neq in Hexit.
    unfold bind at 1. rewrite R, Hexit. reflexivity.
  - intros Hexit Hout Hstat.
    destruct (checkInProgressOperations_none host directory w1 Hstat) as [w2 [t Hc]].
    unfold bind at 1. rewrite R, Hexit, Hout.
    change (negb (0 =? 0)%Z) with false. cbv beta iota zeta.
    unfold bind. rewrite Hc. reflexivity.
Qed.

(** Outside a repository the status command exits with 128; in a silent
    repository it prints nothing. *)
Lemma getGitStatusRaw_nonzero_exit_witness :
  getGitStatusRaw (Scripted.make Cases.notARepository) (lit "/tmp") 0
    = (Ok emptyStatus, 0, [EvExecGit statusArgs (lit "/tmp")]) /\
  fst (fst (getGitStatusRaw (Scripted.make Cases.silentRepository) (lit "/repo") 0))
    = Ok emptyStatus.
Proof.
  destruct (getGitStatusRaw_nonzero_exit (Scripted.make Cases.notARepository) (lit "/tmp") 0)
    as [Hfail _].
  destruct (getGitStatusRaw_nonzero_exit (Scripted.make Cases.silentRepository) (lit "/repo") 0)
    as [_ Hclean].
  split.
  - apply Hfail. simpl. discriminate.
  - apply Hclean.
    + reflexivity.
    + reflexivity.
    + intros q w0. exists (lit "ENOENT"). reflexivity.
Defined.

(* ------------------------------------------------------------------ *)
(** ** Merge and rebase *)

Section MergeRebase.

Lemma includes_iff needle : forall s,
  includes needle s = true <-> exists a b, s = a ++ needle ++ b.
Proof.
  induction s as [|c t IH].
  - cbn [includes]. rewrite orb_false_r. split.
    + intro H. apply startsWith_iff in H. destruct H as [r H]. exists [], r. exact H.
    + intros [a [b H]]. apply startsWith_iff.
      destruct a; [exists b; exact H | discriminate].
  - cbn [includes]. rewrite orb_true_iff. split.
    + intros [H|H].
      * apply startsWith_iff in H. destruct H as [r H]. exists [], r. exact H.
      * apply IH in H. destruct H as [a [b ->]]. exists (c :: a), b. reflexivity.
    + intros [a [b H]]. destruct a as [|x a].
      * left. apply startsWith_iff. exists b. exact H.
      * right. apply IH. simpl in H. injection H as _ ->. exists a, b. reflexivity.
Qed.

(** A text that holds ["merge conflict"] holds ["conflict"]. *)
Lemma includes_merge_conflict s :
  includes (lit "merge conflict") s = true -> includes (lit "conflict") s = true.
Proof.
  intro H. apply includes_iff in H. destruct H as [a [b ->]].
  apply includes_iff. exists (a ++ lit "merge "), b.
  rewrite <- app_assoc. reflexivity.
Qed.

Lemma mergeIsConflict_phrases result :
  mergeIsConflict result =
    includes (lit "conflict") (combinedOutput result)
    || includes (lit "automatic merge failed") (combinedOutput result).
Proof.
  unfold mergeIsConflict, combinedOutput.
  destruct (includes (lit "conflict") _) eqn:E1; [reflexivity|].
  destruct (includes (lit "merge conflict") _) eqn:E2; [|reflexivity].
  apply includes_merge_conflict in E2. congruence.
Qed.

Lemma rebaseIsConflict_phrases result :
  rebaseIsConflict result =
    includes (lit "conflict") (combinedOutput result)
    || includes (lit "could not apply") (combinedOutput result).
Proof.
  unfold rebaseIsConflict, combinedOutput.
  destruct (includes (lit "conflict") _) eqn:E1; [reflexivity|].
  destruct (includes (lit "could not apply") _) eqn:E2; [reflexivity|].
  destruct (includes (lit "merge conflict") _) eqn:E3; [|reflexivity].
  apply includes_merge_conflict in E3. congruence.
Qed.

Lemma conflictFilesOf_spec out p :
  In p (conflictFilesOf out) <->
  exists line, In line (split (ascii_of_nat 10) out) /\
               (startsWith (lit "UU") line || startsWith (lit "AA") line
                || startsWith (lit "DD") line) = true /\
               p = trim (sliceFrom 3 line).
Proof.
  unfold conflictFilesOf. rewrite in_map_iff. split.
  - intros [line [E H]]. apply filter_In in H. destruct H as [H1 H2].
    exists line. split; [exact H1|]. split; [exact H2 | symmetry; exact E].
  - intros [line [H1 [H2 E]]]. exists line. split; [symmetry; exact E|].
    apply filter_In. split; assumption.
Qed.

Variable host : Host.

Lemma collectConflict_run directory w :
  collectConflict host directory w =
    (Ok (conflicted (conflictFilesOf (stdout (fst (execGit host porcelainArgs directory w))))),
     snd (execGit host porcelainArgs directory w),
     [EvExecGit porcelainArgs directory]).
Proof.
  unfold collectConflict, bind, doExecGit, perform, porcelainArgs.
  destruct (execGit host _ directory w) as [r w1]. reflexivity.
Qed.

(** The three outcomes of an operation that runs one git command and
    classifies its failure with [isConflict]. *)
Lemma operation_outcomes (isConflict : ExecResult -> bool) (fallback : str)
    (args : list str) directory w :
  let op : M host GitMergeResult :=
    bind (doExecGit host args directory)
      (fun result =>
         if (exitCode result =? 0)%Z
         then ret completed
         else if isConflict result then collectConflict host directory
         else throw (orElse (stderr result) fallback)) in
  let result := fst (execGit host args directory w) in
  let w1 := snd (execGit host args directory w) in
  (exitCode result = 0%Z -> op w = (Ok completed, w1, [EvExecGit args directory])) /\
  (exitCode result <> 0%Z -> isConflict result = true ->
   op w = (Ok (conflicted
                 (conflictFilesOf (stdout (fst (execGit host porcelainArgs directory w1))))),
           snd (execGit host porcelainArgs directory w1),
           [EvExecGit args directory; EvExecGit porcelainArgs directory])) /\
  (exitCode result <> 0%Z -> isConflict result = false ->
   op w = (Throw (orElse (stderr result) fallback), w1, [EvExecGit args directory])).
Proof.
  cbv zeta. unfold bind, doExecGit, perform.
  destruct (execGit host args directory w) as [result w1]. simpl fst. simpl snd.
  split; [|split].
  - intros ->. reflexivity.
  - intros Hx Hc. apply Z.eqb_neq in Hx. rewrite Hx, Hc, collectConflict_run. reflexivity.
  - intros Hx Hc. apply Z.eqb_neq in Hx. rewrite Hx, Hc. reflexivity.
Qed.

End MergeRebase.

(** C3, as stated, fails: a merge whose output holds "could not apply"
    and no other phrase is a fatal error, and so is a rebase whose output
    holds "Automatic merge failed" and no other phrase. *)
Lemma merge_rebase_phrases_differ :
  (let result := Scripted.exec "" "error: could not apply 1a2b3c4" 1 in
   exitCode result <> 0%Z /\
   includes (lit "could not apply") (combinedOutput result) = true /\
   fst (fst (merge (Scripted.make Cases.couldNotApply) (lit "/repo") (lit "feature") 0))
     = Throw (lit "error: could not apply 1a2b3c4")) /\
  (let result := Scripted.exec "Automatic merge failed" "" 1 in
   exitCode result <> 0%Z /\
   includes (lit "automatic merge failed") (combinedOutput result) = true /\
   fst (fst (rebase (Scripted.make Cases.automaticMergeFailed) (lit "/repo") (lit "main") 0))
     = Throw (lit "Rebase failed")).
Proof.
  split; cbv zeta; (split; [discriminate|]); split; vm_compute; reflexivity.
Qed.

(** C3 (amended): exit code 0 completes; a nonzero exit whose combined
    output, lower-cased, holds "conflict" or, for a merge, "automatic
    merge failed", for a rebase, "could not apply", resolves with the
    conflict outcome, whose files are the paths of the status lines that
    start with UU, AA or DD; any other nonzero exit rejects with the raw
    stderr, or with a fixed message when stderr is empty. *)
Theorem merge_rebase_outcomes (host : Host) (directory target : str) (w : World host) :
  (let result := fst (execGit host [lit "merge"; target] directory w) in
   let w1 := snd (execGit host [lit "merge"; target] directory w) in
   (exitCode result = 0%Z ->
    merge host directory target w
      = (Ok completed, w1, [EvExecGit [lit "merge"; target] directory])) /\
   (exitCode result <> 0%Z ->
    includes (lit "conflict") (combinedOutput result)
      || includes (lit "automatic merge failed") (combinedOutput result) = true ->
    merge host directory target w
      = (Ok (conflicted
               (conflictFilesOf (stdout (fst (execGit host porcelainArgs directory w1))))),
         snd (execGit host porcelainArgs directory w1),
         [EvExecGit [lit "merge"; target] directory; EvExecGit porcelainArgs directory])) /\
   (exitCode result <> 0%Z ->
    includes (lit "conflict") (combinedOutput result)
      || includes (lit "automatic merge failed") (combinedOutput result) = false ->
    merge host directory target w
      = (Throw (orElse (stderr result) (lit "Merge failed")), w1,
         [EvExecGit [lit "merge"; target] directory]))) /\
  (let result := fst (execGit host [lit "rebase"; target] directory w) in
   let w1 := snd (execGit host [lit "rebase"; target] directory w) in
   (exitCode result = 0%Z ->
    rebase host directory target w
      = (Ok completed, w1, [EvExecGit [lit "rebase"; target] directory])) /\
   (exitCode result <> 0%Z ->
    includes (lit "conflict") (combinedOutput result)
      || includes (lit "could not apply") (combinedOutput result) = true ->
    rebase host directory target w
      = (Ok (conflicted
               (conflictFilesOf (stdout (fst (execGit host porcelainArgs directory w1))))),
         snd (execGit host porcelainArgs directory w1),
         [EvExecGit [lit "rebase"; target] directory; EvExecGit porcelainArgs directory])) /\
   (exitCode result <> 0%Z ->
    includes (lit "conflict") (combinedOutput result)
      || includes (lit "could not apply") (combinedOutput result) = false ->
    rebase host directory target w
      = (Throw (orElse (stderr result) (lit "Rebase failed")), w1,
         [EvExecGit [lit "rebase"; target] directory]))) /\
  (forall out p,
      In p (conflictFilesOf out) <->
      exists line, In line (split (ascii_of_nat 10) out) /\
                   (startsWith (lit "UU") line || startsWith (lit "AA") line
                    || startsWith (lit "DD") line) = true /\
                   p = trim (sliceFrom 3 line)).
Proof.
  split; [|split].
  - cbv zeta. rewrite <- mergeIsConflict_phrases.
    exact (operation_outcomes host mergeIsConflict (lit "Merge failed")
             [lit "merge"; target] directory w).
  - cbv zeta. rewrite <- rebaseIsConflict_phrases.
    exact (operation_outcomes host rebaseIsConflict (lit "Rebase failed")
             [lit "rebase"; target] directory w).
  - exact conflictFilesOf_spec.
Qed.

(** The conflict in [x.txt]: both operations resolve with
    [conflictFiles = ["x.txt"]]. *)
Lemma merge_rebase_outcomes_witness :
  merge (Scripted.make Cases.conflictingRepository) (lit "/repo") (lit "feature") 0
    = (Ok (conflicted [lit "x.txt"]), 0,
       [EvExecGit [lit "merge"; lit "feature"] (lit "/repo");
        EvExecGit porcelainArgs (lit "/repo")]) /\
  rebase (Scripted.make Cases.conflictingRepository) (lit "/repo") (lit "main") 0
    = (Ok (conflicted [lit "x.txt"]), 0,
       [EvExecGit [lit "rebase"; lit "main"] (lit "/repo");
        EvExecGit porcelainArgs (lit "/repo")]).
Proof.
  split.
  - destruct (merge_rebase_outcomes (Scripted.make Cases.conflictingRepository)
                (lit "/repo") (lit "feature") 0) as [[_ [H _]] _].
    apply H; [discriminate | reflexivity].
  - destruct (merge_rebase_outcomes (Scripted.make Cases.conflictingRepository)
                (lit "/repo") (lit "main") 0) as [_ [[_ [H _]] _]].
    apply H; [discriminate | reflexivity].
Defined.

(* ------------------------------------------------------------------ *)
(** ** SSH key paths *)

Section Identity.

Lemma replaceAll_absent c r s : ~ In c s -> replaceAll c r s = s.
Proof.
  unfold replaceAll. induction s as [|x t IH]; simpl; intro H; [reflexivity|].
  destruct (chr_eqb x c) eqn:E.
  - apply chr_eqb_eq in E. exfalso. apply H. left. exact E.
  - simpl. f_equal. apply IH. tauto.
Qed.

Lemma safeKeyPath_absent p c :
  safeKeyPath p -> isDangerousChar c = true -> ~ In c p.
Proof.
  unfold safeKeyPath. intros Hs Hc Hin.
  assert (T : existsb isDangerousChar p = true).
  { apply existsb_exists. exists c. split; assumption. }
  congruence.
Qed.

Variable host : Host.

Lemma escapeSshKeyPath_safe p :
  safeKeyPath p -> escapeSshKeyPath host p = Ok (lit "'" ++ quotedKeyPath host p ++ lit "'").
Proof.
  intro Hs. unfold escapeSshKeyPath, quotedKeyPath. rewrite Hs.
  destruct (platform_win32 host).
  - rewrite replaceAll_absent by (apply safeKeyPath_absent; [exact Hs | reflexivity]).
    unfold msysPath. destruct p as [|d [|c [|s rest]]]; try reflexivity.
    destruct (isAsciiLetter d && chr_eqb c ":"%char && chr_eqb s "/"%char) eqn:E;
      [|reflexivity].
    apply andb_true_iff in E. destruct E as [_ E]. apply chr_eqb_eq in E. subst s.
    reflexivity.
  - rewrite replaceAll_absent by (apply safeKeyPath_absent; [exact Hs | reflexivity]).
    reflexivity.
Qed.

Lemma buildSshCommand_safe p :
  safeKeyPath p -> buildSshCommand host p = Ok (sshCommandFor host p).
Proof.
  intro Hs. unfold buildSshCommand, sshCommandFor. rewrite (escapeSshKeyPath_safe p Hs).
  f_equal. change (lit "ssh -i '") with (lit "ssh -i " ++ lit "'").
  repeat rewrite <- app_assoc. reflexivity.
Qed.

Lemma buildSshCommand_dangerous p :
  existsb isDangerousChar p = true ->
  buildSshCommand host p = Throw (lit "SSH key path contains invalid characters: " ++ p).
Proof. intro H. unfold buildSshCommand, escapeSshKeyPath. rewrite H. reflexivity. Qed.

Lemma dangerous_nonempty p : existsb isDangerousChar p = true -> truthy p = true.
Proof. destruct p; [discriminate | reflexivity]. Qed.

End Identity.

(** C9, as stated, fails on Windows: a key path under a drive letter has
    no character of the denylist, and the generated command quotes its
    MSYS form, not the path. *)
Lemma sshCommand_windows_drive_path :
  let host := Scripted.make Cases.windowsMachine in
  let key := lit "C:/Users/dev/.ssh/id_ed25519" in
  existsb isDangerousChar key = false /\
  buildSshCommand host key = Ok (lit "ssh -i '/c/Users/dev/.ssh/id_ed25519' -o IdentitiesOnly=yes") /\
  includes (lit "'" ++ key ++ lit "'")
           (lit "ssh -i '/c/Users/dev/.ssh/id_ed25519' -o IdentitiesOnly=yes") = false /\
  snd (setGitIdentity host (lit "C:/work") (lit "Dev") (lit "dev@example.org") (Some key) 0)
    = [EvGetRepository (lit "C:/work");
       EvExecGit [lit "config"; lit "user.name"; lit "Dev"] (lit "C:/work");
       EvExecGit [lit "config"; lit "user.email"; lit "dev@example.org"] (lit "C:/work");
       EvExecGit [lit "config"; lit "core.sshCommand";
                  lit "ssh -i '/c/Users/dev/.ssh/id_ed25519' -o IdentitiesOnly=yes"]
                 (lit "C:/work")].
Proof. cbv zeta. repeat split; vm_compute; reflexivity. Qed.

(** C9 (amended): a key path that holds a character of the denylist
    makes [setGitIdentity] reject, with nothing done but the lookup of the
    repository: no command string, no configuration write.  For a
    non-empty path free of those characters the generated
    [core.sshCommand] is [ssh -i '<path>' -o IdentitiesOnly=yes], where
    on Windows a leading drive prefix [X:/] of the path is rewritten to
    [/x/]; that command is what is written, through the raw git fallback
    or through the adapter. *)
Theorem setGitIdentity_ssh_key (host : Host) (directory userName userEmail key : str)
    (w : World host) :
  (existsb isDangerousChar key = true ->
   setGitIdentity host directory userName userEmail (Some key) w
     = (Throw (lit "SSH key path contains invalid characters: " ++ key),
        snd (getRepository host directory w),
        [EvGetRepository directory])) /\
  (safeKeyPath key -> key <> [] ->
   buildSshCommand host key = Ok (sshCommandFor host key) /\
   (fst (getRepository host directory w) = None ->
    snd (setGitIdentity host directory userName userEmail (Some key) w)
      = [EvGetRepository directory;
         EvExecGit [lit "config"; lit "user.name"; userName] directory;
         EvExecGit [lit "config"; lit "user.email"; userEmail] directory;
         EvExecGit [lit "config"; lit "core.sshCommand"; sshCommandFor host key] directory]) /\
   (fst (getRepository host directory w) <> None ->
    (forall r k v w0, fst (repo_setConfig host r k v w0) = Ok tt) ->
    snd (setGitIdentity host directory userName userEmail (Some key) w)
      = [EvGetRepository directory;
         EvSetConfig (lit "user.name") userName;
         EvSetConfig (lit "user.email") userEmail;
         EvSetConfig (lit "core.sshCommand") (sshCommandFor host key)])).
Proof.
  unfold setGitIdentity.
  destruct (getRepository host directory w) as [repo w1] eqn:Erepo.
  assert (R : perform host (getRepository host directory) (EvGetRepository directory) w
              = (Ok repo, w1, [EvGetRepository directory])).
  { unfold perform. rewrite Erepo. reflexivity. }
  simpl fst. simpl snd. split.
  - intro Hd. unfold bind at 1. rewrite R.
    rewrite (dangerous_nonempty key Hd).
    unfold bind at 1. unfold bind at 1. unfold liftOutcome.
    rewrite (buildSshCommand_dangerous host key Hd). reflexivity.
  - intros Hs Hne. split; [apply buildSshCommand_safe; exact Hs|].
    assert (Ht : truthy key = true) by (destruct key; [contradiction | reflexivity]).
    split.
    + intros ->. unfold bind at 1. rewrite R, Ht.
      unfold bind at 1. unfold bind at 1. unfold liftOutcome.
      rewrite (buildSshCommand_safe host key Hs).
      unfold bind, ret, doExecGit, perform.
      repeat match goal with
             | |- context [execGit host ?a ?c ?x] => destruct (execGit host a c x)
             end.
      reflexivity.
    + intros Hrepo Hset. destruct repo as [r|]; [|contradiction].
      unfold bind at 1. rewrite R, Ht.
      unfold bind at 1. unfold bind at 1. unfold liftOutcome.
      rewrite (buildSshCommand_safe host key Hs).
      unfold bind, ret, tryCatch, setConfig, performOutcome.
      repeat match goal with
             | |- context [repo_setConfig host ?a ?k ?v ?x] =>
                 let E := fresh "E" in
                 pose proof (Hset a k v x) as E;
                 destruct (repo_setConfig host a k v x); simpl in E; subst
             end.
      reflexivity.
Qed.

(** The path ["; rm -rf /"] is rejected after the repository lookup
    alone; a plain path is quoted as it is on a POSIX machine, written
    through the fallback or through the adapter. *)
Lemma setGitIdentity_ssh_key_witness :
  setGitIdentity (Scripted.make Cases.silentRepository) (lit "/repo") (lit "Dev")
      (lit "dev@example.org") (Some (lit "; rm -rf /")) 0
    = (Throw (lit "SSH key path contains invalid characters: ; rm -rf /"), 0,
       [EvGetRepository (lit "/repo")]) /\
  buildSshCommand (Scripted.make Cases.silentRepository) (lit "/home/dev/.ssh/id_ed25519")
    = Ok (lit "ssh -i '/home/dev/.ssh/id_ed25519' -o IdentitiesOnly=yes") /\
  snd (setGitIdentity (Scripted.make Cases.silentRepository) (lit "/repo") (lit "Dev")
         (lit "dev@example.org") (Some (lit "/home/dev/.ssh/id_ed25519")) 0)
    = [EvGetRepository (lit "/repo");
       EvExecGit [lit "config"; lit "user.name"; lit "Dev"] (lit "/repo");
       EvExecGit [lit "config"; lit "user.email"; lit "dev@example.org"] (lit "/repo");
       EvExecGit [lit "config"; lit "core.sshCommand";
                  lit "ssh -i '/home/dev/.ssh/id_ed25519' -o IdentitiesOnly=yes"] (lit "/repo")] /\
  snd (setGitIdentity (Scripted.make Cases.adapterMachine) (lit "/repo") (lit "Dev")
         (lit "dev@example.org") (Some (lit "/home/dev/.ssh/id_ed25519")) 0)
    = [EvGetRepository (lit "/repo");
       EvSetConfig (lit "user.name") (lit "Dev");
       EvSetConfig (lit "user.email") (lit "dev@example.org");
       EvSetConfig (lit "core.sshCommand")
                   (lit "ssh -i '/home/dev/.ssh/id_ed25519' -o IdentitiesOnly=yes")].
Proof.
  assert (Hsafe : safeKeyPath (lit "/home/dev/.ssh/id_ed25519")) by reflexivity.
  assert (Hne : lit "/home/dev/.ssh/id_ed25519" <> []) by discriminate.
  split; [|split; [|split]].
  - apply (setGitIdentity_ssh_key (Scripted.make Cases.silentRepository)). reflexivity.
  - apply (setGitIdentity_ssh_key (Scripted.make Cases.silentRepository)
             (lit "/repo") (lit "Dev") (lit "dev@example.org")
             (lit "/home/dev/.ssh/id_ed25519") 0); assumption.
  - apply (setGitIdentity_ssh_key (Scripted.make Cases.silentRepository)
             (lit "/repo") (lit "Dev") (lit "dev@example.org")
             (lit "/home/dev/.ssh/id_ed25519") 0); [assumption | assumption | reflexivity].
  - apply (setGitIdentity_ssh_key (Scripted.make Cases.adapterMachine)
             (lit "/repo") (lit "Dev") (lit "dev@example.org")
             (lit "/home/dev/.ssh/id_ed25519") 0);
      [assumption | assumption | discriminate | intros; reflexivity].
Defined.

(* ------------------------------------------------------------------ *)
(** ** Candidate names *)

Section CandidateNames.

Variable host : Host.






End CandidateNames.

Section CandidateSearch.

Variable host : Host.
Variables worktreeRoot explicitBranchName primaryWorktree : str.

(** The directories and the branch refs as the host reports them, the
    same at every moment of the call. *)
Variables dirExists refExists : str -> bool.

Hypothesis stat_reports :
  forall p w, dirExists p = match fst (fs_stat host p w) with Ok _ => true | Throw _ => false end.

Hypothesis showRef_reports :
  forall ref w,
    refExists ref = (exitCode (fst (execGit host (showRefArgs ref) primaryWorktree w)) =? 0)%Z.



End CandidateSearch.

Section CreateUsesCandidate.

Variable host : Host.




End CreateUsesCandidate.




(* ------------------------------------------------------------------ *)
(** ** The project context *)

Section ContextEvents.

Variable host : Host.
Variable P : Event -> Prop.
Hypothesis P_observation : forall ev, isObservation ev -> P ev.

Lemma emits_query cwd args fallback :
  isQueryCommand args = true -> emits host P (runGitCommandOrThrow host cwd args fallback).
Proof. intro H. apply emits_runGitCommandOrThrow. apply P_observation. exact H. Qed.

Lemma emits_query_soft cwd args :
  isQueryCommand args = true -> emits host P (runGitCommand host cwd args).
Proof. intro H. apply emits_runGitCommand. apply P_observation. exact H. Qed.

Lemma emits_readFile p : emits host P (readFile host p).
Proof. apply emits_performOutcome. apply P_observation. exact I. Qed.

(** The project ID: read from the marker, or derived from the root
    commits and written to the marker. *)
Lemma emits_ensureOpenCodeProjectId primary :
  (forall ev, isMarkerWrite host ev -> P ev) ->
  emits host P (ensureOpenCodeProjectId host primary).
Proof.
  intro P_marker. unfold ensureOpenCodeProjectId. cbv zeta.
  apply emits_bind.
  - apply emits_tryCatch; [|intro; apply emits_ret].
    apply emits_bind; [apply emits_readFile | intro; apply emits_ret].
  - intro existing. destruct (negb (isEmpty existing)); [apply emits_ret|].
    apply emits_bind; [apply emits_query; reflexivity|].
    intro rootsResult.
    match goal with |- emits _ _ (if ?c then _ else _) => destruct c end;
      [apply emits_throw|].
    apply emits_bind.
    + apply emits_orOnReject. apply emits_performOutcome. apply P_marker.
      left. exists primary. reflexivity.
    + intros _. apply emits_bind; [|intro; apply emits_ret].
      apply emits_orOnReject. apply emits_performOutcome. apply P_marker.
      right. exists primary. eexists. reflexivity.
Qed.

(** The same, for the marker of this primary worktree only. *)
Lemma emits_ensureOpenCodeProjectId_at primary :
  (forall ev, markerWriteAt host primary ev -> P ev) ->
  emits host P (ensureOpenCodeProjectId host primary).
Proof.
  intro P_marker. unfold ensureOpenCodeProjectId. cbv zeta.
  apply emits_bind.
  - apply emits_tryCatch; [|intro; apply emits_ret].
    apply emits_bind; [apply emits_readFile | intro; apply emits_ret].
  - intro existing. destruct (negb (isEmpty existing)); [apply emits_ret|].
    apply emits_bind; [apply emits_query; reflexivity|].
    intro rootsResult.
    match goal with |- emits _ _ (if ?c then _ else _) => destruct c end;
      [apply emits_throw|].
    apply emits_bind.
    + apply emits_orOnReject. apply emits_performOutcome. apply P_marker.
      left. reflexivity.
    + intros _. apply emits_bind; [|intro; apply emits_ret].
      apply emits_orOnReject. apply emits_performOutcome. apply P_marker.
      right. eexists. reflexivity.
Qed.

(** With the project ID in the marker when it is read, nothing is
    written. *)
Lemma ensureOpenCodeProjectId_cached primary w :
  (exists text,
      fst (fs_readFile host (idFileOf host primary) w) = Ok text /\ trim text <> []) ->
  Forall P (snd (ensureOpenCodeProjectId host primary w)).
Proof.
  intros [text [Hread Hne]]. unfold ensureOpenCodeProjectId. cbv zeta.
  fold (gitDirOf host primary). fold (idFileOf host primary).
  unfold bind at 1. unfold tryCatch, bind at 1. unfold readFile, performOutcome, ret.
  destruct (fs_readFile host (idFileOf host primary) w) as [r w1]. simpl in Hread. subst r.
  simpl. destruct (trim text) eqn:E; [contradiction|]. simpl.
  repeat constructor. apply P_observation. exact I.
Qed.

(** The events of a sequence, in the world at hand. *)
Lemma trace_bind {A B} (m : M host A) (k : A -> M host B) w :
  Forall P (snd (m w)) ->
  (forall a w1 t1, m w = (Ok a, w1, t1) -> Forall P (snd (k a w1))) ->
  Forall P (snd (bind m k w)).
Proof.
  intros Hm Hk. unfold bind. destruct (m w) as [[[a|e] w1] t1]; [|exact Hm].
  specialize (Hk a w1 t1 eq_refl). destruct (k a w1) as [[r w2] t2]. cbn [snd] in *.
  apply Forall_app. split; assumption.
Qed.

Lemma trace_tryCatch {A} (m : M host A) handler w :
  Forall P (snd (m w)) ->
  (forall e w1, Forall P (snd (handler e w1))) ->
  Forall P (snd (tryCatch m handler w)).
Proof.
  intros Hm Hh. unfold tryCatch. destruct (m w) as [[[a|e] w1] t1]; [exact Hm|].
  specialize (Hh e w1). destruct (handler e w1) as [[r w2] t2]. cbn [snd] in *.
  apply Forall_app. split; assumption.
Qed.

(** The primary worktree of a resolved context is the one that the two
    [rev-parse] commands give. *)
Lemma resolve_probe directory w context w1 t1 :
  resolveWorktreeProjectContext host directory w = (Ok context, w1, t1) ->
  primaryWorktree context = fst (contextProbe host directory w).
Proof.
  unfold resolveWorktreeProjectContext, contextProbe. cbv zeta.
  destruct (isEmpty (normalizeDirectoryPath host directory)); [discriminate|].
  intro H.
  apply bind_inv_ok in H. destruct H as [topResult [wa [ta [tb [Etop [H _]]]]]].
  destruct (runGitCommandOrThrow_run host (normalizeDirectoryPath host directory)
              (map lit ["rev-parse"; "--show-toplevel"]%string)
              (lit "Failed to resolve git top-level directory") w) as [outcome [E Hout]].
  assert (Ho : outcome = Ok topResult) by congruence.
  assert (Hw : wa = snd (execGit host (map lit ["rev-parse"; "--show-toplevel"]%string)
                           (normalizeDirectoryPath host directory) w)) by congruence.
  subst outcome wa. destruct Hout as [_ Htop]. clear E Etop.
  apply bind_inv_ok in H. destruct H as [commonResult [wb [tc [td [Ecommon [H _]]]]]].
  set (sandbox := path_resolve host
                    [normalizeDirectoryPath host directory; trim (cmdStdout topResult)]) in *.
  destruct (runGitCommandOrThrow_run host sandbox
              (map lit ["rev-parse"; "--git-common-dir"]%string)
              (lit "Failed to resolve git common directory")
              (snd (execGit host (map lit ["rev-parse"; "--show-toplevel"]%string)
                      (normalizeDirectoryPath host directory) w)))
    as [outcome [E Hout]].
  assert (Ho : outcome = Ok commonResult) by congruence.
  subst outcome. destruct Hout as [_ Hcommon]. clear E Ecommon.
  apply bind_inv_ok in H. destruct H as [projectID [wc [te [tf [_ [H _]]]]]].
  unfold ret in H.
  assert (Hc : context = {| projectID := projectID; sandbox := sandbox;
                            primaryWorktree :=
                              path_dirname host
                                (path_resolve host [sandbox; trim (cmdStdout commonResult)]);
                            worktreeRoot :=
                              path_join host [getOpenCodeDataPath host; lit "worktree";
                                              projectID] |}) by congruence.
  rewrite Hc. cbn [primaryWorktree fst]. subst sandbox.
  rewrite Hcommon, Htop. reflexivity.
Qed.

(** The events of the resolution of the context, in the world at hand:
    the two commands, and what the project ID takes. *)
Lemma resolve_trace directory w :
  Forall P (snd (ensureOpenCodeProjectId host (fst (contextProbe host directory w))
                   (snd (contextProbe host directory w)))) ->
  Forall P (snd (resolveWorktreeProjectContext host directory w)).
Proof.
  unfold resolveWorktreeProjectContext, contextProbe. cbv zeta. cbn [fst snd].
  destruct (isEmpty (normalizeDirectoryPath host directory)); [intros _; constructor|].
  intro Hid.
  destruct (runGitCommandOrThrow_run host (normalizeDirectoryPath host directory)
              (map lit ["rev-parse"; "--show-toplevel"]%string)
              (lit "Failed to resolve git top-level directory") w) as [top [Etop Htop]].
  apply trace_bind.
  { rewrite Etop. constructor; [apply P_observation; reflexivity | constructor]. }
  intros topResult wa ta Ha.
  assert (Ho : top = Ok topResult) by congruence.
  assert (Hw : wa = snd (execGit host (map lit ["rev-parse"; "--show-toplevel"]%string)
                           (normalizeDirectoryPath host directory) w)) by congruence.
  subst top wa. destruct Htop as [_ Htop]. rewrite Htop. clear Etop Ha.
  set (sandbox := path_resolve host
                    [normalizeDirectoryPath host directory;
                     trim (stdout (fst (execGit host
                                          (map lit ["rev-parse"; "--show-toplevel"]%string)
                                          (normalizeDirectoryPath host directory) w)))]) in *.
  destruct (runGitCommandOrThrow_run host sandbox
              (map lit ["rev-parse"; "--git-common-dir"]%string)
              (lit "Failed to resolve git common directory")
              (snd (execGit host (map lit ["rev-parse"; "--show-toplevel"]%string)
                      (normalizeDirectoryPath host directory) w)))
    as [common [Ecommon Hcommon]].
  apply trace_bind.
  { rewrite Ecommon. constructor; [apply P_observation; reflexivity | constructor]. }
  intros commonResult wb tb Hb.
  assert (Ho : common = Ok commonResult) by congruence.
  assert (Hw : wb = snd (execGit host (map lit ["rev-parse"; "--git-common-dir"]%string)
                           sandbox
                           (snd (execGit host (map lit ["rev-parse"; "--show-toplevel"]%string)
                                   (normalizeDirectoryPath host directory) w))))
    by congruence.
  subst common wb. destruct Hcommon as [_ Hcommon]. rewrite Hcommon. clear Ecommon Hb.
  apply trace_bind; [exact Hid|].
  intros projectID wc tc _. constructor.
Qed.

Hypothesis P_projectId : forall primary, emits host P (ensureOpenCodeProjectId host primary).

Lemma emits_resolveWorktreeProjectContext directory :
  emits host P (resolveWorktreeProjectContext host directory).
Proof.
  unfold resolveWorktreeProjectContext. cbv zeta.
  destruct (isEmpty (normalizeDirectoryPath host directory)); [apply emits_throw|].
  apply emits_bind; [apply emits_query; reflexivity|]. intro topResult.
  apply emits_bind; [apply emits_query; reflexivity|]. intro commonResult.
  apply emits_bind; [apply P_projectId|]. intro projectID. apply emits_ret.
Qed.

Lemma emits_listWorktreeEntries directory :
  emits host P (listWorktreeEntries host directory).
Proof.
  unfold listWorktreeEntries. apply emits_bind; [apply emits_query; reflexivity|].
  intro rawResult. apply emits_ret.
Qed.

Lemma emits_findBranchInUse primary localBranchName :
  emits host P (findBranchInUse host primary localBranchName).
Proof.
  unfold findBranchInUse. destruct (isEmpty localBranchName); [apply emits_ret|].
  apply emits_bind; [apply emits_listWorktreeEntries | intro; apply emits_ret].
Qed.

End ContextEvents.

Lemma emits_context host directory :
  emits host (contextEvent host) (resolveWorktreeProjectContext host directory).
Proof.
  apply emits_resolveWorktreeProjectContext.
  - intros ev H. left. exact H.
  - intro primary. apply emits_ensureOpenCodeProjectId.
    + intros ev H. left. exact H.
    + intros ev H. right. exact H.
Qed.

(* ------------------------------------------------------------------ *)
(** ** Removal: the primary worktree *)

(** C7: when the target canonicalizes to the path of the primary
    worktree, [removeWorktree] rejects with the fixed message, whatever
    the other arguments; all it did was to resolve the context (read-only
    git queries and, at most, the write of the project-ID marker) and the
    two [realpath] lookups: no [rm], no [worktree remove], no
    [branch -D], no write of the metadata store. *)
Theorem removeWorktree_primary (host : Host) (directory : str)
    (input : RemoveGitWorktreePayload) (w : World host)
    (context : ProjectContext) (w1 : World host) (t1 : list Event) :
  let target := normalizeDirectoryPath host (removeDirectory input) in
  let targetCanonical := canonicalPath host target w1 in
  let primaryCanonical :=
    canonicalPath host (primaryWorktree context) (snd (fst targetCanonical)) in
  target <> [] ->
  resolveWorktreeProjectContext host directory w = (Ok context, w1, t1) ->
  fst (fst targetCanonical) = fst (fst primaryCanonical) ->
  removeWorktree host directory input w
    = (Throw (lit "Cannot remove the primary workspace"),
       snd (fst primaryCanonical),
       t1 ++ [EvRealpath (path_resolve host [target]);
              EvRealpath (path_resolve host [primaryWorktree context])]) /\
  Forall (contextEvent host)
         (t1 ++ [EvRealpath (path_resolve host [target]);
                 EvRealpath (path_resolve host [primaryWorktree context])]).
Proof.
  intros target targetCanonical primaryCanonical Hne Hctx Hsame.
  destruct (canonicalPath_ok host target w1) as [tc [w2 [t2 [E2 ->]]]].
  destruct (canonicalPath_ok host (primaryWorktree context) w2) as [pc [w3 [t3 [E3 ->]]]].
  subst targetCanonical primaryCanonical. rewrite E2 in *. simpl snd in *. simpl fst in *.
  rewrite E3 in *. simpl in Hsame. injection Hsame as ->.
  split.
  - unfold removeWorktree. fold target.
    destruct (isEmpty target) eqn:Ee; [apply isEmpty_true in Ee; contradiction|].
    eapply eq_trans.
    + eapply bind_step; [exact Hctx|].
      eapply bind_step; [exact E2|].
      eapply bind_step; [exact E3|].
      rewrite str_eqb_refl. reflexivity.
    + simpl. reflexivity.
  - apply Forall_app. split.
    + pose proof (emits_context host directory w) as H. rewrite Hctx in H. exact H.
    + repeat constructor; left; exact I.
Qed.

(** Asking to remove [/repo], the primary worktree, with
    [deleteLocalBranch] set. *)
Lemma removeWorktree_primary_witness :
  removeWorktree (Scripted.make Scripted.repoScript) (lit "/repo")
      {| removeDirectory := lit "/repo"; deleteLocalBranch := Some true |} 0
    = (Throw (lit "Cannot remove the primary workspace"), 0,
       [EvExecGit (map lit ["rev-parse"; "--show-toplevel"]%string) (lit "/repo");
        EvExecGit (map lit ["rev-parse"; "--git-common-dir"]%string) (lit "/repo");
        EvReadFile Scripted.idFile;
        EvRealpath (lit "/repo"); EvRealpath (lit "/repo")]).
Proof.
  refine (proj1 (removeWorktree_primary (Scripted.make Scripted.repoScript) (lit "/repo")
                   {| removeDirectory := lit "/repo"; deleteLocalBranch := Some true |} 0
                   {| projectID := lit "abc123"; sandbox := lit "/repo";
                      primaryWorktree := lit "/repo";
                      worktreeRoot := lit "/data/opencode/worktree/abc123" |}
                   0
                   [EvExecGit (map lit ["rev-parse"; "--show-toplevel"]%string) (lit "/repo");
                    EvExecGit (map lit ["rev-parse"; "--git-common-dir"]%string) (lit "/repo");
                    EvReadFile Scripted.idFile]
                   _ _ _)).
  - discriminate.
  - vm_compute. reflexivity.
  - reflexivity.
Defined.

(* ------------------------------------------------------------------ *)
(** ** Removal: a worktree that git no longer lists *)

Section StoreLemmas.

Lemma normalizeSandboxes_normalized l : Forall normalizedEntry (normalizeSandboxes l).
Proof.
  unfold normalizeSandboxes, filterNonEmpty. apply Forall_forall. intros e He.
  apply filter_In in He. destruct He as [Hin Hne].
  apply in_map_iff in Hin. destruct Hin as [x [<- _]]. split.
  - apply trim_idempotent.
  - apply isEmpty_false. apply negb_true_iff. exact Hne.
Qed.

Lemma currentProject_normalized projectID primary now parsed :
  Forall normalizedEntry (sandboxes (currentProject projectID primary now parsed)).
Proof.
  destruct parsed as [p|]; simpl; [|constructor].
  destruct (parsedSandboxes p); [apply normalizeSandboxes_normalized | constructor].
Qed.

Lemma dedupe_subset entries : forall seen e, In e (dedupe seen entries) -> In e entries.
Proof.
  induction entries as [|x rest IH]; intros seen e H; simpl in *; [exact H|].
  destruct (existsb (str_eqb x) seen).
  - right. eapply IH. exact H.
  - destruct H as [H|H]; [left; exact H | right; eapply IH; exact H].
Qed.

(** The record written by a removal lists neither the path nor its
    trimmed form. *)
Lemma withoutSandbox_excludes current sandboxPath :
  Forall normalizedEntry (sandboxes current) ->
  ~ In sandboxPath (sandboxes (withoutSandbox current sandboxPath)) /\
  ~ In (trim sandboxPath) (sandboxes (withoutSandbox current sandboxPath)).
Proof.
  intro Hnorm.
  assert (K : forall e, In e (sandboxes (withoutSandbox current sandboxPath)) ->
                        e <> trim sandboxPath /\ trim e = e).
  { intros e He. unfold withoutSandbox, finalizeProject, withSandboxes in He. simpl in He.
    apply dedupe_subset in He. unfold normalizeSandboxes, filterNonEmpty in He.
    apply filter_In in He. destruct He as [He _].
    apply in_map_iff in He. destruct He as [x [Ex Hx]].
    apply filter_In in Hx. destruct Hx as [Hin Hneq].
    rewrite Forall_forall in Hnorm. destruct (Hnorm x Hin) as [Tx _].
    rewrite Tx in Ex. subst e. split; [|exact Tx].
    apply negb_true_iff in Hneq. apply str_eqb_neq in Hneq. exact Hneq. }
  split; intro H; destruct (K _ H) as [Hneq Htrim].
  - apply Hneq. symmetry. exact Htrim.
  - apply Hneq. reflexivity.
Qed.

End StoreLemmas.

Section StoreUpdate.

Variable host : Host.

(** The read-modify-write, step by step: it stops at a rejected [mkdir];
    otherwise it reads the clock and the record and writes the record
    that the updater made, finalized. *)
Lemma updateProjectSandboxes_run projectID primary updater w :
  let made := fs_mkdir host (storageDirOf host projectID) w in
  let content :=
    recordText host (finalizeProject (updater (storedProject host projectID primary w))) in
  let written :=
    fs_writeFile host (getProjectStoragePath host projectID) content
      (worldAtWrite host projectID w) in
  updateProjectSandboxes host projectID primary updater w
  = match fst made with
    | Throw e => (Throw e, snd made, [EvMkdir (storageDirOf host projectID)])
    | Ok _ => (fst written, snd written, storeUpdateTrace host projectID content)
    end.
Proof.
  cbv zeta.
  unfold updateProjectSandboxes, storedProject, worldAtWrite, worldAtRead, storeUpdateTrace,
    recordText, storageDirOf.
  set (storagePath := getProjectStoragePath host projectID).
  destruct (fs_mkdir host (path_dirname host storagePath) w) as [made w1] eqn:Em.
  assert (Hm : mkdir host (path_dirname host storagePath) w
               = (made, w1, [EvMkdir (path_dirname host storagePath)])).
  { unfold mkdir, performOutcome. rewrite Em. reflexivity. }
  simpl fst; simpl snd.
  destruct made as [u|e]; [|apply bind_throw; exact Hm].
  destruct (date_now host w1) as [now w2] eqn:En.
  assert (Hn : perform host (date_now host) EvDateNow w1 = (Ok now, w2, [EvDateNow])).
  { unfold perform. rewrite En. reflexivity. }
  simpl fst; simpl snd.
  set (reading := tryCatch _ _).
  assert (R : reading w2
              = (Ok (match fst (fs_readFile host storagePath w2) with
                     | Ok raw => JSON_parse_project host raw
                     | Throw _ => None
                     end),
                 snd (fs_readFile host storagePath w2), [EvReadFile storagePath])).
  { subst reading. unfold tryCatch, bind, readFile, performOutcome, ret.
    destruct (fs_readFile host storagePath w2) as [[raw|e] w3]; reflexivity. }
  eapply eq_trans.
  - eapply bind_step; [exact Hm|].
    eapply bind_step; [exact Hn|].
    eapply bind_step; [exact R|].
    apply writeFile_run.
  - reflexivity.
Qed.

End StoreUpdate.

Section DetachedRemoval.

Variable host : Host.

(** The logged deregistration never rejects, and does what the store's
    answers make of it. *)
Lemma syncRemoveLogged_deregisters context target w :
  trim target <> [] ->
  exists w1 tsync,
    syncRemoveLogged host context target w = (Ok tt, w1, tsync) /\
    deregistered host context target w tsync.
Proof.
  intro Hne. unfold syncRemoveLogged, syncProjectSandboxRemove, deregistered. cbv zeta.
  destruct (isEmpty (trim target)) eqn:E; [apply isEmpty_true in E; contradiction|].
  unfold tryCatch. rewrite updateProjectSandboxes_run. cbv zeta.
  change (finalizeProject
            (withSandboxes (storedProject host (projectID context) (primaryWorktree context) w)
               (filter (fun entry => negb (str_eqb entry (trim target)))
                  (sandboxes (storedProject host (projectID context)
                                (primaryWorktree context) w)))))
    with (withoutSandbox (storedProject host (projectID context) (primaryWorktree context) w)
            target).
  set (record := withoutSandbox _ target).
  assert (Hout : ~ In target (sandboxes record) /\ ~ In (trim target) (sandboxes record)).
  { apply withoutSandbox_excludes. apply currentProject_normalized. }
  destruct (fst (fs_mkdir host (storageDirOf host (projectID context)) w)) as [u|e].
  - destruct (fs_writeFile host (getProjectStoragePath host (projectID context))
                (recordText host record) (worldAtWrite host (projectID context) w))
      as [[u'|e] w3]; cbn [fst snd].
    + destruct u'. eexists. eexists. split; [reflexivity|].
      split; [apply Hout|]. split; [apply Hout | reflexivity].
    + eexists. eexists. split; [reflexivity|].
      split; [apply Hout|]. split; [apply Hout | reflexivity].
  - eexists. eexists. split; reflexivity.
Qed.

End DetachedRemoval.

(** C6, as stated, fails in two ways: when the data directory cannot be
    written, the call returns success while the store still lists the
    path (the failure is only logged); and when the directory is present
    and cannot be deleted, the call fails. *)
Lemma removeWorktree_detached_soft_failures :
  (let host := Scripted.make Cases.storeReadOnly in
   Scripted.fileText Cases.storeReadOnly Scripted.storeFile
     = Some (Cases.demoDirectory ++ newline ++ Cases.goneDirectory) /\
   (forall content w, fst (fs_writeFile host Scripted.storeFile content w) = Throw (lit "EACCES")) /\
   fst (fst (removeWorktree host (lit "/repo") Cases.removeGone 0)) = Ok true /\
   In (EvWarn (lit "[GitService] Failed to sync OpenCode sandbox metadata (remove): EACCES"))
      (snd (removeWorktree host (lit "/repo") Cases.removeGone 0))) /\
  (let host := Scripted.make Cases.undeletable in
   fst (fst (removeWorktree host (lit "/repo") Cases.removeGone 0)) = Throw (lit "EACCES")).
Proof.
  split; cbv zeta.
  - split; [reflexivity|]. split; [intros; reflexivity|].
    split; [vm_compute; reflexivity|]. vm_compute. tauto.
  - vm_compute. reflexivity.
Qed.

(** C6 (amended): for a target that is not the primary worktree and is
    not among the worktree entries, [removeWorktree] deletes the
    directory if it is present, and fails if that deletion fails;
    otherwise it returns success, after a deregistration that never
    fails the call: when the storage directory of the project can be
    made and the write of the record is accepted, the record written to
    the store is the stored one without the path, and nothing is
    logged; when the store refuses the [mkdir] or the write, that is
    logged and the call still succeeds. *)
Theorem removeWorktree_detached (host : Host) (directory : str)
    (input : RemoveGitWorktreePayload) (w : World host)
    (context : ProjectContext) (w1 : World host) (t1 : list Event)
    (targetCanonical : str) (w2 : World host) (t2 : list Event)
    (primaryCanonical : str) (w3 : World host) (t3 : list Event)
    (entries : list WorktreeListEntry) (w4 : World host) (t4 : list Event)
    (w5 : World host) (t5 : list Event) :
  let target := normalizeDirectoryPath host (removeDirectory input) in
  let found := fs_stat host target w5 in
  let deleted := fs_rm host target (snd found) in
  let before := t1 ++ t2 ++ t3 ++ t4 ++ t5 ++ [EvStat target] in
  trim target <> [] ->
  resolveWorktreeProjectContext host directory w = (Ok context, w1, t1) ->
  canonicalPath host target w1 = (Ok targetCanonical, w2, t2) ->
  canonicalPath host (primaryWorktree context) w2 = (Ok primaryCanonical, w3, t3) ->
  targetCanonical <> primaryCanonical ->
  listWorktreeEntries host (primaryWorktree context) w3 = (Ok entries, w4, t4) ->
  findMatchedEntry host targetCanonical entries w4 = (Ok None, w5, t5) ->
  (forall e, fst found = Ok tt -> fst deleted = Throw e ->
     removeWorktree host directory input w = (Throw e, snd deleted, before ++ [EvRm target])) /\
  (fst found = Ok tt -> fst deleted = Ok tt ->
     exists w6 tsync,
       syncRemoveLogged host context target (snd deleted) = (Ok tt, w6, tsync) /\
       removeWorktree host directory input w = (Ok true, w6, before ++ [EvRm target] ++ tsync) /\
       deregistered host context target (snd deleted) tsync) /\
  ((exists e, fst found = Throw e) ->
     exists w6 tsync,
       syncRemoveLogged host context target (snd found) = (Ok tt, w6, tsync) /\
       removeWorktree host directory input w = (Ok true, w6, before ++ tsync) /\
       deregistered host context target (snd found) tsync).
Proof.
  intros target found deleted before Hne Hctx Htc Hpc Hdiff Hlist Hfind.
  assert (Hnonempty : isEmpty target = false).
  { apply isEmpty_false. intro E. rewrite E in Hne. apply Hne. reflexivity. }
  apply str_eqb_neq in Hdiff.
  destruct (checkPathExists_run host target w5) as [wf [Hexists Hwf]]. fold found in Hexists, Hwf.
  (* the call, up to the point where the target is looked up on disk *)
  assert (Prefix : forall r wr tr,
             (bind (if match fst found with Ok _ => true | Throw _ => false end
                    then rm host target else ret tt)
                (fun _ => bind (syncRemoveLogged host context target) (fun _ => ret true)))
               wf = (r, wr, tr) ->
             removeWorktree host directory input w = (r, wr, before ++ tr)).
  { intros r wr tr Hrest. unfold removeWorktree. fold target. rewrite Hnonempty.
    eapply eq_trans.
    - eapply bind_step; [exact Hctx|].
      eapply bind_step; [exact Htc|].
      eapply bind_step; [exact Hpc|]. rewrite Hdiff.
      eapply bind_step; [exact Hlist|].
      eapply bind_step; [exact Hfind|]. cbv beta iota.
      eapply bind_step; [exact Hexists|]. exact Hrest.
    - unfold before. repeat rewrite <- app_assoc. reflexivity. }
  split; [|split].
  - intros e Hf Hd. rewrite (Prefix (Throw e) (snd deleted) [EvRm target]); [reflexivity|].
    rewrite Hf. apply bind_throw. rewrite rm_run. subst wf. fold deleted. rewrite Hd. reflexivity.
  - intros Hf Hd.
    destruct (syncRemoveLogged_deregisters host context target (snd deleted) Hne)
      as [w6 [tsync [Hs Hstore]]].
    exists w6, tsync. split; [exact Hs|]. split; [|exact Hstore].
    apply Prefix. rewrite Hf.
    eapply bind_step; [rewrite rm_run; subst wf; fold deleted; rewrite Hd; reflexivity|].
    eapply eq_trans; [eapply bind_step; [exact Hs | reflexivity]|].
    rewrite app_nil_r. reflexivity.
  - intros [e Hf].
    destruct (syncRemoveLogged_deregisters host context target (snd found) Hne)
      as [w6 [tsync [Hs Hstore]]].
    exists w6, tsync. split; [exact Hs|]. split; [|exact Hstore].
    apply Prefix. rewrite Hf. rewrite bind_ret_l. subst wf.
    eapply eq_trans; [eapply bind_step; [exact Hs | reflexivity]|].
    rewrite app_nil_r. reflexivity.
Qed.

(** The worktree [gone]: absent from disk and from the worktree list,
    registered in the store, whose directory can be made and whose file
    can be written.  The call succeeds, writes the store without it and
    logs nothing. *)
Lemma removeWorktree_detached_witness :
  exists w record,
    removeWorktree (Scripted.make Cases.goneRegistered) (lit "/repo") Cases.removeGone 0
      = (Ok true, w,
         [EvExecGit (map lit ["rev-parse"; "--show-toplevel"]%string) (lit "/repo");
          EvExecGit (map lit ["rev-parse"; "--git-common-dir"]%string) (lit "/repo");
          EvReadFile Scripted.idFile;
          EvRealpath Cases.goneDirectory; EvRealpath (lit "/repo");
          EvExecGit (map lit ["worktree"; "list"; "--porcelain"]%string) (lit "/repo");
          EvRealpath (lit "/repo");
          EvStat Cases.goneDirectory]
         ++ storeUpdateTrace (Scripted.make Cases.goneRegistered) (lit "abc123")
              (recordText (Scripted.make Cases.goneRegistered) record)) /\
    ~ In Cases.goneDirectory (sandboxes record).
Proof.
  pose proof (removeWorktree_detached (Scripted.make Cases.goneRegistered) (lit "/repo")
                Cases.removeGone 0 Cases.repoContext 0
                [EvExecGit (map lit ["rev-parse"; "--show-toplevel"]%string) (lit "/repo");
                 EvExecGit (map lit ["rev-parse"; "--git-common-dir"]%string) (lit "/repo");
                 EvReadFile Scripted.idFile]
                Cases.goneDirectory 0 [EvRealpath Cases.goneDirectory]
                (lit "/repo") 0 [EvRealpath (lit "/repo")]
                (parseWorktreePorcelain
                   (lit "worktree /repo" ++ newline ++ lit "HEAD 1111111" ++ newline
                      ++ lit "branch refs/heads/main" ++ newline))
                0 [EvExecGit (map lit ["worktree"; "list"; "--porcelain"]%string) (lit "/repo")]
                0 [EvRealpath (lit "/repo")]) as H.
  cbv zeta in H.
  destruct H as [_ [_ Habsent]]; try (vm_compute; reflexivity); try discriminate.
  destruct Habsent as [w6 [tsync [_ [Hrun Hstore]]]].
  - exists (lit "ENOENT"). reflexivity.
  - unfold deregistered in Hstore. cbv zeta in Hstore.
    change (fst (fs_mkdir (Scripted.make Cases.goneRegistered)
                   (storageDirOf (Scripted.make Cases.goneRegistered)
                      (projectID Cases.repoContext))
                   (snd (fs_stat (Scripted.make Cases.goneRegistered)
                           (normalizeDirectoryPath (Scripted.make Cases.goneRegistered)
                              (removeDirectory Cases.removeGone)) 0))))
      with (@Ok unit tt) in Hstore.
    cbv beta iota in Hstore. destruct Hstore as [Hout [_ Htrace]].
    eexists. eexists. split; [|exact Hout].
    rewrite Hrun. f_equal. f_equal.
    exact Htrace.
Defined.

(* ------------------------------------------------------------------ *)
(** ** Validation *)

Section ValidationEvents.

Variable host : Host.
Variable P : Event -> Prop.
Hypothesis P_observation : forall ev, isObservation ev -> P ev.
Hypothesis P_projectId : forall primary, emits host P (ensureOpenCodeProjectId host primary).

Lemma emits_checkRemoteBranchExists primary remoteName branchName remoteUrl :
  emits host P (checkRemoteBranchExists host primary remoteName branchName remoteUrl).
Proof.
  unfold checkRemoteBranchExists. cbv zeta.
  destruct (isEmpty (trim remoteName) || isEmpty (trim branchName)); [apply emits_ret|].
  apply emits_bind; [apply emits_query_soft; [exact P_observation | reflexivity]|].
  intro lsRemote. destruct (negb (success lsRemote)); apply emits_ret.
Qed.

Lemma emits_showRef primary ref :
  emits host P (runGitCommand host primary (showRefArgs ref)).
Proof. apply emits_query_soft; [exact P_observation | reflexivity]. Qed.

Lemma emits_validateStartRef context startRef ensureRemoteName ensureRemoteUrl parsedRemoteRef :
  emits host P (validateStartRef host context startRef ensureRemoteName ensureRemoteUrl
                  parsedRemoteRef).
Proof.
  unfold validateStartRef.
  destruct (truthy startRef && negb (str_eqb startRef (lit "HEAD"))); [|apply emits_ret].
  destruct parsedRemoteRef as [parsed|].
  - destruct (truthy ensureRemoteName && truthy ensureRemoteUrl
              && str_eqb ensureRemoteName (remote parsed));
      (apply emits_bind; [apply emits_checkRemoteBranchExists | intro; apply emits_ret]).
  - apply emits_bind; [|intro; apply emits_ret].
    apply emits_query_soft; [exact P_observation | reflexivity].
Qed.

Lemma emits_validateNew context preferredBranchName startRef ensureRemoteName ensureRemoteUrl :
  emits host P (validateNew host context preferredBranchName startRef
                  ensureRemoteName ensureRemoteUrl).
Proof.
  unfold validateNew. apply emits_bind.
  - destruct (truthy preferredBranchName); [|apply emits_ret].
    apply emits_bind; [apply emits_showRef | intro; apply emits_ret].
  - intros [errors1 localBranch]. cbv zeta.
    apply emits_bind; [apply emits_validateStartRef | intro; apply emits_ret].
Qed.

Lemma emits_validateInUse context localBranch :
  emits host P (validateInUse host context localBranch).
Proof.
  unfold validateInUse. destruct (truthy localBranch); [|apply emits_ret].
  apply emits_bind; [|intro; apply emits_ret].
  apply emits_findBranchInUse. exact P_observation.
Qed.

Lemma emits_validateUpstream context input inferredUpstream ensureRemoteName :
  emits host P (validateUpstream host context input inferredUpstream ensureRemoteName).
Proof.
  unfold validateUpstream. destruct (optBool (setUpstream input)); [|apply emits_ret].
  cbv zeta.
  match goal with |- emits _ _ (if ?c then _ else _) => destruct c end;
    [apply emits_ret|].
  apply emits_bind; [|intro; apply emits_ret].
  apply emits_query_soft; [exact P_observation | reflexivity].
Qed.

(** The fetch of [fetchRemoteBranchRef] is the one of [fetchArgs]. *)
Lemma emits_fetchRemoteBranchRef primary remoteName branchName :
  P (EvExecGit (fetchArgs remoteName branchName) primary) ->
  emits host P (fetchRemoteBranchRef host primary remoteName branchName).
Proof.
  intro P_fetch. unfold fetchRemoteBranchRef. cbv zeta.
  destruct (isEmpty (trim remoteName) || isEmpty (trim branchName)); [apply emits_ret|].
  apply emits_bind; [|intro; apply emits_ret].
  apply emits_runGitCommandOrThrow. exact P_fetch.
Qed.

Lemma emits_resolveBranchForExistingMode primary existing preferred :
  (forall ref, parseRemoteBranchRef (trim existing) = Some ref ->
               P (EvExecGit (fetchArgs (remote ref) (branch ref)) primary)) ->
  emits host P (resolveBranchForExistingMode host primary existing preferred).
Proof.
  intro P_fetch. unfold resolveBranchForExistingMode. cbv zeta.
  destruct (isEmpty (trim existing)); [apply emits_throw|].
  apply emits_bind; [apply emits_showRef|]. intro localExists.
  destruct (success localExists); [apply emits_ret|].
  destruct (parseRemoteBranchRef (trim existing)) as [ref|]; [|apply emits_throw].
  apply emits_bind; [apply emits_showRef|]. intro remoteExists.
  apply emits_bind.
  - destruct (negb (success remoteExists)); [|apply emits_ret].
    apply emits_bind;
      [apply emits_orOnReject; apply emits_fetchRemoteBranchRef; apply P_fetch; reflexivity|].
    intros _. apply emits_bind; [apply emits_showRef|]. intro recheck.
    destruct (negb (success recheck)); [apply emits_throw | apply emits_ret].
  - intros _.
    match goal with |- emits _ _ (if ?c then _ else _) => destruct c end;
      [apply emits_throw | apply emits_ret].
Qed.

Lemma emits_validateExisting context input preferred ensureRemoteName ensureRemoteUrl :
  (forall ref, parseRemoteBranchRef (trim (optStr (existingBranch input))) = Some ref ->
               P (EvExecGit (fetchArgs (remote ref) (branch ref)) (primaryWorktree context))) ->
  emits host P (validateExisting host context input preferred ensureRemoteName ensureRemoteUrl).
Proof.
  intro P_fetch.
  assert (P_fetch' : forall ref,
            parseRemoteBranchRef (trim (trim (optStr (existingBranch input)))) = Some ref ->
            P (EvExecGit (fetchArgs (remote ref) (branch ref)) (primaryWorktree context))).
  { intro ref. rewrite trim_idempotent. apply P_fetch. }
  unfold validateExisting. cbv zeta.
  destruct (parseRemoteBranchRef (trim (optStr (existingBranch input)))) as [parsed|].
  - destruct (truthy ensureRemoteName && truthy ensureRemoteUrl
              && str_eqb ensureRemoteName (remote parsed)).
    + apply emits_bind; [apply emits_query_soft; [exact P_observation | reflexivity]|].
      intro lsRemote. destruct (negb (success lsRemote)); [apply emits_throw|].
      destruct (isEmpty (trim (cmdStdout lsRemote))); [apply emits_throw | apply emits_ret].
    + apply emits_bind; [apply emits_resolveBranchForExistingMode; exact P_fetch'
                        | intro; apply emits_ret].
  - apply emits_bind; [apply emits_resolveBranchForExistingMode; exact P_fetch'
                      | intro; apply emits_ret].
Qed.

(** The validation, in the world at hand: the events of the resolution
    of the context, then observations and, in [existing] mode, the fetch
    of the requested remote branch in the primary worktree. *)
Lemma validateBody_trace directory input w :
  Forall P (snd (resolveWorktreeProjectContext host directory w)) ->
  (payloadMode input = ModeExisting ->
   forall ref, parseRemoteBranchRef (trim (optStr (existingBranch input))) = Some ref ->
               P (EvExecGit (fetchArgs (remote ref) (branch ref))
                    (fst (contextProbe host directory w)))) ->
  Forall P (snd (validateWorktreeCreateBody host directory input w)).
Proof.
  intros Hcontext P_fetch. unfold validateWorktreeCreateBody. cbv zeta.
  apply (trace_bind host P); [exact Hcontext|].
  intros context w1 t1 Econtext.
  rewrite <- (resolve_probe host directory w context w1 t1 Econtext) in P_fetch.
  match goal with
  | |- Forall P (snd (?rest w1)) => cut (emits host P rest); [intro H; exact (H w1)|]
  end.
  apply emits_bind.
  - destruct (payloadMode input) eqn:Hmode.
    + apply emits_validateNew.
    + apply emits_tryCatch; [|intro; apply emits_ret].
      apply emits_bind; [apply emits_validateExisting; apply P_fetch; reflexivity
                        | intro; apply emits_ret].
  - intros [[errors1 localBranch] inferredUpstream].
    apply emits_bind; [apply emits_validateInUse|]. intro errors2. cbv zeta.
    apply emits_bind; [apply emits_validateUpstream | intro; apply emits_ret].
Qed.

End ValidationEvents.

Section ValidationResult.

Variable host : Host.

Lemma returns_checkRemoteBranchExists primary remoteName branchName remoteUrl :
  returns host (fun _ => True)
    (checkRemoteBranchExists host primary remoteName branchName remoteUrl).
Proof.
  unfold checkRemoteBranchExists. cbv zeta.
  destruct (isEmpty (trim remoteName) || isEmpty (trim branchName));
    [apply returns_ret; exact I|].
  eapply returns_bind; [apply returns_runGitCommand|].
  intros lsRemote _. destruct (negb (success lsRemote)); apply returns_ret; exact I.
Qed.

Lemma returns_validateStartRef context startRef ensureRemoteName ensureRemoteUrl parsedRemoteRef :
  returns host (fun _ => True)
    (validateStartRef host context startRef ensureRemoteName ensureRemoteUrl parsedRemoteRef).
Proof.
  unfold validateStartRef.
  destruct (truthy startRef && negb (str_eqb startRef (lit "HEAD")));
    [|apply returns_ret; exact I].
  destruct parsedRemoteRef as [parsed|].
  - destruct (truthy ensureRemoteName && truthy ensureRemoteUrl
              && str_eqb ensureRemoteName (remote parsed));
      (eapply returns_bind; [apply returns_checkRemoteBranchExists|];
       intros; apply returns_ret; exact I).
  - eapply returns_bind; [apply returns_runGitCommand|].
    intros; apply returns_ret; exact I.
Qed.

Lemma returns_validateUpstream context input inferredUpstream ensureRemoteName :
  returns host (fun _ => True)
    (validateUpstream host context input inferredUpstream ensureRemoteName).
Proof.
  unfold validateUpstream. destruct (optBool (setUpstream input)); [|apply returns_ret; exact I].
  cbv zeta.
  match goal with |- returns _ _ (if ?c then _ else _) => destruct c end;
    [apply returns_ret; exact I|].
  eapply returns_bind; [apply returns_runGitCommand|].
  intros; apply returns_ret; exact I.
Qed.

(** In [new] mode with a branch name that [show-ref] finds, the
    mode-specific part returns the name and the [branch_exists] error. *)
Lemma validateNew_branch_exists context preferredBranchName startRef
    ensureRemoteName ensureRemoteUrl w :
  preferredBranchName <> [] ->
  exitCode (fst (execGit host (showRefArgs (lit "refs/heads/" ++ preferredBranchName))
                   (primaryWorktree context) w)) = 0%Z ->
  exists errors1 inferredUpstream w1 t,
    validateNew host context preferredBranchName startRef ensureRemoteName ensureRemoteUrl w
      = (Ok (errors1, preferredBranchName, inferredUpstream), w1, t) /\
    In (mkError "branch_exists" (lit "Branch already exists: " ++ preferredBranchName)) errors1.
Proof.
  intros Hne Hexit. unfold validateNew.
  assert (Ht : truthy preferredBranchName = true).
  { unfold truthy. apply negb_true_iff. apply isEmpty_false. exact Hne. }
  rewrite Ht.
  destruct (runGitCommand_run host (primaryWorktree context)
              (showRefArgs (lit "refs/heads/" ++ preferredBranchName)) w)
    as [exists_ [Erun [Hs _]]].
  rewrite Hexit in Hs. simpl in Hs.
  destruct (returns_validateStartRef context startRef ensureRemoteName ensureRemoteUrl
              (parseRemoteBranchRef startRef)
              (snd (execGit host (showRefArgs (lit "refs/heads/" ++ preferredBranchName))
                      (primaryWorktree context) w)))
    as [errors2 [w2 [t2 [E2 _]]]].
  eexists. eexists. eexists. eexists. split.
  - eapply bind_step.
    + eapply bind_step; [exact Erun|]. rewrite Hs. reflexivity.
    + cbv beta iota zeta. eapply bind_step; [exact E2 | reflexivity].
  - apply in_or_app. left. simpl. tauto.
Qed.

Lemma findBranchInUse_returns primary localBranchName :
  (forall w, exitCode (fst (execGit host (map lit ["worktree"; "list"; "--porcelain"]%string)
                              primary w)) = 0%Z) ->
  returns host (fun _ => True) (findBranchInUse host primary localBranchName).
Proof.
  intros Hlist w. unfold findBranchInUse.
  destruct (isEmpty localBranchName); [apply returns_ret; exact I|].
  unfold listWorktreeEntries.
  destruct (runGitCommandOrThrow_run host primary
              (map lit ["worktree"; "list"; "--porcelain"]%string)
              (lit "Failed to list git worktrees") w) as [outcome [E Hout]].
  destruct outcome as [result|e]; [|exfalso; apply Hout; apply Hlist].
  eexists. eexists. eexists. split; [|exact I].
  eapply bind_step; [|reflexivity].
  eapply bind_step; [exact E | reflexivity].
Qed.

End ValidationResult.

(** C1, as stated, fails.  In [existing] mode, for a remote branch that
    has no local tracking ref, the validation runs [git fetch] (second
    part); and in a repository whose project ID is not yet cached, it
    creates the marker file, by a [mkdir] and a [writeFile] (first
    part). *)
Lemma validateWorktreeCreate_writes_and_fetches :
  snd (validateWorktreeCreate (Scripted.make Cases.freshClone) (lit "/repo") Cases.demoRequest 0)
    = [EvExecGit (map lit ["rev-parse"; "--show-toplevel"]%string) (lit "/repo");
       EvExecGit (map lit ["rev-parse"; "--git-common-dir"]%string) (lit "/repo");
       EvReadFile Scripted.idFile;
       EvExecGit (map lit ["rev-list"; "--max-parents=0"; "--all"]%string) (lit "/repo");
       EvMkdir (lit "/repo/.git");
       EvWriteFile Scripted.idFile (lit "abc123")] /\
  In (EvExecGit (map lit ["fetch"; "origin";
                          "+refs/heads/feature:refs/remotes/origin/feature"]%string)
                (lit "/repo"))
     (snd (validateWorktreeCreate (Scripted.make Scripted.repoScript) (lit "/repo")
             Cases.remoteRequest 0)).
Proof. split; vm_compute; [reflexivity | tauto]. Qed.

(** What does hold of every validation.  [validateWorktreeCreate] never
    rejects: it returns its structured result.  Whatever the host
    answers, it runs only read-only git commands ([rev-parse],
    [rev-list], [show-ref], [ls-remote], [worktree list],
    [remote get-url]) and file reads, except for the write of the
    project-ID marker of the primary worktree and, in [existing] mode,
    the fetch of the requested remote branch there.  In [new] mode, when
    the marker holds a project ID, it changes nothing at all.  A
    [new]-mode request that names a branch that exists gets
    [branch_exists], provided the context resolves and the worktrees can
    be listed. *)
Theorem validateWorktreeCreate_effects (host : Host) (directory : str)
    (input : CreateGitWorktreePayload) (w : World host) :
  (exists result w1 t, validateWorktreeCreate host directory input w = (Ok result, w1, t)) /\
  Forall (validationEvent host directory input w)
         (snd (validateWorktreeCreate host directory input w)) /\
  (payloadMode input = ModeNew ->
   idCached host directory w ->
   Forall isObservation (snd (validateWorktreeCreate host directory input w))) /\
  (forall context w1 t1,
     let preferredBranchName := cleanBranchName (trim (optStr (branchName input))) in
     payloadMode input = ModeNew ->
     preferredBranchName <> [] ->
     resolveWorktreeProjectContext host directory w = (Ok context, w1, t1) ->
     exitCode (fst (execGit host (showRefArgs (lit "refs/heads/" ++ preferredBranchName))
                      (primaryWorktree context) w1)) = 0%Z ->
     (forall w0, exitCode (fst (execGit host (map lit ["worktree"; "list"; "--porcelain"]%string)
                                  (primaryWorktree context) w0)) = 0%Z) ->
     exists result,
       fst (fst (validateWorktreeCreate host directory input w)) = Ok result /\
       ok result = false /\
       In (mkError "branch_exists" (lit "Branch already exists: " ++ preferredBranchName))
          (errors result)).
Proof.
  split; [|split; [|split]].
  - unfold validateWorktreeCreate, tryCatch.
    destruct (validateWorktreeCreateBody host directory input w) as [[[result|e] w1] t1].
    + exists result, w1, t1. reflexivity.
    + eexists. eexists. eexists. reflexivity.
  - unfold validateWorktreeCreate.
    apply (trace_tryCatch host); [|intros e w1; constructor].
    apply validateBody_trace.
    + intros ev H. left. exact H.
    + apply resolve_trace; [intros ev H; left; exact H|].
      apply emits_ensureOpenCodeProjectId_at.
      * intros ev H. left. exact H.
      * intros ev H. right. left. exact H.
    + intros Hmode ref Href. right. right. split; [exact Hmode|].
      exists ref. split; [exact Href | reflexivity].
  - intros Hmode Hcached. unfold validateWorktreeCreate.
    apply (trace_tryCatch host); [|intros e w1; constructor].
    apply validateBody_trace.
    + auto.
    + apply resolve_trace; [auto|].
      apply ensureOpenCodeProjectId_cached; [auto | exact Hcached].
    + intro Hexisting. rewrite Hmode in Hexisting. discriminate Hexisting.
  - intros context w1 t1 preferredBranchName Hmode Hne Hctx Hexit Hlist.
    destruct (validateNew_branch_exists host context preferredBranchName
                (normalizeStartRef (startRef input))
                (trim (optStr (ensureRemoteName input)))
                (trim (optStr (ensureRemoteUrl input))) w1 Hne Hexit)
      as [errors1 [inferredUpstream [w2 [t2 [Enew Hin]]]]].
    assert (Hinuse : returns host (fun _ => True)
                       (validateInUse host context preferredBranchName)).
    { unfold validateInUse. destruct (truthy preferredBranchName);
        [|apply returns_ret; exact I].
      eapply returns_bind; [apply findBranchInUse_returns; exact Hlist|].
      intros; apply returns_ret; exact I. }
    destruct (Hinuse w2) as [errors2 [w3 [t3 [E3 _]]]].
    destruct (returns_validateUpstream host context input inferredUpstream
                (trim (optStr (ensureRemoteName input))) w3) as [errors4 [w4 [t4 [E4 _]]]].
    eexists. split; [|split].
    + unfold validateWorktreeCreate.
      erewrite tryCatch_ok; [reflexivity|].
      unfold validateWorktreeCreateBody. cbv zeta. rewrite Hmode.
      eapply bind_step; [exact Hctx|].
      eapply bind_step; [exact Enew|]. cbv beta iota.
      eapply bind_step; [exact E3|].
      eapply bind_step; [exact E4|]. reflexivity.
    + simpl. destruct errors1; [contradiction | reflexivity].
    + simpl. apply in_or_app. left. exact Hin.
Qed.

(** A [new]-mode request for the branch [main], which exists, in a
    repository whose project ID is cached: the result carries
    [branch_exists], and the call only observed. *)
Lemma validateWorktreeCreate_effects_witness :
  (exists result,
      fst (fst (validateWorktreeCreate (Scripted.make Cases.cachedClone) (lit "/repo")
                  Cases.mainRequest 0)) = Ok result /\
      ok result = false /\
      In (mkError "branch_exists" (lit "Branch already exists: main")) (errors result)) /\
  Forall isObservation
         (snd (validateWorktreeCreate (Scripted.make Cases.cachedClone) (lit "/repo")
                 Cases.mainRequest 0)).
Proof.
  destruct (validateWorktreeCreate_effects (Scripted.make Cases.cachedClone) (lit "/repo")
              Cases.mainRequest 0) as [_ [_ [Hquiet Hexists]]].
  split.
  - apply (Hexists Cases.repoContext 0
             [EvExecGit (map lit ["rev-parse"; "--show-toplevel"]%string) (lit "/repo");
              EvExecGit (map lit ["rev-parse"; "--git-common-dir"]%string) (lit "/repo");
              EvReadFile Scripted.idFile]).
    + reflexivity.
    + discriminate.
    + vm_compute. reflexivity.
    + reflexivity.
    + intro w0. reflexivity.
  - apply Hquiet.
    + reflexivity.
    + exists (lit "abc123"). split; [reflexivity | discriminate].
Defined.

(* ------------------------------------------------------------------ *)
(** * Further properties

    ** Results of computations *)

Section Ensures.

Variable host : Host.

Lemma returns_ensures {A} (Q : A -> Prop) (m : M host A) : returns host Q m -> ensures host Q m.
Proof.
  intros H w a w1 t E. destruct (H w) as [a' [w' [t' [E' HQ]]]].
  rewrite E in E'. injection E' as <- _ _. exact HQ.
Qed.

Lemma ensures_ret {A} (Q : A -> Prop) a : Q a -> ensures host Q (ret a).
Proof. intros H w a' w1 t E. injection E as <- _ _. exact H. Qed.

Lemma ensures_throw {A} (Q : A -> Prop) e : ensures host Q (@throw host A e).
Proof. intros w a w1 t E. discriminate E. Qed.

Lemma ensures_any {A} (m : M host A) : ensures host (fun _ => True) m.
Proof. intros w a w1 t _. exact I. Qed.

Lemma ensures_weaken {A} (Q1 Q2 : A -> Prop) (m : M host A) :
  (forall a, Q1 a -> Q2 a) -> ensures host Q1 m -> ensures host Q2 m.
Proof. intros H Hm w a w1 t E. apply H. eapply Hm. exact E. Qed.

Lemma ensures_bind {A B} (Q1 : A -> Prop) (Q2 : B -> Prop) (m : M host A) (k : A -> M host B) :
  ensures host Q1 m -> (forall a, Q1 a -> ensures host Q2 (k a)) -> ensures host Q2 (bind m k).
Proof.
  intros Hm Hk w b w2 t E. apply bind_inv_ok in E.
  destruct E as [a [w1 [t1 [t2 [E1 [E2 _]]]]]].
  eapply Hk; [eapply Hm; exact E1 | exact E2].
Qed.

Lemma ensures_tryCatch {A} (Q : A -> Prop) (m : M host A) handler :
  ensures host Q m -> (forall e, ensures host Q (handler e)) ->
  ensures host Q (tryCatch m handler).
Proof.
  intros Hm Hh w a w2 t. unfold tryCatch.
  destruct (m w) as [[[a'|e] w1] t1] eqn:E.
  - intro K. injection K as <- _ _. eapply Hm. exact E.
  - destruct (handler e w1) as [[r w3] t2] eqn:E2. intro K. injection K as -> _ _.
    eapply Hh. exact E2.
Qed.

Lemma returns_tryCatch {A} (Q : A -> Prop) (m : M host A) handler :
  ensures host Q m -> (forall e, returns host Q (handler e)) ->
  returns host Q (tryCatch m handler).
Proof.
  intros Hm Hh w. destruct (m w) as [[[a|e] w1] t1] eqn:E.
  - exists a, w1, t1. split; [apply tryCatch_ok; exact E | eapply Hm; exact E].
  - destruct (Hh e w1) as [b [w2 [t2 [E2 HQ]]]].
    exists b, w2, (t1 ++ t2). split; [|exact HQ].
    eapply tryCatch_throw; [exact E | exact E2].
Qed.

Lemma returns_orOnReject {A} (Q : A -> Prop) (m : M host A) fallback :
  ensures host Q m -> Q fallback -> returns host Q (orOnReject host m fallback).
Proof.
  intros Hm Hf. apply returns_tryCatch; [exact Hm|]. intro e. apply returns_ret. exact Hf.
Qed.

Lemma returns_perform {A} (f : World host -> A * World host) ev :
  returns host (fun _ => True) (perform host f ev).
Proof.
  intro w. unfold perform. destruct (f w) as [a w1].
  exists a, w1, [ev]. split; [reflexivity | exact I].
Qed.

Lemma returns_existsPath p : returns host (fun _ => True) (existsPath host p).
Proof.
  intro w. rewrite existsPath_run. destruct (checkPathExists_run host p w) as [w1 [E _]].
  eexists. eexists. eexists. split; [exact E | exact I].
Qed.

Lemma returns_weaken {A} (Q1 Q2 : A -> Prop) (m : M host A) :
  (forall a, Q1 a -> Q2 a) -> returns host Q1 m -> returns host Q2 m.
Proof.
  intros H Hm w. destruct (Hm w) as [a [w1 [t [E HQ]]]].
  exists a, w1, t. split; [exact E | apply H; exact HQ].
Qed.

End Ensures.

Section Failures.

Variable host : Host.
Variable P : Event -> Prop.

Lemma emits_failsCleanly {A} (m : M host A) : emits host P m -> failsCleanly host P m.
Proof. intros H w e w1 t E. specialize (H w). rewrite E in H. exact H. Qed.

Lemma returns_failsCleanly {A} (Q : A -> Prop) (m : M host A) :
  returns host Q m -> failsCleanly host P m.
Proof.
  intros H w e w1 t E. destruct (H w) as [a [w2 [t2 [E2 _]]]].
  rewrite E in E2. discriminate E2.
Qed.

Lemma failsCleanly_ret {A} (a : A) : failsCleanly host P (ret a).
Proof. intros w e w1 t E. discriminate E. Qed.

Lemma failsCleanly_throw {A} e : failsCleanly host P (@throw host A e).
Proof. intros w e' w1 t E. injection E as _ _ <-. constructor. Qed.

Lemma failsCleanly_bind {A B} (m : M host A) (k : A -> M host B) :
  emits host P m -> (forall a, failsCleanly host P (k a)) -> failsCleanly host P (bind m k).
Proof.
  intros Hm Hk w e w2 t. unfold bind. specialize (Hm w).
  destruct (m w) as [[[a|e'] w1] t1]; simpl in Hm.
  - destruct (k a w1) as [[r w3] t2] eqn:E2. intro K. injection K as -> _ <-.
    apply Forall_app. split; [exact Hm | eapply Hk; exact E2].
  - intro K. injection K as _ _ <-. exact Hm.
Qed.

(** Sequencing, with what is known of the value that is passed on. *)
Lemma emits_bind_ensures {A B} (Q : A -> Prop) (m : M host A) (k : A -> M host B) :
  emits host P m -> ensures host Q m -> (forall a, Q a -> emits host P (k a)) ->
  emits host P (bind m k).
Proof.
  intros Hm HQ Hk w. unfold bind. pose proof (Hm w) as Ht.
  destruct (m w) as [[[a|e] w1] t1] eqn:E; simpl in *; [|exact Ht].
  specialize (Hk a (HQ _ _ _ _ E) w1). destruct (k a w1) as [[r w2] t2]. simpl in *.
  apply Forall_app. split; assumption.
Qed.

Lemma rejects_throw {A} e : rejects host P (@throw host A e).
Proof. intro w. exists e, w, []. split; [reflexivity | constructor]. Qed.

(** A step that may reject, followed by steps that do. *)
Lemma rejects_bind {A B} (Q : A -> Prop) (m : M host A) (k : A -> M host B) :
  emits host P m -> ensures host Q m -> (forall a, Q a -> rejects host P (k a)) ->
  rejects host P (bind m k).
Proof.
  intros Hm HQ Hk w. pose proof (Hm w) as Ht.
  destruct (m w) as [[[a|e] w1] t1] eqn:E; simpl in Ht.
  - destruct (Hk a (HQ _ _ _ _ E) w1) as [e [w2 [t2 [E2 H2]]]].
    exists e, w2, (t1 ++ t2). split; [eapply bind_step; eassumption|].
    apply Forall_app. split; assumption.
  - exists e, w1, t1. split; [apply bind_throw; exact E | exact Ht].
Qed.

(** A step that rejects ends the sequence. *)
Lemma rejects_first {A B} (m : M host A) (k : A -> M host B) :
  rejects host P m -> rejects host P (bind m k).
Proof.
  intros Hm w. destruct (Hm w) as [e [w1 [t [E H]]]].
  exists e, w1, t. split; [apply bind_throw; exact E | exact H].
Qed.

End Failures.

Section Counting.

Variable host : Host.
Variable kind : Event -> bool.

Lemma countOf_app t1 t2 : countOf kind (t1 ++ t2) = countOf kind t1 + countOf kind t2.
Proof. unfold countOf. rewrite filter_app, length_app. reflexivity. Qed.

Lemma atMost_ret {A} (a : A) n : atMost host kind n (ret a).
Proof. intro w. simpl. unfold countOf. simpl. lia. Qed.

Lemma atMost_throw {A} e n : atMost host kind n (@throw host A e).
Proof. intro w. simpl. unfold countOf. simpl. lia. Qed.

Lemma atMost_weaken {A} (m : M host A) a b : a <= b -> atMost host kind a m -> atMost host kind b m.
Proof. intros H Hm w. specialize (Hm w). lia. Qed.

Lemma atMost_bind {A B} (m : M host A) (k : A -> M host B) a b :
  atMost host kind a m -> (forall x, atMost host kind b (k x)) ->
  atMost host kind (a + b) (bind m k).
Proof.
  intros Hm Hk w. unfold bind. specialize (Hm w).
  destruct (m w) as [[[x|e] w1] t1]; simpl in *; [|lia].
  specialize (Hk x w1). destruct (k x w1) as [[r w2] t2]. simpl in *.
  rewrite countOf_app. lia.
Qed.

Lemma atMost_tryCatch {A} (m : M host A) handler a b :
  atMost host kind a m -> (forall e, atMost host kind b (handler e)) ->
  atMost host kind (a + b) (tryCatch m handler).
Proof.
  intros Hm Hh w. unfold tryCatch. specialize (Hm w).
  destruct (m w) as [[[x|e] w1] t1]; simpl in *; [lia|].
  specialize (Hh e w1). destruct (handler e w1) as [[r w2] t2]. simpl in *.
  rewrite countOf_app. lia.
Qed.

Lemma atMost_perform {A} (f : World host -> A * World host) ev :
  atMost host kind (if kind ev then 1 else 0) (perform host f ev).
Proof.
  intro w. unfold perform. destruct (f w). simpl. unfold countOf. simpl.
  destruct (kind ev); simpl; lia.
Qed.

End Counting.

Section FailuresCaught.

Variable host : Host.
Variable P : Event -> Prop.

(** A rejection that is caught by a handler that rejects. *)
Lemma rejects_tryCatch {A} (m : M host A) handler :
  rejects host P m -> (forall e, rejects host P (handler e)) ->
  rejects host P (tryCatch m handler).
Proof.
  intros Hm Hh w. destruct (Hm w) as [e [w1 [t1 [E1 H1]]]].
  destruct (Hh e w1) as [e2 [w2 [t2 [E2 H2]]]].
  exists e2, w2, (t1 ++ t2). split; [eapply tryCatch_throw; eassumption|].
  apply Forall_app. split; assumption.
Qed.

(** What follows a step that rejects is never reached. *)
Lemma rejects_ensures {A} (Q : A -> Prop) (m : M host A) : rejects host P m -> ensures host Q m.
Proof.
  intros Hm w a w1 t E. destruct (Hm w) as [e [w2 [t2 [E2 _]]]].
  rewrite E in E2. discriminate E2.
Qed.

End FailuresCaught.

(* ------------------------------------------------------------------ *)


(** ** Worktree names: slugs are kept *)

Section SlugFixpoint.

Lemma slugChar_visible c : isSlugChar c = true -> isSpace c = false.
Proof.
  destruct c as [[] [] [] [] [] [] [] []]; vm_compute; intro H;
    first [reflexivity | discriminate H].
Qed.

Lemma slugChar_not_slash c : isSlugChar c = true -> c <> "/"%char.
Proof. intros H ->. vm_compute in H. discriminate H. Qed.

Lemma trim_visible s : Forall (fun c => isSpace c = false) s -> trim s = s.
Proof.
  intro H. destruct s as [|c t]; [reflexivity|].
  destruct (@exists_last _ (c :: t)) as [m [d E]]; [discriminate|].
  destruct m as [|c' m'].
  - simpl in E. injection E as -> ->. apply trim_single.
    inversion H; assumption.
  - simpl in E. rewrite E in *. inversion H as [|? ? Hc Hrest]; subst.
    apply Forall_app in Hrest. destruct Hrest as [_ Hd].
    apply trim_ends; [exact Hc | inversion Hd; assumption].
Qed.

Lemma dropWhile_stop p s :
  match s with c :: _ => p c = false | [] => True end -> dropWhile p s = s.
Proof. destruct s as [|c t]; simpl; [reflexivity | intros ->; reflexivity]. Qed.

Lemma dropWhileEnd_stop p s :
  match rev s with c :: _ => p c = false | [] => True end -> dropWhileEnd p s = s.
Proof.
  intro H. unfold dropWhileEnd. rewrite (dropWhile_stop p (rev s) H). apply rev_involutive.
Qed.

Lemma replaceRunsFrom_none p r s :
  Forall (fun c => p c = false) s -> forall inRun, replaceRunsFrom p r inRun s = s.
Proof.
  induction 1 as [|c t Hc _ IH]; intro inRun; simpl; [reflexivity|].
  rewrite Hc, IH. reflexivity.
Qed.

Lemma split_none c s : ~ In c s -> split c s = [s].
Proof.
  induction s as [|x t IH]; intro H; simpl; [reflexivity|].
  rewrite IH by (intro K; apply H; right; exact K).
  destruct (chr_eqb x c) eqn:E; [|reflexivity].
  exfalso. apply H. left. apply chr_eqb_eq. exact E.
Qed.

(** Collapsing runs of hyphens changes nothing where there is no run. *)
Lemma collapse_hyphens_none s : forall inRun,
  noDoubleHyphen s = true ->
  (inRun = true -> firstChar s <> Some "-"%char) ->
  replaceRunsFrom isHyphen (lit "-") inRun s = s.
Proof.
  change (lit "-") with ["-"%char].
  induction s as [|c t IH]; intros inRun Hno Hfirst; [reflexivity|].
  assert (Ht : noDoubleHyphen t = true).
  { destruct t as [|d t']; [reflexivity|].
    simpl in Hno. apply andb_true_iff in Hno. tauto. }
  simpl. destruct (isHyphen c) eqn:E.
  - apply chr_eqb_eq in E. subst c.
    destruct inRun; [exfalso; apply Hfirst; reflexivity|].
    simpl. f_equal. apply IH; [exact Ht|]. intros _ K.
    destruct t as [|d t']; [discriminate K|].
    simpl in K. injection K as ->. simpl in Hno. discriminate Hno.
  - f_equal. apply IH; [exact Ht | intro K; discriminate K].
Qed.

Lemma firstChar_not c s :
  firstChar s <> Some c -> match s with x :: _ => chr_eqb x c = false | [] => True end.
Proof.
  destruct s as [|x t]; simpl; [trivial|]. intro H.
  apply chr_eqb_neq. intros ->. apply H. reflexivity.
Qed.

End SlugFixpoint.

(** X1. A name that already is a slug (letters, digits, dot, underscore
    and hyphen only, at most 80 characters, no two hyphens in a row, no
    hyphen first or last) is returned unchanged by [slugWorktreeName]. *)
Theorem slugWorktreeName_keeps_slug (s : str) :
  wellFormedSlug s -> slugWorktreeName s = s.
Proof.
  intros [[Hchars Hlen] [Hno [Hfirst Hlast]]].
  assert (Hvis : Forall (fun c => isSpace c = false) s).
  { eapply Forall_impl; [|exact Hchars]. apply slugChar_visible. }
  assert (Hslash : noSlash s).
  { intro Hin. rewrite Forall_forall in Hchars.
    exact (slugChar_not_slash _ (Hchars _ Hin) eq_refl). }
  unfold slugWorktreeName.
  rewrite (trim_visible s Hvis).
  unfold stripPrefix.
  rewrite (noSlash_not_prefixed (lit "refs/heads/") s) by (simpl; tauto || exact Hslash).
  rewrite (noSlash_not_prefixed (lit "heads/") s) by (simpl; tauto || exact Hslash).
  unfold replaceRuns.
  rewrite (replaceRunsFrom_none isSpace (lit "-") s Hvis).
  assert (Hns : Forall (fun c => isSlash c = false) s).
  { apply Forall_forall. intros c Hc. apply chr_eqb_neq. intros ->. exact (Hslash Hc). }
  rewrite (dropWhile_stop isSlash s)
    by (destruct s as [|c t]; [exact I | inversion Hns; assumption]).
  rewrite (dropWhileEnd_stop isSlash s).
  2:{ destruct (rev s) as [|c t] eqn:Er; [exact I|].
      rewrite Forall_forall in Hns. apply Hns. apply in_rev. rewrite Er. left. reflexivity. }
  rewrite (split_none "/"%char s Hslash). simpl join.
  rewrite (replaceRunsFrom_none (fun c => negb (isSlugChar c)) (lit "-") s).
  2:{ eapply Forall_impl; [|exact Hchars]. intros c Hc. simpl. rewrite Hc. reflexivity. }
  rewrite (collapse_hyphens_none s false Hno) by discriminate.
  rewrite (dropWhile_stop isHyphen s) by (apply (firstChar_not "-"%char); exact Hfirst).
  rewrite (dropWhileEnd_stop isHyphen s) by (apply (firstChar_not "-"%char); exact Hlast).
  unfold sliceTo. apply firstn_all2. exact Hlen.
Qed.

Lemma slugWorktreeName_keeps_slug_witness :
  wellFormedSlug (lit "fix-login_v2.1") /\
  slugWorktreeName (lit "fix-login_v2.1") = lit "fix-login_v2.1".
Proof.
  assert (H : wellFormedSlug (lit "fix-login_v2.1")).
  { split; [split|split; [|split]].
    - repeat constructor.
    - simpl. lia.
    - reflexivity.
    - discriminate.
    - discriminate. }
  split; [exact H | exact (slugWorktreeName_keeps_slug (lit "fix-login_v2.1") H)].
Defined.

(* ------------------------------------------------------------------ *)
(** ** The worktree listing *)

Section Porcelain.

Lemma split_line c a b : ~ In c a -> split c (a ++ c :: b) = a :: split c b.
Proof.
  induction a as [|x a IH]; intro H.
  - simpl. rewrite chr_eqb_refl. destruct (split c b); reflexivity.
  - change ((x :: a) ++ c :: b) with (x :: (a ++ c :: b)). simpl.
    rewrite IH by (intro K; apply H; right; exact K).
    destruct (chr_eqb x c) eqn:E; [|reflexivity].
    exfalso. apply H. left. apply chr_eqb_eq. exact E.
Qed.

Lemma pushCurrent_listed entries current :
  Forall listedEntry entries ->
  match current with Some e => consistentEntry e | None => True end ->
  Forall listedEntry (pushCurrent entries current).
Proof.
  intros He Hc. destruct current as [e|]; simpl; [|exact He].
  destruct (isEmpty (worktree e)) eqn:E; [exact He|].
  apply Forall_app. split; [exact He|]. constructor; [|constructor].
  split; [apply isEmpty_false; exact E | exact Hc].
Qed.

(** The loop invariant of the parser. *)
Definition porcelainInvariant (st : list WorktreeListEntry * option WorktreeListEntry) : Prop :=
  Forall listedEntry (fst st) /\
  match snd st with Some e => consistentEntry e | None => True end.

Lemma porcelainStep_invariant st line :
  porcelainInvariant st -> porcelainInvariant (porcelainStep st line).
Proof.
  destruct st as [entries current]. intros [He Hc]. simpl in He, Hc.
  unfold porcelainStep.
  destruct (isEmpty line).
  { split; [apply pushCurrent_listed; assumption | exact I]. }
  destruct (startsWith (lit "worktree ") line).
  { split; [apply pushCurrent_listed; assumption|]. simpl.
    split; [apply trim_idempotent|]. simpl. tauto. }
  destruct current as [e|]; [|split; [exact He | exact I]].
  destruct Hc as [Hw [Hh [Hr Hb]]].
  destruct (startsWith (lit "HEAD ") line).
  { split; [exact He|]. simpl. split; [exact Hw|]. simpl.
    split; [apply trim_idempotent|]. split; assumption. }
  destruct (startsWith (lit "branch ") line).
  { split; [exact He|]. simpl. split; [exact Hw|]. simpl.
    split; [exact Hh|]. split; [apply trim_idempotent | reflexivity]. }
  split; [exact He|]. simpl. repeat split; assumption.
Qed.

Lemma fold_porcelain_invariant lines : forall st,
  porcelainInvariant st -> porcelainInvariant (fold_left porcelainStep lines st).
Proof.
  induction lines as [|line rest IH]; intros st H; simpl; [exact H|].
  apply IH. apply porcelainStep_invariant. exact H.
Qed.

Lemma field_visible_line c k v :
  isSpace c = false -> porcelainField v -> trim (c :: k ++ v) = c :: k ++ v.
Proof. intros Hc [[Ht Hne] _]. apply trim_prepend; assumption. Qed.

Lemma field_one_line (k v : str) :
  ~ In (ascii_of_nat 10) k -> porcelainField v -> ~ In (ascii_of_nat 10) (k ++ v).
Proof.
  intros Hk [_ Hv] Hin. apply in_app_or in Hin. destruct Hin; [apply Hk | apply Hv]; assumption.
Qed.

Lemma split_lines c lines rest :
  Forall (fun l => ~ In c l) lines ->
  split c (flat_map (fun l => l ++ [c]) lines ++ rest) = lines ++ split c rest.
Proof.
  induction 1 as [|l more Hl _ IH]; [reflexivity|].
  simpl flat_map. rewrite <- !app_assoc. simpl app.
  rewrite split_line by exact Hl. rewrite IH. reflexivity.
Qed.

Lemma porcelainBlock_lines r :
  porcelainBlock r = flat_map (fun l => l ++ [ascii_of_nat 10]) (blockLines r).
Proof.
  unfold porcelainBlock, blockLines, newline. simpl flat_map.
  destruct (recordBranch r); rewrite <- !app_assoc; reflexivity.
Qed.

Lemma blockLines_one_line r :
  wellFormedRecord r -> Forall (fun l => ~ In (ascii_of_nat 10) l) (blockLines r).
Proof.
  intros [Hp [Hh Hb]]. unfold blockLines.
  constructor; [apply field_one_line; [simpl; intuition discriminate | exact Hp]|].
  constructor; [apply field_one_line; [simpl; intuition discriminate | exact Hh]|].
  constructor; [|constructor; [simpl; tauto | constructor]].
  destruct (recordBranch r) as [ref|].
  - apply field_one_line; [simpl; intuition discriminate | exact Hb].
  - simpl. intuition discriminate.
Qed.

Lemma porcelainStep_path acc p :
  porcelainField p ->
  porcelainStep (acc, None) (trim (lit "worktree " ++ p))
  = (acc, Some {| worktree := p; head := None; branchRef := None; entryBranch := None |}).
Proof.
  intro Hp.
  change (lit "worktree " ++ p) with ("w"%char :: lit "orktree " ++ p).
  rewrite (field_visible_line "w"%char (lit "orktree ") p eq_refl Hp).
  change ("w"%char :: lit "orktree " ++ p) with (lit "worktree " ++ p).
  destruct Hp as [[Tp _] _].
  unfold porcelainStep. simpl isEmpty. cbv iota.
  rewrite startsWith_app. simpl sliceFrom. rewrite Tp. reflexivity.
Qed.

Lemma porcelainStep_head acc e h :
  porcelainField h ->
  porcelainStep (acc, Some e) (trim (lit "HEAD " ++ h))
  = (acc, Some {| worktree := worktree e; head := Some h;
                  branchRef := branchRef e; entryBranch := entryBranch e |}).
Proof.
  intro Hh.
  change (lit "HEAD " ++ h) with ("H"%char :: lit "EAD " ++ h).
  rewrite (field_visible_line "H"%char (lit "EAD ") h eq_refl Hh).
  change ("H"%char :: lit "EAD " ++ h) with (lit "HEAD " ++ h).
  destruct Hh as [[Th _] _].
  unfold porcelainStep. simpl isEmpty. cbv iota.
  change (startsWith (lit "worktree ") (lit "HEAD " ++ h)) with false.
  cbv iota. rewrite startsWith_app. simpl sliceFrom. rewrite Th. reflexivity.
Qed.

Lemma porcelainStep_branch acc e ref :
  porcelainField ref ->
  porcelainStep (acc, Some e) (trim (lit "branch " ++ ref))
  = (acc, Some {| worktree := worktree e; head := head e;
                  branchRef := Some ref; entryBranch := Some (cleanBranchName ref) |}).
Proof.
  intro Hb.
  change (lit "branch " ++ ref) with ("b"%char :: lit "ranch " ++ ref).
  rewrite (field_visible_line "b"%char (lit "ranch ") ref eq_refl Hb).
  change ("b"%char :: lit "ranch " ++ ref) with (lit "branch " ++ ref).
  destruct Hb as [[Tb _] _].
  unfold porcelainStep. simpl isEmpty. cbv iota.
  change (startsWith (lit "worktree ") (lit "branch " ++ ref)) with false.
  change (startsWith (lit "HEAD ") (lit "branch " ++ ref)) with false.
  cbv iota. rewrite startsWith_app. simpl sliceFrom. rewrite Tb. reflexivity.
Qed.

Lemma porcelainStep_close acc e :
  worktree e <> [] -> porcelainStep (acc, Some e) (trim []) = (acc ++ [e], None).
Proof.
  intro He. change (trim []) with (@nil ascii). unfold porcelainStep. simpl.
  destruct (worktree e); [contradiction | reflexivity].
Qed.

(** One block of the listing adds one entry. *)
Lemma porcelainBlock_step r rest acc :
  wellFormedRecord r ->
  fold_left porcelainStep (map trim (split (ascii_of_nat 10) (porcelainBlock r ++ rest)))
            (acc, None)
  = fold_left porcelainStep (map trim (split (ascii_of_nat 10) rest))
              (acc ++ [entryOfRecord r], None).
Proof.
  intro Hr. rewrite porcelainBlock_lines.
  rewrite split_lines by (apply blockLines_one_line; exact Hr).
  rewrite map_app, fold_left_app. f_equal.
  destruct Hr as [Hp [Hh Hb]]. unfold blockLines, entryOfRecord.
  cbn [map fold_left].
  rewrite porcelainStep_path by exact Hp.
  rewrite porcelainStep_head by exact Hh.
  destruct Hp as [[_ Np] _].
  destruct (recordBranch r) as [ref|].
  - rewrite porcelainStep_branch by exact Hb.
    rewrite porcelainStep_close by exact Np. reflexivity.
  - change (porcelainStep (acc, Some ?e) (trim (lit "detached"))) with (acc, Some e).
    rewrite porcelainStep_close by exact Np. reflexivity.
Qed.

End Porcelain.

(** X2. Whatever text it is given, [parseWorktreePorcelain] only returns
    entries with a non-empty, trimmed path, a trimmed head and branch ref,
    and a branch that is the cleaned branch ref. *)
Theorem parseWorktreePorcelain_entries (raw : str) :
  Forall listedEntry (parseWorktreePorcelain raw).
Proof.
  unfold parseWorktreePorcelain.
  pose proof (fold_porcelain_invariant (map trim (split (ascii_of_nat 10) raw)) ([], None)) as H.
  destruct (fold_left porcelainStep _ _) as [entries current].
  destruct H as [He Hc]; [split; [constructor | exact I]|].
  apply pushCurrent_listed; assumption.
Qed.

Lemma parse_porcelainOf (records : list WorktreeRecord) :
  Forall wellFormedRecord records ->
  parseWorktreePorcelain (porcelainOf records) = map entryOfRecord records.
Proof.
  intro H. unfold parseWorktreePorcelain, porcelainOf.
  assert (K : forall acc,
    fold_left porcelainStep
      (map trim (split (ascii_of_nat 10) (flat_map porcelainBlock records))) (acc, None)
    = (acc ++ map entryOfRecord records, None)).
  { induction H as [|r rest Hr _ IH]; intro acc.
    - simpl. rewrite app_nil_r. reflexivity.
    - change (flat_map porcelainBlock (r :: rest))
        with (porcelainBlock r ++ flat_map porcelainBlock rest).
      rewrite porcelainBlock_step by exact Hr.
      rewrite IH. simpl map. rewrite <- app_assoc. reflexivity. }
  rewrite (K []). reflexivity.
Qed.

(** X3. Parsing the listing that git prints for a list of worktrees (a
    block [worktree], [HEAD], [branch] or [detached] and an empty line
    each) gives the worktrees back, one entry each and in order, with the
    branch cleaned of its [refs/heads/] prefix. *)
Theorem parseWorktreePorcelain_round_trip (records : list WorktreeRecord) :
  Forall wellFormedRecord records ->
  parseWorktreePorcelain (porcelainOf records) = map entryOfRecord records.
Proof. exact (parse_porcelainOf records). Qed.

Lemma parseWorktreePorcelain_round_trip_witness :
  Forall wellFormedRecord twoWorktrees /\
  parseWorktreePorcelain (porcelainOf twoWorktrees) = map entryOfRecord twoWorktrees.
Proof.
  assert (H : Forall wellFormedRecord twoWorktrees).
  { repeat constructor; simpl; try discriminate; intuition discriminate. }
  split; [exact H | exact (parseWorktreePorcelain_round_trip twoWorktrees H)].
Defined.

(* ------------------------------------------------------------------ *)
(** ** The project metadata store *)

Section StoreRecords.

Lemma existsb_str_In e l : existsb (str_eqb e) l = true <-> In e l.
Proof.
  rewrite existsb_exists. split.
  - intros [x [Hin Heq]]. apply str_eqb_eq in Heq. subst x. exact Hin.
  - intro H. exists e. split; [exact H | apply str_eqb_refl].
Qed.

Lemma existsb_str_not_In e l : existsb (str_eqb e) l = false <-> ~ In e l.
Proof.
  rewrite <- existsb_str_In. destruct (existsb (str_eqb e) l); split; intro H.
  - discriminate H.
  - exfalso. apply H. reflexivity.
  - intro K. discriminate K.
  - reflexivity.
Qed.

Lemma dedupe_fresh entries : forall seen e, In e (dedupe seen entries) -> ~ In e seen.
Proof.
  induction entries as [|x rest IH]; intros seen e H; simpl in H; [contradiction|].
  destruct (existsb (str_eqb x) seen) eqn:E.
  - eapply IH. exact H.
  - destruct H as [<-|H]; [apply existsb_str_not_In; exact E|].
    intro K. apply (IH _ _ H). right. exact K.
Qed.

Lemma dedupe_NoDup entries : forall seen, NoDup (dedupe seen entries).
Proof.
  induction entries as [|x rest IH]; intro seen; simpl; [constructor|].
  destruct (existsb (str_eqb x) seen); [apply IH|].
  constructor; [|apply IH].
  intro H. apply (dedupe_fresh _ _ _ H). left. reflexivity.
Qed.

Lemma dedupe_complete entries : forall seen e,
  In e entries -> ~ In e seen -> In e (dedupe seen entries).
Proof.
  induction entries as [|x rest IH]; intros seen e Hin Hseen; simpl; [contradiction|].
  destruct Hin as [->|Hin].
  - apply existsb_str_not_In in Hseen. rewrite Hseen. left. reflexivity.
  - destruct (existsb (str_eqb x) seen) eqn:E; [apply IH; assumption|].
    destruct (str_eqb x e) eqn:Exe.
    + apply str_eqb_eq in Exe. left. exact Exe.
    + right. apply IH; [exact Hin|]. intros [K|K]; [|contradiction].
      apply str_eqb_neq in Exe. contradiction.
Qed.

Lemma dedupe_In entries e : In e (dedupe [] entries) <-> In e entries.
Proof.
  split; [apply dedupe_subset | intro H; apply dedupe_complete; [exact H | intros []]].
Qed.

Lemma normalizeSandboxes_keeps l : Forall normalizedEntry l -> normalizeSandboxes l = l.
Proof.
  unfold normalizeSandboxes, filterNonEmpty.
  induction 1 as [|e rest [Ht Hne] _ IH]; [reflexivity|].
  simpl. rewrite Ht. apply isEmpty_false in Hne. rewrite Hne. simpl. f_equal. exact IH.
Qed.

Lemma finalizeProject_sandboxes p :
  NoDup (sandboxes (finalizeProject p)) /\ Forall normalizedEntry (sandboxes (finalizeProject p)).
Proof.
  simpl. split; [apply dedupe_NoDup|].
  apply Forall_forall. intros e He. apply dedupe_subset in He.
  pose proof (normalizeSandboxes_normalized (sandboxes p)) as H.
  rewrite Forall_forall in H. apply H. exact He.
Qed.

End StoreRecords.

(** X4. Whatever the store held and whatever the updater does, a record
    written by [updateProjectSandboxes] goes to the project's storage
    file and lists its sandboxes without duplicates, each trimmed and not
    empty; there is at most one write. *)
Theorem updateProjectSandboxes_record (host : Host) (projectID primary : str)
    (updater : Project -> Project) (w : World host) :
  let t := snd (updateProjectSandboxes host projectID primary updater w) in
  length (filter isWrite t) <= 1 /\
  forall path content, In (EvWriteFile path content) t ->
    path = getProjectStoragePath host projectID /\
    exists record,
      content = recordText host record /\
      NoDup (sandboxes record) /\ Forall normalizedEntry (sandboxes record).
Proof.
  rewrite updateProjectSandboxes_run. cbv zeta.
  destruct (fst (fs_mkdir host (storageDirOf host projectID) w)) as [u|e].
  - simpl snd. unfold storeUpdateTrace. split; [simpl; lia|].
    intros path content [H|[H|[H|[H|[]]]]]; try discriminate H. injection H as <- <-.
    split; [reflexivity|]. eexists. split; [reflexivity|].
    apply finalizeProject_sandboxes.
  - simpl. split; [lia|]. intros path content [H|[]]. discriminate H.
Qed.

(** X5. When the storage directory can be made, [syncProjectSandboxAdd]
    of a non-blank path reads the stored record and writes it back with
    exactly the stored sandboxes and the trimmed path, each once, the
    other members unchanged. *)
Theorem syncProjectSandboxAdd_registers (host : Host) (projectID primary sandboxPath : str)
    (w : World host) :
  trim sandboxPath <> [] ->
  fst (fs_mkdir host (storageDirOf host projectID) w) = Ok tt ->
  exists record,
    let written := fs_writeFile host (getProjectStoragePath host projectID)
                     (recordText host record) (worldAtWrite host projectID w) in
    syncProjectSandboxAdd host projectID primary sandboxPath w
      = (fst written, snd written, storeUpdateTrace host projectID (recordText host record)) /\
    NoDup (sandboxes record) /\
    (forall e, In e (sandboxes record) <->
               In e (sandboxes (storedProject host projectID primary w)) \/ e = trim sandboxPath) /\
    sameMembers record (storedProject host projectID primary w).
Proof.
  intros Hne Hmade. unfold syncProjectSandboxAdd.
  destruct (isEmpty (trim sandboxPath)) eqn:E; [apply isEmpty_true in E; contradiction|].
  rewrite updateProjectSandboxes_run. cbv zeta. rewrite Hmade.
  set (stored := storedProject host projectID primary w).
  assert (Hstored : Forall normalizedEntry (sandboxes stored)) by apply currentProject_normalized.
  assert (Hs : normalizedEntry (trim sandboxPath)) by (split; [apply trim_idempotent | exact Hne]).
  eexists. split; [reflexivity|]. split; [apply finalizeProject_sandboxes|].
  destruct (existsb (str_eqb (trim sandboxPath)) (sandboxes stored)) eqn:Ein.
  - split; [|repeat split].
    intro e. simpl. rewrite dedupe_In, (normalizeSandboxes_keeps _ Hstored).
    apply existsb_str_In in Ein. split; [tauto|]. intros [H| ->]; assumption.
  - split; [|repeat split].
    intro e. simpl. rewrite dedupe_In.
    rewrite normalizeSandboxes_keeps
      by (apply Forall_app; split; [exact Hstored | constructor; [exact Hs | constructor]]).
    rewrite in_app_iff. simpl. split; [intros [H|[H|[]]]; [left; exact H | right; symmetry; exact H]|].
    intros [H| ->]; [left; exact H | right; left; reflexivity].
Qed.

Lemma syncProjectSandboxAdd_registers_witness :
  exists record,
    snd (syncProjectSandboxAdd (Scripted.make Scripted.repoScript)
           (lit "abc123") (lit "/repo") (lit " /data/wt/demo ") 0)
    = storeUpdateTrace (Scripted.make Scripted.repoScript) (lit "abc123")
        (recordText (Scripted.make Scripted.repoScript) record) /\
    sandboxes record = [lit "/data/wt/demo"].
Proof.
  destruct (syncProjectSandboxAdd_registers (Scripted.make Scripted.repoScript)
              (lit "abc123") (lit "/repo") (lit " /data/wt/demo ") 0)
    as [record [Hrun [Hnodup [Hin _]]]]; [discriminate | reflexivity |].
  exists record. split; [rewrite Hrun; reflexivity|].
  assert (Hone : forall e, In e (sandboxes record) <-> e = lit "/data/wt/demo").
  { intro e. rewrite Hin. simpl. split; [intros [[]|H]; exact H | intro H; right; exact H]. }
  destruct (sandboxes record) as [|a [|b rest]].
  - exfalso. apply (proj2 (Hone (lit "/data/wt/demo"))). reflexivity.
  - f_equal. apply Hone. left. reflexivity.
  - exfalso. inversion Hnodup as [|? ? Hnot _]. apply Hnot.
    rewrite (proj1 (Hone a)) by (left; reflexivity).
    rewrite <- (proj1 (Hone b)) by (right; left; reflexivity). left. reflexivity.
Defined.

(** X6. When the storage directory can be made, [syncProjectSandboxRemove]
    writes the record back with exactly the stored sandboxes other than
    the trimmed path, each once, the other members unchanged: it drops no
    other sandbox. *)
Theorem syncProjectSandboxRemove_keeps_others (host : Host)
    (projectID primary sandboxPath : str) (w : World host) :
  trim sandboxPath <> [] ->
  fst (fs_mkdir host (storageDirOf host projectID) w) = Ok tt ->
  exists record,
    let written := fs_writeFile host (getProjectStoragePath host projectID)
                     (recordText host record) (worldAtWrite host projectID w) in
    syncProjectSandboxRemove host projectID primary sandboxPath w
      = (fst written, snd written, storeUpdateTrace host projectID (recordText host record)) /\
    NoDup (sandboxes record) /\
    (forall e, In e (sandboxes record) <->
               In e (sandboxes (storedProject host projectID primary w)) /\ e <> trim sandboxPath) /\
    sameMembers record (storedProject host projectID primary w).
Proof.
  intros Hne Hmade. unfold syncProjectSandboxRemove.
  destruct (isEmpty (trim sandboxPath)) eqn:E; [apply isEmpty_true in E; contradiction|].
  rewrite updateProjectSandboxes_run. cbv zeta. rewrite Hmade.
  set (stored := storedProject host projectID primary w).
  assert (Hstored : Forall normalizedEntry (sandboxes stored)) by apply currentProject_normalized.
  eexists. split; [reflexivity|]. split; [apply finalizeProject_sandboxes|].
  split; [|repeat split].
  intro e. simpl. rewrite dedupe_In.
  rewrite normalizeSandboxes_keeps.
  - rewrite filter_In. rewrite negb_true_iff. rewrite str_eqb_neq. reflexivity.
  - apply Forall_forall. intros x Hx. apply filter_In in Hx.
    rewrite Forall_forall in Hstored. apply Hstored. tauto.
Qed.

Lemma syncProjectSandboxRemove_keeps_others_witness :
  exists record,
    snd (syncProjectSandboxRemove (Scripted.make Cases.goneRegistered)
           (lit "abc123") (lit "/repo") Cases.goneDirectory 0)
    = storeUpdateTrace (Scripted.make Cases.goneRegistered) (lit "abc123")
        (recordText (Scripted.make Cases.goneRegistered) record) /\
    In Cases.demoDirectory (sandboxes record) /\ ~ In Cases.goneDirectory (sandboxes record).
Proof.
  destruct (syncProjectSandboxRemove_keeps_others (Scripted.make Cases.goneRegistered)
              (lit "abc123") (lit "/repo") Cases.goneDirectory 0)
    as [record [Hrun [_ [Hin _]]]]; [discriminate | reflexivity |].
  exists record. split; [rewrite Hrun; reflexivity|]. split.
  - apply Hin. split; [vm_compute; tauto | discriminate].
  - intro H. apply Hin in H. destruct H as [_ H]. apply H. reflexivity.
Defined.

(* ------------------------------------------------------------------ *)
(** ** The raw status: header and file lines *)

Section HeaderPattern.

(** A lazy group stops at the first place where the rest of the pattern
    matches: if that is after [b] and nowhere inside it, the group is
    [b]. *)
Lemma lazyGroup_exact {A} (k : str -> option A) b : forall acc rest a,
  b <> [] -> Forall (fun c => isDot c = true) b ->
  (forall p q, b = p ++ q -> p <> [] -> q <> [] -> k (q ++ rest) = None) ->
  k rest = Some a ->
  lazyGroup k acc (b ++ rest) = Some (rev acc ++ b, a).
Proof.
  induction b as [|c b' IH]; intros acc rest a Hne Hdot Hinside Hend; [contradiction|].
  inversion Hdot as [|? ? Hc Hb']; subst.
  change ((c :: b') ++ rest) with (c :: (b' ++ rest)). simpl lazyGroup. rewrite Hc.
  destruct b' as [|d b''].
  - simpl app. rewrite Hend. reflexivity.
  - rewrite (Hinside [c] (d :: b'')) by (reflexivity || discriminate).
    rewrite (IH (c :: acc) rest a); [| discriminate | exact Hb' | | exact Hend].
    + simpl rev. rewrite <- app_assoc. reflexivity.
    + intros p q E Hp Hq. apply (Hinside (c :: p) q); [|discriminate | exact Hq].
      rewrite E. reflexivity.
Qed.

Lemma startsWith_cons x p y s :
  startsWith (x :: p) (y :: s) = chr_eqb x y && startsWith p s.
Proof. reflexivity. Qed.

Lemma visible_isDot c : isSpace c = false -> isDot c = true.
Proof.
  destruct c as [[] [] [] [] [] [] [] []]; vm_compute; intro H;
    first [reflexivity | discriminate H].
Qed.

Lemma digit_isDot c : isDigit c = true -> isDot c = true.
Proof.
  destruct c as [[] [] [] [] [] [] [] []]; vm_compute; intro H;
    first [reflexivity | discriminate H].
Qed.

Lemma visible_dots s : visible s -> Forall (fun c => isDot c = true) s.
Proof. apply Forall_impl. exact visible_isDot. Qed.

(** Where the text starts with a visible character, the bracket part of
    the pattern does not match. *)
Lemma matchTrackingInfo_visible c q : isSpace c = false -> matchTrackingInfo (c :: q) = None.
Proof.
  intro Hc. unfold matchTrackingInfo. simpl dropWhile. rewrite Hc.
  rewrite Nat.ltb_irrefl. reflexivity.
Qed.

Lemma matchTrackingInfo_bracket text :
  text <> [] -> Forall (fun c => isDot c = true) text ->
  matchTrackingInfo (lit " [" ++ text ++ lit "]") = Some (Some text).
Proof.
  intros Hne Hdot. unfold matchTrackingInfo.
  change (dropWhile isSpace (lit " [" ++ text ++ lit "]")) with ("["%char :: text ++ lit "]").
  replace (length ("["%char :: text ++ lit "]") <? length (lit " [" ++ text ++ lit "]"))
    with true by (symmetry; apply Nat.ltb_lt; simpl; lia).
  rewrite chr_eqb_refl. change (lit "]") with ["]"%char]. rewrite rev_unit.
  rewrite chr_eqb_refl.
  assert (Hrev : isEmpty (rev text) = false).
  { apply isEmpty_false. intro E. apply Hne. rewrite <- (rev_involutive text), E. reflexivity. }
  rewrite Hrev.
  assert (Hall : forallb isDot (rev text) = true).
  { apply forallb_forall. intros x Hx. apply in_rev in Hx.
    rewrite Forall_forall in Hdot. apply Hdot. exact Hx. }
  rewrite Hall. simpl. rewrite rev_involutive. reflexivity.
Qed.

Lemma noDoubleDot_app a b :
  noDoubleDot (a ++ b) = true -> noDoubleDot b = true.
Proof.
  induction a as [|x a IH]; simpl; intro H; [exact H|].
  destruct (a ++ b) as [|y rest] eqn:E.
  - destruct a; [simpl in E; subst b; reflexivity | discriminate E].
  - apply andb_true_iff in H. apply IH. apply H.
Qed.

Lemma lastChar_app a b : b <> [] -> lastChar (a ++ b) = lastChar b.
Proof.
  intro H. unfold lastChar. rewrite rev_app_distr.
  destruct (rev b) as [|x r] eqn:E; [|reflexivity].
  exfalso. apply H. rewrite <- (rev_involutive b), E. reflexivity.
Qed.

(** Inside a branch name the tracking part of the pattern does not
    match, whatever follows the name. *)
Lemma matchTracking_inside b p q rest :
  refName b -> b = p ++ q -> q <> [] -> matchTracking (q ++ rest) = None.
Proof.
  intros [_ [Hvis [Hdots Hlast]]] E Hq. subst b.
  apply noDoubleDot_app in Hdots. rewrite lastChar_app in Hlast by exact Hq.
  apply Forall_app in Hvis. destruct Hvis as [_ Hvis].
  destruct q as [|c q']; [contradiction|]. inversion Hvis as [|? ? Hc _]; subst.
  unfold matchTracking.
  assert (Hstart : startsWith (lit "...") ((c :: q') ++ rest) = false).
  { change (lit "...") with ["."%char; "."%char; "."%char].
    change ((c :: q') ++ rest) with (c :: (q' ++ rest)). rewrite startsWith_cons.
    destruct (chr_eqb "."%char c) eqn:E1; [|reflexivity].
    apply chr_eqb_eq in E1. subst c.
    destruct q' as [|d q'']; [exfalso; apply Hlast; reflexivity|].
    change ((d :: q'') ++ rest) with (d :: (q'' ++ rest)). rewrite startsWith_cons.
    destruct (chr_eqb "."%char d) eqn:E2; [|reflexivity].
    apply chr_eqb_eq in E2. subst d. simpl in Hdots. discriminate Hdots. }
  rewrite Hstart.
  change ((c :: q') ++ rest) with (c :: (q' ++ rest)).
  rewrite matchTrackingInfo_visible by exact Hc. reflexivity.
Qed.

Lemma divergenceText_info d text :
  wellFormedDivergence d -> divergenceText d = Some text ->
  text <> [] /\ Forall (fun c => isDot c = true) text.
Proof.
  assert (D : forall n, safeCount n -> Forall (fun c => isDot c = true) n).
  { intros n [[_ Hn] _]. eapply Forall_impl; [|exact Hn]. exact digit_isDot. }
  destruct d as [|n|n|a b|]; unfold divergenceText, wellFormedDivergence; intros Hd E;
    try discriminate E;
    injection E as <-; (split; [discriminate|]);
    repeat (constructor; [reflexivity|]).
  - apply D. exact Hd.
  - apply D. exact Hd.
  - apply Forall_app. split; [apply D; apply Hd|].
    repeat (constructor; [reflexivity|]). apply D. apply Hd.
  - constructor.
Qed.

Lemma matchTracking_tail upstream :
  wellFormedUpstream upstream ->
  matchTracking (headerTail upstream)
  = Some (match upstream with Some (name, _) => Some name | None => None end,
          match upstream with Some (_, d) => divergenceText d | None => None end).
Proof.
  destruct upstream as [[name d]|]; [|reflexivity].
  intros [[Hne Hvis] Hd]. unfold headerTail, matchTracking.
  rewrite startsWith_app.
  change (sliceFrom 3 (lit "..." ++ ?x)) with x.
  assert (Hinside : forall tail p q, name = p ++ q -> p <> [] -> q <> [] ->
                      matchTrackingInfo (q ++ tail) = None).
  { intros tail p q E _ Hq. subst name. apply Forall_app in Hvis. destruct Hvis as [_ Hq'].
    destruct q as [|c q']; [contradiction|]. inversion Hq'; subst.
    apply matchTrackingInfo_visible. assumption. }
  destruct (divergenceText d) as [text|] eqn:Et.
  - destruct (divergenceText_info d text Hd Et) as [Htne Htdot].
    rewrite (lazyGroup_exact matchTrackingInfo name [] _ (Some text));
      [reflexivity | exact Hne | apply visible_dots; exact Hvis | apply Hinside
      | apply matchTrackingInfo_bracket; assumption].
  - rewrite (lazyGroup_exact matchTrackingInfo name [] [] None);
      [reflexivity | exact Hne | apply visible_dots; exact Hvis | apply Hinside | reflexivity].
Qed.

Lemma headerLine_tail b upstream : headerLine b upstream = lit "## " ++ b ++ headerTail upstream.
Proof. destruct upstream as [[name d]|]; reflexivity. Qed.

Lemma branchMatch_header b upstream :
  refName b -> wellFormedUpstream upstream ->
  branchMatch (headerLine b upstream)
  = Some (b, (match upstream with Some (name, _) => Some name | None => None end,
              match upstream with Some (_, d) => divergenceText d | None => None end)).
Proof.
  intros Hb Hu. rewrite headerLine_tail. unfold branchMatch.
  rewrite startsWith_app.
  change (sliceFrom 3 (lit "## " ++ ?x)) with x.
  pose proof Hb as [Hne [Hvis _]].
  erewrite (lazyGroup_exact matchTracking b [] (headerTail upstream));
    [reflexivity | exact Hne | apply visible_dots; exact Hvis | | apply matchTracking_tail; exact Hu].
  intros p q E _ Hq. apply (matchTracking_inside b p q); assumption.
Qed.

(** *** The counts *)

Lemma findNumberAfter_skip c key pre rest :
  ~ In c pre -> findNumberAfter (c :: key) (pre ++ rest) = findNumberAfter (c :: key) rest.
Proof.
  induction pre as [|x pre IH]; intro H; [reflexivity|].
  change ((x :: pre) ++ rest) with (x :: (pre ++ rest)).
  cbn [findNumberAfter]. rewrite startsWith_cons.
  assert (E : chr_eqb c x = false).
  { apply chr_eqb_neq. intros ->. apply H. left. reflexivity. }
  rewrite E. cbn [andb]. apply IH. intro K. apply H. right. exact K.
Qed.

Lemma findNumberAfter_absent c key s : ~ In c s -> findNumberAfter (c :: key) s = None.
Proof.
  intro H. rewrite <- (app_nil_r s). rewrite findNumberAfter_skip by exact H. reflexivity.
Qed.

Lemma takeWhile_digits n rest :
  Forall (fun c => isDigit c = true) n ->
  match rest with c :: _ => isDigit c = false | [] => True end ->
  takeWhile isDigit (n ++ rest) = n.
Proof.
  induction 1 as [|c n Hc _ IH]; intro Hrest; simpl.
  - destruct rest as [|c rest]; [reflexivity|]. simpl. rewrite Hrest. reflexivity.
  - rewrite Hc. f_equal. apply IH. exact Hrest.
Qed.

Lemma findNumberAfter_here (key : str) n rest :
  key <> [] -> decimal n ->
  match rest with c :: _ => isDigit c = false | [] => True end ->
  findNumberAfter key (key ++ n ++ rest) = Some (parseDigits n).
Proof.
  intros Hk [Hne Hn] Hrest. destruct key as [|c key']; [contradiction|].
  change ((c :: key') ++ n ++ rest) with (c :: (key' ++ n ++ rest)).
  cbn [findNumberAfter].
  change (c :: key' ++ n ++ rest) with ((c :: key') ++ n ++ rest).
  rewrite startsWith_app. unfold sliceFrom. rewrite skipn_app, skipn_all, Nat.sub_diag.
  simpl skipn. simpl app. rewrite takeWhile_digits by assumption.
  apply isEmpty_false in Hne. rewrite Hne. reflexivity.
Qed.

Lemma findNumberAfter_end (key : str) n :
  key <> [] -> decimal n -> findNumberAfter key (key ++ n) = Some (parseDigits n).
Proof.
  intros Hk Hn. pose proof (findNumberAfter_here key n [] Hk Hn I) as H.
  rewrite app_nil_r in H. exact H.
Qed.

Lemma digit_not_letter n c :
  isDigit c = false -> Forall (fun x => isDigit x = true) n -> ~ In c n.
Proof.
  intros Hc Hn Hin. rewrite Forall_forall in Hn. rewrite (Hn c Hin) in Hc. discriminate Hc.
Qed.

Lemma decimalValue_nonneg digits : (0 <= decimalValue digits)%Z.
Proof.
  unfold decimalValue.
  assert (H : forall acc, (0 <= acc)%Z ->
            (0 <= fold_left (fun acc c => (acc * 10 + Z.of_nat (charCode c - 48))%Z)
                            digits acc)%Z).
  { induction digits as [|c rest IH]; intros acc Hacc; simpl; [exact Hacc|].
    apply IH. lia. }
  apply H. lia.
Qed.

(** Up to [2^53] a double holds every natural number. *)
Lemma nearestDouble_safe n : (0 <= n < 2 ^ 53)%Z -> nearestDouble n = Finite n.
Proof.
  intros [Hlow Hhigh]. unfold nearestDouble. cbv zeta.
  assert (Hbits : (Z.log2 n + 1 <=? 53)%Z = true).
  { apply Z.leb_le. destruct (Z.eq_dec n 0) as [->|Hn]; [simpl; lia|].
    assert (Z.log2 n < 53)%Z by (apply Z.log2_lt_pow2; lia). lia. }
  rewrite Hbits. reflexivity.
Qed.

Lemma parseDigits_safe n : safeCount n -> parseDigits n = Finite (decimalValue n).
Proof.
  intros [_ Hsafe]. unfold parseDigits. apply nearestDouble_safe.
  split; [apply decimalValue_nonneg | exact Hsafe].
Qed.

(** Beyond [2^53] the count is rounded, and a run of more than 309
    digits gives [Infinity]. *)
Remark parseDigits_rounds :
  parseDigits (lit "9007199254740993") = Finite 9007199254740992 /\
  parseDigits (lit "9007199254740995") = Finite 9007199254740996 /\
  parseDigits ("1"%char :: repeat "0"%char 309) = Infinity.
Proof. split; [|split]; vm_compute; reflexivity. Qed.

Lemma counts_of_divergence d :
  wellFormedDivergence d ->
  match findNumberAfter (lit "ahead ") (optStr (divergenceText d)) with
  | Some n => n | None => Finite 0 end = Finite (aheadOf d) /\
  match findNumberAfter (lit "behind ") (optStr (divergenceText d)) with
  | Some n => n | None => Finite 0 end = Finite (behindOf d).
Proof.
  destruct d as [|n|n|a b|]; unfold divergenceText, optStr, aheadOf, behindOf; cbv beta iota;
    intro Hd.
  - split; reflexivity.
  - split.
    + rewrite (findNumberAfter_end (lit "ahead ") n) by (discriminate || exact (proj1 Hd)).
      apply parseDigits_safe. exact Hd.
    + change (lit "behind ") with ("b"%char :: lit "ehind ").
      rewrite findNumberAfter_absent; [reflexivity|].
      intro K. apply in_app_or in K. destruct K as [K|K]; [simpl in K; intuition discriminate|].
      exact (digit_not_letter n "b"%char eq_refl (proj2 (proj1 Hd)) K).
  - split.
    + change (lit "ahead ") with ("a"%char :: lit "head ").
      rewrite findNumberAfter_absent; [reflexivity|].
      intro K. apply in_app_or in K. destruct K as [K|K]; [simpl in K; intuition discriminate|].
      exact (digit_not_letter n "a"%char eq_refl (proj2 (proj1 Hd)) K).
    + rewrite (findNumberAfter_end (lit "behind ") n) by (discriminate || exact (proj1 Hd)).
      apply parseDigits_safe. exact Hd.
  - destruct Hd as [Ha Hb]. split.
    + rewrite (findNumberAfter_here (lit "ahead ") a)
        by (discriminate || exact (proj1 Ha) || reflexivity).
      apply parseDigits_safe. exact Ha.
    + rewrite (app_assoc (lit "ahead ") a).
      change (lit ", behind " ++ b) with (lit ", " ++ lit "behind " ++ b).
      rewrite (app_assoc _ (lit ", ")).
      change (lit "behind ") with ("b"%char :: lit "ehind ") at 1.
      rewrite findNumberAfter_skip.
      * change ("b"%char :: lit "ehind ") with (lit "behind ").
        rewrite (findNumberAfter_end (lit "behind ") b) by (discriminate || exact (proj1 Hb)).
        apply parseDigits_safe. exact Hb.
      * intro K. apply in_app_or in K. destruct K as [K|K]; [|simpl in K; intuition discriminate].
        apply in_app_or in K. destruct K as [K|K]; [simpl in K; intuition discriminate|].
        exact (digit_not_letter a "b"%char eq_refl (proj2 (proj1 Ha)) K).
  - split; reflexivity.
Qed.

(** The header line sets the branch, the upstream and the counts, and
    leaves the files alone. *)
Lemma statusLineStep_header acc b upstream :
  refName b -> wellFormedUpstream upstream ->
  statusLineStep acc (headerLine b upstream)
  = {| accCurrent := b;
       accTracking := match upstream with Some (name, _) => Some name | None => None end;
       accAhead := match upstream with Some (_, d) => aheadOf d | None => 0%Z end;
       accBehind := match upstream with Some (_, d) => behindOf d | None => 0%Z end;
       accFiles := accFiles acc |}.
Proof.
  intros Hb Hu. unfold statusLineStep.
  replace (startsWith (lit "##") (headerLine b upstream)) with true
    by (rewrite headerLine_tail; reflexivity).
  rewrite (branchMatch_header b upstream Hb Hu).
  destruct upstream as [[name d]|]; [|reflexivity].
  destruct Hu as [[Hne _] Hd]. apply isEmpty_false in Hne. rewrite Hne.
  destruct (counts_of_divergence d Hd) as [Ea Eb]. rewrite Ea, Eb. reflexivity.
Qed.

(** Lines that are not headers add one file each. *)
Lemma fold_file_lines lines : forall acc,
  Forall (fun line => isHeaderLine line = false) lines ->
  fold_left statusLineStep lines acc
  = {| accCurrent := accCurrent acc; accTracking := accTracking acc;
       accAhead := accAhead acc; accBehind := accBehind acc;
       accFiles := accFiles acc ++ map fileOfLine lines |}.
Proof.
  induction lines as [|line rest IH]; intros acc H.
  - simpl. rewrite app_nil_r. destruct acc; reflexivity.
  - inversion H as [|? ? Hline Hrest]; subst. simpl fold_left.
    rewrite IH by exact Hrest. unfold statusLineStep. unfold isHeaderLine in Hline.
    rewrite Hline. simpl. rewrite <- app_assoc. reflexivity.
Qed.

End HeaderPattern.

Section InProgress.

Variable host : Host.

Lemma returns_readOr p :
  returns host (fun _ => True) (orOnReject host (readFile host p) []).
Proof. apply returns_orOnReject; [apply ensures_any | exact I]. Qed.

Lemma emits_existsPath (P : Event -> Prop) p :
  P (EvStat p) -> emits host P (existsPath host p).
Proof.
  intro H. unfold existsPath. apply emits_tryCatch.
  - apply emits_bind; [apply emits_performOutcome; exact H | intro; apply emits_ret].
  - intro e. apply emits_ret.
Qed.

Lemma emits_readOr (P : Event -> Prop) p :
  P (EvReadFile p) -> emits host P (orOnReject host (readFile host p) []).
Proof. intro H. apply emits_orOnReject. apply emits_performOutcome. exact H. Qed.

Lemma emits_checkInProgressOperations directory :
  emits host isFileRead (checkInProgressOperations host directory).
Proof.
  unfold checkInProgressOperations.
  apply emits_bind; [apply emits_existsPath; exact I|]. intro mergeHeadExists.
  apply emits_bind.
  { destruct mergeHeadExists; [|apply emits_ret].
    apply emits_bind; [apply emits_readOr; exact I|]. intro mergeHead.
    destruct (truthy _); [|apply emits_ret].
    apply emits_bind; [apply emits_readOr; exact I | intro; apply emits_ret]. }
  intro merging.
  apply emits_bind; [apply emits_existsPath; exact I|]. intro rebaseMergeExists.
  apply emits_bind; [apply emits_existsPath; exact I|]. intro rebaseApplyExists.
  apply emits_bind; [|intro; apply emits_ret].
  destruct (rebaseMergeExists || rebaseApplyExists); [|apply emits_ret].
  apply emits_bind; [apply emits_readOr; exact I|]. intro headName.
  apply emits_bind; [apply emits_readOr; exact I|]. intro onto.
  destruct (_ || _); apply emits_ret.
Qed.

Lemma truthy_nonempty s : truthy s = true -> s <> [].
Proof. unfold truthy. intro H. apply isEmpty_false. apply negb_true_iff. exact H. Qed.

Lemma returns_checkInProgressOperations directory :
  returns host (fun state => plausibleMerge (fst state) /\ plausibleRebase (snd state))
    (checkInProgressOperations host directory).
Proof.
  unfold checkInProgressOperations.
  eapply returns_bind; [apply returns_existsPath|]. intros mergeHeadExists _.
  apply (returns_bind host plausibleMerge).
  { destruct mergeHeadExists; [|apply returns_ret; exact I].
    eapply returns_bind; [apply returns_readOr|]. intros mergeHead _. cbv zeta.
    destruct (truthy (sliceTo 7 (trim mergeHead))) eqn:E; [|apply returns_ret; exact I].
    eapply returns_bind; [apply returns_readOr|]. intros mergeMsg _.
    apply returns_ret. split; [apply truthy_nonempty; exact E | apply firstn_le_length]. }
  intros merging Hm.
  eapply returns_bind; [apply returns_existsPath|]. intros rebaseMergeExists _.
  eapply returns_bind; [apply returns_existsPath|]. intros rebaseApplyExists _.
  apply (returns_bind host plausibleRebase).
  { destruct (rebaseMergeExists || rebaseApplyExists); [|apply returns_ret; exact I].
    cbv zeta.
    eapply returns_bind; [apply returns_readOr|]. intros headName _.
    eapply returns_bind; [apply returns_readOr|]. intros onto _.
    destruct (truthy (removeFirst (lit "refs/heads/") (trim headName))
              || truthy (sliceTo 7 (trim onto))) eqn:E; [|apply returns_ret; exact I].
    apply returns_ret. split.
    - apply orb_true_iff in E. destruct E as [E|E]; [left | right]; apply truthy_nonempty; exact E.
    - apply firstn_le_length. }
  intros rebasing Hr. apply returns_ret. split; assumption.
Qed.

End InProgress.

(** X7. When the status command succeeds and its first line is the header
    of a branch (with or without an upstream and its ahead/behind counts,
    each below [2^53]) and the other lines are file lines,
    [getGitStatusRaw] reports that branch, that upstream and those
    counts, and one file per line, in order: status letters from the
    first two columns, path from the fourth column on; it is clean
    exactly when there is no file line.  (A count from [2^53] on is
    reported as the nearest double, see [parseDigits_rounds].) *)
Theorem getGitStatusRaw_header_and_files (host : Host) (directory : str) (w : World host)
    (branchName : str) (upstream : option (str * Divergence)) (fileLines : list str) :
  let reply := fst (execGit host statusArgs directory w) in
  exitCode reply = 0%Z ->
  statusLines (stdout reply) = headerLine branchName upstream :: fileLines ->
  refName branchName -> wellFormedUpstream upstream ->
  Forall (fun line => isHeaderLine line = false) fileLines ->
  exists result w1 t,
    getGitStatusRaw host directory w = (Ok result, w1, t) /\
    current result = branchName /\
    tracking result = match upstream with Some (name, _) => Some name | None => None end /\
    ahead result = match upstream with Some (_, d) => aheadOf d | None => 0%Z end /\
    behind result = match upstream with Some (_, d) => behindOf d | None => 0%Z end /\
    files result = map fileOfLine fileLines /\
    isClean result = match fileLines with [] => true | _ => false end.
Proof.
  intros reply Hexit Hlines Hb Hu Hfiles. subst reply.
  unfold statusLines, statusArgs in *.
  destruct (returns_checkInProgressOperations host directory
              (snd (execGit host (map lit ["status"; "--porcelain=v1"; "-b"; "-uall"]%string)
                      directory w)))
    as [state [w2 [t2 [Hc _]]]].
  eexists. eexists. eexists. split.
  - unfold getGitStatusRaw.
    eapply bind_step; [apply doExecGit_run|].
    rewrite Hexit. change (negb (0 =? 0)%Z) with false. cbv beta iota zeta.
    eapply bind_step; [exact Hc | reflexivity].
  - rewrite Hlines. simpl fold_left.
    rewrite statusLineStep_header by assumption.
    rewrite fold_file_lines by exact Hfiles.
    simpl. repeat split. destruct fileLines; reflexivity.
Qed.

Lemma getGitStatusRaw_header_and_files_witness :
  exists result w1 t,
    getGitStatusRaw (Scripted.make Examples.divergedRepository) (lit "/repo") 0
      = (Ok result, w1, t) /\
    current result = lit "main" /\
    tracking result = Some (lit "origin/main") /\
    ahead result = 2%Z /\ behind result = 1%Z /\
    files result
      = [ {| filePath := lit "src/a.ts"; index := lit " "; working_dir := lit "M" |};
          {| filePath := lit "notes.txt"; index := lit "?"; working_dir := lit "?" |} ] /\
    isClean result = false.
Proof.
  assert (V : forall s, forallb (fun c => negb (isSpace c)) s = true -> visible s).
  { intros s H. apply Forall_forall. intros c Hc.
    rewrite forallb_forall in H. apply negb_true_iff. apply H. exact Hc. }
  assert (D : forall s, s <> [] -> forallb isDigit s = true -> decimal s).
  { intros s Hne H. split; [exact Hne|]. apply Forall_forall. intros c Hc.
    rewrite forallb_forall in H. apply H. exact Hc. }
  apply (getGitStatusRaw_header_and_files (Scripted.make Examples.divergedRepository)
           (lit "/repo") 0 (lit "main")
           (Some (lit "origin/main", Diverged (lit "2") (lit "1")))
           [lit " M src/a.ts"; lit "?? notes.txt"]).
  - reflexivity.
  - vm_compute. reflexivity.
  - split; [discriminate|]. split; [apply V; reflexivity|]. split; [reflexivity | discriminate].
  - split; [split; [discriminate | apply V; reflexivity]|].
    split; (split; [apply D; (discriminate || reflexivity) | reflexivity]).
  - repeat constructor.
Defined.

(** X8. [checkInProgressOperations] never rejects and only looks at the
    file system ([stat] and [readFile]); a merge is reported only with a
    commit id of one to seven characters, a rebase only with a branch
    name or a commit id, the latter of at most seven characters. *)
Theorem checkInProgressOperations_total (host : Host) (directory : str) (w : World host) :
  exists state w1 t,
    checkInProgressOperations host directory w = (Ok state, w1, t) /\
    Forall isFileRead t /\
    plausibleMerge (fst state) /\ plausibleRebase (snd state).
Proof.
  destruct (returns_checkInProgressOperations host directory w) as [state [w1 [t [E [Hm Hr]]]]].
  exists state, w1, t. split; [exact E|]. split; [|split; assumption].
  pose proof (emits_checkInProgressOperations host directory w) as H.
  rewrite E in H. exact H.
Qed.

(* ------------------------------------------------------------------ *)
(** ** Removal: what it may do *)

Section RemovalEvents.

Variable host : Host.
Variable P : Event -> Prop.
Hypothesis P_observation : forall ev, isObservation ev -> P ev.

Lemma emits_canonicalPath input : emits host P (canonicalPath host input).
Proof.
  unfold canonicalPath. apply emits_bind; [|intro; apply emits_ret].
  apply emits_orOnReject. apply emits_performOutcome. apply P_observation. exact I.
Qed.

Lemma emits_checkPathExists p : emits host P (checkPathExists host p).
Proof.
  unfold checkPathExists. apply emits_tryCatch; [|intro; apply emits_ret].
  apply emits_bind; [|intro; apply emits_ret].
  apply emits_performOutcome. apply P_observation. exact I.
Qed.

Lemma emits_findMatchedEntry targetCanonical entries :
  emits host P (findMatchedEntry host targetCanonical entries).
Proof.
  induction entries as [|entry rest IH]; simpl; [apply emits_ret|].
  destruct (isEmpty (worktree entry)); [exact IH|].
  apply emits_bind; [apply emits_canonicalPath|]. intro entryCanonical.
  destruct (str_eqb entryCanonical targetCanonical); [apply emits_ret | exact IH].
Qed.

Hypothesis P_clock : P EvDateNow.
Hypothesis P_store : forall ev, isStoreWrite host ev -> P ev.

Lemma emits_updateProjectSandboxes projectID primary updater :
  emits host P (updateProjectSandboxes host projectID primary updater).
Proof.
  unfold updateProjectSandboxes. cbv zeta.
  apply emits_bind.
  { apply emits_performOutcome. apply P_store. left. exists projectID. reflexivity. }
  intros _. apply emits_bind; [apply emits_perform; exact P_clock|]. intro now.
  apply emits_bind.
  { apply emits_tryCatch; [|intro; apply emits_ret].
    apply emits_bind; [|intro; apply emits_ret].
    apply emits_performOutcome. apply P_observation. exact I. }
  intro parsed. apply emits_performOutcome. apply P_store. right.
  exists projectID. eexists. reflexivity.
Qed.

Hypothesis P_warn : forall text, P (EvWarn text).

Lemma emits_syncRemoveLogged context sandboxPath :
  emits host P (syncRemoveLogged host context sandboxPath).
Proof.
  unfold syncRemoveLogged. apply emits_tryCatch.
  - unfold syncProjectSandboxRemove. destruct (isEmpty (trim sandboxPath)); [apply emits_ret|].
    apply emits_updateProjectSandboxes.
  - intro message. intro w. repeat constructor. apply P_warn.
Qed.

End RemovalEvents.

(** X9. Whatever the host answers, [removeWorktree] only looks around,
    writes the project-ID marker and the project record, logs, removes
    the requested directory and runs [git worktree remove --force]; it
    runs [git branch -D] only when [deleteLocalBranch] is set, and no
    other command that changes the repository. *)
Theorem removeWorktree_events (host : Host) (directory : str) (input : RemoveGitWorktreePayload) :
  emits host
    (removalEvent host (normalizeDirectoryPath host (removeDirectory input))
       (optBool (deleteLocalBranch input)))
    (removeWorktree host directory input).
Proof.
  set (target := normalizeDirectoryPath host (removeDirectory input)).
  set (P := removalEvent host target (optBool (deleteLocalBranch input))).
  assert (P_obs : forall ev, isObservation ev -> P ev).
  { intros [] H; simpl in *; try contradiction; try exact I. left. exact H. }
  assert (P_marker : forall ev, isMarkerWrite host ev -> P ev).
  { intros ev H. pose proof H as [[primary ->]|[primary [content ->]]]; left; exact H. }
  assert (P_store : forall ev, isStoreWrite host ev -> P ev).
  { intros ev H. pose proof H as [[projectID ->]|[projectID [content ->]]]; right; exact H. }
  unfold removeWorktree. fold target.
  destruct (isEmpty target); [apply emits_throw|].
  apply emits_bind.
  { apply emits_resolveWorktreeProjectContext; [exact P_obs|].
    intro primary. apply emits_ensureOpenCodeProjectId; assumption. }
  intro context.
  apply emits_bind; [apply emits_canonicalPath; exact P_obs|]. intro targetCanonical.
  apply emits_bind; [apply emits_canonicalPath; exact P_obs|]. intro primaryCanonical.
  destruct (str_eqb targetCanonical primaryCanonical); [apply emits_throw|].
  apply emits_bind; [apply emits_listWorktreeEntries; exact P_obs|]. intro entries.
  apply emits_bind; [apply emits_findMatchedEntry; exact P_obs|]. intros [entry|].
  - apply emits_bind.
    { apply emits_runGitCommandOrThrow. right. left. simpl. reflexivity. }
    intros _. apply emits_bind.
    { destruct (optBool (deleteLocalBranch input)) eqn:Ed; [|apply emits_ret].
      destruct (truthy _); [|apply emits_ret].
      apply emits_bind; [|intro; apply emits_ret].
      apply emits_runGitCommandOrThrow. right. right. split; reflexivity. }
    intros _. apply emits_bind; [|intro; apply emits_ret].
    apply emits_syncRemoveLogged; try assumption; try exact I. intro text. exact I.
  - apply emits_bind; [apply emits_checkPathExists; exact P_obs|]. intro targetExists.
    apply emits_bind.
    { destruct targetExists; [|apply emits_ret].
      apply emits_performOutcome. reflexivity. }
    intros _. apply emits_bind; [|intro; apply emits_ret].
    apply emits_syncRemoveLogged; try assumption; try exact I. intro text. exact I.
Qed.

(* ------------------------------------------------------------------ *)
(** ** The project ID and the project context *)

Section ProjectId.

Variable host : Host.

Lemma ensures_ensureOpenCodeProjectId primary :
  ensures host (fun projectId => projectId <> []) (ensureOpenCodeProjectId host primary).
Proof.
  unfold ensureOpenCodeProjectId. cbv zeta.
  eapply ensures_bind; [apply ensures_any|]. intros existing _.
  destruct (isEmpty existing) eqn:E; simpl negb; cbv iota.
  - eapply ensures_bind; [apply ensures_any|]. intros rootsResult _.
    match goal with |- ensures _ _ (if isEmpty ?p then _ else _) =>
      destruct (isEmpty p) eqn:Ep end; [apply ensures_throw|].
    eapply ensures_bind; [apply ensures_any|]. intros _ _.
    eapply ensures_bind; [apply ensures_any|]. intros _ _.
    apply ensures_ret. apply isEmpty_false. exact Ep.
  - apply ensures_ret. apply isEmpty_false. exact E.
Qed.

Lemma failsCleanly_ensureOpenCodeProjectId primary :
  failsCleanly host isObservation (ensureOpenCodeProjectId host primary).
Proof.
  unfold ensureOpenCodeProjectId. cbv zeta.
  apply failsCleanly_bind.
  { apply emits_tryCatch; [|intro; apply emits_ret].
    apply emits_bind; [|intro; apply emits_ret].
    apply emits_performOutcome. exact I. }
  intro existing. destruct (negb (isEmpty existing)); [apply failsCleanly_ret|].
  apply failsCleanly_bind; [apply emits_runGitCommandOrThrow; reflexivity|].
  intro rootsResult.
  match goal with |- failsCleanly _ _ (if ?c then _ else _) => destruct c end;
    [apply failsCleanly_throw|].
  apply (returns_failsCleanly host isObservation (fun _ => True)).
  eapply returns_bind; [apply returns_orOnReject; [apply ensures_any | exact I]|].
  intros _ _.
  eapply returns_bind; [apply returns_orOnReject; [apply ensures_any | exact I]|].
  intros _ _. apply returns_ret. exact I.
Qed.

End ProjectId.

(** X10. [ensureOpenCodeProjectId] never returns an empty project ID, and
    when it rejects (the root commits cannot be listed, or there is none)
    it has only read: nothing was created or written. *)
Theorem ensureOpenCodeProjectId_outcomes (host : Host) (primary : str) (w : World host) :
  match ensureOpenCodeProjectId host primary w with
  | (Ok projectId, _, _) => projectId <> []
  | (Throw _, _, t) => Forall isObservation t
  end.
Proof.
  destruct (ensureOpenCodeProjectId host primary w) as [[[projectId|e] w1] t] eqn:E.
  - exact (ensures_ensureOpenCodeProjectId host primary w projectId w1 t E).
  - exact (failsCleanly_ensureOpenCodeProjectId host primary w e w1 t E).
Qed.

(** X11. [resolveWorktreeProjectContext] rejects a blank directory with
    the fixed message before doing anything; when it rejects it has only
    read; when it returns, the project ID is not empty and the worktree
    root is the directory [worktree/<project ID>] of the data path. *)
Theorem resolveWorktreeProjectContext_outcomes (host : Host) (directory : str) (w : World host) :
  (normalizeDirectoryPath host directory = [] ->
   resolveWorktreeProjectContext host directory w = (Throw (lit "Directory is required"), w, [])) /\
  match resolveWorktreeProjectContext host directory w with
  | (Ok context, _, _) =>
      projectID context <> [] /\
      worktreeRoot context
        = path_join host [getOpenCodeDataPath host; lit "worktree"; projectID context]
  | (Throw _, _, t) => Forall isObservation t
  end.
Proof.
  split.
  - intro E. unfold resolveWorktreeProjectContext. cbv zeta. rewrite E. reflexivity.
  - destruct (resolveWorktreeProjectContext host directory w) as [[[context|e] w1] t] eqn:E.
    + revert w context w1 t E.
      change (ensures host
                (fun context => projectID context <> [] /\
                   worktreeRoot context
                   = path_join host [getOpenCodeDataPath host; lit "worktree"; projectID context])
                (resolveWorktreeProjectContext host directory)).
      unfold resolveWorktreeProjectContext. cbv zeta.
      destruct (isEmpty (normalizeDirectoryPath host directory)); [apply ensures_throw|].
      eapply ensures_bind; [apply ensures_any|]. intros topResult _.
      eapply ensures_bind; [apply ensures_any|]. intros commonResult _.
      eapply ensures_bind; [apply ensures_ensureOpenCodeProjectId|]. intros projectID Hid.
      apply ensures_ret. split; [exact Hid | reflexivity].
    + revert w e w1 t E.
      change (failsCleanly host isObservation (resolveWorktreeProjectContext host directory)).
      unfold resolveWorktreeProjectContext. cbv zeta.
      destruct (isEmpty (normalizeDirectoryPath host directory)); [apply failsCleanly_throw|].
      apply failsCleanly_bind; [apply emits_runGitCommandOrThrow; reflexivity|].
      intro topResult.
      apply failsCleanly_bind; [apply emits_runGitCommandOrThrow; reflexivity|].
      intro commonResult.
      (* the project ID may write the marker, but not on the way to a rejection *)
      intros w e w2 t E. unfold bind in E.
      destruct (ensureOpenCodeProjectId host _ w) as [[[projectID|e'] w1] t1] eqn:Eid.
      * simpl in E. discriminate E.
      * injection E as _ _ <-.
        exact (failsCleanly_ensureOpenCodeProjectId host _ w e' w1 t1 Eid).
Qed.

(* ------------------------------------------------------------------ *)
(** ** The identity setter: what it does for a usable key *)

Section IdentityEvents.

Variable host : Host.
Variables directory userName userEmail : str.
Variable sshCommand : option str.

Let P := identityEvent directory userName userEmail sshCommand.

Lemma emits_configCommand key value :
  identitySetting userName userEmail sshCommand key value ->
  emits host P (doExecGit host [lit "config"; key; value] directory).
Proof.
  intro H. apply emits_perform. split; [reflexivity|]. exists key, value. split; [reflexivity | exact H].
Qed.

Lemma emits_setConfig repo key value :
  identitySetting userName userEmail sshCommand key value ->
  emits host P (setConfig host repo key value).
Proof. intro H. apply emits_performOutcome. exact H. Qed.

Lemma returns_doExecGit args cwd : returns host (fun _ => True) (doExecGit host args cwd).
Proof. intro w. rewrite doExecGit_run. eexists. eexists. eexists. split; [reflexivity | exact I]. Qed.

End IdentityEvents.

(** X12. For an absent, empty or denylist-free key, [setGitIdentity]
    always resolves with success, whatever the adapter and git answer
    (the exit codes of the [git config] fallback are not looked at), and
    all it does is to look the repository up, write [user.name],
    [user.email] and, for a non-empty key, the generated
    [core.sshCommand] through the adapter or through [git config] in the
    directory, and log. *)
Theorem setGitIdentity_usable_key (host : Host) (directory userName userEmail : str)
    (sshKey : option str) (w : World host) :
  usableKey sshKey ->
  exists w1 t,
    setGitIdentity host directory userName userEmail sshKey w = (Ok true, w1, t) /\
    Forall (identityEvent directory userName userEmail (sshCommandOf host sshKey)) t.
Proof.
  intro Hkey.
  set (P := identityEvent directory userName userEmail (sshCommandOf host sshKey)).
  assert (Hname : identitySetting userName userEmail (sshCommandOf host sshKey)
                    (lit "user.name") userName) by (left; split; reflexivity).
  assert (Hmail : identitySetting userName userEmail (sshCommandOf host sshKey)
                    (lit "user.email") userEmail) by (right; left; split; reflexivity).
  (* the command string *)
  assert (Hcommand :
    (match sshKey with
     | Some key => if truthy key
                   then bind (liftOutcome host (buildSshCommand host key))
                             (fun command => ret (Some command))
                   else ret None
     | None => ret None
     end) = (ret (sshCommandOf host sshKey) : M host (option str))).
  { destruct sshKey as [key|]; [|reflexivity]. simpl in Hkey. unfold sshCommandOf.
    destruct (truthy key); [|reflexivity].
    rewrite (buildSshCommand_safe host key Hkey). reflexivity. }
  assert (Hreturns : returns host (fun done => done = true)
                       (setGitIdentity host directory userName userEmail sshKey)).
  { unfold setGitIdentity. rewrite Hcommand.
    eapply returns_bind; [apply returns_perform|]. intros repo _.
    eapply returns_bind; [apply (returns_ret host (fun _ => True)); exact I|].
    intros command _.
    eapply returns_bind with (Q1 := fun _ => True).
    { destruct repo as [r|]; [|apply returns_ret; exact I].
      apply returns_tryCatch; [apply ensures_any|]. intro message.
      eapply returns_bind with (Q1 := fun _ => True); [|intros; apply returns_ret; exact I].
      intro w0. eexists. eexists. eexists. split; [reflexivity | exact I]. }
    intros [|] _; [apply returns_ret; reflexivity|].
    eapply returns_bind; [apply returns_doExecGit|]. intros _ _.
    eapply returns_bind; [apply returns_doExecGit|]. intros _ _.
    eapply returns_bind with (Q1 := fun _ => True); [|intros; apply returns_ret; reflexivity].
    destruct command; [|apply returns_ret; exact I].
    eapply returns_bind; [apply returns_doExecGit | intros; apply returns_ret; exact I]. }
  assert (Hemits : emits host P (setGitIdentity host directory userName userEmail sshKey)).
  { unfold setGitIdentity. rewrite Hcommand.
    apply emits_bind; [apply emits_perform; reflexivity|]. intro repo.
    apply (emits_bind_ensures host P (fun command => command = sshCommandOf host sshKey));
      [apply emits_ret | apply ensures_ret; reflexivity|].
    intros command ->.
    apply emits_bind.
    - destruct repo as [r|]; [|apply emits_ret].
      apply emits_tryCatch.
      + apply emits_bind; [apply emits_setConfig; exact Hname|]. intros _.
        apply emits_bind; [apply emits_setConfig; exact Hmail|]. intros _.
        apply emits_bind; [|intro; apply emits_ret].
        destruct (sshCommandOf host sshKey) as [command|] eqn:Ec; [|apply emits_ret].
        apply emits_setConfig. right. right. split; reflexivity.
      + intro message. apply emits_bind; [|intro; apply emits_ret].
        intro w1. repeat constructor.
    - intros [|]; [apply emits_ret|].
      apply emits_bind; [apply emits_configCommand; exact Hname|]. intros _.
      apply emits_bind; [apply emits_configCommand; exact Hmail|]. intros _.
      apply emits_bind; [|intro; apply emits_ret].
      destruct (sshCommandOf host sshKey) as [command|] eqn:Ec; [|apply emits_ret].
      apply emits_bind; [|intro; apply emits_ret].
      apply emits_configCommand. right. right. split; reflexivity. }
  destruct (Hreturns w) as [done [w1 [t [E ->]]]].
  exists w1, t. split; [exact E|].
  specialize (Hemits w). rewrite E in Hemits. exact Hemits.
Qed.

Lemma setGitIdentity_usable_key_witness :
  exists w1 t,
    setGitIdentity (Scripted.make Cases.notARepository) (lit "/tmp") (lit "Dev")
      (lit "dev@example.org") None 0 = (Ok true, w1, t) /\
    Forall (identityEvent (lit "/tmp") (lit "Dev") (lit "dev@example.org") None) t.
Proof.
  exact (setGitIdentity_usable_key (Scripted.make Cases.notARepository) (lit "/tmp") (lit "Dev")
           (lit "dev@example.org") None 0 I).
Defined.

(* ------------------------------------------------------------------ *)
(** ** Creation: a branch name that is taken *)

Section CandidateEvents.

Variable host : Host.
Variable P : Event -> Prop.
Hypothesis P_observation : forall ev, isObservation ev -> P ev.
Hypothesis P_random : P EvRandom.

Lemma emits_generateOpenCodeRandomName : emits host P (generateOpenCodeRandomName host).
Proof.
  unfold generateOpenCodeRandomName, pickRandom.
  apply emits_bind.
  { apply emits_bind; [apply emits_perform; exact P_random | intro; apply emits_ret]. }
  intro adjective. apply emits_bind; [|intro; apply emits_ret].
  apply emits_bind; [apply emits_perform; exact P_random | intro; apply emits_ret].
Qed.

Lemma emits_arrayFrom {A} (f : nat -> M host A) count :
  (forall i, emits host P (f i)) -> forall from, emits host P (arrayFrom host count from f).
Proof.
  intro Hf. induction count as [|count IH]; intro from; simpl; [apply emits_ret|].
  apply emits_bind; [apply Hf|]. intro x.
  apply emits_bind; [apply IH | intro; apply emits_ret].
Qed.

Lemma emits_resolveWorktreeNameCandidates baseName :
  emits host P (resolveWorktreeNameCandidates host baseName).
Proof.
  unfold resolveWorktreeNameCandidates. cbv zeta.
  destruct (isEmpty (slugWorktreeName baseName)); apply emits_arrayFrom.
  - intro i. apply emits_generateOpenCodeRandomName.
  - intros [|i]; [apply emits_ret|].
    apply emits_bind; [apply emits_generateOpenCodeRandomName | intro; apply emits_ret].
Qed.

Lemma emits_tryCandidates worktreeRoot explicitBranchName primary candidates :
  emits host P (tryCandidates host worktreeRoot explicitBranchName primary candidates).
Proof.
  induction candidates as [|name rest IH]; simpl; [apply emits_throw|].
  apply emits_bind; [apply emits_checkPathExists; exact P_observation|].
  intros [|]; [exact IH|].
  destruct (negb (isEmpty explicitBranchName)); [apply emits_ret|].
  apply emits_bind; [apply emits_runGitCommand; apply P_observation; reflexivity|].
  intro branchExists. destruct (success branchExists); [exact IH | apply emits_ret].
Qed.

Lemma emits_resolveCandidateDirectory worktreeRoot preferredName explicitBranchName primary :
  emits host P
    (resolveCandidateDirectory host worktreeRoot preferredName explicitBranchName primary).
Proof.
  unfold resolveCandidateDirectory.
  apply emits_bind; [apply emits_resolveWorktreeNameCandidates|].
  intro candidates. apply emits_tryCandidates.
Qed.

(** With an explicit branch name, that is the branch of the candidate. *)
Lemma ensures_tryCandidates worktreeRoot explicitBranchName primary candidates :
  explicitBranchName <> [] ->
  ensures host (fun candidate => candBranch candidate = explicitBranchName)
    (tryCandidates host worktreeRoot explicitBranchName primary candidates).
Proof.
  intro Hne. apply isEmpty_false in Hne.
  induction candidates as [|name rest IH]; simpl; [apply ensures_throw|].
  eapply ensures_bind; [apply ensures_any|]. intros [|] _; [exact IH|].
  rewrite Hne. simpl negb. cbv iota. apply ensures_ret. reflexivity.
Qed.

End CandidateEvents.

(** X13. In new mode, when the requested branch name (cleaned) is not
    empty and [git show-ref], asked in the primary worktree at the point
    where [createWorktree] asks it, finds the branch, [createWorktree]
    rejects; when it got as far as asking, the error is
    [Branch already exists: <name>].  Until then it has only resolved
    the context, made the worktree root, drawn candidate names and
    looked for a free directory: no [git worktree add], no fetch, no
    change of a remote, no write of the project record. *)
Theorem createWorktree_branch_taken (host : Host) (directory : str)
    (input : CreateGitWorktreePayload) (w : World host) :
  let requested := cleanBranchName (trim (optStr (branchName input))) in
  payloadMode input = ModeNew ->
  requested <> [] ->
  (forall context w3,
     creationCheckpoint host directory input w = Some (context, w3) ->
     exitCode (fst (execGit host (showRefArgs (lit "refs/heads/" ++ requested))
                      (primaryWorktree context) w3)) = 0%Z) ->
  exists e w4 t,
    createWorktree host directory input w = (Throw e, w4, t) /\
    Forall (creationPrelude host) t /\
    (creationCheckpoint host directory input w <> None ->
     e = lit "Branch already exists: " ++ requested).
Proof.
  intros requested Hmode Hne Htaken.
  set (P := creationPrelude host).
  assert (P_obs : forall ev, isObservation ev -> P ev) by (intros ev H; left; left; exact H).
  assert (P_ctx : forall ev, contextEvent host ev -> P ev) by (intros ev H; left; exact H).
  unfold creationCheckpoint in *. fold requested in Htaken. fold requested.
  unfold createWorktree. cbv zeta. rewrite Hmode. fold requested.
  (* the context *)
  assert (H1 : Forall P (snd (resolveWorktreeProjectContext host directory w))).
  { apply emits_resolveWorktreeProjectContext; [exact P_obs|].
    intro primary. apply emits_ensureOpenCodeProjectId; [exact P_obs|].
    intros ev H. apply P_ctx. right. exact H. }
  destruct (resolveWorktreeProjectContext host directory w) as [[[context|e1] w1] t1] eqn:E1;
    cbn [snd] in H1.
  2:{ exists e1, w1, t1. split; [apply bind_throw; exact E1|].
      split; [exact H1 | intro K; contradiction K; reflexivity]. }
  (* the worktree root *)
  assert (E2 : mkdir host (worktreeRoot context) w1
               = (fst (fs_mkdir host (worktreeRoot context) w1),
                  snd (fs_mkdir host (worktreeRoot context) w1),
                  [EvMkdir (worktreeRoot context)])).
  { unfold mkdir, performOutcome. destruct (fs_mkdir host (worktreeRoot context) w1).
    reflexivity. }
  assert (P2 : P (EvMkdir (worktreeRoot context))) by (right; right; eexists; reflexivity).
  destruct (fs_mkdir host (worktreeRoot context) w1) as [[u|e2] w2]; cbn [fst snd] in E2.
  2:{ exists e2, w2, (t1 ++ [EvMkdir (worktreeRoot context)]). split; [|split].
      - eapply bind_step; [exact E1|]. apply bind_throw. exact E2.
      - apply Forall_app. split; [exact H1 | constructor; [exact P2 | constructor]].
      - intro K. contradiction K. reflexivity. }
  (* the candidate *)
  set (preferredName := trim (orElse (optStr (worktreeName input)) (optStr (name input)))) in *.
  assert (H3 : Forall P (snd (resolveCandidateDirectory host (worktreeRoot context)
                                preferredName requested (primaryWorktree context) w2))).
  { apply emits_resolveCandidateDirectory; [exact P_obs | right; left; reflexivity]. }
  assert (B3 : ensures host (fun candidate => candBranch candidate = requested)
                 (resolveCandidateDirectory host (worktreeRoot context)
                    preferredName requested (primaryWorktree context))).
  { unfold resolveCandidateDirectory. eapply ensures_bind; [apply ensures_any|].
    intros candidates _. apply ensures_tryCandidates. exact Hne. }
  destruct (resolveCandidateDirectory host (worktreeRoot context) preferredName requested
              (primaryWorktree context) w2) as [[[candidate|e3] w3] t3] eqn:E3;
    cbn [snd] in H3.
  2:{ exists e3, w3, (t1 ++ [EvMkdir (worktreeRoot context)] ++ t3). split; [|split].
      - eapply bind_step; [exact E1|].
        eapply bind_step; [exact E2|]. apply bind_throw. exact E3.
      - apply Forall_app. split; [exact H1|]. apply Forall_app.
        split; [constructor; [exact P2 | constructor] | exact H3].
      - intro K. contradiction K. reflexivity. }
  (* the check *)
  specialize (B3 w2 candidate w3 t3 E3). cbv beta in B3.
  specialize (Htaken context w3 eq_refl).
  destruct (runGitCommand_run host (primaryWorktree context)
              (showRefArgs (lit "refs/heads/" ++ requested)) w3)
    as [branchExists [E4 [Hs _]]].
  rewrite Htaken in Hs. cbn [Z.eqb] in Hs.
  exists (lit "Branch already exists: " ++ requested).
  eexists. eexists. split; [|split].
  - eapply bind_step; [exact E1|].
    eapply bind_step; [exact E2|].
    eapply bind_step; [exact E3|].
    apply bind_throw. rewrite B3.
    apply isEmpty_false in Hne. rewrite Hne.
    eapply bind_step; [exact E4|]. rewrite Hs. reflexivity.
  - apply Forall_app. split; [exact H1|]. apply Forall_app.
    split; [constructor; [exact P2 | constructor]|].
    apply Forall_app. split; [exact H3|]. rewrite app_nil_r.
    constructor; [|constructor]. apply P_obs. reflexivity.
  - intros _. reflexivity.
Qed.

Lemma createWorktree_branch_taken_witness :
  exists w1 t,
    createWorktree (Scripted.make Scripted.repoScript) (lit "/repo") Cases.mainRequest 0
      = (Throw (lit "Branch already exists: main"), w1, t) /\
    Forall (creationPrelude (Scripted.make Scripted.repoScript)) t.
Proof.
  destruct (createWorktree_branch_taken (Scripted.make Scripted.repoScript) (lit "/repo")
              Cases.mainRequest 0) as [e [w1 [t [Hrun [Hevents Hmessage]]]]].
  - reflexivity.
  - discriminate.
  - intros context w3 _. reflexivity.
  - exists w1, t. split; [|exact Hevents].
    rewrite Hrun. rewrite Hmessage; [reflexivity|]. vm_compute. discriminate.
Defined.

(* ------------------------------------------------------------------ *)
(** ** Branches in use *)

Section BranchInUse.

Lemma find_map {A B} (f : B -> bool) (g : A -> B) l :
  find f (map g l) = option_map g (find (fun x => f (g x)) l).
Proof.
  induction l as [|x l IH]; simpl; [reflexivity|].
  destruct (f (g x)); [reflexivity | exact IH].
Qed.

Lemma find_agree {A} (f g : A -> bool) l :
  Forall (fun x => f x = g x) l -> find f l = find g l.
Proof.
  induction 1 as [|x l Hx _ IH]; simpl; [reflexivity|].
  rewrite Hx, IH. reflexivity.
Qed.

Lemma cleanBranchName_heads name : cleanBranchName (lit "refs/heads/" ++ name) = name.
Proof. reflexivity. Qed.

(** On the entry of a well-formed record the test of [findBranchInUse]
    is: the cleaned branch ref is the name. *)
Lemma entryUsesBranch_record name r :
  name <> [] -> wellFormedRecord r ->
  entryUsesBranch (lit "refs/heads/" ++ name) (cleanBranchName (lit "refs/heads/" ++ name))
    (entryOfRecord r)
  = checkedOutOn name r.
Proof.
  intros Hne [_ [_ Hb]]. rewrite cleanBranchName_heads.
  unfold entryUsesBranch, entryOfRecord, checkedOutOn. cbn [branchRef entryBranch].
  destruct (recordBranch r) as [ref|].
  - destruct Hb as [[Ht Hrne] _]. cbn [optStr]. rewrite Ht.
    unfold orElse. apply isEmpty_false in Hrne. rewrite Hrne.
    destruct (str_eqb ref (lit "refs/heads/" ++ name)) eqn:E; [|reflexivity].
    apply str_eqb_eq in E. subst ref. rewrite cleanBranchName_heads.
    rewrite str_eqb_refl. reflexivity.
  - cbn [optStr]. change (trim []) with (@nil ascii). cbn [orElse isEmpty cleanBranchName].
    destruct name; [contradiction | reflexivity].
Qed.

End BranchInUse.

(** X14. Over the listing that git prints for a list of worktrees,
    [findBranchInUse] with a non-empty name runs that one command and
    returns the entry of the first worktree whose branch ref, cleaned of
    [refs/heads/], [heads/] or [refs/], is the name, and nothing when
    there is none. *)
Theorem findBranchInUse_listing (host : Host) (primary name : str) (w : World host)
    (records : list WorktreeRecord) :
  name <> [] ->
  exitCode (fst (execGit host worktreeListArgs primary w)) = 0%Z ->
  stdout (fst (execGit host worktreeListArgs primary w)) = porcelainOf records ->
  Forall wellFormedRecord records ->
  findBranchInUse host primary name w
  = (Ok (option_map entryOfRecord (find (checkedOutOn name) records)),
     snd (execGit host worktreeListArgs primary w),
     [EvExecGit worktreeListArgs primary]).
Proof.
  intros Hne Hexit Hout Hrecords. unfold findBranchInUse.
  apply isEmpty_false in Hne as Hempty. rewrite Hempty.
  unfold listWorktreeEntries, worktreeListArgs in *.
  destruct (runGitCommandOrThrow_run host primary (map lit ["worktree"; "list"; "--porcelain"]%string)
              (lit "Failed to list git worktrees") w) as [outcome [E Hout']].
  destruct outcome as [result|e]; [|contradiction].
  destruct Hout' as [_ Hstdout].
  eapply eq_trans.
  - eapply bind_step; [eapply bind_step; [exact E | reflexivity] | reflexivity].
  - rewrite Hstdout, Hout, parse_porcelainOf by exact Hrecords.
    rewrite find_map.
    rewrite (find_agree _ (checkedOutOn name) records); [reflexivity|].
    eapply Forall_impl; [|exact Hrecords].
    intros r Hr. apply entryUsesBranch_record; assumption.
Qed.

Lemma findBranchInUse_listing_witness :
  findBranchInUse (Scripted.make Examples.listingRepository) (lit "/repo") (lit "main") 0
  = (Ok (Some {| worktree := lit "/repo"; head := Some (lit "1111111");
                 branchRef := Some (lit "refs/heads/main");
                 entryBranch := Some (lit "main") |}),
     0, [EvExecGit worktreeListArgs (lit "/repo")]).
Proof.
  apply (findBranchInUse_listing (Scripted.make Examples.listingRepository)
           (lit "/repo") (lit "main") 0 twoWorktrees).
  - discriminate.
  - reflexivity.
  - reflexivity.
  - repeat constructor; simpl; try discriminate; intuition discriminate.
Defined.

(* ------------------------------------------------------------------ *)
(** ** Validation: the shape of the result *)

Section ValidationShape.

Variable host : Host.

Ltac check_errors :=
  repeat (apply Forall_cons; [unfold checkError; simpl; tauto|]); apply Forall_nil.

Lemma remoteCheckErrors_codes check remoteLabel remoteRefLabel :
  Forall checkError (remoteCheckErrors check remoteLabel remoteRefLabel).
Proof.
  unfold remoteCheckErrors.
  destruct (negb (checkSuccess check)); [check_errors|].
  destruct (negb (found check)); check_errors.
Qed.

Lemma ensures_validateStartRef context startRef ensureRemoteName ensureRemoteUrl parsedRemoteRef :
  ensures host (Forall checkError)
    (validateStartRef host context startRef ensureRemoteName ensureRemoteUrl parsedRemoteRef).
Proof.
  unfold validateStartRef.
  destruct (truthy startRef && negb (str_eqb startRef (lit "HEAD")));
    [|apply ensures_ret; constructor].
  destruct parsedRemoteRef as [parsed|].
  - destruct (truthy ensureRemoteName && truthy ensureRemoteUrl
              && str_eqb ensureRemoteName (remote parsed));
      (eapply ensures_bind; [apply ensures_any|]; intros remoteCheck _;
       apply ensures_ret; apply remoteCheckErrors_codes).
  - eapply ensures_bind; [apply ensures_any|]. intros startRefExists _.
    apply ensures_ret. destruct (negb (success startRefExists)); check_errors.
Qed.

Lemma ensures_validateNew context preferredBranchName startRef ensureRemoteName ensureRemoteUrl :
  ensures host (fun part => Forall checkError (fst (fst part)))
    (validateNew host context preferredBranchName startRef ensureRemoteName ensureRemoteUrl).
Proof.
  unfold validateNew.
  eapply ensures_bind with (Q1 := fun part => Forall checkError (fst part)).
  { destruct (truthy preferredBranchName); [|apply ensures_ret; constructor].
    eapply ensures_bind; [apply ensures_any|]. intros exists_ _.
    apply ensures_ret. simpl. destruct (success exists_); check_errors. }
  intros [errors1 localBranch] H1. simpl in H1.
  eapply ensures_bind; [apply ensures_validateStartRef|]. intros errors2 H2.
  apply ensures_ret. simpl. apply Forall_app. split; assumption.
Qed.

Lemma ensures_validateInUse context localBranch :
  ensures host (Forall checkError) (validateInUse host context localBranch).
Proof.
  unfold validateInUse. destruct (truthy localBranch); [|apply ensures_ret; constructor].
  eapply ensures_bind; [apply ensures_any|]. intros [entry|] _; apply ensures_ret; check_errors.
Qed.

Lemma ensures_validateUpstream context input inferredUpstream ensureRemoteName :
  ensures host (Forall checkError)
    (validateUpstream host context input inferredUpstream ensureRemoteName).
Proof.
  unfold validateUpstream. destruct (optBool (setUpstream input)); [|apply ensures_ret; constructor].
  cbv zeta.
  match goal with |- ensures _ _ (if ?c then _ else _) => destruct c end;
    [apply ensures_ret; check_errors|].
  eapply ensures_bind; [apply ensures_any|]. intros remoteExists _. apply ensures_ret.
  match goal with |- Forall _ (if ?c then _ else _) => destruct c end; check_errors.
Qed.

Lemma remoteConfigErrors_codes ensureRemoteName ensureRemoteUrl :
  Forall checkError (remoteConfigErrors ensureRemoteName ensureRemoteUrl).
Proof.
  unfold remoteConfigErrors.
  match goal with |- Forall _ (if ?c then _ else _) => destruct c end; check_errors.
Qed.

(** With only one of the remote name and URL, the pairing check gives an
    error. *)
Lemma remoteConfigErrors_unpaired input :
  unpairedRemote input ->
  remoteConfigErrors (trim (optStr (ensureRemoteName input)))
                     (trim (optStr (ensureRemoteUrl input))) <> [].
Proof.
  unfold remoteConfigErrors, truthy.
  intros [[Hn Hu]|[Hn Hu]].
  - rewrite Hu. apply isEmpty_false in Hn. rewrite Hn. discriminate.
  - rewrite Hn. apply isEmpty_false in Hu. rewrite Hu. discriminate.
Qed.

(** What the body of the validation returns when it returns. *)
Lemma ensures_validateWorktreeCreateBody directory input :
  ensures host
    (fun r => coherentResult (payloadMode input) r /\ (unpairedRemote input -> ok r = false))
    (validateWorktreeCreateBody host directory input).
Proof.
  unfold validateWorktreeCreateBody. cbv zeta.
  eapply ensures_bind; [apply ensures_any|]. intros context _.
  eapply ensures_bind with (Q1 := fun part => Forall checkError (fst (fst part))).
  { destruct (payloadMode input).
    - apply ensures_validateNew.
    - apply ensures_tryCatch.
      + eapply ensures_bind; [apply ensures_any|]. intros r _. apply ensures_ret. constructor.
      + intro message. apply ensures_ret. simpl. check_errors. }
  intros [[errors1 localBranch] inferredUpstream] H1. simpl in H1.
  eapply ensures_bind; [apply ensures_validateInUse|]. intros errors2 H2.
  eapply ensures_bind; [apply ensures_validateUpstream|]. intros errors4 H4.
  apply ensures_ret.
  set (errors3 := remoteConfigErrors _ _).
  assert (H3 : Forall checkError errors3) by apply remoteConfigErrors_codes.
  split; [split|].
  - cbn [ok errors]. destruct (errors1 ++ errors2 ++ errors3 ++ errors4); split; intro H;
      try reflexivity; discriminate H.
  - cbn [resolved errors]. split; [reflexivity|].
    repeat (apply Forall_app; split); assumption.
  - intro Hun. cbn [ok].
    pose proof (remoteConfigErrors_unpaired input Hun) as Hne. fold errors3 in Hne.
    destruct (errors1 ++ errors2 ++ errors3 ++ errors4) eqn:E; [|reflexivity].
    apply app_eq_nil in E. destruct E as [_ E].
    apply app_eq_nil in E. destruct E as [_ E].
    apply app_eq_nil in E. destruct E as [E _]. contradiction.
Qed.

Lemma returns_validateWorktreeCreate directory input :
  returns host
    (fun r => coherentResult (payloadMode input) r /\ (unpairedRemote input -> ok r = false))
    (validateWorktreeCreate host directory input).
Proof.
  unfold validateWorktreeCreate. apply returns_tryCatch.
  - apply ensures_validateWorktreeCreateBody.
  - intro message. apply returns_ret. split; [split|].
    + cbn [ok errors]. split; intro H; discriminate H.
    + cbn [resolved errors]. exists message. reflexivity.
    + intros _. reflexivity.
Qed.

End ValidationShape.

(** X15. Whatever the host answers, [validateWorktreeCreate] resolves
    with a result that is [ok] exactly when it has no error, and that
    either carries the requested mode and only errors of the checks
    ([branch_not_found], [branch_exists], [start_ref_not_found],
    [remote_unreachable], [branch_in_use], [invalid_remote_config],
    [upstream_incomplete], [remote_not_found]), or carries nothing
    resolved and the single error [validation_failed]. *)
Theorem validateWorktreeCreate_result (host : Host) (directory : str)
    (input : CreateGitWorktreePayload) (w : World host) :
  exists result w1 t,
    validateWorktreeCreate host directory input w = (Ok result, w1, t) /\
    coherentResult (payloadMode input) result.
Proof.
  destruct (returns_validateWorktreeCreate host directory input w)
    as [result [w1 [t [E [H _]]]]].
  exists result, w1, t. split; [exact E | exact H].
Qed.

(** X16. A request that gives only one of [ensureRemoteName] and
    [ensureRemoteUrl] is never validated as [ok], whatever else it asks
    for and whatever the host answers. *)
Theorem validateWorktreeCreate_unpaired_remote (host : Host) (directory : str)
    (input : CreateGitWorktreePayload) (w : World host) :
  unpairedRemote input ->
  exists result w1 t,
    validateWorktreeCreate host directory input w = (Ok result, w1, t) /\
    ok result = false.
Proof.
  intro Hun.
  destruct (returns_validateWorktreeCreate host directory input w)
    as [result [w1 [t [E [_ H]]]]].
  exists result, w1, t. split; [exact E | exact (H Hun)].
Qed.

Lemma validateWorktreeCreate_unpaired_remote_witness :
  exists result w1 t,
    validateWorktreeCreate (Scripted.make Scripted.repoScript) (lit "/repo")
      Examples.unpairedRequest 0 = (Ok result, w1, t) /\
    ok result = false.
Proof.
  apply (validateWorktreeCreate_unpaired_remote (Scripted.make Scripted.repoScript)
           (lit "/repo") Examples.unpairedRequest 0).
  left. split; [discriminate | reflexivity].
Defined.

(* ------------------------------------------------------------------ *)
(** ** Resuming a merge or a rebase *)

(** X17. [continueRebase] runs [git rebase --continue] and
    [continueMerge] runs [git commit --no-edit]; each resolves with
    success on exit code 0, resolves with the conflict outcome (and the
    conflict files of [git status --porcelain]) on a failure whose output
    holds, in any case of letters, "conflict", "needs merge" or
    "unmerged", and otherwise rejects with stderr, or with its fixed
    message when stderr is empty. *)
Theorem continue_outcomes (host : Host) (directory : str) (w : World host) :
  (let args := [lit "rebase"; lit "--continue"] in
   let result := fst (execGit host args directory w) in
   let w1 := snd (execGit host args directory w) in
   (exitCode result = 0%Z ->
    continueRebase host directory w = (Ok completed, w1, [EvExecGit args directory])) /\
   (exitCode result <> 0%Z -> continueIsConflict result = true ->
    continueRebase host directory w
      = (Ok (conflicted
               (conflictFilesOf (stdout (fst (execGit host porcelainArgs directory w1))))),
         snd (execGit host porcelainArgs directory w1),
         [EvExecGit args directory; EvExecGit porcelainArgs directory])) /\
   (exitCode result <> 0%Z -> continueIsConflict result = false ->
    continueRebase host directory w
      = (Throw (orElse (stderr result) (lit "Continue rebase failed")), w1,
         [EvExecGit args directory]))) /\
  (let args := [lit "commit"; lit "--no-edit"] in
   let result := fst (execGit host args directory w) in
   let w1 := snd (execGit host args directory w) in
   (exitCode result = 0%Z ->
    continueMerge host directory w = (Ok completed, w1, [EvExecGit args directory])) /\
   (exitCode result <> 0%Z -> continueIsConflict result = true ->
    continueMerge host directory w
      = (Ok (conflicted
               (conflictFilesOf (stdout (fst (execGit host porcelainArgs directory w1))))),
         snd (execGit host porcelainArgs directory w1),
         [EvExecGit args directory; EvExecGit porcelainArgs directory])) /\
   (exitCode result <> 0%Z -> continueIsConflict result = false ->
    continueMerge host directory w
      = (Throw (orElse (stderr result) (lit "Continue merge failed")), w1,
         [EvExecGit args directory]))).
Proof.
  split.
  - exact (operation_outcomes host continueIsConflict (lit "Continue rebase failed")
             [lit "rebase"; lit "--continue"] directory w).
  - exact (operation_outcomes host continueIsConflict (lit "Continue merge failed")
             [lit "commit"; lit "--no-edit"] directory w).
Qed.

(* ------------------------------------------------------------------ *)
(** ** The list of remotes *)

Section RemoteLines.

Import Remotes.

Lemma takeWhile_run p a c t :
  Forall (fun x => p x = true) a -> p c = false -> takeWhile p (a ++ c :: t) = a.
Proof.
  induction 1 as [|x a Hx _ IH]; intro Hc; simpl; [rewrite Hc; reflexivity|].
  rewrite Hx. f_equal. apply IH. exact Hc.
Qed.

Lemma dropWhile_run p a c t :
  Forall (fun x => p x = true) a -> p c = false -> dropWhile p (a ++ c :: t) = c :: t.
Proof.
  induction 1 as [|x a Hx _ IH]; intro Hc; simpl; [rewrite Hc; reflexivity|].
  rewrite Hx. apply IH. exact Hc.
Qed.

Lemma token_run s : token s -> Forall (fun x => notSpace x = true) s.
Proof.
  intros [_ H]. eapply Forall_impl; [|exact H].
  intros c Hc. unfold notSpace. rewrite Hc. reflexivity.
Qed.

Lemma token_nonempty s : token s -> isEmpty s = false.
Proof. intros [H _]. apply isEmpty_false. exact H. Qed.

Lemma token_starts_visible s rest : token s -> dropWhile isSpace (s ++ rest) = s ++ rest.
Proof.
  intros [Hne Hvis]. destruct s as [|c s']; [contradiction|].
  inversion Hvis as [|? ? Hc _]; subst. simpl. rewrite Hc. reflexivity.
Qed.

(** A line of the listing matches the pattern. *)
Lemma matchRemoteLine_line n u kind :
  token n -> token u ->
  matchRemoteLine (n ++ [ascii_of_nat 9] ++ u ++ " "%char :: kindText kind) = Some (n, u, kind).
Proof.
  intros Hn Hu. unfold matchRemoteLine.
  change (n ++ [ascii_of_nat 9] ++ u ++ " "%char :: kindText kind)
    with (n ++ ascii_of_nat 9 :: (u ++ " "%char :: kindText kind)).
  rewrite (takeWhile_run notSpace n) by (first [apply token_run; assumption | reflexivity]).
  rewrite (dropWhile_run notSpace n) by (first [apply token_run; assumption | reflexivity]).
  change (dropWhile isSpace (ascii_of_nat 9 :: ?x)) with (dropWhile isSpace x).
  rewrite (token_starts_visible u) by exact Hu.
  rewrite (takeWhile_run notSpace u) by (first [apply token_run; assumption | reflexivity]).
  rewrite (dropWhile_run notSpace u) by (first [apply token_run; assumption | reflexivity]).
  rewrite (token_nonempty n Hn), (token_nonempty u Hu).
  replace (length (u ++ " "%char :: kindText kind)
           =? length (ascii_of_nat 9 :: u ++ " "%char :: kindText kind)) with false
    by (symmetry; apply Nat.eqb_neq; simpl; lia).
  destruct kind; reflexivity.
Qed.

Lemma updateRemote_names remoteName kind url remoteMap :
  map name (updateRemote remoteName kind url remoteMap) = map name remoteMap.
Proof.
  induction remoteMap as [|r rest IH]; [reflexivity|]. simpl.
  destruct (str_eqb (name r) remoteName); simpl; [destruct kind; reflexivity|].
  rewrite IH. reflexivity.
Qed.

Lemma hasRemote_In remoteName remoteMap :
  hasRemote remoteName remoteMap = true <-> In remoteName (map name remoteMap).
Proof.
  unfold hasRemote. rewrite existsb_exists, in_map_iff. split.
  - intros [r [Hin E]]. apply str_eqb_eq in E. exists r. split; assumption.
  - intros [r [E Hin]]. exists r. split; [exact Hin | apply str_eqb_eq; exact E].
Qed.

Lemma remoteLineStep_names remoteMap line :
  NoDup (map name remoteMap) -> NoDup (map name (remoteLineStep remoteMap line)).
Proof.
  intro H. unfold remoteLineStep.
  destruct (matchRemoteLine line) as [[[remoteName url] kind]|]; [|exact H].
  rewrite updateRemote_names.
  destruct (hasRemote remoteName remoteMap) eqn:E; [exact H|].
  rewrite map_app. simpl.
  apply NoDup_Add with (a := remoteName) (l := map name remoteMap).
  - clear. induction (map name remoteMap) as [|x l IH]; simpl; constructor. exact IH.
  - split; [exact H|]. intro K. apply hasRemote_In in K. rewrite K in E. discriminate E.
Qed.

Lemma parseRemotes_names out : NoDup (map name (parseRemotes out)).
Proof.
  unfold parseRemotes.
  assert (K : forall lines remoteMap, NoDup (map name remoteMap) ->
                NoDup (map name (fold_left remoteLineStep lines remoteMap))).
  { induction lines as [|line rest IH]; intros remoteMap H; simpl; [exact H|].
    apply IH. apply remoteLineStep_names. exact H. }
  apply K. constructor.
Qed.

(** The fetch line of a remote that is not in the map yet appends it, and
    its push line completes it. *)
Lemma updateRemote_last remoteMap r kind url :
  ~ In (name r) (map name remoteMap) ->
  updateRemote (name r) kind url (remoteMap ++ [r]) = remoteMap ++ [setUrl kind url r].
Proof.
  induction remoteMap as [|x rest IH]; intro H; simpl.
  - rewrite str_eqb_refl. reflexivity.
  - destruct (str_eqb (name x) (name r)) eqn:E.
    + exfalso. apply H. left. apply str_eqb_eq. exact E.
    + f_equal. apply IH. intro K. apply H. right. exact K.
Qed.

Lemma remoteLines_step remoteMap r :
  wellFormedRemote r -> ~ In (name r) (map name remoteMap) ->
  fold_left remoteLineStep (remoteLines r) remoteMap = remoteMap ++ [r].
Proof.
  intros [Hn [Hf Hp]] Hfresh. unfold remoteLines. cbn [fold_left].
  assert (Hfetch : remoteLineStep remoteMap
                     (name r ++ [ascii_of_nat 9] ++ fetchUrl r ++ lit " (fetch)")
                   = remoteMap ++ [{| name := name r; fetchUrl := fetchUrl r; pushUrl := [] |}]).
  { unfold remoteLineStep. change (lit " (fetch)") with (" "%char :: kindText Fetch).
    rewrite (matchRemoteLine_line (name r) (fetchUrl r) Fetch Hn Hf).
    destruct (hasRemote (name r) remoteMap) eqn:E;
      [apply hasRemote_In in E; contradiction|].
    exact (updateRemote_last remoteMap
             {| name := name r; fetchUrl := []; pushUrl := [] |} Fetch (fetchUrl r) Hfresh). }
  rewrite Hfetch. unfold remoteLineStep. change (lit " (push)") with (" "%char :: kindText Push).
  rewrite (matchRemoteLine_line (name r) (pushUrl r) Push Hn Hp).
  replace (hasRemote (name r) (remoteMap ++ [_])) with true.
  - eapply eq_trans;
      [exact (updateRemote_last remoteMap
                {| name := name r; fetchUrl := fetchUrl r; pushUrl := [] |} Push (pushUrl r)
                Hfresh)|].
    destruct r; reflexivity.
  - symmetry. apply hasRemote_In. rewrite map_app. apply in_or_app. right. left. reflexivity.
Qed.

Lemma remoteLines_one_line r :
  wellFormedRemote r ->
  Forall (fun l => ~ In (ascii_of_nat 10) l /\ l <> []) (remoteLines r).
Proof.
  assert (T : forall s, token s -> ~ In (ascii_of_nat 10) s).
  { intros s [_ Hvis] Hin. unfold visible in Hvis. rewrite Forall_forall in Hvis.
    specialize (Hvis _ Hin). discriminate Hvis. }
  intros [Hn [Hf Hp]]. unfold remoteLines.
  repeat constructor.
  - intro K. rewrite !in_app_iff in K. destruct K as [K|[K|[K|K]]];
      [exact (T _ Hn K) | simpl in K; intuition discriminate
      | exact (T _ Hf K) | simpl in K; intuition discriminate].
  - destruct Hn as [Hne _]. destruct (name r); [contradiction | discriminate].
  - intro K. rewrite !in_app_iff in K. destruct K as [K|[K|[K|K]]];
      [exact (T _ Hn K) | simpl in K; intuition discriminate
      | exact (T _ Hp K) | simpl in K; intuition discriminate].
  - destruct Hn as [Hne _]. destruct (name r); [contradiction | discriminate].
Qed.

Lemma filterNonEmpty_app a b : filterNonEmpty (a ++ b) = filterNonEmpty a ++ filterNonEmpty b.
Proof. apply filter_app. Qed.

Lemma filterNonEmpty_keeps l : Forall (fun s => s <> []) l -> filterNonEmpty l = l.
Proof.
  induction 1 as [|s l Hs _ IH]; [reflexivity|]. simpl.
  apply isEmpty_false in Hs. rewrite Hs. simpl. f_equal. exact IH.
Qed.

Lemma parse_remotesText remotes : forall remoteMap,
  Forall wellFormedRemote remotes ->
  NoDup (map name remoteMap ++ map name remotes) ->
  fold_left remoteLineStep (flat_map remoteLines remotes) remoteMap = remoteMap ++ remotes.
Proof.
  induction remotes as [|r rest IH]; intros remoteMap Hwf Hnodup.
  - simpl. rewrite app_nil_r. reflexivity.
  - inversion Hwf as [|? ? Hr Hrest]; subst.
    change (flat_map remoteLines (r :: rest)) with (remoteLines r ++ flat_map remoteLines rest).
    rewrite fold_left_app. rewrite remoteLines_step; [|exact Hr|].
    + rewrite IH; [rewrite <- app_assoc; reflexivity | exact Hrest|].
      rewrite map_app. simpl. rewrite <- app_assoc. exact Hnodup.
    + simpl in Hnodup. apply NoDup_remove_2 in Hnodup.
      intro K. apply Hnodup. apply in_or_app. left. exact K.
Qed.

End RemoteLines.

(** X18. [getRemotes] never rejects; when [git remote -v] fails it gives
    no remote, and otherwise remotes whose names are pairwise distinct,
    whatever git printed. *)
Theorem getRemotes_distinct (host : Host) (directory : str) (w : World host) :
  exists remotes,
    Remotes.getRemotes host directory w
      = (Ok remotes, snd (execGit host remoteArgs directory w), [EvExecGit remoteArgs directory]) /\
    NoDup (map Remotes.name remotes) /\
    (exitCode (fst (execGit host remoteArgs directory w)) <> 0%Z -> remotes = []).
Proof.
  unfold Remotes.getRemotes, remoteArgs.
  destruct (execGit host [lit "remote"; lit "-v"] directory w) as [result w1] eqn:E.
  simpl fst; simpl snd.
  destruct (exitCode result =? 0)%Z eqn:Ex.
  - exists (Remotes.parseRemotes (stdout result)). split; [|split].
    + unfold bind. rewrite doExecGit_run, E. simpl. rewrite Ex. reflexivity.
    + apply parseRemotes_names.
    + intro H. apply Z.eqb_eq in Ex. contradiction.
  - exists []. split; [|split].
    + unfold bind. rewrite doExecGit_run, E. simpl. rewrite Ex. reflexivity.
    + constructor.
    + reflexivity.
Qed.

(** X19. Over the listing that git prints for remotes of distinct names
    (per remote a fetch line and a push line, [name TAB url (kind)]),
    [getRemotes] gives these remotes back, in order, each with its fetch
    and its push URL. *)
Theorem getRemotes_round_trip (host : Host) (directory : str) (w : World host)
    (remotes : list Remotes.GitRemote) :
  exitCode (fst (execGit host remoteArgs directory w)) = 0%Z ->
  stdout (fst (execGit host remoteArgs directory w)) = remotesText remotes ->
  Forall wellFormedRemote remotes ->
  NoDup (map Remotes.name remotes) ->
  Remotes.getRemotes host directory w
    = (Ok remotes, snd (execGit host remoteArgs directory w), [EvExecGit remoteArgs directory]).
Proof.
  intros Hexit Hout Hwf Hnodup.
  assert (Hparse : Remotes.parseRemotes (remotesText remotes) = remotes).
  { unfold Remotes.parseRemotes, remotesText.
    assert (Hlines : Forall (fun l => ~ In (ascii_of_nat 10) l /\ l <> [])
                            (flat_map remoteLines remotes)).
    { apply Forall_flat_map. eapply Forall_impl; [|exact Hwf]. apply remoteLines_one_line. }
    rewrite <- (app_nil_r (flat_map (fun line => line ++ [ascii_of_nat 10]) _)).
    rewrite split_lines by (eapply Forall_impl; [|exact Hlines]; intros l H; apply H).
    rewrite filterNonEmpty_app.
    rewrite filterNonEmpty_keeps by (eapply Forall_impl; [|exact Hlines]; intros l H; apply H).
    simpl filterNonEmpty. rewrite app_nil_r.
    apply (parse_remotesText remotes []); assumption. }
  unfold Remotes.getRemotes, remoteArgs in *.
  eapply eq_trans.
  - eapply bind_step; [apply doExecGit_run|].
    rewrite Hexit, Hout, Hparse. change (negb (0 =? 0)%Z) with false. cbv iota. reflexivity.
  - reflexivity.
Qed.

Lemma getRemotes_round_trip_witness :
  Remotes.getRemotes (Scripted.make Examples.remotesRepository) (lit "/repo") 0
    = (Ok Examples.twoRemotes, 0, [EvExecGit remoteArgs (lit "/repo")]).
Proof.
  assert (V : forall s, s <> [] -> forallb (fun c => negb (isSpace c)) s = true -> token s).
  { intros s Hne H. split; [exact Hne|]. apply Forall_forall. intros c Hc.
    rewrite forallb_forall in H. apply negb_true_iff. apply H. exact Hc. }
  apply (getRemotes_round_trip (Scripted.make Examples.remotesRepository) (lit "/repo") 0
           Examples.twoRemotes).
  - reflexivity.
  - reflexivity.
  - repeat constructor; apply V; (discriminate || reflexivity).
  - repeat constructor; simpl; intuition discriminate.
Defined.

(* ------------------------------------------------------------------ *)
(** ** Pushing: the options *)

Section PushOptions.

Import Push.

Lemma existsb_app_str flag a b :
  existsb (str_eqb flag) (a ++ b) = existsb (str_eqb flag) a || existsb (str_eqb flag) b.
Proof. apply existsb_app. Qed.

(** The arguments of an object of flags are keys of the object. *)
Lemma flag_args_are_keys entries flag :
  flagsOnly entries ->
  In flag (flat_map optionArgs entries) -> In flag (map fst entries).
Proof.
  induction 1 as [|[k v] rest Hv _ IH]; simpl; [trivial|].
  intro H. apply in_app_or in H. destruct H as [H|H]; [|right; apply IH; exact H].
  left. unfold optionArgs in H. simpl in *. destruct v; simpl in H; tauto.
Qed.

End PushOptions.

(** X20. [buildUpstreamOptions] always gives arguments that hold
    [--set-upstream] or [-u]: exactly the normalized options when these
    hold [--set-upstream] or hold [-u], and the normalized options with
    [--set-upstream] appended when they hold neither; applied to its own
    result it changes nothing. *)
Theorem buildUpstreamOptions_sets_upstream (raw : option Push.GitOptions) :
  let normalized := Push.normalizeGitOptions raw in
  let args := Push.buildUpstreamOptions raw in
  (In (lit "--set-upstream") args \/ In (lit "-u") args) /\
  (In (lit "--set-upstream") normalized \/ In (lit "-u") normalized -> args = normalized) /\
  (~ In (lit "--set-upstream") normalized -> ~ In (lit "-u") normalized ->
   args = normalized ++ [lit "--set-upstream"]) /\
  Push.buildUpstreamOptions (Some (Push.OptionArray args)) = args.
Proof.
  cbv zeta. unfold Push.buildUpstreamOptions.
  set (normalized := Push.normalizeGitOptions raw).
  cbn [Push.hasOption Push.normalizeGitOptions].
  destruct (existsb (str_eqb (lit "--set-upstream")) normalized
            || existsb (str_eqb (lit "-u")) normalized) eqn:E.
  - assert (Hheld : In (lit "--set-upstream") normalized \/ In (lit "-u") normalized).
    { apply orb_true_iff in E. destruct E as [E|E]; apply existsb_str_In in E; tauto. }
    split; [exact Hheld|]. split; [reflexivity|]. split.
    + intros Hlong Hshort. destruct Hheld; contradiction.
    + rewrite E. reflexivity.
  - apply orb_false_iff in E. destruct E as [Elong Eshort].
    split; [|split; [|split]].
    + left. apply in_or_app. right. left. reflexivity.
    + intros [H|H]; apply existsb_str_In in H; congruence.
    + reflexivity.
    + rewrite !existsb_app_str. cbn [existsb]. rewrite str_eqb_refl.
      rewrite orb_true_r. reflexivity.
Qed.

(** X21. For an options object that only switches flags ([null], [true]
    or [false] values), a flag that is not an inherited property of
    objects is reported by [hasOption] on the object exactly when it is
    among the arguments that [normalizeGitOptions] makes of the object. *)
Theorem hasOption_agrees_with_normalized (entries : list (str * Push.OptionValue)) (flag : str) :
  flagsOnly entries -> distinctKeys entries ->
  ~ In flag Push.inheritedProperties ->
  Push.hasOption (Some (Push.OptionObject entries)) flag
  = Push.hasOption (Some (Push.OptionArray
                            (Push.normalizeGitOptions (Some (Push.OptionObject entries))))) flag.
Proof.
  intros Hflags Hkeys Hown. cbn [Push.hasOption Push.normalizeGitOptions].
  apply existsb_str_not_In in Hown. rewrite Hown. clear Hown.
  induction Hflags as [|[k v] rest Hv Hrest IH]; [reflexivity|].
  unfold distinctKeys in Hkeys. simpl in Hkeys. inversion Hkeys as [|? ? Hfresh Hkeys']; subst.
  cbn [find flat_map fst]. rewrite existsb_app_str.
  destruct (str_eqb k flag) eqn:E.
  - apply str_eqb_eq in E. subst k.
    assert (Habsent : existsb (str_eqb flag) (flat_map Push.optionArgs rest) = false).
    { apply existsb_str_not_In. intro K. apply Hfresh.
      apply flag_args_are_keys; assumption. }
    rewrite Habsent, orb_false_r. unfold Push.optionArgs. simpl in *.
    destruct v; try contradiction; simpl; rewrite ?str_eqb_refl; reflexivity.
  - rewrite (IH Hkeys').
    assert (Hhere : existsb (str_eqb flag) (Push.optionArgs (k, v)) = false).
    { unfold Push.optionArgs. simpl in *. destruct v; try contradiction; simpl;
        try reflexivity; rewrite orb_false_r; apply str_eqb_neq; intros ->;
        rewrite str_eqb_refl in E; discriminate E. }
    rewrite Hhere. reflexivity.
Qed.

Lemma hasOption_agrees_with_normalized_witness :
  Push.hasOption
    (Some (Push.OptionObject [(lit "--force", Push.ValueTrue); (lit "--tags", Push.ValueFalse)]))
    (lit "--tags")
  = Push.hasOption
      (Some (Push.OptionArray
               (Push.normalizeGitOptions
                  (Some (Push.OptionObject
                           [(lit "--force", Push.ValueTrue); (lit "--tags", Push.ValueFalse)])))))
      (lit "--tags").
Proof.
  apply hasOption_agrees_with_normalized.
  - repeat constructor.
  - repeat constructor; simpl; intuition discriminate.
  - simpl. intuition discriminate.
Defined.

(* ------------------------------------------------------------------ *)
(** ** Pushing: the commands *)

Section PushCommands.

Import Push.

Variable host : Host.
Variable directory : str.

Lemma emits_anyEvent {A} (m : M host A) : emits host anyEvent m.
Proof. intro w. apply Forall_forall. intros ev _. exact I. Qed.

Hypothesis push_fails : forall args cwd w,
  isPushCommand args = true -> exitCode (fst (execGit host args cwd w)) <> 0%Z.

Lemma pushRaw_rejects args :
  isPushCommand args = true -> rejects host anyEvent (pushRaw host directory args).
Proof.
  intros Hpush w. unfold pushRaw.
  pose proof (push_fails args directory w Hpush) as Hexit. apply Z.eqb_neq in Hexit.
  eexists. eexists. eexists. split.
  - eapply bind_step; [apply doExecGit_run|]. rewrite Hexit. reflexivity.
  - apply Forall_forall. intros ev _. exact I.
Qed.

Lemma retryWithUpstream_rejects raw error :
  rejects host anyEvent (retryWithUpstream host directory raw error).
Proof.
  unfold retryWithUpstream.
  destruct (negb (looksLikeMissingUpstream error)); [apply rejects_throw|].
  apply (rejects_bind host anyEvent (fun _ => True));
    [apply emits_anyEvent | apply ensures_any|]. intros currentBranch _.
  apply (rejects_bind host anyEvent (fun _ => True));
    [apply emits_anyEvent | apply ensures_any|]. intros remotes _.
  cbv zeta.
  match goal with |- rejects _ _ (if ?c then _ else _) => destruct c end;
    [apply rejects_throw|].
  apply rejects_first. apply pushRaw_rejects. reflexivity.
Qed.

Lemma retryToRemote_rejects raw remoteName branch error :
  rejects host anyEvent (retryToRemote host directory raw remoteName branch error).
Proof.
  unfold retryToRemote.
  destruct (negb (looksLikeMissingUpstream error)); [apply rejects_throw|].
  apply (rejects_bind host anyEvent (fun _ => True));
    [apply emits_anyEvent | apply ensures_any|]. intros fallbackBranch _.
  destruct (isEmpty fallbackBranch); [apply rejects_throw|].
  apply rejects_first. apply pushRaw_rejects. reflexivity.
Qed.

Lemma pushUntracked_none raw remoteName :
  ensures host (fun early => early = None) (pushUntracked host directory raw remoteName).
Proof.
  unfold pushUntracked. apply ensures_tryCatch.
  - eapply ensures_bind; [apply ensures_any|]. intros currentBranch _.
    eapply ensures_bind; [apply ensures_any|]. intros tracking _.
    destruct (negb (isEmpty currentBranch) && negb tracking); [|apply ensures_ret; reflexivity].
    apply (rejects_ensures host anyEvent). apply rejects_first.
    apply pushRaw_rejects. reflexivity.
  - intro error. eapply ensures_bind; [apply ensures_any|]. intros _ _.
    apply ensures_ret. reflexivity.
Qed.

Lemma gitPush_rejects options : rejects host anyEvent (gitPush host directory options).
Proof.
  unfold gitPush. cbv zeta.
  match goal with |- rejects _ _ (if ?c then _ else _) => destruct c end.
  - apply rejects_tryCatch; [|apply retryWithUpstream_rejects].
    apply rejects_first. apply pushRaw_rejects. reflexivity.
  - apply (rejects_bind host anyEvent (fun early => early = None)); [apply emits_anyEvent| |].
    + match goal with |- ensures _ _ (if ?c then _ else _) => destruct c end;
        [apply pushUntracked_none | apply ensures_ret; reflexivity].
    + intros early ->.
      apply rejects_tryCatch; [|apply retryToRemote_rejects].
      apply rejects_first. apply pushRaw_rejects. reflexivity.
Qed.

End PushCommands.

Section PushCount.

Import Push.

Variable host : Host.
Variable directory : str.

Lemma quiet_command {A} args (k : ExecResult -> M host A) :
  isPushCommand args = false -> (forall result, atMost host isPushEvent 0 (k result)) ->
  atMost host isPushEvent 0 (bind (doExecGit host args directory) k).
Proof.
  intros Hargs Hk. apply (atMost_bind host isPushEvent _ _ 0 0); [|exact Hk].
  unfold doExecGit.
  pose proof (atMost_perform host isPushEvent (execGit host args directory)
                (EvExecGit args directory)) as H.
  simpl in H. rewrite Hargs in H. exact H.
Qed.

Lemma getCurrentBranch_quiet : atMost host isPushEvent 0 (getCurrentBranch host directory).
Proof. apply quiet_command; [reflexivity | intro; apply atMost_ret]. Qed.

Lemma hasTrackingBranch_quiet : atMost host isPushEvent 0 (hasTrackingBranch host directory).
Proof. apply quiet_command; [reflexivity | intro; apply atMost_ret]. Qed.

Lemma getRemoteNames_quiet : atMost host isPushEvent 0 (getRemoteNames host directory).
Proof.
  apply quiet_command; [reflexivity|]. intro result.
  destruct (negb (exitCode result =? 0)%Z); apply atMost_ret.
Qed.

Lemma pushRaw_once args : atMost host isPushEvent 1 (pushRaw host directory args).
Proof.
  unfold pushRaw. apply (atMost_bind host isPushEvent _ _ 1 0).
  - eapply atMost_weaken; [|apply atMost_perform]. destruct (isPushEvent _); lia.
  - intro result. destruct (negb (exitCode result =? 0)%Z); [apply atMost_throw | apply atMost_ret].
Qed.

Lemma pushThen_once {A} args (a : A) :
  atMost host isPushEvent 1 (bind (pushRaw host directory args) (fun _ => ret a)).
Proof.
  apply (atMost_bind host isPushEvent _ _ 1 0); [apply pushRaw_once | intro; apply atMost_ret].
Qed.

Lemma retryWithUpstream_once raw error :
  atMost host isPushEvent 1 (retryWithUpstream host directory raw error).
Proof.
  unfold retryWithUpstream.
  destruct (negb (looksLikeMissingUpstream error)); [apply atMost_throw|].
  apply (atMost_bind host isPushEvent _ _ 0 1); [apply getCurrentBranch_quiet|].
  intro currentBranch.
  apply (atMost_bind host isPushEvent _ _ 0 1); [apply getRemoteNames_quiet|].
  intro remotes. cbv zeta.
  match goal with |- atMost _ _ _ (if ?c then _ else _) => destruct c end;
    [apply atMost_throw | apply pushThen_once].
Qed.

Lemma retryToRemote_once raw remoteName branch error :
  atMost host isPushEvent 1 (retryToRemote host directory raw remoteName branch error).
Proof.
  unfold retryToRemote.
  destruct (negb (looksLikeMissingUpstream error)); [apply atMost_throw|].
  apply (atMost_bind host isPushEvent _ _ 0 1).
  - destruct (negb (isEmpty branch)); [apply atMost_ret | apply getCurrentBranch_quiet].
  - intro fallbackBranch.
    destruct (isEmpty fallbackBranch); [apply atMost_throw | apply pushThen_once].
Qed.

Lemma pushUntracked_once raw remoteName :
  atMost host isPushEvent 1 (pushUntracked host directory raw remoteName).
Proof.
  unfold pushUntracked. apply (atMost_tryCatch host isPushEvent _ _ 1 0).
  - apply (atMost_bind host isPushEvent _ _ 0 1); [apply getCurrentBranch_quiet|].
    intro currentBranch.
    apply (atMost_bind host isPushEvent _ _ 0 1); [apply hasTrackingBranch_quiet|].
    intro tracking.
    destruct (negb (isEmpty currentBranch) && negb tracking);
      [apply pushThen_once | apply atMost_ret].
  - intro error. apply (atMost_bind host isPushEvent _ _ 0 0); [|intro; apply atMost_ret].
    intro w. unfold warn, emit, countOf. simpl. lia.
Qed.

End PushCount.

(** X22. [gitPush] never resolves without a [git push] that exited with
    code 0: on a host where every [git push] fails, it rejects, whatever
    it was asked to push. *)
Theorem gitPush_needs_a_push (host : Host) (directory : str)
    (options : option Push.PushOptions) (w : World host) :
  (forall args cwd w0,
     isPushCommand args = true -> exitCode (fst (execGit host args cwd w0)) <> 0%Z) ->
  exists e w1 t, Push.gitPush host directory options w = (Throw e, w1, t).
Proof.
  intro Hfail.
  destruct (gitPush_rejects host directory Hfail options w) as [e [w1 [t [E _]]]].
  exists e, w1, t. exact E.
Qed.

(** X23. [gitPush] runs [git push] at most three times, and at most
    twice when a branch is given or no remote is. *)
Theorem gitPush_push_count (host : Host) (directory : str)
    (options : option Push.PushOptions) (w : World host) :
  countOf isPushEvent (snd (Push.gitPush host directory options w)) <= 3 /\
  (requestedBranch options <> [] \/ requestedRemote options = [] ->
   countOf isPushEvent (snd (Push.gitPush host directory options w)) <= 2).
Proof.
  revert w.
  assert (Hfirst : forall (args : list str) (r : Push.PushResult) handler,
            (forall e, atMost host isPushEvent 1 (handler e)) ->
            atMost host isPushEvent 2
              (tryCatch (bind (Push.pushRaw host directory args) (fun _ => ret r)) handler)).
  { intros args r handler Hh.
    apply (atMost_tryCatch host isPushEvent _ _ 1 1); [apply pushThen_once | exact Hh]. }
  assert (Hall : atMost host isPushEvent 3 (Push.gitPush host directory options) /\
                 (requestedBranch options <> [] \/ requestedRemote options = [] ->
                  atMost host isPushEvent 2 (Push.gitPush host directory options))).
  { unfold Push.gitPush. cbv zeta.
    fold (requestedRemote options). fold (requestedBranch options).
    destruct (isEmpty (requestedRemote options)) eqn:Er;
      destruct (isEmpty (requestedBranch options)) eqn:Eb; cbn [andb];
      try (match goal with
           | |- atMost _ _ _ (bind _ ?K) /\ _ =>
               assert (HK : forall early, atMost host isPushEvent 2 (K early));
               [intros [result|]; [apply atMost_ret|];
                apply Hfirst; intro e; apply retryToRemote_once|]
           end).
    - split; [apply (atMost_weaken host isPushEvent _ 2 3); [lia|] | intros _];
        (apply Hfirst; intro e; apply retryWithUpstream_once).
    - assert (H2 : forall K : option Push.PushResult -> M host Push.PushResult,
                (forall early, atMost host isPushEvent 2 (K early)) ->
                atMost host isPushEvent 2 (bind (ret None) K)).
      { intros K H. apply (atMost_bind host isPushEvent _ _ 0 2); [apply atMost_ret | exact H]. }
      split; [apply (atMost_weaken host isPushEvent _ 2 3); [lia|] | intros _];
        apply H2; exact HK.
    - split.
      + apply (atMost_bind host isPushEvent _ _ 1 2); [apply pushUntracked_once | exact HK].
      + intros [H|H].
        * apply isEmpty_true in Eb. contradiction.
        * apply isEmpty_false in Er. contradiction.
    - assert (H2 : forall K : option Push.PushResult -> M host Push.PushResult,
                (forall early, atMost host isPushEvent 2 (K early)) ->
                atMost host isPushEvent 2 (bind (ret None) K)).
      { intros K H. apply (atMost_bind host isPushEvent _ _ 0 2); [apply atMost_ret | exact H]. }
      split; [apply (atMost_weaken host isPushEvent _ 2 3); [lia|] | intros _];
        apply H2; exact HK. }
  intro w. destruct Hall as [H3 H2]. split; [apply H3 | intro H; apply (H2 H)].
Qed.

Lemma gitPush_needs_a_push_witness :
  exists e w1 t,
    Push.gitPush (Scripted.make Cases.notARepository) (lit "/tmp") None 0 = (Throw e, w1, t).
Proof.
  apply (gitPush_needs_a_push (Scripted.make Cases.notARepository) (lit "/tmp") None 0).
  intros args cwd w0 _. discriminate.
Defined.

(** The bound of three is reached: a push to a remote, without a branch,
    from a branch that has no upstream, when every push fails for want of
    one. *)
Remark gitPush_three_pushes :
  countOf isPushEvent
    (snd (Push.gitPush (Scripted.make Examples.noUpstreamRepository) (lit "/repo")
            (Some Examples.pushToOrigin) 0)) = 3.
Proof. vm_compute. reflexivity. Qed.

(* ------------------------------------------------------------------ *)
(** ** Branch lists *)

Section BranchLists.

Import Branches.

(** Storing details and looking a name up. *)
Lemma lookup_setBranch key details table k :
  lookup (setBranch key details table) k
  = if str_eqb k key then Some details else lookup table k.
Proof.
  unfold lookup, setBranch.
  destruct (str_eqb key protoKey) eqn:Ekey; cbn [ownBranch prototypeBranch].
  - apply str_eqb_eq in Ekey. subst key. destruct (str_eqb k protoKey); reflexivity.
  - destruct (str_eqb k protoKey) eqn:Ek.
    + apply str_eqb_eq in Ek. subst k.
      destruct (str_eqb protoKey key) eqn:E; [|reflexivity].
      apply str_eqb_eq in E. subst key. rewrite str_eqb_refl in Ekey. discriminate Ekey.
    + reflexivity.
Qed.

Lemma branchLineStep_coherent acc line :
  coherentBranches acc -> coherentBranches (branchLineStep acc line).
Proof.
  intros [Hall [Hkeys Hcur]]. unfold branchLineStep. cbv zeta.
  destruct (isEmpty (part 0 (split "|"%char line))) eqn:E;
    [exact (conj Hall (conj Hkeys Hcur))|].
  set (branchName := part 0 (split "|"%char line)) in *.
  split; [|split]; cbn [all branches current].
  - intros n Hn. apply in_app_or in Hn. rewrite lookup_setBranch.
    destruct (str_eqb n branchName) eqn:En.
    + apply str_eqb_eq in En. subst n. split; [apply isEmpty_false; exact E|].
      eexists. split; [reflexivity|]. split; reflexivity.
    + destruct Hn as [Hn|[Hn|[]]]; [apply Hall; exact Hn|].
      subst n. rewrite str_eqb_refl in En. discriminate En.
  - intros n details. rewrite lookup_setBranch. destruct (str_eqb n branchName) eqn:En.
    + intros _. apply str_eqb_eq in En. subst n. apply in_or_app. right. left. reflexivity.
    + intro H. apply in_or_app. left. eapply Hkeys. exact H.
  - destruct (str_eqb (part 3 (split "|"%char line)) (lit "*")).
    + right. apply in_or_app. right. left. reflexivity.
    + destruct Hcur as [Hcur|Hcur]; [left; exact Hcur | right; apply in_or_app; left; exact Hcur].
Qed.

Lemma noBranches_coherent : coherentBranches noBranches.
Proof.
  split; [|split].
  - intros n [].
  - intros n details H. unfold lookup in H. simpl in H.
    destruct (str_eqb n protoKey); discriminate H.
  - left. reflexivity.
Qed.

Lemma fold_branchLines_coherent lines : forall acc,
  coherentBranches acc -> coherentBranches (fold_left branchLineStep lines acc).
Proof.
  induction lines as [|line rest IH]; intros acc H; simpl; [exact H|].
  apply IH. apply branchLineStep_coherent. exact H.
Qed.

(** The own properties, line by line. *)
Lemma branchLineStep_own acc line :
  ownBranches acc -> ownBranches (branchLineStep acc line).
Proof.
  intros [Hown [Hname [Hproto Hpname]]]. unfold branchLineStep. cbv zeta.
  destruct (isEmpty (part 0 (split "|"%char line))) eqn:E;
    [exact (conj Hown (conj Hname (conj Hproto Hpname)))|].
  set (branchName := part 0 (split "|"%char line)) in *.
  unfold ownBranches. cbn [all branches]. unfold setBranch.
  destruct (str_eqb branchName protoKey) eqn:Ekey; cbn [ownBranch prototypeBranch].
  - apply str_eqb_eq in Ekey. rewrite Ekey. split; [|split; [|split]].
    + intro n. rewrite Hown, in_app_iff. simpl. intuition congruence.
    + exact Hname.
    + split; [intros _; apply in_or_app; right; left; reflexivity | discriminate].
    + intros details H. injection H as <-. reflexivity.
  - apply str_eqb_neq in Ekey. split; [|split; [|split]].
    + intro n. destruct (str_eqb n branchName) eqn:En.
      * apply str_eqb_eq in En. subst n. split; [|discriminate].
        intros _. split; [apply in_or_app; right; left; reflexivity | exact Ekey].
      * apply str_eqb_neq in En. rewrite Hown, in_app_iff. simpl. intuition congruence.
    + intros n details. destruct (str_eqb n branchName) eqn:En.
      * intro H. injection H as <-. cbn [name]. apply str_eqb_eq in En. congruence.
      * apply Hname.
    + rewrite Hproto, in_app_iff. simpl. intuition congruence.
    + exact Hpname.
Qed.

Lemma noBranches_own : ownBranches noBranches.
Proof.
  unfold ownBranches, noBranches, emptyTable. cbn [all branches ownBranch prototypeBranch].
  split; [|split; [|split]].
  - intro n. split; [intro H; contradiction H; reflexivity | intros [[] _]].
  - intros n details H. discriminate H.
  - split; [intro H; contradiction H; reflexivity | intros []].
  - intros details H. discriminate H.
Qed.

Lemma fold_branchLines_own lines : forall acc,
  ownBranches acc -> ownBranches (fold_left branchLineStep lines acc).
Proof.
  induction lines as [|line rest IH]; intros acc H; simpl; [exact H|].
  apply IH. apply branchLineStep_own. exact H.
Qed.

(** A branch named [__proto__] is listed and can be looked up, and is
    no own property of the table. *)
Remark branch_named_proto :
  let listed := branchLineStep noBranches (lit "__proto__|1111111||") in
  all listed = [protoKey] /\
  ownBranch (branches listed) protoKey = None /\
  (exists details, branches listed protoKey = Some details /\ name details = protoKey).
Proof.
  cbv zeta. split; [reflexivity|]. split; [reflexivity|].
  eexists. split; reflexivity.
Qed.

End BranchLists.

(** X24. [getGitBranchesRaw] never rejects and runs one command; it gives
    nothing when the command fails, and otherwise, whatever git printed:
    every listed name is non-empty and [branches[name]] yields details
    of that name, with the label that is the name without a leading
    [remotes/]; no other name yields details; the current branch, if
    any, is listed.  The table has an own property for every listed name
    except [__proto__], and no other: the details of a branch named
    [__proto__] become the prototype of the table instead. *)
Theorem getGitBranchesRaw_coherent (host : Host) (directory : str) (w : World host) :
  exists listed,
    Branches.getGitBranchesRaw host directory w
      = (Ok listed, snd (execGit host Branches.branchListArgs directory w),
         [EvExecGit Branches.branchListArgs directory]) /\
    coherentBranches listed /\
    ownBranches listed /\
    (exitCode (fst (execGit host Branches.branchListArgs directory w)) <> 0%Z ->
     listed = Branches.noBranches).
Proof.
  unfold Branches.getGitBranchesRaw.
  destruct (execGit host Branches.branchListArgs directory w) as [result w1] eqn:E.
  simpl fst; simpl snd.
  destruct (exitCode result =? 0)%Z eqn:Ex.
  - eexists. split; [|split; [|split]].
    + unfold bind. rewrite doExecGit_run, E. simpl. rewrite Ex. reflexivity.
    + apply fold_branchLines_coherent. apply noBranches_coherent.
    + apply fold_branchLines_own. apply noBranches_own.
    + intro H. apply Z.eqb_eq in Ex. contradiction.
  - exists Branches.noBranches. split; [|split; [|split]].
    + unfold bind. rewrite doExecGit_run, E. simpl. rewrite Ex. reflexivity.
    + apply noBranches_coherent.
    + apply noBranches_own.
    + reflexivity.
Qed.

(** X25. Of a coherent list of branches, [getAvailableBranchesForWorktree]
    keeps exactly the details of the listed names that do not start with
    [remotes/] and that no worktree has checked out (the branch of a
    worktree being compared without a leading [refs/heads/]). *)
Theorem availableBranches_exact (listed : Branches.GitBranchResult)
    (worktrees : list GitWorktreeInfo) (details : Branches.GitBranchDetails) :
  coherentBranches listed ->
  (In details (Branches.availableBranches listed worktrees) <->
   In (Branches.name details) (Branches.all listed) /\
   Branches.branches listed (Branches.name details) = Some details /\
   startsWith (lit "remotes/") (Branches.name details) = false /\
   ~ In (Branches.name details) (Branches.checkedOutBranches worktrees)).
Proof.
  intros [Hall _]. unfold Branches.availableBranches. cbv zeta.
  rewrite in_flat_map. split.
  - intros [n [Hn Hd]].
    destruct (startsWith (lit "remotes/") n) eqn:Er; [contradiction|].
    destruct (existsb (str_eqb n) (Branches.checkedOutBranches worktrees)) eqn:Ec;
      [contradiction|].
    destruct (Hall n Hn) as [_ [d [Eb [Ename _]]]]. rewrite Eb in Hd.
    destruct Hd as [<-|[]]. rewrite Ename.
    split; [exact Hn|]. split; [exact Eb|]. split; [exact Er|].
    apply existsb_str_not_In. exact Ec.
  - intros [Hn [Eb [Er Hc]]]. exists (Branches.name details). split; [exact Hn|].
    rewrite Er. apply existsb_str_not_In in Hc. rewrite Hc, Eb. left. reflexivity.
Qed.

Lemma availableBranches_exact_witness :
  In Examples.featureDetails
     (Branches.availableBranches Examples.twoBranches [Examples.mainWorktree]).
Proof.
  apply (availableBranches_exact Examples.twoBranches [Examples.mainWorktree]
           Examples.featureDetails).
  - apply fold_branchLines_coherent. apply noBranches_coherent.
  - split; [simpl; tauto|]. split; [reflexivity|]. split; [reflexivity|].
    simpl. intuition discriminate.
Defined.

(* ------------------------------------------------------------------ *)
(** ** The status through the adapter: one file per path *)

Section StatusFileList.

Import StatusFiles.

Lemma mapStatus_letter c : statusLetter (mapStatus c).
Proof.
  unfold statusLetter, mapStatus, statusMap.
  destruct c as [|p|p]; try (simpl; tauto);
    repeat (destruct p as [p|p|]; try (simpl; tauto)).
Qed.

Lemma setWorkingDir_some relativePath letter files files' :
  setWorkingDir relativePath letter files = Some files' ->
  map filePath files' = map filePath files /\
  map index files' = map index files /\
  In relativePath (map filePath files) /\
  (Forall (fun f => statusLetter (working_dir f)) files -> statusLetter letter ->
   Forall (fun f => statusLetter (working_dir f)) files').
Proof.
  revert files'. induction files as [|f rest IH]; intros files' H; simpl in H; [discriminate|].
  destruct (str_eqb (filePath f) relativePath) eqn:E.
  - injection H as <-. apply str_eqb_eq in E. simpl.
    split; [reflexivity|]. split; [reflexivity|]. split; [left; exact E|].
    intros Hall Hl. inversion Hall; subst. constructor; assumption.
  - destruct (setWorkingDir relativePath letter rest) as [rest'|]; [|discriminate].
    injection H as <-. destruct (IH rest' eq_refl) as [Hp [Hi [Hin Hw]]]. simpl.
    split; [rewrite Hp; reflexivity|]. split; [rewrite Hi; reflexivity|].
    split; [right; exact Hin|].
    intros Hall Hl. inversion Hall; subst. constructor; [assumption | apply Hw; assumption].
Qed.

Lemma setWorkingDir_none relativePath letter files :
  setWorkingDir relativePath letter files = None -> ~ In relativePath (map filePath files).
Proof.
  induction files as [|f rest IH]; simpl; intro H; [tauto|].
  destruct (str_eqb (filePath f) relativePath) eqn:E; [discriminate|].
  destruct (setWorkingDir relativePath letter rest); [discriminate|].
  apply str_eqb_neq in E. intros [K|K]; [contradiction | exact (IH eq_refl K)].
Qed.

Lemma dedupe_seen_ext entries : forall s1 s2,
  (forall x, In x s1 <-> In x s2) -> dedupe s1 entries = dedupe s2 entries.
Proof.
  induction entries as [|e rest IH]; intros s1 s2 H; simpl; [reflexivity|].
  assert (E : existsb (str_eqb e) s1 = existsb (str_eqb e) s2).
  { destruct (existsb (str_eqb e) s1) eqn:E1; symmetry.
    - apply existsb_str_In. apply H. apply existsb_str_In. exact E1.
    - apply existsb_str_not_In. intro K. apply H in K.
      apply existsb_str_In in K. rewrite K in E1. discriminate E1. }
  rewrite E. destruct (existsb (str_eqb e) s2); [apply IH; exact H|].
  f_equal. apply IH. intro x. simpl. rewrite H. reflexivity.
Qed.

(** The loop over the working tree changes: the paths, the staged
    column and the letters. *)
Lemma fold_workingTree changes : forall files,
  let result := fold_left workingTreeStep changes files in
  map filePath result
    = map filePath files ++ dedupe (map filePath files) (map changePath changes) /\
  (exists k, map index result = map index files ++ repeat (lit " ") k) /\
  (Forall (fun f => statusLetter (working_dir f)) files ->
   Forall (fun f => statusLetter (working_dir f)) result).
Proof.
  induction changes as [|change rest IH]; intro files; cbv zeta.
  - simpl. rewrite app_nil_r. split; [reflexivity|].
    split; [exists 0; simpl; rewrite app_nil_r; reflexivity | trivial].
  - simpl fold_left. destruct (IH (workingTreeStep files change)) as [Hp [[k Hi] Hw]].
    unfold workingTreeStep in *.
    destruct (setWorkingDir (changePath change) (mapStatus (changeStatus change)) files)
      as [files'|] eqn:E.
    + destruct (setWorkingDir_some _ _ _ _ E) as [Ep [Ei [Hin Hl]]].
      rewrite Ep in Hp. rewrite Ei in Hi.
      split; [|split].
      * rewrite Hp. simpl. apply existsb_str_In in Hin. rewrite Hin. reflexivity.
      * exists k. exact Hi.
      * intro Hall. apply Hw. apply Hl; [exact Hall | apply mapStatus_letter].
    + apply setWorkingDir_none in E.
      rewrite !map_app in Hp, Hi. cbn [map filePath index] in Hp, Hi.
      split; [|split].
      * rewrite Hp. cbn [map dedupe]. apply existsb_str_not_In in E. rewrite E.
        rewrite <- app_assoc. simpl. f_equal. f_equal.
        apply dedupe_seen_ext. intro x. rewrite in_app_iff. simpl. tauto.
      * exists (S k). rewrite Hi, <- app_assoc. reflexivity.
      * intro Hall. apply Hw. apply Forall_app. split; [exact Hall|].
        constructor; [apply mapStatus_letter | constructor].
Qed.

End StatusFileList.

(** X26. The files that [getGitStatus] builds from the changes of the
    adapter: first one file per index change, in order, then one file
    per path of a working tree change that no earlier file has, in order
    of first appearance; the staged column of the files of the index
    changes is their mapped status and is blank for the others; every
    letter is one of [mapStatus] or blank.  With distinct index paths no
    path is listed twice. *)
Theorem collectStatusFiles_paths (indexChanges workingTreeChanges : list StatusFiles.Change) :
  let result := StatusFiles.collectStatusFiles indexChanges workingTreeChanges in
  let staged := map StatusFiles.changePath indexChanges in
  map filePath result
    = staged ++ dedupe staged (map StatusFiles.changePath workingTreeChanges) /\
  (exists k,
     map index result
     = map (fun change => mapStatus (StatusFiles.changeStatus change)) indexChanges
       ++ repeat (lit " ") k) /\
  Forall (fun f => statusLetter (index f) /\ statusLetter (working_dir f)) result /\
  (NoDup staged -> NoDup (map filePath result)).
Proof.
  cbv zeta. unfold StatusFiles.collectStatusFiles.
  destruct (fold_workingTree workingTreeChanges (StatusFiles.indexFiles indexChanges))
    as [Hp [[k Hi] Hw]].
  assert (Epaths : map filePath (StatusFiles.indexFiles indexChanges)
                   = map StatusFiles.changePath indexChanges).
  { unfold StatusFiles.indexFiles. rewrite map_map. reflexivity. }
  assert (Eindex : map index (StatusFiles.indexFiles indexChanges)
                   = map (fun change => mapStatus (StatusFiles.changeStatus change)) indexChanges).
  { unfold StatusFiles.indexFiles. rewrite map_map. reflexivity. }
  rewrite Epaths in Hp. rewrite Eindex in Hi.
  split; [exact Hp|]. split; [exists k; exact Hi|]. split.
  - assert (Hindex : Forall statusLetter
                       (map index (fold_left StatusFiles.workingTreeStep workingTreeChanges
                                     (StatusFiles.indexFiles indexChanges)))).
    { rewrite Hi. apply Forall_app. split.
      - apply Forall_forall. intros s Hs. apply in_map_iff in Hs.
        destruct Hs as [change [<- _]]. apply mapStatus_letter.
      - apply Forall_forall. intros s Hs. apply repeat_spec in Hs. subst s.
        unfold statusLetter. simpl. tauto. }
    assert (Hworking : Forall (fun f => statusLetter (working_dir f))
                         (fold_left StatusFiles.workingTreeStep workingTreeChanges
                            (StatusFiles.indexFiles indexChanges))).
    { apply Hw. unfold StatusFiles.indexFiles. apply Forall_forall. intros f Hf.
      apply in_map_iff in Hf. destruct Hf as [change [<- _]]. simpl.
      unfold statusLetter. simpl. tauto. }
    rewrite Forall_forall in *. intros f Hf. split; [|apply Hworking; exact Hf].
    apply Hindex. apply in_map. exact Hf.
  - intro Hnodup. rewrite Hp. apply NoDup_app.
    + exact Hnodup.
    + apply dedupe_NoDup.
    + intros x Hx Hd. exact (dedupe_fresh _ _ _ Hd Hx).
Qed.

(* ------------------------------------------------------------------ *)
(** ** Making sure of a remote *)

Section EnsureRemote.

Variable host : Host.

Local Notation "x <- m ;; k" := (bind m (fun x => k))
  (at level 61, m at next level, right associativity).
Local Notation "m ;;; k" := (bind m (fun _ => k))
  (at level 61, right associativity).

(** A command that has to succeed, as the last step. *)
Lemma orThrow_last cwd args fallback w :
  let run := (runGitCommandOrThrow host cwd args fallback ;;; ret tt) w in
  snd run = [EvExecGit args cwd] /\
  (returned run <-> exitCode (fst (execGit host args cwd w)) = 0%Z).
Proof.
  cbv zeta. destruct (runGitCommandOrThrow_run host cwd args fallback w) as [outcome [E H]].
  unfold bind. rewrite E. destruct outcome as [result|e]; unfold returned; simpl.
  - split; [reflexivity|]. tauto.
  - split; [reflexivity|]. tauto.
Qed.

End EnsureRemote.

(** X27. [ensureRemoteWithUrl] with an empty name or URL (after trimming)
    does nothing.  Otherwise it asks for the URL of the remote: when the
    remote has the wanted URL already, nothing else is run and it
    returns; when it has another one, the one further command is
    [remote set-url] with the trimmed name and URL; when the query
    fails, the one further command is [remote add].  With a further
    command it returns exactly when that command exits with 0. *)
Theorem ensureRemoteWithUrl_changes (host : Host)
    (primaryWorktree remoteName remoteUrl : str) (w : World host) :
  let name := trim remoteName in
  let url := trim remoteUrl in
  let reply := fst (execGit host (remoteQuery name) primaryWorktree w) in
  let after := snd (execGit host (remoteQuery name) primaryWorktree w) in
  let query := EvExecGit (remoteQuery name) primaryWorktree in
  let run := ensureRemoteWithUrl host primaryWorktree remoteName remoteUrl w in
  (name = [] \/ url = [] -> run = (Ok tt, w, [])) /\
  (name <> [] -> url <> [] ->
   (exitCode reply = 0%Z -> trim (stdout reply) = url ->
    run = (Ok tt, after, [query])) /\
   (exitCode reply = 0%Z -> trim (stdout reply) <> url ->
    snd run = [query; EvExecGit (remoteSetUrl name url) primaryWorktree] /\
    (returned run <->
     exitCode (fst (execGit host (remoteSetUrl name url) primaryWorktree after)) = 0%Z)) /\
   (exitCode reply <> 0%Z ->
    snd run = [query; EvExecGit (remoteAdd name url) primaryWorktree] /\
    (returned run <->
     exitCode (fst (execGit host (remoteAdd name url) primaryWorktree after)) = 0%Z))).
Proof.
  cbv zeta. unfold ensureRemoteWithUrl, remoteQuery, remoteSetUrl, remoteAdd. cbv zeta.
  split.
  - intros [E|E]; rewrite E; simpl isEmpty; [|rewrite orb_true_r]; reflexivity.
  - intros Hname Hurl.
    apply isEmpty_false in Hname. apply isEmpty_false in Hurl. rewrite Hname, Hurl.
    cbn [orb].
    destruct (runGitCommand_run host primaryWorktree
                [lit "remote"; lit "get-url"; trim remoteName] w) as [getUrl [E [Hs Ho]]].
    set (after := snd (execGit host [lit "remote"; lit "get-url"; trim remoteName]
                         primaryWorktree w)) in *.
    split; [|split].
    + intros Hexit Hsame. unfold bind at 1. rewrite E.
      rewrite Hs, Hexit, Ho, Hsame, str_eqb_refl. reflexivity.
    + intros Hexit Hother. apply str_eqb_neq in Hother.
      pose proof (orThrow_last host primaryWorktree
                    [lit "remote"; lit "set-url"; trim remoteName; trim remoteUrl]
                    (lit "Failed to update git remote URL") after) as H.
      cbv zeta in H. destruct H as [Ht Hr].
      destruct (bind (runGitCommandOrThrow host primaryWorktree
                        [lit "remote"; lit "set-url"; trim remoteName; trim remoteUrl]
                        (lit "Failed to update git remote URL")) (fun _ => ret tt) after)
        as [[r w2] t2] eqn:Er.
      erewrite bind_step;
        [ | exact E | cbv beta; rewrite Hs, Hexit, Ho, Hother; cbn [Z.eqb negb]; exact Er ].
      simpl in Ht. subst t2. split; [reflexivity|]. exact Hr.
    + intros Hexit. apply Z.eqb_neq in Hexit.
      pose proof (orThrow_last host primaryWorktree
                    [lit "remote"; lit "add"; trim remoteName; trim remoteUrl]
                    (lit "Failed to add git remote") after) as H.
      cbv zeta in H. destruct H as [Ht Hr].
      destruct (bind (runGitCommandOrThrow host primaryWorktree
                        [lit "remote"; lit "add"; trim remoteName; trim remoteUrl]
                        (lit "Failed to add git remote")) (fun _ => ret tt) after)
        as [[r w2] t2] eqn:Er.
      erewrite bind_step;
        [ | exact E | cbv beta; rewrite Hs, Hexit; exact Er ].
      simpl in Ht. subst t2. split; [reflexivity|]. exact Hr.
Qed.

(* ------------------------------------------------------------------ *)
(** ** Configuring the upstream *)

Section Upstream.

Variable host : Host.

Local Notation "x <- m ;; k" := (bind m (fun x => k))
  (at level 61, m at next level, right associativity).
Local Notation "m ;;; k" := (bind m (fun _ => k))
  (at level 61, right associativity).

(** The events of a sequence. *)
Lemma bind_trace {A B} (m : M host A) (k : A -> M host B) w :
  match m w with
  | (Ok a, w1, t1) => snd (bind m k w) = t1 ++ snd (k a w1)
  | (Throw _, _, t1) => snd (bind m k w) = t1
  end.
Proof.
  unfold bind. destruct (m w) as [[[a|e] w1] t1]; [|reflexivity].
  destruct (k a w1) as [[r w2] t2]. reflexivity.
Qed.

Lemma orThrow_trace {B} cwd args fallback (k : GitCommandResult -> M host B) w :
  snd ((result <- runGitCommandOrThrow host cwd args fallback ;; k result) w)
    = [EvExecGit args cwd] \/
  exists result,
    snd ((result <- runGitCommandOrThrow host cwd args fallback ;; k result) w)
      = EvExecGit args cwd :: snd (k result (snd (execGit host args cwd w))).
Proof.
  destruct (runGitCommandOrThrow_run host cwd args fallback w) as [outcome [E _]].
  unfold bind. rewrite E. destruct outcome as [result|e].
  - right. exists result. destruct (k result _) as [[r w2] t2]. reflexivity.
  - left. reflexivity.
Qed.

Lemma ensureRemoteWithUrl_remote_only primaryWorktree remoteName remoteUrl w :
  Forall isRemoteEvent (snd (ensureRemoteWithUrl host primaryWorktree remoteName remoteUrl w)).
Proof.
  unfold ensureRemoteWithUrl. cbv zeta.
  destruct (isEmpty (trim remoteName) || isEmpty (trim remoteUrl)); [constructor|].
  destruct (runGitCommand_run host primaryWorktree
              [lit "remote"; lit "get-url"; trim remoteName] w) as [getUrl [E _]].
  unfold bind at 1. rewrite E.
  assert (Hlast : forall args fallback w1,
            args <> [] -> hd [] args = lit "remote" ->
            Forall isRemoteEvent
              (snd ((runGitCommandOrThrow host primaryWorktree args fallback ;;; ret tt) w1))).
  { intros args fallback w1 Hne Hhd.
    destruct (orThrow_last host primaryWorktree args fallback w1) as [Ht _].
    rewrite Ht. constructor; [|constructor].
    destruct args as [|cmd rest]; [contradiction|exact Hhd]. }
  destruct (success getUrl).
  - destruct (negb (str_eqb (trim (cmdStdout getUrl)) (trim remoteUrl))).
    + specialize (Hlast [lit "remote"; lit "set-url"; trim remoteName; trim remoteUrl]
                        (lit "Failed to update git remote URL")
                        (snd (execGit host [lit "remote"; lit "get-url"; trim remoteName]
                                primaryWorktree w))
                        ltac:(discriminate) eq_refl).
      destruct (bind _ _ _) as [[r w2] t2]. simpl in *.
      constructor; [reflexivity | exact Hlast].
    + simpl. constructor; [reflexivity | constructor].
  - specialize (Hlast [lit "remote"; lit "add"; trim remoteName; trim remoteUrl]
                      (lit "Failed to add git remote")
                      (snd (execGit host [lit "remote"; lit "get-url"; trim remoteName]
                              primaryWorktree w))
                      ltac:(discriminate) eq_refl).
    destruct (bind _ _ _) as [[r w2] t2]. simpl in *.
    constructor; [reflexivity | exact Hlast].
Qed.

Lemma remote_events_uncounted (kind : list str -> bool) t :
  (forall args, kind (lit "remote" :: args) = false) ->
  Forall isRemoteEvent t -> countOf (commandEvent kind) t = 0.
Proof.
  intros Hkind H. unfold countOf. induction H as [|ev t Hev _ IH]; [reflexivity|].
  destruct ev; try contradiction.
  destruct args as [|cmd rest]; [contradiction|]. simpl in Hev. subst cmd.
  cbn [filter commandEvent]. rewrite Hkind. exact IH.
Qed.

(** The attempt to fetch the upstream branch: one [git fetch], and the
    answer whether it succeeded; never a rejection. *)
Lemma fetch_attempt primaryWorktree upRemote upBranch w :
  isEmpty (trim upRemote) = false -> isEmpty (trim upBranch) = false ->
  exists fetched w1 args,
    tryCatch (fetchRemoteBranchRef host primaryWorktree upRemote upBranch ;;; ret true)
             (fun _ => ret false) w
      = (Ok fetched, w1, [EvExecGit (lit "fetch" :: args) primaryWorktree]).
Proof.
  intros Hr Hb. unfold fetchRemoteBranchRef. cbv zeta. rewrite Hr, Hb. cbn [orb].
  match goal with
  | |- context [runGitCommandOrThrow host ?cwd ?args ?fallback] =>
      destruct (runGitCommandOrThrow_run host cwd args fallback w) as [outcome [E _]]
  end.
  unfold tryCatch, bind. rewrite E.
  destruct outcome as [result|e]; simpl; eexists; eexists; eexists; reflexivity.
Qed.

(** After the attempt, the upstream is set in one of two ways. *)
Lemma tracking_tail worktreeDirectory localBranch upRemote upBranch upFull (fetched : bool) w :
  let t := snd ((if fetched
                 then runGitCommandOrThrow host worktreeDirectory
                        [lit "branch"; lit "--set-upstream-to=" ++ upFull; localBranch]
                        (lit "Failed to set upstream to " ++ upFull) ;;; ret tt
                 else setBranchTrackingFallback host worktreeDirectory localBranch
                        upRemote upBranch) w) in
  countOf (commandEvent isFetchCommand) t = 0 /\
  (countOf (commandEvent isSetUpstreamCommand) t = 1 /\
   countOf (commandEvent isTrackingConfigCommand) t = 0 \/
   countOf (commandEvent isSetUpstreamCommand) t = 0 /\
   1 <= countOf (commandEvent isTrackingConfigCommand) t <= 2).
Proof.
  cbv zeta. destruct fetched.
  - destruct (orThrow_last host worktreeDirectory
                [lit "branch"; lit "--set-upstream-to=" ++ upFull; localBranch]
                (lit "Failed to set upstream to " ++ upFull) w) as [Ht _].
    rewrite Ht. vm_compute. split; [reflexivity|]. left. split; reflexivity.
  - unfold setBranchTrackingFallback.
    match goal with
    | |- context [bind (runGitCommandOrThrow host ?cwd ?args ?fallback) ?k] =>
        destruct (orThrow_trace cwd args fallback k w) as [Ht | [result Ht]]
    end.
    + rewrite Ht. vm_compute. split; [reflexivity|]. right. split; [reflexivity|]. lia.
    + rewrite Ht.
      match goal with
      | |- context [snd (bind (runGitCommandOrThrow host ?cwd ?args ?fallback) _ ?w1)] =>
          destruct (orThrow_last host cwd args fallback w1) as [Ht2 _]
      end.
      rewrite Ht2. vm_compute. split; [reflexivity|]. right. split; [reflexivity|]. lia.
Qed.

End Upstream.

(** X28. [applyUpstreamConfiguration] does nothing unless asked to set
    the upstream.  Whatever the repository answers, it fetches at most
    once, and it sets the upstream in one way only: by one
    [git branch --set-upstream-to] or by at most two
    [git config branch....] writes, never both; and it sets none without
    having tried the fetch. *)
Theorem applyUpstreamConfiguration_one_way (host : Host)
    (primaryWorktree worktreeDirectory localBranch : str) (setUpstream : bool)
    (upstreamRemote upstreamBranch ensureRemoteName ensureRemoteUrl : str) (w : World host) :
  let run := applyUpstreamConfiguration host primaryWorktree worktreeDirectory localBranch
               setUpstream upstreamRemote upstreamBranch ensureRemoteName ensureRemoteUrl w in
  let fetches := countOf (commandEvent isFetchCommand) (snd run) in
  let direct := countOf (commandEvent isSetUpstreamCommand) (snd run) in
  let fallback := countOf (commandEvent isTrackingConfigCommand) (snd run) in
  (setUpstream = false -> run = (Ok tt, w, [])) /\
  fetches <= 1 /\
  (direct <= 1 /\ fallback = 0 \/ direct = 0 /\ fallback <= 2) /\
  (fetches = 0 -> direct = 0 /\ fallback = 0).
Proof.
  cbv zeta. unfold applyUpstreamConfiguration.
  destruct setUpstream; cbn [negb].
  2:{ split; [reflexivity|]. vm_compute. intuition lia. }
  split; [discriminate|].
  set (prelude := if negb (isEmpty ensureRemoteName) && negb (isEmpty ensureRemoteUrl)
                  then ensureRemoteWithUrl host primaryWorktree ensureRemoteName ensureRemoteUrl
                  else ret tt).
  assert (Hpre : Forall isRemoteEvent (snd (prelude w))).
  { subst prelude. destruct (negb (isEmpty ensureRemoteName) && negb (isEmpty ensureRemoteUrl)).
    - apply ensureRemoteWithUrl_remote_only.
    - constructor. }
  assert (Hquiet : forall kind, (forall args, kind (lit "remote" :: args) = false) ->
                     countOf (commandEvent kind) (snd (prelude w)) = 0).
  { intros kind Hkind. apply remote_events_uncounted; assumption. }
  pose proof (Hquiet isFetchCommand (fun _ => eq_refl)) as Hg.
  pose proof (Hquiet isSetUpstreamCommand (fun args => match args with [] => eq_refl | _ => eq_refl end)) as Hd.
  pose proof (Hquiet isTrackingConfigCommand (fun args => match args with [] => eq_refl | _ => eq_refl end)) as Hf.
  clear Hquiet Hpre.
  match goal with
  | |- context [bind prelude ?K w] =>
      pose proof (bind_trace host prelude K w) as Ht; set (run := bind prelude K w) in *
  end.
  destruct (prelude w) as [[[u|e] w1] t1]; cbn [snd] in *; rewrite Ht; clear Ht run.
  2:{ rewrite Hg, Hd, Hf. intuition lia. }
  assert (Hnone : t1 ++ snd (@ret host unit tt w1) = t1) by apply app_nil_r.
  destruct (normalizeUpstreamTarget (Some upstreamRemote) (Some upstreamBranch))
    as [[[upRemote upBranch] upFull]|] eqn:En;
    [|rewrite Hnone, Hg, Hd, Hf; intuition lia].
  destruct (isEmpty localBranch); [rewrite Hnone, Hg, Hd, Hf; intuition lia|]. clear Hnone.
  unfold normalizeUpstreamTarget in En. cbv zeta in En. cbn [optStr] in En.
  destruct (isEmpty (trim upstreamRemote)) eqn:Er; [discriminate|].
  destruct (isEmpty (trim upstreamBranch)) eqn:Eb; [discriminate|].
  cbn [orb] in En. injection En as <- <- <-.
  destruct (fetch_attempt host primaryWorktree (trim upstreamRemote) (trim upstreamBranch) w1)
    as [fetched [w2 [args Ef]]];
    [rewrite trim_idempotent; exact Er | rewrite trim_idempotent; exact Eb |].
  match goal with
  | |- context [bind ?m ?K w1] =>
      pose proof (bind_trace host m K w1) as Ht; set (run := bind m K w1) in *
  end.
  rewrite Ef in Ht. cbv beta in Ht. rewrite Ht. clear Ht run.
  match goal with
  | |- context [lit "--set-upstream-to=" ++ ?upFull] =>
      pose proof (tracking_tail host worktreeDirectory localBranch (trim upstreamRemote)
                    (trim upstreamBranch) upFull fetched w2) as Htail
  end.
  cbv zeta in Htail.
  match goal with
  | |- context [t1 ++ _ ++ ?tail] => set (t3 := tail) in *
  end.
  assert (Htail' : countOf (commandEvent isFetchCommand) t3 = 0 /\
                   (countOf (commandEvent isSetUpstreamCommand) t3 = 1 /\
                    countOf (commandEvent isTrackingConfigCommand) t3 = 0 \/
                    countOf (commandEvent isSetUpstreamCommand) t3 = 0 /\
                    1 <= countOf (commandEvent isTrackingConfigCommand) t3 <= 2))
    by exact Htail.
  clear Htail. clearbody t3. destruct Htail' as [Hg3 Hway].
  rewrite !countOf_app, Hg, Hd, Hf, Hg3.
  assert (Hd1 : countOf (commandEvent isSetUpstreamCommand)
                  [EvExecGit (lit "fetch" :: args) primaryWorktree] = 0)
    by (destruct args; reflexivity).
  assert (Hf1 : countOf (commandEvent isTrackingConfigCommand)
                  [EvExecGit (lit "fetch" :: args) primaryWorktree] = 0)
    by (destruct args; reflexivity).
  rewrite Hd1, Hf1.
  change (countOf (commandEvent isFetchCommand)
            [EvExecGit (lit "fetch" :: args) primaryWorktree]) with 1.
  split; [lia|]. split; [|intro H; discriminate H].
  destruct Hway as [[H1 H2]|[H1 H2]]; [left | right]; lia.
Qed.

(* ------------------------------------------------------------------ *)
(** ** The files of a range *)

Section RangeFilesLemmas.

Variable host : Host.

Lemma clean_lines out : Forall cleanPath (filterNonEmpty (map trim (split (ascii_of_nat 10) out))).
Proof.
  apply Forall_forall. intros p Hp. unfold filterNonEmpty in Hp.
  apply filter_In in Hp. destruct Hp as [Hin Hne].
  apply in_map_iff in Hin. destruct Hin as [l [<- _]].
  split; [|apply trim_idempotent].
  apply isEmpty_false. apply negb_true_iff. exact Hne.
Qed.

End RangeFilesLemmas.

(** X29. [getGitRangeFiles] always returns, and every path it returns is
    non-empty and trimmed.  It runs nothing but the check of
    [refs/remotes/origin/<base>] and one [git diff --name-only] of
    [<base>...<head>] or [origin/<base>...<head>], on the trimmed names;
    with a blank base or head it runs nothing and returns no file. *)
Theorem getGitRangeFiles_paths (host : Host) (directory base head : str) :
  returns host (Forall cleanPath) (getGitRangeFiles host directory base head) /\
  emits host (rangeEvent directory (trim base) (trim head))
        (getGitRangeFiles host directory base head) /\
  (trim base = [] \/ trim head = [] ->
   forall w, getGitRangeFiles host directory base head w = (Ok [], w, [])).
Proof.
  unfold getGitRangeFiles. cbv zeta. split; [|split].
  - destruct (isEmpty (trim base) || isEmpty (trim head)); [apply returns_ret; constructor|].
    apply returns_bind with (Q1 := fun _ => True).
    + apply returns_tryCatch; [apply ensures_any | intro e; apply returns_ret; exact I].
    + intros resolvedBase _. apply returns_bind with (Q1 := fun _ => True).
      * intro w. rewrite doExecGit_run. eexists. eexists. eexists.
        split; [reflexivity | exact I].
      * intros result _. destruct (negb (exitCode result =? 0)%Z); apply returns_ret.
        -- constructor.
        -- apply clean_lines.
  - destruct (isEmpty (trim base) || isEmpty (trim head)); [apply emits_ret|].
    intro w. unfold bind, tryCatch. rewrite doExecGit_run. cbn [ret fst snd].
    match goal with
    | |- context [doExecGit host ?args directory ?w1] => rewrite (doExecGit_run host args directory w1)
    end.
    destruct (exitCode (fst (execGit host (verifyOriginArgs (trim base)) directory w)) =? 0)%Z;
      match goal with
      | |- context [negb ?b] => destruct b
      end; cbn [negb ret snd app];
      (constructor; [left; reflexivity|]); (constructor; [|constructor]).
    all: unfold rangeEvent; tauto.
  - intros [E|E] w; rewrite E; simpl isEmpty; [|rewrite orb_true_r]; reflexivity.
Qed.
